(** * corsarowdcap: capture workers, interval merger and supervisor

    A shallow embedding of [corsarowdcap.c]: the signal handlers, the
    per-packet callback of a processing thread, the k-way merge of the
    interim files, the bookkeeping of the merging thread and the start-up
    path of [main].

    Conventions.
    - C integers are [Z]; where a value is stored into a fixed-width
      object the wrap-around is written out ([to_uint32], [to_int]).
    - Library calls whose implementation is not part of the program
      (libtrace, zeromq, the corsaro trace I/O helpers, libc) are given by
      an environment record: each field is the answer the library gives.
    - Effects are a list of events, in program order. *)

From Stdlib Require Import ZArith Lia List Sorted Permutation Ascii String.
From stdpp Require Import base list strings.

Local Open Scope Z_scope.

(** ** Fixed-width integers *)

Definition to_uint32 (x : Z) : Z := x mod 2 ^ 32.
Definition to_uint64 (x : Z) : Z := x mod 2 ^ 64.
Definition to_int (x : Z) : Z := (x + 2 ^ 31) mod 2 ^ 32 - 2 ^ 31.

Definition INT_MIN : Z := - 2 ^ 31.
Definition INT_MAX : Z := 2 ^ 31 - 1.

(** ** Signal handlers *)

Module Signals.

(** The four [volatile int] globals. *)
Record flags := {
  corsaro_halted : Z;
  corsaro_restart : Z;
  corsaro_last_restart : Z;
  child_halted : Z
}.

Definition initial_flags : flags :=
  {| corsaro_halted := 0; corsaro_restart := 0;
     corsaro_last_restart := 0; child_halted := 0 |}.

(** [cleanup_signal]: SIGTERM and SIGINT. *)
Definition cleanup_signal (g : flags) : flags :=
  {| corsaro_halted := 1;
     corsaro_restart := corsaro_restart g;
     corsaro_last_restart := corsaro_last_restart g;
     child_halted := child_halted g |}.

(** [restart_signal]: SIGHUP.  [tv_sec] is the [time_t] seconds field that
    [clock_gettime(CLOCK_MONOTONIC)] returned; the comparison is done in
    [time_t], the store into [corsaro_last_restart] converts to [int]. *)
Definition restart_signal (tv_sec : Z) (g : flags) : flags :=
  if corsaro_last_restart g <? tv_sec then
    {| corsaro_halted := corsaro_halted g;
       corsaro_restart := 1;
       corsaro_last_restart := to_int tv_sec;
       child_halted := child_halted g |}
  else g.

(** The monitor loop of [main] clears the flag once it has forwarded the
    hangup ([corsaro_restart = 0]). *)
Definition clear_restart (g : flags) : flags :=
  {| corsaro_halted := corsaro_halted g;
     corsaro_restart := 0;
     corsaro_last_restart := corsaro_last_restart g;
     child_halted := child_halted g |}.

(** What can happen to the reload flag during a run: a hangup delivered at
    monotonic second [tv_sec], or the monitor clearing the flag. *)
Inductive sig_event :=
| HUP (tv_sec : Z)
| CLEAR.

Definition sig_step (g : flags) (e : sig_event) : flags :=
  match e with
  | HUP tv_sec => restart_signal tv_sec g
  | CLEAR => clear_restart g
  end.

Definition sig_run (g : flags) (es : list sig_event) : flags :=
  fold_left sig_step es g.

(** A hangup is accepted when the handler takes its branch. *)
Definition hup_accepted (tv_sec : Z) (g : flags) : bool :=
  corsaro_last_restart g <? tv_sec.

(** The seconds of the accepted hangups of a run, oldest first. *)
Fixpoint accepted_hangups (g : flags) (es : list sig_event) : list Z :=
  match es with
  | [] => []
  | e :: es' =>
      match e with
      | HUP tv_sec =>
          if hup_accepted tv_sec g then
            tv_sec :: accepted_hangups (sig_step g e) es'
          else accepted_hangups (sig_step g e) es'
      | CLEAR => accepted_hangups (sig_step g e) es'
      end
  end.

Definition hup_fits_int (e : sig_event) : Prop :=
  match e with
  | HUP tv_sec => INT_MIN <= tv_sec <= INT_MAX
  | CLEAR => True
  end.

End Signals.

(** ** Data shared by the capture workers and the merging thread *)

(** [libtrace_stat_t]: seven counters, each with its [_valid] bit. *)
Record stat_field := { valid : bool; count : Z }.

Record libtrace_stat := {
  accepted : stat_field;
  filtered : stat_field;
  received : stat_field;
  dropped : stat_field;
  captured : stat_field;
  missing : stat_field;
  errors : stat_field
}.

(** The tag of a coordination record.  The header that numbers the tags is
    not part of the sources; any value other than the two named ones is
    [MSG_OTHER]. *)
Inductive msg_type :=
| CORSARO_WDCAP_MSG_INTERVAL_DONE
| CORSARO_WDCAP_MSG_STOP
| MSG_OTHER (tag : Z).

(** [corsaro_wdcap_message_t]. *)
Record corsaro_wdcap_message := {
  type : msg_type;
  threadid : Z;
  timestamp : Z;
  src_fd : Z;
  lt_stats : libtrace_stat
}.

(** A packet, as far as the program looks at it: the seconds of
    [trace_get_timeval], the 64-bit value of [trace_get_erf_timestamp] and
    the captured bytes. *)
Record packet := {
  tv_sec : Z;
  erf_timestamp : Z;
  wire : list Z
}.

(** The fields of [corsaro_wdcap_global_t] that the capture reads. *)
Record wdcap_global := {
  interval : Z;          (* uint32_t *)
  threads : Z;
  writestats : bool;
  stripvlans : bool
}.

(** ** The per-packet callback of a processing thread *)

Module Worker.

Record corsaro_interval := { number : Z; time : Z }.

(** Modelled from the spec: the asynchronous interim writer of
    libcorsaro_trace, which is not part of the sources.  It holds the open
    descriptor of the interim file, or none between intervals. *)
Record fast_trace_writer := { io_fd : option Z }.

(** Modelled from the spec: [corsaro_reset_fast_trace_writer] detaches the
    writer.  It yields the open descriptor and resets the writer to its
    empty state; the result is -1 when no file was open. *)
Definition corsaro_reset_fast_trace_writer (w : fast_trace_writer)
  : Z * fast_trace_writer :=
  match io_fd w with
  | Some fd => (fd, {| io_fd := None |})
  | None => (-1, w)
  end.

(** [corsaro_wdcap_local_t]. *)
Record wdcap_local := {
  writer : option fast_trace_writer;
  interimfilename : option string;
  lastmisscount : Z;
  lastaccepted : Z;
  last_ts : Z;
  next_report : Z;                    (* uint32_t *)
  current_interval : corsaro_interval;
  ending : bool
}.

(** [init_wdcap_thread_data]; [created] is the answer of
    [corsaro_create_fast_trace_writer]. *)
Definition init_wdcap_thread_data (created : option fast_trace_writer)
  : wdcap_local :=
  {| writer := created; interimfilename := None;
     lastmisscount := 0; lastaccepted := 0;
     last_ts := 0; next_report := 0;
     current_interval := {| number := 0; time := 0 |};
     ending := false |}.

(** What one call of the callback gets from outside. *)
Record packet_env := {
  perpkt_thread_id : Z;
  (* trace_get_first_packet: [None] for -1, else [firsttv->tv_sec] *)
  first_packet : option Z;
  (* the volatile [corsaro_restart], as this call reads it *)
  restart_flag : bool;
  (* trace_get_thread_statistics *)
  thread_statistics : libtrace_stat;
  (* content of [mergemsg.lt_stats] when statistics are not gathered *)
  mergemsg_uninit : libtrace_stat;
  (* zmq_send of the k-th record of this call: [true] when it returns >= 0 *)
  zmq_send : nat -> corsaro_wdcap_message -> bool;
  (* corsaro_wdcap_derive_output_name (..., 0, 0): [None] for NULL *)
  derive_interim_name : Z -> Z -> option string;
  (* corsaro_start_fast_trace_writer: [None] for -1, else the descriptor *)
  start_fast_trace_writer : string -> option Z;
  (* trace_strip_packet *)
  strip_packet : packet -> packet;
  (* corsaro_fast_write_erf_packet: [true] when it returns >= 0 *)
  fast_write_erf_packet : bool
}.

Inductive worker_event :=
| Log (what : string)
| ZmqSend (m : corsaro_wdcap_message) (sent : bool)
| FastWrite (name : option string) (p : packet).

(** The thread-local state, the two globals the callback writes
    ([corsaro_halted], [glob->threads_ended]) and the effects so far. *)
Record wstate := {
  tls : wdcap_local;
  halted : bool;
  threads_ended : Z;
  trail : list worker_event
}.

Definition with_tls (s : wstate) (t : wdcap_local) : wstate :=
  {| tls := t; halted := halted s; threads_ended := threads_ended s;
     trail := trail s |}.

Definition emit (s : wstate) (ev : worker_event) : wstate :=
  {| tls := tls s; halted := halted s; threads_ended := threads_ended s;
     trail := trail s ++ [ev] |}.

Definition halt (s : wstate) : wstate :=
  {| tls := tls s; halted := true; threads_ended := threads_ended s;
     trail := trail s |}.

(** Either the callback has returned, or control goes on to the next
    statement. *)
Inductive flow :=
| Returned (s : wstate)
| Next (s : wstate).

(** The block guarded by [tls->current_interval.time == 0]. *)
Definition first_interval (glob : wdcap_global) (e : packet_env) (s : wstate)
  : flow :=
  let t := tls s in
  if time (current_interval t) =? 0 then
    match first_packet e with
    | None => Returned (halt (emit s (Log "unable to get first packet")))
    | Some firsttv_sec =>
        if interval glob <=? 0 then
          Returned
            (halt (emit s (Log "interval has been assigned a bad value")))
        else
          Next (with_tls s
            {| writer := writer t; interimfilename := interimfilename t;
               lastmisscount := lastmisscount t; lastaccepted := lastaccepted t;
               last_ts := last_ts t;
               next_report :=
                 to_uint32 (firsttv_sec - Z.rem firsttv_sec (interval glob)
                            + interval glob);
               current_interval :=
                 {| number := number (current_interval t);
                    time := to_uint32 firsttv_sec |};
               ending := ending t |})
    end
  else Next s.

(** One rotation: what the body of the boundary loop does to the
    thread-local state once the record has been sent. *)
Definition advance_interval (glob : wdcap_global) (t : wdcap_local)
  : wdcap_local :=
  {| writer := writer t; interimfilename := interimfilename t;
     lastmisscount := lastmisscount t; lastaccepted := lastaccepted t;
     last_ts := last_ts t;
     next_report := to_uint32 (next_report t + interval glob);
     current_interval :=
       {| number := number (current_interval t) + 1;
          time := next_report t |};
     ending := ending t |}.

(** Detaching the interim writer ([if (tls->writer) ...]): the descriptor
    for the record and the state with the file name dropped. *)
Definition detach_writer (t : wdcap_local) : Z * wdcap_local :=
  match writer t with
  | Some w =>
      let '(srcfd, w') := corsaro_reset_fast_trace_writer w in
      (srcfd,
       {| writer := Some w'; interimfilename := None;
          lastmisscount := lastmisscount t; lastaccepted := lastaccepted t;
          last_ts := last_ts t; next_report := next_report t;
          current_interval := current_interval t; ending := ending t |})
  | None => (-1, t)
  end.

Definition mark_ending (t : wdcap_local) : wdcap_local :=
  {| writer := writer t; interimfilename := interimfilename t;
     lastmisscount := lastmisscount t; lastaccepted := lastaccepted t;
     last_ts := last_ts t; next_report := next_report t;
     current_interval := current_interval t; ending := true |}.

(** The [corsaro_restart] branch at the end of the loop body. *)
Definition end_thread (glob : wdcap_global) (s : wstate) : wstate :=
  let ended := threads_ended s + 1 in
  {| tls := mark_ending (tls s);
     halted := if threads glob <=? ended then true else halted s;
     threads_ended := ended;
     trail := trail s ++ [Log "marked proc thread as ending"] |}.

(** The loop condition [corsaro_restart || (tls->next_report &&
    ptv.tv_sec >= tls->next_report)]. *)
Definition boundary_reached (e : packet_env) (ptv_sec : Z) (t : wdcap_local)
  : bool :=
  restart_flag e || (negb (next_report t =? 0) && (next_report t <=? ptv_sec)).

(** The boundary loop.  [k] counts the records sent by this call.  The loop
    of the program has no bound of its own; [fuel] bounds the iterations
    and [None] means that the bound was too small. *)
Fixpoint boundary_loop (fuel : nat) (glob : wdcap_global) (e : packet_env)
    (ptv_sec : Z) (k : nat) (s : wstate) : option flow :=
  if boundary_reached e ptv_sec (tls s) then
    match fuel with
    | O => None
    | S fuel' =>
        let '(srcfd, t1) := detach_writer (tls s) in
        let mergemsg :=
          {| type := CORSARO_WDCAP_MSG_INTERVAL_DONE;
             threadid := perpkt_thread_id e;
             timestamp := time (current_interval (tls s));
             src_fd := srcfd;
             lt_stats := if writestats glob then thread_statistics e
                         else mergemsg_uninit e |} in
        let sent := zmq_send e k mergemsg in
        let s1 := emit (with_tls s t1) (ZmqSend mergemsg sent) in
        if sent then
          let s2 := with_tls s1 (advance_interval glob t1) in
          if restart_flag e then Some (Returned (end_thread glob s2))
          else boundary_loop fuel' glob e ptv_sec (S k) s2
        else
          Some (Returned (halt (emit s1
                  (Log "error sending interval over message"))))
    end
  else Some (Next s).

(** Opening the interim file when none is open. *)
Definition open_interim (e : packet_env) (s : wstate) : flow :=
  let t := tls s in
  match interimfilename t with
  | Some _ => Next s
  | None =>
      match derive_interim_name e (time (current_interval t))
                                (perpkt_thread_id e) with
      | None =>
          Returned
            (halt (emit s (Log "unable to create suitable output file name")))
      | Some name =>
          let started :=
            match writer t with
            | Some _ => start_fast_trace_writer e name
            | None => None
            end in
          let named (w : option fast_trace_writer) :=
            {| writer := w; interimfilename := Some name;
               lastmisscount := lastmisscount t; lastaccepted := lastaccepted t;
               last_ts := last_ts t; next_report := next_report t;
               current_interval := current_interval t; ending := ending t |} in
          match started with
          | None =>
              Returned (halt (emit (with_tls s (named (writer t)))
                                (Log "unable to open output file")))
          | Some fd => Next (with_tls s (named (Some {| io_fd := Some fd |})))
          end
      end
  end.

(** The asynchronous append that ends the callback. *)
Definition write_interim (glob : wdcap_global) (e : packet_env) (p : packet)
    (s : wstate) : wstate :=
  let t := tls s in
  let stripped := if stripvlans glob then strip_packet e p else p in
  let t' :=
    {| writer := writer t; interimfilename := interimfilename t;
       lastmisscount := lastmisscount t; lastaccepted := lastaccepted t;
       last_ts := to_uint32 (tv_sec p); next_report := next_report t;
       current_interval := current_interval t; ending := ending t |} in
  if fast_write_erf_packet e then
    emit (with_tls s t') (FastWrite (interimfilename t) stripped)
  else halt (with_tls s t').

(** [per_packet]. *)
Definition per_packet (fuel : nat) (glob : wdcap_global) (e : packet_env)
    (p : packet) (s : wstate) : option wstate :=
  if ending (tls s) then Some s
  else
    match first_interval glob e s with
    | Returned s1 => Some s1
    | Next s1 =>
        match boundary_loop fuel glob e (tv_sec p) O s1 with
        | None => None
        | Some (Returned s2) => Some s2
        | Some (Next s2) =>
            match open_interim e s2 with
            | Returned s3 => Some s3
            | Next s3 => Some (write_interim glob e p s3)
            end
        end
    end.

(** A worker fed a sequence of packets, each with the answers of its
    environment. *)
Fixpoint run_worker (fuel : nat) (glob : wdcap_global)
    (input : list (packet_env * packet)) (s : wstate) : option wstate :=
  match input with
  | [] => Some s
  | (e, p) :: rest =>
      match per_packet fuel glob e p s with
      | None => None
      | Some s' => run_worker fuel glob rest s'
      end
  end.

Definition start_state (created : option fast_trace_writer) : wstate :=
  {| tls := init_wdcap_thread_data created; halted := false;
     threads_ended := 0; trail := [] |}.

(** The interval identifiers of the records that reached the channel, in
    the order they were sent. *)
Fixpoint reported (evs : list worker_event) : list Z :=
  match evs with
  | [] => []
  | ZmqSend m true :: evs' => timestamp m :: reported evs'
  | _ :: evs' => reported evs'
  end.

End Worker.

(** ** Merging the interim files of an interval *)

Module Merge.

Inductive interim_status :=
| CORSARO_WDCAP_INTERIM_NOPACKET
| CORSARO_WDCAP_INTERIM_PACKET
| CORSARO_WDCAP_INTERIM_EOF.

(** [corsaro_wdcap_interim_reader_t].
    - [source]: [None] for NULL, else the packets the open reader has yet
      to deliver;
    - [nextp]: [None] for NULL, else the packet buffer and what it holds;
    - [uri]: the name of the interim file (the empty string stands for the
      NULL of a reader that was never set up; it is read only when [source]
      is not NULL). *)
Record interim_reader := {
  uri : string;
  source : option (list packet);
  nextp : option (option packet);
  nextp_ts : Z;                       (* uint64_t *)
  status : interim_status
}.

Definition set_status (r : interim_reader) (st : interim_status)
  : interim_reader :=
  {| uri := uri r; source := source r; nextp := nextp r;
     nextp_ts := nextp_ts r; status := st |}.

(** The packet held by the reader's buffer. *)
Definition buffered_packet (r : interim_reader) : option packet :=
  match nextp r with
  | Some (Some p) => Some p
  | _ => None
  end.

(** Modelled from the spec: [corsaro_read_next_packet] of libcorsaro_trace,
    which is not part of the sources.  It reads the next packet of the
    source into the buffer and returns a positive value, or returns 0 when
    the source has no packet left (or there is nothing to read from or
    into). *)
Definition corsaro_read_next_packet (r : interim_reader)
  : Z * interim_reader :=
  match source r, nextp r with
  | Some (p :: rest), Some _ =>
      (1, {| uri := uri r; source := Some rest; nextp := Some (Some p);
             nextp_ts := nextp_ts r; status := status r |})
  | _, _ => (0, r)
  end.

(** [trace_get_erf_timestamp] of the buffer; an empty buffer has no
    timestamp and the stored one is kept. *)
Definition stamp_buffer (r : interim_reader) : interim_reader :=
  {| uri := uri r; source := source r; nextp := nextp r;
     nextp_ts :=
       match buffered_packet r with
       | Some p => erf_timestamp p
       | None => nextp_ts r
       end;
     status := CORSARO_WDCAP_INTERIM_PACKET |}.

(** One iteration of the scan of [choose_next_merge_packet], for reader
    [i], with the candidate so far. *)
Definition choose_step (readers : list interim_reader) (candind : Z) (i : nat)
  : list interim_reader * Z :=
  match readers !! i with
  | None => (readers, candind)
  | Some r =>
      match status r with
      | CORSARO_WDCAP_INTERIM_EOF => (readers, candind)
      | st =>
          let '(ri, valid_packet) :=
            match st with
            | CORSARO_WDCAP_INTERIM_NOPACKET =>
                let '(ret, r') := corsaro_read_next_packet r in
                if ret <=? 0 then
                  (set_status r' CORSARO_WDCAP_INTERIM_EOF, false)
                else (stamp_buffer r', true)
            | _ => (r, true)
            end in
          let readers' := <[i:=ri]> readers in
          if negb valid_packet then (readers', candind)
          else if candind =? -1 then (readers', Z.of_nat i)
          else
            match readers' !! Z.to_nat candind with
            | Some rc =>
                if nextp_ts ri <? nextp_ts rc then (readers', Z.of_nat i)
                else (readers', candind)
            | None => (readers', candind)
            end
      end
  end.

(** [choose_next_merge_packet]: the scan over readers 0 .. inpcount-1. *)
Definition choose_next_merge_packet (readers : list interim_reader)
    (inpcount : Z) : list interim_reader * Z :=
  fold_left (fun acc i => choose_step (fst acc) (snd acc) i)
            (seq 0 (Z.to_nat inpcount)) (readers, -1).

(** What a merge gets from outside. *)
Record merge_env := {
  (* corsaro_create_trace_reader: [None] for NULL, else the packets of the
     interim file *)
  create_trace_reader : string -> option (list packet);
  (* trace_create_packet for reader i: [false] for NULL *)
  trace_create_packet : nat -> bool;
  (* corsaro_create_trace_writer: [false] for NULL *)
  create_trace_writer : string -> bool;
  (* corsaro_write_packet, k-th call: [true] when it returns >= 0 *)
  write_packet : nat -> bool;
  (* fopen of the statistics file: [false] for NULL *)
  stats_fopen : string -> bool;
  (* fopen of the marker file: [false] for NULL *)
  done_fopen : string -> bool;
  (* epoch_msec at the start and at the end of the merge *)
  start_msec : Z;
  end_msec : Z
}.

(** A line [thread:<id> <field>_pkts:<value>] of the statistics file. *)
Record stats_line := { line_thread : Z; line_field : string; line_value : Z }.

Inductive merge_event :=
| CreateReader (i : nat) (name : string) (opened : bool)
| CreatePacket (i : nat) (created : bool)
| CreateWriter (name : string) (created : bool)
| WritePacket (buf : option packet) (written : bool)
| DestroyWriter
| StatsFile (name : string) (time : Z) (lines : list stats_line)
            (merge_duration_msec : Z)
| StatsFileFailed (name : string)
| DoneFile (name : string)
| DoneFileFailed (name : string)
| DestroyPacket (i : nat)
| DestroyReader (i : nat)
| Remove (path : string)
| FreeUri (i : nat)
| LogDoneMerging (time : Z).

(** The do-while loop of [write_merged_output].  [k] counts the packets
    written.  The result is the readers, the events of the loop and whether
    the loop ended by running out of packets ([true]) or by a failed write
    ([false]).  [fuel] bounds the iterations; [None] means that the bound
    was too small. *)
Fixpoint merge_loop (fuel : nat) (env : merge_env) (inpcount : Z) (k : nat)
    (readers : list interim_reader) (evs : list merge_event)
  : option (list interim_reader * list merge_event * bool) :=
  match fuel with
  | O => None
  | S fuel' =>
      let '(readers1, candind) := choose_next_merge_packet readers inpcount in
      if candind =? -1 then Some (readers1, evs, true)
      else
        match readers1 !! Z.to_nat candind with
        | None => Some (readers1, evs, false)
        | Some rc =>
            let written := write_packet env k in
            let evs1 := evs ++ [WritePacket (buffered_packet rc) written] in
            if written then
              merge_loop fuel' env inpcount (S k)
                (<[Z.to_nat candind :=
                     set_status rc CORSARO_WDCAP_INTERIM_NOPACKET]> readers1)
                evs1
            else Some (readers1, evs1, false)
        end
  end.

(** The number of loop iterations a reader can still cause. *)
Definition reader_weight (r : interim_reader) : nat :=
  match status r with
  | CORSARO_WDCAP_INTERIM_EOF => O
  | CORSARO_WDCAP_INTERIM_NOPACKET =>
      match source r, nextp r with
      | Some l, Some _ => length l
      | _, _ => O
      end
  | CORSARO_WDCAP_INTERIM_PACKET =>
      S (match source r with Some l => length l | None => O end)
  end.

Definition readers_weight (readers : list interim_reader) : nat :=
  sum_list (reader_weight <$> readers).

(** [corsaro_wdcap_interval_t], without its [next] link: the pending list
    of the merging thread is a [list] of these.  [thread_ids] and
    [thread_stats] hold the entries written so far, in order. *)
Record corsaro_wdcap_interval := {
  timestamp : Z;                      (* uint32_t *)
  threads_done : Z;
  thread_ids : list Z;
  thread_stats : list libtrace_stat
}.

Definition UINT64_MAX : Z := 2 ^ 64 - 1.

Definition to_int64 (x : Z) : Z := (x + 2 ^ 63) mod 2 ^ 64 - 2 ^ 63.

(** [MERGE_FIELD] and [merge_ltstats]. *)
Definition MERGE_FIELD (to from : stat_field) : stat_field :=
  if valid from then
    {| valid := true; count := to_uint64 (count to + count from) |}
  else to.

Definition merge_ltstats (to from : libtrace_stat) : libtrace_stat :=
  {| accepted := MERGE_FIELD (accepted to) (accepted from);
     filtered := MERGE_FIELD (filtered to) (filtered from);
     received := MERGE_FIELD (received to) (received from);
     dropped := MERGE_FIELD (dropped to) (dropped from);
     captured := MERGE_FIELD (captured to) (captured from);
     missing := MERGE_FIELD (missing to) (missing from);
     errors := MERGE_FIELD (errors to) (errors from) |}.

(** [LOG_FIELD] and [log_ltstats]; the value is printed as a signed 64-bit
    number, -1 when the field is not valid. *)
Definition LOG_FIELD (threadid : Z) (name : string) (fld : stat_field)
  : stats_line :=
  {| line_thread := threadid; line_field := name;
     line_value := to_int64 (if valid fld then count fld else UINT64_MAX) |}.

Definition log_ltstats (s : libtrace_stat) (threadid : Z) : list stats_line :=
  [LOG_FIELD threadid "accepted" (accepted s);
   LOG_FIELD threadid "filtered" (filtered s);
   LOG_FIELD threadid "received" (received s);
   LOG_FIELD threadid "dropped" (dropped s);
   LOG_FIELD threadid "captured" (captured s);
   LOG_FIELD threadid "missing" (missing s);
   LOG_FIELD threadid "errors" (errors s)].

Definition zero_field : stat_field := {| valid := false; count := 0 |}.

(** [memset(&overall_stats, 0, ...)]. *)
Definition zero_stats : libtrace_stat :=
  {| accepted := zero_field; filtered := zero_field; received := zero_field;
     dropped := zero_field; captured := zero_field; missing := zero_field;
     errors := zero_field |}.

(** The per-thread loop of the statistics block, from thread [i] on. *)
Fixpoint thread_lines (n i : nat) (interval : corsaro_wdcap_interval)
    (overall : libtrace_stat) : list stats_line * libtrace_stat :=
  match n with
  | O => ([], overall)
  | S n' =>
      match thread_stats interval !! i, thread_ids interval !! i with
      | Some st, Some id =>
          let '(more, overall') :=
            thread_lines n' (S i) interval (merge_ltstats overall st) in
          (log_ltstats st id ++ more, overall')
      | _, _ => thread_lines n' (S i) interval overall
      end
  end.

(** [strchr]: the suffix of [s] that starts at the first [c]. *)
Fixpoint strchr (s : string) (c : ascii) : option string :=
  match s with
  | EmptyString => None
  | String c' s' => if Ascii.eqb c' c then Some s else strchr s' c
  end.

(** The path handed to [remove]: what follows the first colon of the URI,
    or the whole URI when it has none. *)
Definition interim_path (uri : string) : string :=
  match strchr uri ":"%char with
  | None => uri
  | Some tok => match tok with String _ rest => rest | EmptyString => tok end
  end.

(** One round of the clean-up loop. *)
Definition cleanup_reader (i : nat) (r : interim_reader) : list merge_event :=
  (match nextp r with Some _ => [DestroyPacket i] | None => [] end) ++
  (match source r with
   | Some _ => [DestroyReader i; Remove (interim_path (uri r))]
   | None => []
   end) ++
  [FreeUri i].

Fixpoint cleanup_readers (n i : nat) (readers : list interim_reader)
  : list merge_event :=
  match n with
  | O => []
  | S n' =>
      match readers !! i with
      | Some r => cleanup_reader i r ++ cleanup_readers n' (S i) readers
      | None => cleanup_readers n' (S i) readers
      end
  end.

Section Names.

(** [corsaro_wdcap_derive_output_name], by timestamp, thread id,
    [needformat] and [exttype].  The merging thread uses every name without
    a NULL check, so here the renderer always yields a name. *)
Variable derive_output_name : Z -> Z -> Z -> Z -> string.

(** The body of the loop that creates the read handlers: reader [i] as the
    loop sets it up, and the calls made. *)
Definition open_reader (env : merge_env) (time : Z) (i : nat)
  : interim_reader * list merge_event :=
  let name := derive_output_name time (Z.of_nat i) 1 0 in
  match create_trace_reader env name with
  | None =>
      ({| uri := name; source := None; nextp := None;
          nextp_ts := UINT64_MAX; status := CORSARO_WDCAP_INTERIM_EOF |},
       [CreateReader i name false])
  | Some pkts =>
      let created := trace_create_packet env i in
      ({| uri := name; source := Some pkts;
          nextp := if created then Some None else None;
          nextp_ts := UINT64_MAX;
          status := CORSARO_WDCAP_INTERIM_NOPACKET |},
       [CreateReader i name true; CreatePacket i created])
  end.

(** The loop itself, from reader [i] on.  A reader that was opened but got
    no packet buffer ends the loop by [goto fail]; the boolean is [false]
    then. *)
Fixpoint open_readers (env : merge_env) (time : Z) (n i : nat)
    (readers : list interim_reader) (evs : list merge_event)
  : list interim_reader * list merge_event * bool :=
  match n with
  | O => (readers, evs, true)
  | S n' =>
      let '(r, calls) := open_reader env time i in
      match source r, nextp r with
      | Some _, None => (<[i:=r]> readers, evs ++ calls, false)
      | _, _ => open_readers env time n' (S i) (<[i:=r]> readers) (evs ++ calls)
      end
  end.

(** The statistics block after the [fail] label. *)
Definition write_stats (glob : wdcap_global) (env : merge_env)
    (interval : corsaro_wdcap_interval) : list merge_event :=
  if writestats glob then
    let statfilename := derive_output_name (timestamp interval) (-1) 0 2 in
    if stats_fopen env statfilename then
      let '(lines, overall) :=
        thread_lines (Z.to_nat (threads glob)) 0 interval zero_stats in
      [StatsFile statfilename (timestamp interval)
         (lines ++ log_ltstats overall (-1))
         (to_uint64 (end_msec env - start_msec env))]
    else [StatsFileFailed statfilename]
  else [].

(** How far the merge got before the [fail] label: the readers, the events
    so far, the [success] flag and whether [mergestate->writer] is set. *)
Definition merge_body (glob : wdcap_global) (env : merge_env)
    (readers : list interim_reader) (interval : corsaro_wdcap_interval)
  : option (list interim_reader * list merge_event * bool * bool) :=
  let '(readers1, evs1, opened) :=
    open_readers env (timestamp interval) (Z.to_nat (threads glob)) 0
                 readers [] in
  if opened then
    let outname := derive_output_name (timestamp interval) (-1) 1 0 in
    let created := create_trace_writer env outname in
    let evs2 := evs1 ++ [CreateWriter outname created] in
    if created then
      match merge_loop (S (readers_weight readers1)) env (threads glob) 0
                       readers1 evs2 with
      | None => None
      | Some (readers2, evs3, success) => Some (readers2, evs3, success, true)
      end
    else Some (readers1, evs2, false, false)
  else Some (readers1, evs1, false, false).

(** How a merge ends: it returns, or it hands [fclose] the NULL that
    [fopen] has returned for the marker file, where the process dies. *)
Inductive merge_end :=
| Returns (ret : Z)
| FcloseNull.

(** [write_merged_output].  [mergestate->writer] is NULL between merges, so
    only the readers are carried from one merge to the next.  The result is
    how the merge ends, the readers as the merge leaves them and the events
    of the merge.  The result of the [fopen] of the marker file goes to
    [fclose] unchecked: when it is NULL nothing after it is reached,
    neither the clean-up loop nor the last line of the log. *)
Definition write_merged_output (glob : wdcap_global) (env : merge_env)
    (readers : list interim_reader) (interval : corsaro_wdcap_interval)
  : option (merge_end * list interim_reader * list merge_event) :=
  match merge_body glob env readers interval with
  | None => None
  | Some (readers', evs, success, writer_set) =>
      let donefilename :=
        derive_output_name (timestamp interval) (-1) 0 1 in
      if success && negb (done_fopen env donefilename) then
        Some (FcloseNull, readers',
              evs
              ++ (if writer_set then [DestroyWriter] else [])
              ++ write_stats glob env interval
              ++ [DoneFileFailed donefilename])
      else
        let evs' :=
          evs
          ++ (if writer_set then [DestroyWriter] else [])
          ++ write_stats glob env interval
          ++ (if success then [DoneFile donefilename] else [])
          ++ cleanup_readers (Z.to_nat (threads glob)) 0 readers'
          ++ [LogDoneMerging (timestamp interval)] in
        Some (Returns (if success then 0 else -1), readers', evs')
  end.

End Names.

End Merge.

(** ** The merging thread *)

Module Merger.

Definition to_uint8 (x : Z) : Z := x mod 2 ^ 8.

(** [corsaro_wdcap_merger_t]: the reader array and the list of intervals
    that some thread has yet to finish, oldest first.  The writer is NULL
    between merges and the socket is given by the records received. *)
Record corsaro_wdcap_merger := {
  readers : list Merge.interim_reader;
  waiting : list Merge.corsaro_wdcap_interval
}.

Inductive merger_event :=
| Close (fd : Z)
| LogOutOfOrder (missing got : Z)
| Merged (time : Z) (ret : Z) (evs : list Merge.merge_event)
| MergeDied (time : Z) (evs : list Merge.merge_event)
| LogMergeFailed (time : Z)
| FreeInterval (fin : Merge.corsaro_wdcap_interval)
| LogRecvError
| LogUnexpected (tag : Z)
| LogTooManyBad
| FreeReaders.

(** The search loop of [merge_finished_interval]: the first pending
    interval with the given timestamp, and its position in the list. *)
Fixpoint find_interval (l : list Merge.corsaro_wdcap_interval) (time : Z)
  : option (nat * Merge.corsaro_wdcap_interval) :=
  match l with
  | [] => None
  | fin :: rest =>
      if Merge.timestamp fin =? time then Some (O, fin)
      else
        match find_interval rest time with
        | Some (pos, found) => Some (S pos, found)
        | None => None
        end
  end.

(** A new pending interval with its first report. *)
Definition first_report (threadid time : Z) (lt_stats : libtrace_stat)
  : Merge.corsaro_wdcap_interval :=
  {| Merge.timestamp := time; Merge.threads_done := 1;
     Merge.thread_ids := [threadid]; Merge.thread_stats := [lt_stats] |}.

(** One more report for a pending interval: the entries at index
    [threads_done] are written and the counter goes up. *)
Definition next_report (fin : Merge.corsaro_wdcap_interval) (threadid : Z)
    (lt_stats : libtrace_stat) : Merge.corsaro_wdcap_interval :=
  {| Merge.timestamp := Merge.timestamp fin;
     Merge.threads_done := Merge.threads_done fin + 1;
     Merge.thread_ids := Merge.thread_ids fin ++ [threadid];
     Merge.thread_stats := Merge.thread_stats fin ++ [lt_stats] |}.

Section Thread.

Variable derive_output_name : Z -> Z -> Z -> Z -> string.
Variable glob : wdcap_global.

(** [merge_finished_interval].  [env] holds the answers to the calls of
    the merge, should one take place.  The result is how the call ends, the
    merger state and the events.  When the process dies in the merge, the
    completed interval is still in the list. *)
Definition merge_finished_interval (env : Merge.merge_env)
    (mergestate : corsaro_wdcap_merger) (threadid time : Z)
    (lt_stats : libtrace_stat)
  : option (Merge.merge_end * corsaro_wdcap_merger * list merger_event) :=
  let '(pos, fin, waiting') :=
    match find_interval (waiting mergestate) time with
    | None =>
        let fin := first_report threadid time lt_stats in
        (length (waiting mergestate), fin, waiting mergestate ++ [fin])
    | Some (pos, old) =>
        let fin := next_report old threadid lt_stats in
        (pos, fin, <[pos:=fin]> (waiting mergestate))
    end in
  if Merge.threads_done fin =? threads glob then
    let warning :=
      match pos, waiting' with
      | S _, head :: _ => [LogOutOfOrder (Merge.timestamp head) time]
      | _, _ => []
      end in
    match Merge.write_merged_output derive_output_name glob env
            (readers mergestate) fin with
    | None => None
    | Some (Merge.FcloseNull, readers', evs) =>
        Some (Merge.FcloseNull,
              {| readers := readers'; waiting := waiting' |},
              warning ++ [MergeDied time evs])
    | Some (Merge.Returns r, readers', evs) =>
        Some (Merge.Returns (if r <? 0 then -1 else 1),
              (* mergestate->waiting = fin->next *)
              {| readers := readers'; waiting := drop (S pos) waiting' |},
              warning ++ [Merged time r evs]
              ++ (if r <? 0 then [LogMergeFailed time] else [])
              ++ [FreeInterval fin])
    end
  else
    Some (Merge.Returns 0,
          {| readers := readers mergestate; waiting := waiting' |}, []).

(** How the merging thread ends: [pthread_exit] after the loop, [exit]
    from within it, the death of the process in a merge, or still waiting
    in [zmq_recv] when the records handed to the model are used up. *)
Inductive thread_end :=
| PthreadExit
| ProcessExit (status : Z)
| DiedInMerge
| Receiving.

(** The tidy-up after the loop. *)
Definition tidy_up (mergestate : corsaro_wdcap_merger) : list merger_event :=
  (FreeInterval <$> waiting mergestate) ++ [FreeReaders].

(** The loop of [start_merging_thread].  Each element of [inbox] is the
    outcome of one [zmq_recv]: [None] when it fails, else the record
    together with the answers to the merge that the record may start. *)
Fixpoint merging_loop
    (inbox : list (option (corsaro_wdcap_message * Merge.merge_env)))
    (mergestate : corsaro_wdcap_merger) (badmessages : Z)
    (evs : list merger_event)
  : option (thread_end * corsaro_wdcap_merger * Z * list merger_event) :=
  match inbox with
  | [] => Some (Receiving, mergestate, badmessages, evs)
  | None :: _ =>
      Some (PthreadExit, {| readers := readers mergestate; waiting := [] |},
            badmessages, evs ++ [LogRecvError] ++ tidy_up mergestate)
  | Some (msg, env) :: rest =>
      match type msg with
      | CORSARO_WDCAP_MSG_STOP =>
          Some (PthreadExit,
                {| readers := readers mergestate; waiting := [] |},
                badmessages, evs ++ tidy_up mergestate)
      | CORSARO_WDCAP_MSG_INTERVAL_DONE =>
          let closing :=
            if src_fd msg =? -1 then [] else [Close (src_fd msg)] in
          match merge_finished_interval env mergestate
                  (to_uint8 (threadid msg)) (to_uint32 (timestamp msg))
                  (lt_stats msg) with
          | None => None
          | Some (Merge.FcloseNull, mergestate', evs') =>
              Some (DiedInMerge, mergestate', badmessages,
                    evs ++ closing ++ evs')
          | Some (Merge.Returns _, mergestate', evs') =>
              merging_loop rest mergestate' badmessages
                           (evs ++ closing ++ evs')
          end
      | MSG_OTHER tag =>
          let badmessages' := to_int (badmessages + 1) in
          let evs' := evs ++ [LogUnexpected tag] in
          if 100 <=? badmessages' then
            Some (ProcessExit (-1), mergestate, badmessages',
                  evs' ++ [LogTooManyBad])
          else merging_loop rest mergestate badmessages' evs'
      end
  end.

(** The reader array as [calloc] leaves it. *)
Definition zeroed_reader : Merge.interim_reader :=
  {| Merge.uri := ""; Merge.source := None; Merge.nextp := None;
     Merge.nextp_ts := 0;
     Merge.status := Merge.CORSARO_WDCAP_INTERIM_NOPACKET |}.

(** [start_merging_thread]. *)
Definition start_merging_thread
    (inbox : list (option (corsaro_wdcap_message * Merge.merge_env)))
  : option (thread_end * corsaro_wdcap_merger * Z * list merger_event) :=
  merging_loop inbox
    {| readers := replicate (Z.to_nat (threads glob)) zeroed_reader;
       waiting := [] |}
    0 [].

End Thread.

End Merger.

(** ** Start-up: command line, configuration and the first fork *)

Module Supervisor.

(** One answer of [getopt_long]: the option character and [optarg]. *)
Record getopt_result := { opt : ascii; optarg : string }.

Inductive logmode :=
| GLOBAL_LOGMODE_STDERR
| GLOBAL_LOGMODE_FILE
| GLOBAL_LOGMODE_SYSLOG
| GLOBAL_LOGMODE_DISABLED.

Inductive start_event :=
| Stderr (text : string)
| Usage
| Sigaction (signal : string)
| InitGlobal (configfile : string) (mode : logmode)
| FreeGlobal
| Fork.

(** The option loop of [init_wdcap_process]: the log mode and the
    configuration file named on the command line, or the events of the
    branch that returned 1. *)
Fixpoint parse_options (answers : list getopt_result)
    (logmodestr configfile : option string)
  : (option string * option string) + list start_event :=
  match answers with
  | [] => inl (logmodestr, configfile)
  | a :: rest =>
      if Ascii.eqb (opt a) "l" then
        parse_options rest (Some (optarg a)) configfile
      else if Ascii.eqb (opt a) "c" then
        parse_options rest logmodestr (Some (optarg a))
      else if Ascii.eqb (opt a) "h" then inr [Usage]
      else
        inr [Stderr (String.append "corsarowdcap: unsupported option: "
                                   (String (opt a) EmptyString));
             Usage]
  end.

(** The [strcmp] chain on the log mode. *)
Definition parse_logmode (logmodestr : string) : option logmode :=
  if String.eqb logmodestr "stderr" || String.eqb logmodestr "terminal" then
    Some GLOBAL_LOGMODE_STDERR
  else if String.eqb logmodestr "file" then Some GLOBAL_LOGMODE_FILE
  else if String.eqb logmodestr "syslog" then Some GLOBAL_LOGMODE_SYSLOG
  else if String.eqb logmodestr "disabled" || String.eqb logmodestr "off"
          || String.eqb logmodestr "none" then
    Some GLOBAL_LOGMODE_DISABLED
  else None.

Definition install_handlers : list start_event :=
  [Sigaction "SIGCHLD"; Sigaction "SIGINT"; Sigaction "SIGTERM";
   Sigaction "SIGHUP"; Sigaction "SIGPIPE"].

Section Process.

(** The global state, and [corsaro_wdcap_init_global]: [None] for NULL. *)
Variable global : Type.
Variable corsaro_wdcap_init_global : string -> logmode -> option global.

(** What [main] does once the configuration has been read: the first fork,
    the capture child and the monitor loop.  It yields the events and the
    value [main] returns. *)
Variable supervise : global -> list start_event * Z.

(** [init_wdcap_process]: the events, and the global state it stores when
    it returns 0; [None] stands for the return value 1, with which the
    global state is left NULL. *)
Definition init_wdcap_process (answers : list getopt_result)
  : list start_event * option global :=
  match parse_options answers None None with
  | inr evs => (evs, None)
  | inl (logmodestr, configfile) =>
      match configfile with
      | None =>
          ([Stderr "corsarowdcap: no config file specified. Use -c to specify one.";
            Usage], None)
      | Some file =>
          let mode :=
            match logmodestr with
            | None => Some GLOBAL_LOGMODE_STDERR
            | Some str => parse_logmode str
            end in
          match mode with
          | None =>
              ([Stderr (String.append "corsarowdcap: unexpected logmode: "
                          (match logmodestr with
                           | Some str => str
                           | None => ""
                           end));
                Usage], None)
          | Some mode =>
              (install_handlers ++ [InitGlobal file mode],
               corsaro_wdcap_init_global file mode)
          end
      end
  end.

(** [main], up to the first fork.  [setenv_ok] is the answer of [setenv].
    When [init_wdcap_process] fails, [runerr] is set and control goes to
    [endwdcap], where nothing is signalled, the global state is released
    and 0 is returned. *)
Definition main (setenv_ok : bool) (answers : list getopt_result)
  : list start_event * Z :=
  if negb setenv_ok then
    ([Stderr "corsarowdcap: unable to set libwandio environment"], -1)
  else
    match init_wdcap_process answers with
    | (evs, Some glob) =>
        let '(evs', ret) := supervise glob in
        (evs ++ [Fork] ++ evs', ret)
    | (evs, None) => (evs ++ [FreeGlobal], 0)
    end.

(** The exit status the parent of the process sees. *)
Definition exit_status (ret : Z) : Z := ret mod 256.

End Process.

End Supervisor.

(** ** Names of the interim and merged files *)

Module Names.

(** The fields of [corsaro_wdcap_global_t] that the naming reads; [None]
    stands for NULL.  A [string] stands for a C string: its characters are
    the bytes before the terminator. *)
Record wdcap_naming := {
  template : string;
  fileformat : option string;
  monitorid : option string
}.

Definition NUL : ascii := "000"%char.

(** [sizeof(scratch)]. *)
Definition sizeof_scratch : nat := Z.to_nat 9500.

(** [stradd].  [buf] is the array that [bufp] and [buflim] point into,
    both given as offsets from its start; the result is the array and the
    offset returned.  When the string ends before the limit its terminator
    is stored too, and the offset returned is that of the terminator. *)
Fixpoint stradd (str : string) (buf : list ascii) (bufp buflim : nat)
  : list ascii * nat :=
  if (bufp <? buflim)%nat then
    match str with
    | EmptyString => (<[bufp:=NUL]> buf, bufp)
    | String c str' => stradd str' (<[bufp:=c]> buf) (S bufp) buflim
    end
  else (buf, bufp).

(** The C string that starts an array: the characters before the first
    terminator. *)
Fixpoint c_string (buf : list ascii) : string :=
  match buf with
  | [] => EmptyString
  | c :: buf' =>
      if Ascii.eqb c NUL then EmptyString else String c (c_string buf')
  end.

Definition digit (d : Z) : ascii := ascii_of_nat (48 + Z.to_nat d).

(** The decimal digits of a number that is not negative, last digit first
    into [acc]; ten rounds cover 32 bits. *)
Fixpoint decimal_digits (rounds : nat) (n : Z) (acc : string) : string :=
  match rounds with
  | O => acc
  | S rounds' =>
      let acc' := String (digit (n mod 10)) acc in
      if n / 10 =? 0 then acc' else decimal_digits rounds' (n / 10) acc'
  end.

(** What [snprintf] stores for ["%u"] of a 32-bit value, and for ["%d"] of
    an [int] that is not negative. *)
Definition decimal (n : Z) : string := decimal_digits 10 n EmptyString.

Inductive name_result :=
| Overrun                 (* a store past the end of [scratch] *)
| NoName                  (* NULL *)
| Name (outname : string).

Section Rendering.

(** The three pattern characters of libcorsaro, whose header is not part of
    the sources. *)
Variable CORSARO_IO_MONITOR_PATTERN : ascii.
Variable CORSARO_IO_PLUGIN_PATTERN : ascii.
Variable CORSARO_IO_TRACE_FORMAT_PATTERN : ascii.

(** [strftime], for the time [gmtime] makes of the timestamp: the string
    it leaves in [outname]. *)
Variable strftime : string -> Z -> string.

(** The loop over the template.  [ptr] is the rest of the template, [w]
    the offset of the write pointer and [end_] that of the end of the
    array. *)
Fixpoint template_loop (glob : wdcap_naming) (ext : string) (timestamp : Z)
    (ptr : string) (buf : list ascii) (w end_ : nat) {struct ptr}
  : list ascii * nat :=
  match ptr with
  | EmptyString => (buf, w)
  | String c rest =>
      if Ascii.eqb c "%" then
        match rest with
        | EmptyString =>
            (* case '\0': the percent sign is copied and the loop ends *)
            if (w =? end_)%nat then (buf, w) else (<[w:=c]> buf, S w)
        | String d rest' =>
            if Ascii.eqb d CORSARO_IO_MONITOR_PATTERN then
              let '(buf', w') :=
                match monitorid glob with
                | Some id => stradd id buf w end_
                | None => (buf, w)
                end in
              template_loop glob ext timestamp rest' buf' w' end_
            else if Ascii.eqb d CORSARO_IO_PLUGIN_PATTERN then
              let '(buf', w') := stradd "wdcap" buf w end_ in
              template_loop glob ext timestamp rest' buf' w' end_
            else if Ascii.eqb d CORSARO_IO_TRACE_FORMAT_PATTERN then
              let '(buf', w') := stradd ext buf w end_ in
              template_loop glob ext timestamp rest' buf' w' end_
            else if Ascii.eqb d "s" then
              let '(buf', w') := stradd (decimal timestamp) buf w end_ in
              template_loop glob ext timestamp rest' buf' w' end_
            else
              (* default: the percent sign is copied; the character after
                 it is looked at by the next round *)
              if (w =? end_)%nat then (buf, w)
              else template_loop glob ext timestamp rest (<[w:=c]> buf) (S w)
                                 end_
        end
      else if (w =? end_)%nat then (buf, w)
      else template_loop glob ext timestamp rest (<[w:=c]> buf) (S w) end_
  end.

(** [corsaro_wdcap_derive_output_name].  [scratch] is the array as the
    function finds it on its stack.  The store of the colon after the
    format is not guarded: when the format fills the array, it goes past
    its end. *)
Definition corsaro_wdcap_derive_output_name (glob : wdcap_naming)
    (scratch : list ascii) (timestamp threadid needformat exttype : Z)
  : name_result :=
  let format :=
    match fileformat glob with
    | Some fmt => fmt
    | None => "pcapfile"%string
    end in
  let ext := if String.eqb format "pcapfile" then "pcap"%string else format in
  let end_ := sizeof_scratch in
  let start :=
    if needformat =? 0 then Some (scratch, O)
    else
      let '(buf, w) := stradd format scratch 0 end_ in
      if (w <? end_)%nat then Some (<[w:=":"%char]> buf, S w) else None in
  match start with
  | None => Overrun
  | Some (buf0, w0) =>
      let '(buf1, w1) :=
        template_loop glob ext timestamp (template glob) buf0 w0 end_ in
      if (end_ <=? w1)%nat then NoName
      else
        let '(buf2, w2) :=
          if 0 <=? threadid then
            stradd (String.append "--" (decimal threadid)) buf1 w1 end_
          else if exttype =? 1 then stradd ".done" buf1 w1 end_
          else if exttype =? 2 then stradd ".stats" buf1 w1 end_
          else (buf1, w1) in
        if (end_ <=? w2)%nat then NoName
        else Name (strftime (c_string (<[w2:=NUL]> buf2)) timestamp)
  end.

End Rendering.

End Names.

(** ** The tick callback of a processing thread *)

Module Ticks.
Import Worker.

(** The line that [process_tick] logs: the thread, the packets missed
    since the count last grew and the packets accepted since the last
    tick. *)
Record drop_report := {
  drop_thread : Z;
  drop_missed : Z;
  drop_accepted : Z
}.

(** [process_tick].  [stats] is what [trace_get_thread_statistics] fills
    in; the counters are read whether or not they are marked valid.  The
    two fields of the thread-local state are taken to be as wide as the
    counters, 64 bits without sign. *)
Definition process_tick (threadid : Z) (stats : libtrace_stat)
    (t : wdcap_local) : wdcap_local * list drop_report :=
  let grew := lastmisscount t <? count (missing stats) in
  ({| writer := writer t; interimfilename := interimfilename t;
      lastmisscount :=
        if grew then count (missing stats) else lastmisscount t;
      lastaccepted := count (accepted stats);
      last_ts := last_ts t; next_report := next_report t;
      current_interval := current_interval t; ending := ending t |},
   if grew then
     [{| drop_thread := threadid;
         drop_missed := to_uint64 (count (missing stats) - lastmisscount t);
         drop_accepted :=
           to_uint64 (count (accepted stats) - lastaccepted t) |}]
   else []).

(** A thread's ticks, one after the other, each with the counters that
    the capture library reports at that time. *)
Fixpoint run_ticks (threadid : Z) (ticks : list libtrace_stat)
    (t : wdcap_local) : wdcap_local * list drop_report :=
  match ticks with
  | [] => (t, [])
  | stats :: rest =>
      let '(t1, logged) := process_tick threadid stats t in
      let '(t2, logged') := run_ticks threadid rest t1 in
      (t2, logged ++ logged')
  end.

End Ticks.

(** ** The capture process *)

Module Capture.

Inductive socket := PullSock | PushSock.

Inductive trace_err := TRACE_ERR_OPTION_UNAVAIL | TRACE_ERR_OTHER.

Inductive capture_event :=
| InitThreadData (i : nat)
| Log (what : string)
| WritePid
| ZmqCtxNew
| ZmqSocket (s : socket)
| ZmqClose (s : socket)
| BlockSignals
| PthreadCreate
| TraceCreate
| SetPerpktThreads (n : Z)
| SetTickInterval (msec : Z)
| CreateCallbackSet
| TracePstart
| TraceDestroy
| RestoreSignals
| HaltFlagSeen
| TracePstop
| TraceJoin
| ZmqSendStop (sent : bool)
| PthreadJoin
| ClearThreadData (i : nat)
| FreeThreaddata
| ZmqCtxDestroy
| FreeGlobal
| DestroyCallbackSet.

(** What [start_trace_input] gets from libtrace. *)
Record input_env := {
  (* trace_is_err after trace_create *)
  trace_is_err : bool;
  (* trace_config: [None] when it returns >= 0, else the error number *)
  trace_config : option trace_err;
  (* trace_pstart: [true] unless it returns -1 *)
  trace_pstart : bool
}.

(** The fields of the global state that the capture process reads, and
    the global [processing]: whether each pointer is set.  The two sockets
    are as [corsaro_wdcap_init_global] leaves them until they are
    created. *)
Record capture_state := {
  cap_threads : Z;
  consterfframing : Z;
  zmq_pullsock : bool;
  zmq_pushsock : bool;
  processing : bool
}.

Definition set_pullsock (g : capture_state) (b : bool) : capture_state :=
  {| cap_threads := cap_threads g; consterfframing := consterfframing g;
     zmq_pullsock := b; zmq_pushsock := zmq_pushsock g;
     processing := processing g |}.

Definition set_pushsock (g : capture_state) (b : bool) : capture_state :=
  {| cap_threads := cap_threads g; consterfframing := consterfframing g;
     zmq_pullsock := zmq_pullsock g; zmq_pushsock := b;
     processing := processing g |}.

Definition set_processing (g : capture_state) : capture_state :=
  {| cap_threads := cap_threads g; consterfframing := consterfframing g;
     zmq_pullsock := zmq_pullsock g; zmq_pushsock := zmq_pushsock g;
     processing := true |}.

(** [start_trace_input]: the return value, the state and the events. *)
Definition start_trace_input (g : capture_state) (e : input_env)
  : Z * capture_state * list capture_event :=
  if trace_is_err e then
    (-1, g, [TraceCreate; Log "unable to create trace object"])
  else
    let evs1 :=
      [TraceCreate; SetPerpktThreads (cap_threads g); SetTickInterval 1000] in
    let '(g1, evs2) :=
      if processing g then (g, evs1)
      else (set_processing g, evs1 ++ [CreateCallbackSet]) in
    let refused :=
      if 0 <=? consterfframing g then
        match trace_config e with
        | Some TRACE_ERR_OTHER => true
        | _ => false
        end
      else false in
    if refused then (-1, g1, evs2 ++ [Log "error configuring trace object"])
    else if trace_pstart e then
      (0, g1, evs2 ++ [TracePstart; Log "successfully started input trace"])
    else
      (-1, g1,
       evs2 ++ [TracePstart;
                Log "unable to start reading from trace object"]).

(** What [run_wdcap] gets from outside: every field but the last two says
    whether a call succeeds. *)
Record capture_env := {
  fopen_pidfile : bool;
  pull_setsockopt : bool;
  pull_bind : bool;
  push_setsockopt : bool;
  push_connect : bool;
  (* [false] when [pthread_sigmask] returns a negative number, which it
     never does: it returns 0 or a positive error number *)
  sigmask_block : bool;
  input : input_env;
  (* as [sigmask_block], for the call that enables the signals again *)
  sigmask_restore : bool;
  (* whether the loop that waits for [corsaro_halted] ever sees it set *)
  halt_flag_raised : bool;
  halt_send : bool
}.

Definition per_thread (ev : nat -> capture_event) (threads : Z)
  : list capture_event :=
  ev <$> seq 0 (Z.to_nat threads).

(** The part of [run_wdcap] after the label [endwdcap]. *)
Definition endwdcap (g : capture_state) (e : capture_env)
    (mergestarted : bool) (evs : list capture_event)
  : Z * capture_state * list capture_event :=
  (0, g,
   evs
   ++ (if mergestarted then
         (if zmq_pushsock g then
            [ZmqSendStop (halt_send e)]
            ++ (if halt_send e then []
                else [Log "error sending halt message to merge thread"])
            ++ [ZmqClose PushSock]
          else [])
         ++ [PthreadJoin; Log "all threads have joined, exiting."]
       else [])
   ++ per_thread ClearThreadData (cap_threads g)
   ++ [FreeThreaddata]
   ++ (if zmq_pullsock g then [ZmqClose PullSock] else [])
   ++ [ZmqCtxDestroy; FreeGlobal]
   ++ (if processing g then [DestroyCallbackSet] else [])).

(** [run_wdcap]; [None] when it waits for the halt flag for ever. *)
Definition run_wdcap (g : capture_state) (e : capture_env)
  : option (Z * capture_state * list capture_event) :=
  let evs0 := per_thread InitThreadData (cap_threads g) in
  if negb (fopen_pidfile e) then
    Some (endwdcap g e false (evs0 ++ [Log "error opening pidfile"]))
  else
    let evs1 := evs0 ++ [WritePid; ZmqCtxNew; ZmqSocket PullSock] in
    let g1 := set_pullsock g true in
    if negb (pull_setsockopt e) then
      Some (endwdcap (set_pullsock g1 false) e false
              (evs1 ++ [Log "error configuring pull socket";
                        ZmqClose PullSock]))
    else if negb (pull_bind e) then
      Some (endwdcap (set_pullsock g1 false) e false
              (evs1 ++ [Log "error connecting pull socket"]))
    else
      let evs2 := evs1 ++ [ZmqSocket PushSock] in
      let g2 := set_pushsock g1 true in
      if negb (push_setsockopt e) then
        Some (endwdcap (set_pushsock g2 false) e false
                (evs2 ++ [Log "error configuring push socket";
                          ZmqClose PushSock]))
      else if negb (push_connect e) then
        Some (endwdcap (set_pushsock g2 false) e false
                (evs2 ++ [Log "error connecting push socket";
                          ZmqClose PushSock]))
      else if negb (sigmask_block e) then
        Some (endwdcap g2 e false
                (evs2 ++ [Log "unable to disable signals"]))
      else
        let evs3 := evs2 ++ [BlockSignals; PthreadCreate] in
        let '(ret, g3, started) := start_trace_input g2 (input e) in
        if ret <? 0 then
          Some (endwdcap g3 e true
                  (evs3 ++ started
                   ++ [Log "failed to start packet source"; TraceDestroy]))
        else if negb (sigmask_restore e) then
          Some (endwdcap g3 e true
                  (evs3 ++ started ++ [Log "unable to re-enable signals"]))
        else if halt_flag_raised e then
          Some (endwdcap g3 e true
                  (evs3 ++ started
                   ++ [RestoreSignals; HaltFlagSeen; TracePstop; TraceJoin;
                       TraceDestroy]))
        else None.

End Capture.

(** ** The monitor process *)

Module Monitor.
Import Signals.

(** [child_signal]: SIGCHLD.  [reaped] is the number of times [waitpid]
    returns a child before it returns 0 or -1; the loop adds one to
    [child_halted] for each.  The count of exited children stays far below
    the range of [int]. *)
Definition child_signal (reaped : nat) (g : flags) : flags :=
  Nat.iter reaped
    (fun g' => {| corsaro_halted := corsaro_halted g';
                  corsaro_restart := corsaro_restart g';
                  corsaro_last_restart := corsaro_last_restart g';
                  child_halted := child_halted g' + 1 |})
    g.

(** A signal for which [init_wdcap_process] has installed a handler, with
    what its handler gets from the system. *)
Inductive signal :=
| SIGINT
| SIGTERM
| SIGHUP (tv_sec : Z)
| SIGCHLD (reaped : nat).

Definition handle (g : flags) (s : signal) : flags :=
  match s with
  | SIGINT | SIGTERM => cleanup_signal g
  | SIGHUP tv_sec => restart_signal tv_sec g
  | SIGCHLD reaped => child_signal reaped g
  end.

Inductive monitor_event :=
(* the signals handled since the last access of a flag *)
| Delivered (batch : list signal)
| Fork (child : bool)
| RunWdcap (ret : Z)
| PidFile (content : option (option Z))
| Log (what : string)
| KillHUP (pid : Z) (ok : bool)
| KillTERM (pid : Z) (ok : bool)
| FreeGlobal
| InitProcess (ok : bool)
| Usleep.

(** What [main] gets from outside after the configuration has been read.
    Every answer is asked for at a position, the number of events so far,
    so that each call has an answer of its own. *)
Record monitor_env := {
  (* the signals handled before the access of a flag at this position *)
  signals : nat -> list signal;
  (* the pid file: [None] when [fopen] fails, [Some None] when [fscanf]
     reads no number *)
  pidfile : nat -> option (option Z);
  (* [kill] returns 0 *)
  kill : nat -> bool;
  (* [init_wdcap_process] returns 0 when the configuration is read again *)
  init_wdcap_process : nat -> bool;
  (* [fork] returns 0: this process is the child *)
  fork : nat -> bool;
  (* the global state and the surroundings of a capture child *)
  capture : nat -> Capture.capture_state * Capture.capture_env;
  (* [glob->logger] is set *)
  logger : bool
}.

(** The locals of [main] and the flags; [glob] says whether the pointer is
    set. *)
Record monitor_state := {
  volatile : flags;
  glob : bool;
  runerr : Z;
  restart_triggered : Z;
  trail : list monitor_event
}.

Definition set_volatile (g : flags) (st : monitor_state) : monitor_state :=
  {| volatile := g; glob := glob st; runerr := runerr st;
     restart_triggered := restart_triggered st; trail := trail st |}.

Definition set_glob (b : bool) (st : monitor_state) : monitor_state :=
  {| volatile := volatile st; glob := b; runerr := runerr st;
     restart_triggered := restart_triggered st; trail := trail st |}.

Definition set_runerr (v : Z) (st : monitor_state) : monitor_state :=
  {| volatile := volatile st; glob := glob st; runerr := v;
     restart_triggered := restart_triggered st; trail := trail st |}.

Definition set_restart_triggered (v : Z) (st : monitor_state)
  : monitor_state :=
  {| volatile := volatile st; glob := glob st; runerr := runerr st;
     restart_triggered := v; trail := trail st |}.

Definition emit (ev : monitor_event) (st : monitor_state) : monitor_state :=
  {| volatile := volatile st; glob := glob st; runerr := runerr st;
     restart_triggered := restart_triggered st;
     trail := trail st ++ [ev] |}.

Definition position (st : monitor_state) : nat := length (trail st).

(** Before [main] reads or writes a flag, the handlers of the signals that
    have arrived since the last access have run.  The handlers use
    different flags, so that the order within a batch is the order in
    which they take effect. *)
Definition access (e : monitor_env) (st : monitor_state) : monitor_state :=
  let batch := signals e (position st) in
  emit (Delivered batch)
       (set_volatile (fold_left handle batch (volatile st)) st).

Definition write_halted (v : Z) (g : flags) : flags :=
  {| corsaro_halted := v; corsaro_restart := corsaro_restart g;
     corsaro_last_restart := corsaro_last_restart g;
     child_halted := child_halted g |}.

Definition write_child_halted (v : Z) (g : flags) : flags :=
  {| corsaro_halted := corsaro_halted g;
     corsaro_restart := corsaro_restart g;
     corsaro_last_restart := corsaro_last_restart g;
     child_halted := v |}.

Inductive outcome :=
| Returned (status : Z)
(* [glob->pidfile] is read with [glob] NULL *)
| NullDereference.

(** [get_running_pid]; [None] when [glob] is NULL. *)
Definition get_running_pid (e : monitor_env) (st : monitor_state)
  : option (Z * monitor_state) :=
  if glob st then
    let content := pidfile e (position st) in
    let st1 := emit (PidFile content) st in
    match content with
    | None =>
        Some (0, emit (Log "Failed to open file containing running corsarowdcap pid")
                      st1)
    | Some None =>
        Some (0, emit (Log "Failed to read file containing running corsarowdcap pid")
                      st1)
    | Some (Some runpid) => Some (runpid, st1)
    end
  else None.

(** Where control goes after a part of the loop body. *)
Inductive control :=
| GoesOn (st : monitor_state)
(* [break] out of the monitor loop, or [goto endwdcap] *)
| Leaves (st : monitor_state)
(* [return] *)
| Ends (o : outcome) (st : monitor_state).

(** [fork] and, in the child, [run_wdcap]: [None] when the child waits for
    the halt flag for ever. *)
Definition fork_capture (e : monitor_env) (st : monitor_state)
  : option control :=
  let child := fork e (position st) in
  let st1 := emit (Fork child) st in
  if child then
    let '(g, ce) := capture e (position st1) in
    match Capture.run_wdcap g ce with
    | None => None
    | Some (ret, _, _) =>
        let st2 := emit (RunWdcap ret) st1 in
        if ret =? 0 then Some (Ends (Returned 0) st2) else Some (GoesOn st2)
    end
  else Some (GoesOn st1).

(** The body of [if (corsaro_restart)] in the monitor loop. *)
Definition forward_hangup (e : monitor_env) (st : monitor_state)
  : option control :=
  match get_running_pid e st with
  | None => Some (Ends NullDereference st)
  | Some (runpid, st1) =>
      if runpid =? 0 then Some (Leaves (set_runerr 1 st1))
      else
        let st2 := set_restart_triggered 1 st1 in
        let ok := kill e (position st2) in
        let st3 := emit (KillHUP runpid ok) st2 in
        if negb ok then
          Some (Leaves
                  (set_runerr 1
                     (emit (Log "Failed to send HUP to running corsarowdcap pid")
                           st3)))
        else
          let st4 := set_glob false (emit FreeGlobal st3) in
          let ok' := init_wdcap_process e (position st4) in
          let st5 := emit (InitProcess ok') st4 in
          if negb ok' then Some (Leaves st5)
          else
            let st6 := access e (set_glob true st5) in
            let st7 :=
              set_volatile (clear_restart (volatile st6)) st6 in
            fork_capture e st7
  end.

(** The loop [while (child_halted > 0)]. *)
Fixpoint reap_children (fuel : nat) (e : monitor_env) (st : monitor_state)
  : option monitor_state :=
  match fuel with
  | O => None
  | S fuel' =>
      let st1 := access e st in
      if 0 <? child_halted (volatile st1) then
        if restart_triggered st1 =? 0 then
          let st2 :=
            set_runerr 1
              (emit (Log "Child corsarowdcap process terminated unexpectedly?")
                    st1) in
          let st3 := access e st2 in
          Some (set_volatile (write_halted 1 (volatile st3)) st3)
        else
          let st2 := set_restart_triggered 0 st1 in
          (* child_halted --: the flag is read, then written *)
          let st3 := access e st2 in
          let v := child_halted (volatile st3) in
          let st4 := access e st3 in
          reap_children fuel' e
            (set_volatile (write_child_halted (v - 1) (volatile st4)) st4)
      else Some st1
  end.

(** The monitor loop: the state with which control reaches the label
    [endwdcap], or the outcome of a [return] inside the loop. *)
Fixpoint monitor_loop (fuel : nat) (e : monitor_env) (st : monitor_state)
  : option (outcome * monitor_state + monitor_state) :=
  match fuel with
  | O => None
  | S fuel' =>
      let st1 := access e st in
      if corsaro_halted (volatile st1) =? 0 then
        let st2 := access e st1 in
        let forwarded :=
          if corsaro_restart (volatile st2) =? 0 then Some (GoesOn st2)
          else forward_hangup e st2 in
        match forwarded with
        | None => None
        | Some (Ends o st3) => Some (inl (o, st3))
        | Some (Leaves st3) => Some (inr st3)
        | Some (GoesOn st3) =>
            match reap_children fuel' e st3 with
            | None => None
            | Some st4 => monitor_loop fuel' e (emit Usleep st4)
            end
        end
      else Some (inr st1)
  end.

(** [main] from the label [endwdcap] on. *)
Definition main_endwdcap (e : monitor_env) (st : monitor_state)
  : outcome * monitor_state :=
  if runerr st =? 0 then
    match get_running_pid e st with
    | None => (NullDereference, st)
    | Some (runpid, st1) =>
        let st2 :=
          if runpid =? 0 then st1
          else
            let ok := kill e (position st1) in
            let st2 := emit (KillTERM runpid ok) st1 in
            if negb ok && glob st2 && logger e then
              emit (Log "Failed to send TERM to running corsarowdcap pid")
                   st2
            else st2 in
        (Returned 0, emit FreeGlobal st2)
    end
  else (Returned 0, emit FreeGlobal st).

(** [main] once [init_wdcap_process] has returned 0: the first fork, the
    capture child, the monitor loop and the end.  The two flags that
    [main] has cleared and the two others are 0, as no handler was
    installed before. *)
Definition supervise (fuel : nat) (e : monitor_env)
  : option (outcome * monitor_state) :=
  let st0 :=
    {| volatile := initial_flags; glob := true; runerr := 0;
       restart_triggered := 0; trail := [] |} in
  match fork_capture e st0 with
  | None => None
  | Some (Ends o st) => Some (o, st)
  | Some (Leaves st) => Some (main_endwdcap e st)
  | Some (GoesOn st) =>
      match monitor_loop fuel e st with
      | None => None
      | Some (inl r) => Some r
      | Some (inr st') => Some (main_endwdcap e st')
      end
  end.

End Monitor.

(** ** Vocabulary for the properties of a worker *)

Module WorkerSpec.
Import Worker.

Section Identifiers.

(** The configuration, and the second of the globally first packet. *)
Variable glob : wdcap_global.
Variable f : Z.

(** The boundary that follows the first packet. *)
Definition aligned_next : Z := f - f mod interval glob + interval glob.

Definition multiple_of_interval (t : Z) : Prop := t mod interval glob = 0.

(** The identifiers sent so far: none yet, or the first packet's second
    followed by multiples of the interval length. *)
Definition first_then_multiples (ts : list Z) : Prop :=
  ts = [] \/ exists rest, ts = f :: rest /\ Forall multiple_of_interval rest.

(** A worker whose first interval has been set up and that is not ending. *)
Definition rotating (s : wstate) : Prop :=
  let t := tls s in
  multiple_of_interval (next_report t) /\
  0 < next_report t < 2 ^ 32 /\
  ((reported (trail s) = [] /\ time (current_interval t) = f) \/
   (exists rest, reported (trail s) = f :: rest /\
      Forall multiple_of_interval rest /\
      multiple_of_interval (time (current_interval t)) /\
      time (current_interval t) <> 0)).

Definition worker_inv (s : wstate) : Prop :=
  (ending (tls s) = true /\ first_then_multiples (reported (trail s))) \/
  (reported (trail s) = [] /\ time (current_interval (tls s)) = 0) \/
  rotating s.

(** The part of the state the invariant reads. *)
Definition same_core (s s' : wstate) : Prop :=
  next_report (tls s') = next_report (tls s) /\
  current_interval (tls s') = current_interval (tls s) /\
  ending (tls s') = ending (tls s) /\
  reported (trail s') = reported (trail s).

(** An input the 32-bit seconds can hold, with a bound that covers the
    boundaries up to its packet. *)
Definition input_ok (fuel : nat) (x : packet_env * packet) : Prop :=
  first_packet (fst x) = Some f /\
  tv_sec (snd x) + interval glob < 2 ^ 32 /\
  tv_sec (snd x) / interval glob + 1 <= Z.of_nat fuel.

End Identifiers.

End WorkerSpec.

(** ** Vocabulary for the properties of a merge *)

Module MergeSpec.
Import Merge.

(** The packets a reader has yet to hand to the merge, buffered one
    first. *)
Definition remaining (r : interim_reader) : list packet :=
  match status r with
  | CORSARO_WDCAP_INTERIM_EOF => []
  | CORSARO_WDCAP_INTERIM_NOPACKET =>
      match source r, nextp r with
      | Some l, Some _ => l
      | _, _ => []
      end
  | CORSARO_WDCAP_INTERIM_PACKET =>
      match buffered_packet r with
      | Some p => p :: match source r with Some l => l | None => [] end
      | None => []
      end
  end.

(** The states the merge reaches: a reader marked as holding a packet does
    hold one, and [nextp_ts] is that packet's timestamp. *)
Definition reader_wf (r : interim_reader) : Prop :=
  status r = CORSARO_WDCAP_INTERIM_PACKET ->
  exists p, buffered_packet r = Some p /\ nextp_ts r = erf_timestamp p.

(** What the clean-up loop looks at: the name of the interim file and
    whether the reader and the packet buffer exist. *)
Definition handle_of (r : interim_reader) : string * bool * bool :=
  (uri r,
   match source r with Some _ => true | None => false end,
   match nextp r with Some _ => true | None => false end).

(** What the scan has established for the readers below [a]. *)
Definition scanned (a : nat) (rs : list interim_reader) : Prop :=
  forall j r, (j < a)%nat -> rs !! j = Some r ->
    status r <> CORSARO_WDCAP_INTERIM_NOPACKET.

Definition cand_ok (a : nat) (rs : list interim_reader) (c : Z) : Prop :=
  (c = -1 /\
   forall j r, (j < a)%nat -> rs !! j = Some r ->
     status r = CORSARO_WDCAP_INTERIM_EOF) \/
  (exists ic rc,
     c = Z.of_nat ic /\ (ic < a)%nat /\ rs !! ic = Some rc /\
     status rc = CORSARO_WDCAP_INTERIM_PACKET /\
     forall j r, (j < a)%nat -> rs !! j = Some r ->
       status r = CORSARO_WDCAP_INTERIM_PACKET ->
       nextp_ts rc <= nextp_ts r /\ ((j < ic)%nat -> nextp_ts rc < nextp_ts r)).

Definition choose_fold (idxs : list nat) (acc : list interim_reader * Z)
  : list interim_reader * Z :=
  fold_left (fun acc i => choose_step acc.1 acc.2 i) idxs acc.

(** Packets in timestamp order. *)
Definition ts_le (p q : packet) : Prop := erf_timestamp p <= erf_timestamp q.

(** The packets of the successful writes of a merge, in order. *)
Fixpoint written_packets (evs : list merge_event) : list packet :=
  match evs with
  | [] => []
  | WritePacket (Some p) true :: evs' => p :: written_packets evs'
  | _ :: evs' => written_packets evs'
  end.

(** The calls of a merge that failed. *)
Definition is_failure (ev : merge_event) : bool :=
  match ev with
  | CreatePacket _ false | CreateWriter _ false | WritePacket _ false => true
  | _ => false
  end.

Definition failures (evs : list merge_event) : list merge_event :=
  List.filter is_failure evs.

(** The marker files a merge created. *)
Definition done_markers (evs : list merge_event) : list string :=
  omap (fun ev => match ev with DoneFile name => Some name | _ => None end) evs.

(** The statistics files a merge wrote. *)
Definition stats_files (evs : list merge_event) : list string :=
  omap (fun ev =>
          match ev with StatsFile name _ _ _ => Some name | _ => None end)
       evs.

Definition is_write (ev : merge_event) : bool :=
  match ev with WritePacket _ _ => true | _ => false end.

(** The calls of the opening loop for readers [lo .. hi-1]. *)
Definition opening_call (lo hi : nat) (ev : merge_event) : Prop :=
  match ev with
  | CreateReader j _ _ | CreatePacket j _ => (lo <= j < hi)%nat
  | _ => False
  end.

(** Every reader that was opened is recorded in the reader array: with its
    file name, with a source, and with a buffer if one was created. *)
Definition opened_recorded (calls : list merge_event)
    (handles : list (string * bool * bool)) : Prop :=
  forall j name,
    CreateReader j name true ∈ calls ->
    exists b, handles !! j = Some (name, true, b) /\
              (CreatePacket j true ∈ calls -> b = true).

Definition middle_call (ev : merge_event) : Prop :=
  is_write ev = true \/ exists name created, ev = CreateWriter name created.

(** The part of a merge an event belongs to. *)
Inductive phase :=
| Opening | Writing | Closing | Statistics | Marker | Cleanup | Logging.

Definition phase_of (ev : merge_event) : phase :=
  match ev with
  | CreateReader _ _ _ | CreatePacket _ _ => Opening
  | CreateWriter _ _ | WritePacket _ _ => Writing
  | DestroyWriter => Closing
  | StatsFile _ _ _ _ | StatsFileFailed _ => Statistics
  | DoneFile _ | DoneFileFailed _ => Marker
  | DestroyPacket _ | DestroyReader _ | Remove _ | FreeUri _ => Cleanup
  | LogDoneMerging _ => Logging
  end.

Definition all_in (ph : phase) (evs : list merge_event) : Prop :=
  Forall (fun ev => phase_of ev = ph) evs.

(** The last event of a merge that ends in [fclose]. *)
Definition marker_failures (evs : list merge_event) : list string :=
  omap (fun ev =>
          match ev with DoneFileFailed name => Some name | _ => None end)
       evs.



Section Files.

Variable derive_output_name : Z -> Z -> Z -> Z -> string.
Variable env : merge_env.
Variable time : Z.

(** The packets of the interim file of worker [i]; none when the file
    cannot be opened. *)
Definition interim_packets (i : nat) : list packet :=
  match create_trace_reader env (derive_output_name time (Z.of_nat i) 1 0) with
  | Some pkts => pkts
  | None => []
  end.

Definition opened_reader (i : nat) : interim_reader :=
  (open_reader derive_output_name env time i).1.

End Files.

End MergeSpec.

(** ** Vocabulary for the properties of the merging thread *)

Module MergerSpec.
Import Merger.

Definition is_unexpected (ev : merger_event) : bool :=
  match ev with LogUnexpected _ => true | _ => false end.

(** How many records the thread has logged as unexpected. *)
Definition unexpected_logged (evs : list merger_event) : nat :=
  length (List.filter is_unexpected evs).

(** How many records with an unknown tag arrive before a stop record or a
    failed receive ends the loop. *)
Fixpoint unknown_received
    (inbox : list (option (corsaro_wdcap_message * Merge.merge_env))) : Z :=
  match inbox with
  | [] => 0
  | None :: _ => 0
  | Some (msg, _) :: rest =>
      match type msg with
      | CORSARO_WDCAP_MSG_STOP => 0
      | CORSARO_WDCAP_MSG_INTERVAL_DONE => unknown_received rest
      | MSG_OTHER _ => 1 + unknown_received rest
      end
  end.

Definition merged_times (evs : list merger_event) : list Z :=
  omap (fun ev => match ev with Merged time _ _ => Some time | _ => None end)
       evs.

Definition freed_intervals (evs : list merger_event)
  : list Merge.corsaro_wdcap_interval :=
  omap (fun ev => match ev with FreeInterval fin => Some fin | _ => None end)
       evs.

(** Between two records, no two pending intervals share a timestamp and
    each has been reported by at least one and by fewer than all
    threads. *)
Definition pending_ok (glob : wdcap_global)
    (l : list Merge.corsaro_wdcap_interval) : Prop :=
  NoDup (Merge.timestamp <$> l) /\
  Forall (fun fin => 0 < Merge.threads_done fin < threads glob) l.

End MergerSpec.

(** ** Vocabulary for the properties of the start-up *)

Module SupervisorSpec.
Import Supervisor.

(** The three configuration errors of the command line: an option
    character that is not known, no configuration file, or a log mode that
    is not known. *)
Inductive config_error (answers : list getopt_result) : Prop :=
| unsupported_flag text evs :
    parse_options answers None None = inr (Stderr text :: evs) ->
    config_error answers
| missing_config logmodestr :
    parse_options answers None None = inl (logmodestr, None) ->
    config_error answers
| invalid_logmode str file :
    parse_options answers None None = inl (Some str, Some file) ->
    parse_logmode str = None ->
    config_error answers.

End SupervisorSpec.

(** ** Vocabulary for the properties of the file names *)

Module NamesSpec.
Import Names.

(** A string that can be a C string: it holds no terminator. *)
Definition is_c_string (s : string) : bool :=
  forallb (fun c => negb (Ascii.eqb c NUL)) (list_ascii_of_string s).

Definition is_c_string_or_null (s : option string) : bool :=
  match s with Some str => is_c_string str | None => true end.

(** A format name that neither ends the scheme of a URI early nor is read
    as a conversion by [strftime]. *)
Definition plain_format (s : string) : bool :=
  forallb (fun c => negb (Ascii.eqb c ":") && negb (Ascii.eqb c "%"))
          (list_ascii_of_string s).

Definition format_of (glob : wdcap_naming) : string :=
  match fileformat glob with Some fmt => fmt | None => "pcapfile"%string end.

Definition ext_of (glob : wdcap_naming) : string :=
  if String.eqb (format_of glob) "pcapfile" then "pcap"%string
  else format_of glob.

Section Rendering.

Variable CORSARO_IO_MONITOR_PATTERN : ascii.
Variable CORSARO_IO_PLUGIN_PATTERN : ascii.
Variable CORSARO_IO_TRACE_FORMAT_PATTERN : ascii.

(** The template with the directives of corsarowdcap replaced: the monitor
    name (nothing when there is none), ["wdcap"], the file extension and
    the timestamp in decimal.  Every other character is kept, the percent
    sign of other directives included. *)
Fixpoint expansion (glob : wdcap_naming) (timestamp : Z) (ptr : string)
  : string :=
  match ptr with
  | EmptyString => EmptyString
  | String c rest =>
      if Ascii.eqb c "%" then
        match rest with
        | EmptyString => String c EmptyString
        | String d rest' =>
            if Ascii.eqb d CORSARO_IO_MONITOR_PATTERN then
              String.append
                (match monitorid glob with Some id => id | None => "" end)
                (expansion glob timestamp rest')
            else if Ascii.eqb d CORSARO_IO_PLUGIN_PATTERN then
              String.append "wdcap" (expansion glob timestamp rest')
            else if Ascii.eqb d CORSARO_IO_TRACE_FORMAT_PATTERN then
              String.append (ext_of glob) (expansion glob timestamp rest')
            else if Ascii.eqb d "s" then
              String.append (decimal timestamp)
                            (expansion glob timestamp rest')
            else String c (expansion glob timestamp rest)
        end
      else String c (expansion glob timestamp rest)
  end.

(** What goes in front of the expanded template and what follows it. *)
Definition scheme (glob : wdcap_naming) (needformat : Z) : string :=
  if needformat =? 0 then ""%string
  else String.append (format_of glob) ":".

Definition ending_of (threadid exttype : Z) : string :=
  if 0 <=? threadid then String.append "--" (decimal threadid)
  else if exttype =? 1 then ".done"%string
  else if exttype =? 2 then ".stats"%string
  else ""%string.

(** The whole format that is handed to [strftime]. *)
Definition full_format (glob : wdcap_naming)
    (timestamp threadid needformat exttype : Z) : string :=
  String.append (scheme glob needformat)
    (String.append (expansion glob timestamp (template glob))
                   (ending_of threadid exttype)).

End Rendering.

(** The characters written so far fill the array up to [st.2]; they are
    the first [lim] characters of [out]. *)
Definition holds (lim : nat) (out : list ascii) (st : list ascii * nat)
  : Prop :=
  st.2 = (length out `min` lim)%nat /\
  (lim <= length st.1)%nat /\
  take st.2 st.1 = take lim out.

End NamesSpec.

(** ** Vocabulary for the properties of the tick callback *)

Module TicksSpec.
Import Ticks.

Fixpoint total_missed (logged : list drop_report) : Z :=
  match logged with
  | [] => 0
  | r :: logged' => drop_missed r + total_missed logged'
  end.

(** The highest value among [start] and the missing counts reported. *)
Definition highest_missing (start : Z) (ticks : list libtrace_stat) : Z :=
  fold_left Z.max (count ∘ missing <$> ticks) start.

Definition counter_ok (stats : libtrace_stat) : Prop :=
  0 <= count (missing stats) < 2 ^ 64.

End TicksSpec.

(** ** Vocabulary for the properties of the statistics file *)

Module StatsSpec.
Import Merge.

(** The seven counters of a [libtrace_stat_t], with the names under which
    they are logged and in that order. *)
Definition counters : list (string * (libtrace_stat -> stat_field)) :=
  [("accepted"%string, accepted); ("filtered"%string, filtered);
   ("received"%string, received); ("dropped"%string, dropped);
   ("captured"%string, captured); ("missing"%string, missing);
   ("errors"%string, errors)].

(** What the counters that are marked valid add up to. *)
Fixpoint field_sum (fields : list stat_field) : Z :=
  match fields with
  | [] => 0
  | f :: fields' => (if valid f then count f else 0) + field_sum fields'
  end.

Definition valid_sum (field : libtrace_stat -> stat_field)
    (stats : list libtrace_stat) : Z :=
  field_sum (field <$> stats).

(** A counter over all threads: valid when it is valid for some thread,
    and then the sum over those threads as a 64-bit number. *)
Definition valid_total (field : libtrace_stat -> stat_field)
    (stats : list libtrace_stat) : stat_field :=
  {| valid := existsb (fun s => valid (field s)) stats;
     count := to_uint64 (valid_sum field stats) |}.

(** The lines of a statistics file: seven for every thread, in the order
    in which the threads reported, then seven for all threads together
    under the thread number -1. *)
Definition stats_lines (interval : corsaro_wdcap_interval)
  : list stats_line :=
  concat (zip_with log_ltstats (thread_stats interval) (thread_ids interval))
  ++ ((fun c => LOG_FIELD (-1) c.1 (valid_total c.2 (thread_stats interval)))
        <$> counters).

End StatsSpec.

(** ** Vocabulary for the rotation of a worker's interim files *)

Module RotationSpec.
Import Worker.

(** The identifiers of [n] intervals in a row: the current one, then the
    ones that start at the next boundary and at every boundary after
    it. *)
Fixpoint interval_starts (current next len : Z) (n : nat) : list Z :=
  match n with
  | O => []
  | S n' => current :: interval_starts next (next + len) len n'
  end.

(** The boundaries that lie between a worker's next boundary and a packet,
    the next boundary included. *)
Definition boundaries_passed (glob : wdcap_global) (t : wdcap_local)
    (ptv_sec : Z) : nat :=
  Z.to_nat ((ptv_sec - next_report t) / interval glob + 1).

(** The packet as it is written. *)
Definition as_written (glob : wdcap_global) (e : packet_env) (p : packet)
  : packet :=
  if stripvlans glob then strip_packet e p else p.

End RotationSpec.

(** ** Vocabulary for the properties of the command line *)

Module OptionsSpec.
Import Supervisor.

(** The argument of the last occurrence of an option, if it occurs. *)
Fixpoint last_arg (o : ascii) (answers : list getopt_result)
    (before : option string) : option string :=
  match answers with
  | [] => before
  | a :: rest =>
      last_arg o rest (if Ascii.eqb (opt a) o then Some (optarg a) else before)
  end.

(** An option that takes part in the configuration: [-l] or [-c]. *)
Definition configures (a : getopt_result) : bool :=
  Ascii.eqb (opt a) "l" || Ascii.eqb (opt a) "c".

End OptionsSpec.

(** ** Vocabulary for workers that report in step *)

Module OrderSpec.
Import Merger.

(** Workers that report the same intervals, [ticks], each of them one
    after the other.  [done] holds for every worker how many intervals it
    has reported; its next record is for the interval that follows
    them. *)
Fixpoint in_step (ticks : list Z) (done : list nat)
    (msgs : list (corsaro_wdcap_message * Merge.merge_env)) : bool :=
  match msgs with
  | [] => true
  | (msg, _) :: rest =>
      match type msg, done !! Z.to_nat (threadid msg) with
      | CORSARO_WDCAP_MSG_INTERVAL_DONE, Some c =>
          (0 <=? threadid msg)
          && match ticks !! c with
             | Some t => timestamp msg =? t
             | None => false
             end
          && in_step ticks (<[Z.to_nat (threadid msg) := S c]> done) rest
      | _, _ => false
      end
  end.

(** The number of records of every worker, after [msgs]. *)
Fixpoint reports (done : list nat)
    (msgs : list (corsaro_wdcap_message * Merge.merge_env)) : list nat :=
  match msgs with
  | [] => done
  | (msg, _) :: rest =>
      reports (alter S (Z.to_nat (threadid msg)) done) rest
  end.

Definition is_least (m : nat) (done : list nat) : Prop :=
  Forall (fun c => (m <= c)%nat) done /\ m ∈ done.

Definition is_greatest (M : nat) (done : list nat) : Prop :=
  Forall (fun c => (c <= M)%nat) done /\ M ∈ done.

(** The warnings about intervals completed out of order. *)
Definition out_of_order (evs : list merger_event) : list (Z * Z) :=
  omap (fun ev =>
          match ev with
          | LogOutOfOrder missing got => Some (missing, got)
          | _ => None
          end) evs.

(** The descriptors closed. *)
Definition closed (evs : list merger_event) : list Z :=
  omap (fun ev => match ev with Close fd => Some fd | _ => None end) evs.

(** The descriptors that the interval-over records of an inbox hand over:
    those other than -1, in the order of the records. *)
Definition descriptors
    (inbox : list (option (corsaro_wdcap_message * Merge.merge_env)))
  : list Z :=
  omap (fun received =>
          match received with
          | Some (msg, _) =>
              match type msg with
              | CORSARO_WDCAP_MSG_INTERVAL_DONE =>
                  if src_fd msg =? -1 then None else Some (src_fd msg)
              | _ => None
              end
          | None => None
          end) inbox.

(** A pending interval whose entries are the workers that have reported
    more than [x] intervals. *)
Definition entry_ok (done : list nat) (x : nat)
    (fin : Merge.corsaro_wdcap_interval) : Prop :=
  Merge.threads_done fin = Z.of_nat (length (Merge.thread_ids fin)) /\
  NoDup (Merge.thread_ids fin) /\
  forall z, z ∈ Merge.thread_ids fin <->
            exists w c, z = Z.of_nat w /\ done !! w = Some c /\ (x < c)%nat.


Section InStep.

Variable glob : wdcap_global.
Variable ticks : list Z.

(** What holds between two records when the workers report in step: the
    [m] intervals that every worker has reported are merged and freed, in
    order; the pending list holds, in order, the intervals that some
    worker has reported and some other has not, each with the workers
    that have. *)
Record in_step_inv (done : list nat) (m M : nat)
    (ms : corsaro_wdcap_merger) (evs : list merger_event) : Prop := {
  inv_workers : Z.of_nat (length done) = threads glob;
  inv_readers : Z.of_nat (length (readers ms)) = threads glob;
  inv_known : Forall (fun c => (c <= length ticks)%nat) done;
  inv_least : is_least m done;
  inv_greatest : is_greatest M done;
  inv_pending : Merge.timestamp <$> waiting ms = drop m (take M ticks);
  inv_entries :
    forall k fin, waiting ms !! k = Some fin -> entry_ok done (m + k) fin;
  inv_merged : MergerSpec.merged_times evs = take m ticks;
  inv_freed :
    Merge.timestamp <$> MergerSpec.freed_intervals evs = take m ticks;
  inv_quiet : out_of_order evs = []
}.

End InStep.

End OrderSpec.

(** ** Vocabulary for what the clean-up of a merge may touch *)

Module CleanupSpec.
Import Merge.

(** A reader that holds neither a source nor a packet buffer, as in the
    array that [calloc] returns. *)
Definition never_set_up (r : interim_reader) : Prop :=
  source r = None /\ nextp r = None.

(** What the clean-up does for reader [j] is covered by the calls: the
    reader was opened if it holds a source, and its buffer was created if
    it holds one. *)
Definition accounted (evs : list merge_event) (j : nat) (r : interim_reader)
  : Prop :=
  (source r <> None -> CreateReader j (uri r) true ∈ evs) /\
  (nextp r <> None -> CreatePacket j true ∈ evs).

(** Everything that the clean-up destroys or removes was created or
    opened by the calls before it. *)
Definition cleans_own (evs : list merge_event) : Prop :=
  (forall j, DestroyPacket j ∈ evs -> CreatePacket j true ∈ evs) /\
  (forall j, DestroyReader j ∈ evs ->
     exists name, CreateReader j name true ∈ evs) /\
  (forall path, Remove path ∈ evs ->
     exists j name,
       CreateReader j name true ∈ evs /\ path = interim_path name).

End CleanupSpec.

(** ** Vocabulary for the properties of the capture process *)

Module CaptureSpec.
Import Capture.

(** The events of setting up and running the capture, as opposed to those
    of winding it up. *)
Definition is_setup (ev : capture_event) : bool :=
  match ev with
  | ZmqSendStop _ | PthreadJoin | ClearThreadData _ | FreeThreaddata
  | ZmqCtxDestroy | FreeGlobal | DestroyCallbackSet => false
  | _ => true
  end.

(** [a] happens, and [b] happens later. *)
Definition before (a b : capture_event) (evs : list capture_event) : Prop :=
  exists l1 l2 l3, evs = l1 ++ a :: l2 ++ b :: l3.

(** Every call up to the start of the merging thread succeeds. *)
Definition sets_up (e : capture_env) : bool :=
  fopen_pidfile e && pull_setsockopt e && pull_bind e && push_setsockopt e
  && push_connect e && sigmask_block e.

(** The input starts: the trace object is created, the framing option is
    not refused for a reason other than its not being available, and the
    threads start. *)
Definition input_starts (g : capture_state) (e : input_env) : bool :=
  negb (trace_is_err e)
  && negb ((0 <=? consterfframing g)
           && match trace_config e with
              | Some TRACE_ERR_OTHER => true
              | _ => false
              end)
  && trace_pstart e.

(** What [pthread_sigmask] can answer: it returns 0 or a positive error
    number, so neither test [pthread_sigmask(...) < 0] of [run_wdcap]
    succeeds. *)
Definition sigmask_never_negative (e : capture_env) : Prop :=
  sigmask_block e = true /\ sigmask_restore e = true.

(** The run reaches the loop that waits for the halt flag. *)
Definition waits_for_halt (g : capture_state) (e : capture_env) : bool :=
  sets_up e && input_starts g (input e) && sigmask_restore e.

(** The two halves of a finished run [r]: the events [setup] up to the label
    [endwdcap], which leave the state [g1], and the winding up. *)
Record run_parts (g : capture_state) (e : capture_env)
    (r : Z * capture_state * list capture_event)
    (setup : list capture_event) (g1 : capture_state) : Prop := {
  parts_result : r = endwdcap g1 e (sets_up e) setup;
  parts_setup : Forall (fun ev => is_setup ev = true) setup;
  parts_init :
    exists rest, setup = per_thread InitThreadData (cap_threads g) ++ rest;
  parts_threads : cap_threads g1 = cap_threads g;
  parts_create : PthreadCreate ∈ setup <-> sets_up e = true;
  parts_pushsock : sets_up e = true -> zmq_pushsock g1 = true;
  parts_pstart :
    sets_up e && input_starts g (input e) = true -> TracePstart ∈ setup;
  parts_destroy :
    TraceDestroy ∈ setup
    <-> sets_up e
        && (negb (input_starts g (input e)) || sigmask_restore e) = true;
  parts_stop :
    if waits_for_halt g e
    then exists pre, setup = pre ++ [TracePstop; TraceJoin; TraceDestroy]
    else (TracePstop ∉ setup) /\ (TraceJoin ∉ setup);
  parts_trace : TraceCreate ∈ setup <-> sets_up e = true;
  parts_last :
    TraceDestroy ∈ setup -> exists pre, setup = pre ++ [TraceDestroy]
}.

End CaptureSpec.

(** ** Vocabulary for the properties of the monitor process *)

Module MonitorSpec.
Import Signals Monitor.

(** An event that is neither a line in the log nor a TERM sent on. *)
Definition quiet (ev : monitor_event) : bool :=
  match ev with
  | Log _ | KillTERM _ _ => false
  | _ => true
  end.

Definition halts (s : signal) : bool :=
  match s with
  | SIGINT | SIGTERM => true
  | _ => false
  end.

(** A signal that asks the process to end has been handled. *)
Definition halt_delivered (evs : list monitor_event) : Prop :=
  exists batch s, Delivered batch ∈ evs /\ s ∈ batch /\ halts s = true.

(** The end of the trail after a hangup has been sent on and the
    configuration could not be read again. *)
Definition reload_failed (evs : list monitor_event) : Prop :=
  exists pre pid,
    evs = pre ++ [KillHUP pid true; FreeGlobal; InitProcess false].

(** What holds whenever the monitor is in its loop. *)
Record loop_inv (st : monitor_state) : Prop := {
  inv_glob : glob st = true;
  inv_runerr : runerr st <> 0 -> corsaro_halted (volatile st) = 1;
  inv_quiet : runerr st = 0 -> Forall (fun ev => quiet ev = true) (trail st);
  inv_halted :
    corsaro_halted (volatile st) <> 0 ->
    runerr st <> 0 \/ halt_delivered (trail st);
  inv_term : forall pid ok, KillTERM pid ok ∉ trail st
}.

(** What holds when control reaches the label [endwdcap]. *)
Record end_inv (st : monitor_state) : Prop := {
  end_quiet : runerr st = 0 -> Forall (fun ev => quiet ev = true) (trail st);
  end_term : forall pid ok, KillTERM pid ok ∉ trail st;
  end_cases :
    (glob st = true /\ ~ reload_failed (trail st) /\
     (runerr st = 0 -> halt_delivered (trail st)))
    \/ (glob st = false /\ runerr st = 0 /\ reload_failed (trail st))
}.

(** What holds when a capture child returns from [main]. *)
Record child_inv (o : outcome) (st : monitor_state) : Prop := {
  child_outcome : o = Returned 0;
  child_last : last (trail st) = Some (RunWdcap 0);
  child_term : forall pid ok, KillTERM pid ok ∉ trail st
}.

(** The events of a round of the monitor loop in which no signal has been
    handled. *)
Definition idle_round : list monitor_event :=
  [Delivered []; Delivered []; Delivered []; Usleep].

(** The monitor at the head of its loop when nothing has happened to the
    flags and the locals of [main]. *)
Definition at_head (evs : list monitor_event) : monitor_state :=
  {| volatile := initial_flags; glob := true; runerr := 0;
     restart_triggered := 0; trail := evs |}.

End MonitorSpec.

(** ** Sample inputs *)

Module Samples.

Definition no_count : stat_field := {| valid := false; count := 0 |}.

Definition no_stats : libtrace_stat :=
  {| accepted := no_count; filtered := no_count; received := no_count;
     dropped := no_count; captured := no_count; missing := no_count;
     errors := no_count |}.

(** A capture with one-minute intervals and two processing threads. *)
Definition minute_glob : wdcap_global :=
  {| interval := 60; threads := 2; writestats := false; stripvlans := false |}.

(** The capture library reports second 125 as the time of the first packet
    and every library call succeeds. *)
Definition calm_env : Worker.packet_env :=
  {| Worker.perpkt_thread_id := 0;
     Worker.first_packet := Some 125;
     Worker.restart_flag := false;
     Worker.thread_statistics := no_stats;
     Worker.mergemsg_uninit := no_stats;
     Worker.zmq_send := fun _ _ => true;
     Worker.derive_interim_name := fun _ _ => Some "interim"%string;
     Worker.start_fast_trace_writer := fun _ => Some 7;
     Worker.strip_packet := fun p => p;
     Worker.fast_write_erf_packet := true |}.

Definition packet_at (sec : Z) : packet :=
  {| tv_sec := sec; erf_timestamp := sec * 2 ^ 32; wire := [] |}.

(** Packets at seconds 125, 130, 185 and 250. *)
Definition four_packets : list (Worker.packet_env * packet) :=
  [(calm_env, packet_at 125); (calm_env, packet_at 130);
   (calm_env, packet_at 185); (calm_env, packet_at 250)].

(** A renderer for the samples: [/data/cap], with the trace format in front
    when asked for, the worker suffix for interim files, and the marker
    suffixes of the merged file. *)
Definition sample_names (time threadid needformat exttype : Z) : string :=
  String.append (if needformat =? 0 then "" else "pcapfile:")
    (String.append "/data/cap"
       (if 0 <=? threadid then
          (if threadid =? 0 then "--0" else "--1")
        else if exttype =? 1 then ".done"
        else if exttype =? 2 then ".stats"
        else "")).

Definition stamped (ts : Z) (worker : Z) : packet :=
  {| tv_sec := Z.shiftr ts 32; erf_timestamp := ts; wire := [worker] |}.

(** Two interim files: worker 0 holds timestamps 10, 35 and 50, worker 1
    holds 20, 50 and 599. *)
Definition two_files (name : string) : option (list packet) :=
  if String.eqb name "pcapfile:/data/cap--0" then
    Some [stamped 10 0; stamped 35 0; stamped 50 0]
  else if String.eqb name "pcapfile:/data/cap--1" then
    Some [stamped 20 1; stamped 50 1; stamped 599 1]
  else None.

(** A merge in which every call succeeds. *)
Definition good_merge : Merge.merge_env :=
  {| Merge.create_trace_reader := two_files;
     Merge.trace_create_packet := fun _ => true;
     Merge.create_trace_writer := fun _ => true;
     Merge.write_packet := fun _ => true;
     Merge.stats_fopen := fun _ => true;
     Merge.done_fopen := fun _ => true;
     Merge.start_msec := 1000;
     Merge.end_msec := 1004 |}.

(** A merge in which every call but the [fopen] of the marker file
    succeeds. *)
Definition no_marker_merge : Merge.merge_env :=
  {| Merge.create_trace_reader := two_files;
     Merge.trace_create_packet := fun _ => true;
     Merge.create_trace_writer := fun _ => true;
     Merge.write_packet := fun _ => true;
     Merge.stats_fopen := fun _ => true;
     Merge.done_fopen := fun _ => false;
     Merge.start_msec := 1000;
     Merge.end_msec := 1004 |}.

(** The reader array as [calloc] leaves it. *)
Definition blank_reader : Merge.interim_reader :=
  {| Merge.uri := ""; Merge.source := None; Merge.nextp := None;
     Merge.nextp_ts := 0;
     Merge.status := Merge.CORSARO_WDCAP_INTERIM_NOPACKET |}.

Definition two_blank_readers : list Merge.interim_reader :=
  [blank_reader; blank_reader].

Definition both_reported : Merge.corsaro_wdcap_interval :=
  {| Merge.timestamp := 60; Merge.threads_done := 2;
     Merge.thread_ids := [0; 1];
     Merge.thread_stats := [no_stats; no_stats] |}.

(** The same capture with statistics files switched on. *)
Definition stats_glob : wdcap_global :=
  {| interval := 60; threads := 2; writestats := true; stripvlans := false |}.

(** A merge whose output file cannot be created. *)
Definition no_writer_merge : Merge.merge_env :=
  {| Merge.create_trace_reader := two_files;
     Merge.trace_create_packet := fun _ => true;
     Merge.create_trace_writer := fun _ => false;
     Merge.write_packet := fun _ => true;
     Merge.stats_fopen := fun _ => true;
     Merge.done_fopen := fun _ => true;
     Merge.start_msec := 1000;
     Merge.end_msec := 1004 |}.

(** Two readers in the middle of a merge: reader 0 holds a packet stamped
    50, reader 1 has to read its next packet, which is stamped 50 too. *)
Definition two_busy_readers : list Merge.interim_reader :=
  [ {| Merge.uri := "pcapfile:/data/cap--0";
       Merge.source := Some [];
       Merge.nextp := Some (Some (stamped 50 0));
       Merge.nextp_ts := 50;
       Merge.status := Merge.CORSARO_WDCAP_INTERIM_PACKET |};
    {| Merge.uri := "pcapfile:/data/cap--1";
       Merge.source := Some [stamped 50 1; stamped 599 1];
       Merge.nextp := Some (Some (stamped 20 1));
       Merge.nextp_ts := 20;
       Merge.status := Merge.CORSARO_WDCAP_INTERIM_NOPACKET |} ].

(** An interval-over record of a worker, without an interim file. *)
Definition done_record (worker time : Z) : corsaro_wdcap_message :=
  {| type := CORSARO_WDCAP_MSG_INTERVAL_DONE; threadid := worker;
     timestamp := time; src_fd := -1; lt_stats := no_stats |}.

(** A record with a tag the merging thread does not know. *)
Definition unknown_record : corsaro_wdcap_message :=
  {| type := MSG_OTHER 7; threadid := 0; timestamp := 0; src_fd := -1;
     lt_stats := no_stats |}.

(** Worker 0 reports intervals 60 and 120, then worker 1 reports 120 and
    only then 60. *)
Definition out_of_order_inbox
  : list (option (corsaro_wdcap_message * Merge.merge_env)) :=
  [Some (done_record 0 60, good_merge); Some (done_record 0 120, good_merge);
   Some (done_record 1 120, good_merge); Some (done_record 1 60, good_merge)].

Definition hundred_unknown
  : list (option (corsaro_wdcap_message * Merge.merge_env)) :=
  replicate 100 (Some (unknown_record, good_merge)).

End Samples.

(** ** Further sample inputs *)

Module NameSamples.
Import Names.

(** A template with the four directives of corsarowdcap and two of
    [strftime]. *)
Definition telescope : wdcap_naming :=
  {| template := "/data/%N/%P-%Y%m-%s.%f";
     fileformat := None;
     monitorid := Some "ucsd-nt"%string |}.

(** The array as the function may find it. *)
Definition stale_scratch : list ascii := replicate sizeof_scratch "#"%char.

(** A stand-in for [strftime] that knows the year and the month of
    timestamp 1700000000 and copies everything else. *)
Fixpoint copy_strftime (fmt : string) (t : Z) : string :=
  match fmt with
  | EmptyString => EmptyString
  | String c rest =>
      if Ascii.eqb c "%" then
        match rest with
        | String "Y" rest' => String.append "2023" (copy_strftime rest' t)
        | String "m" rest' => String.append "11" (copy_strftime rest' t)
        | _ => String c (copy_strftime rest t)
        end
      else String c (copy_strftime rest t)
  end.

End NameSamples.

Module TickSamples.

Definition tick_stats (missed taken : Z) : libtrace_stat :=
  {| accepted := {| valid := true; count := taken |};
     filtered := Samples.no_count; received := Samples.no_count;
     dropped := Samples.no_count; captured := Samples.no_count;
     missing := {| valid := true; count := missed |};
     errors := Samples.no_count |}.

(** Five ticks: five packets are missed during the second, none during
    the third, the counter falls back during the fourth and reaches nine
    in the fifth. *)
Definition five_ticks : list libtrace_stat :=
  [tick_stats 0 100; tick_stats 5 180; tick_stats 5 260; tick_stats 3 300;
   tick_stats 9 420].

End TickSamples.

Module StatSamples.

Definition seen (n : Z) : stat_field := {| valid := true; count := n |}.

(** Two threads; only the first one knows how many packets it dropped,
    and no thread counts errors. *)
Definition first_thread : libtrace_stat :=
  {| accepted := seen 700; filtered := seen 0; received := seen 710;
     dropped := seen 10; captured := seen 700; missing := seen 2;
     errors := Samples.no_count |}.

Definition second_thread : libtrace_stat :=
  {| accepted := seen 300; filtered := seen 0; received := seen 300;
     dropped := Samples.no_count; captured := seen 300; missing := seen 1;
     errors := Samples.no_count |}.

Definition counted_interval : Merge.corsaro_wdcap_interval :=
  {| Merge.timestamp := 60; Merge.threads_done := 2;
     Merge.thread_ids := [1; 0];
     Merge.thread_stats := [second_thread; first_thread] |}.

End StatSamples.

Module WorkerSamples.
Import Worker.

(** A worker in its first interval, which began at second 125 and ends at
    180, with its interim file open. *)
Definition first_minute : wstate :=
  {| tls :=
       {| writer := Some {| io_fd := Some 7 |};
          interimfilename := Some "interim"%string;
          lastmisscount := 0; lastaccepted := 0; last_ts := 130;
          next_report := 180;
          current_interval := {| number := 0; time := 125 |};
          ending := false |};
     halted := false; threads_ended := 0; trail := [] |}.

(** The answers of [Samples.calm_env], with the reload flag up. *)
Definition reload_env : packet_env :=
  {| perpkt_thread_id := 0;
     first_packet := Some 125;
     restart_flag := true;
     thread_statistics := Samples.no_stats;
     mergemsg_uninit := Samples.no_stats;
     zmq_send := fun _ _ => true;
     derive_interim_name := fun _ _ => Some "interim"%string;
     start_fast_trace_writer := fun _ => Some 7;
     strip_packet := fun p => p;
     fast_write_erf_packet := true |}.

End WorkerSamples.

Module CleanupSamples.

(** A merge in which no packet buffer can be allocated. *)
Definition no_buffer_merge : Merge.merge_env :=
  {| Merge.create_trace_reader := Samples.two_files;
     Merge.trace_create_packet := fun _ => false;
     Merge.create_trace_writer := fun _ => true;
     Merge.write_packet := fun _ => true;
     Merge.stats_fopen := fun _ => true;
     Merge.done_fopen := fun _ => true;
     Merge.start_msec := 1000;
     Merge.end_msec := 1004 |}.

End CleanupSamples.

Module CaptureSamples.
Import Capture.

Definition two_threads : capture_state :=
  {| cap_threads := 2; consterfframing := 16; zmq_pullsock := false;
     zmq_pushsock := false; processing := false |}.

(** The framing option is not available; everything else works. *)
Definition plain_input : input_env :=
  {| trace_is_err := false;
     trace_config := Some TRACE_ERR_OPTION_UNAVAIL;
     trace_pstart := true |}.

Definition smooth_run : capture_env :=
  {| fopen_pidfile := true; pull_setsockopt := true; pull_bind := true;
     push_setsockopt := true; push_connect := true; sigmask_block := true;
     input := plain_input; sigmask_restore := true;
     halt_flag_raised := true; halt_send := true |}.

End CaptureSamples.

Module MonitorSamples.
Import Monitor.

Definition signals_at (p : nat) (batch : list signal) : nat -> list signal :=
  fun q => if (q =? p)%nat then batch else [].

(** A monitor whose pid file holds 4242 and whose calls succeed; [reread]
    says whether the configuration can be read again. *)
Definition steady (arriving : nat -> list signal) (reread : bool)
  : monitor_env :=
  {| signals := arriving;
     pidfile := fun _ => Some (Some 4242);
     kill := fun _ => true;
     init_wdcap_process := fun _ => reread;
     fork := fun _ => false;
     capture := fun _ => (CaptureSamples.two_threads,
                          CaptureSamples.smooth_run);
     logger := true |}.

(** TERM arrives while the monitor sleeps at the end of its second round. *)
Definition term_in_third_round : monitor_env :=
  steady (signals_at 9 [SIGTERM]) true.

(** A hangup arrives while the monitor sleeps at the end of its first
    round, and the configuration cannot be read again. *)
Definition lost_configuration : monitor_env :=
  steady (signals_at 5 [SIGHUP 77]) false.

(** The state in which [main] returns in the first of the two runs. *)
Definition after_term : monitor_state :=
  {| volatile := Signals.cleanup_signal Signals.initial_flags;
     glob := true; runerr := 0; restart_triggered := 0;
     trail :=
       [Fork false; Delivered []; Delivered []; Delivered []; Usleep;
        Delivered []; Delivered []; Delivered []; Usleep;
        Delivered [SIGTERM]; PidFile (Some (Some 4242));
        KillTERM 4242 true; FreeGlobal] |}.

(** The state in which the second run ends. *)
Definition after_lost_configuration : monitor_state :=
  {| volatile := Signals.restart_signal 77 Signals.initial_flags;
     glob := false; runerr := 0; restart_triggered := 1;
     trail :=
       [Fork false; Delivered []; Delivered []; Delivered []; Usleep;
        Delivered [SIGHUP 77]; Delivered []; PidFile (Some (Some 4242));
        KillHUP 4242 true; FreeGlobal; InitProcess false] |}.

End MonitorSamples.

(* ==== THEOREMS ==== *)

(** * Properties *)

(** ** Fixed-width integers *)

Lemma to_int_id x : INT_MIN <= x <= INT_MAX -> to_int x = x.
Proof.
  unfold INT_MIN, INT_MAX, to_int. intros H.
  rewrite Z.mod_small; lia.
Qed.

Lemma to_uint32_id x : 0 <= x < 2 ^ 32 -> to_uint32 x = x.
Proof. intros H. unfold to_uint32. now apply Z.mod_small. Qed.


(** ** Signals: the reload handler *)

Module SignalsFacts.
Import Signals.

Lemma restart_signal_rejected tv_sec g :
  tv_sec <= corsaro_last_restart g -> restart_signal tv_sec g = g.
Proof.
  intros H. unfold restart_signal.
  destruct (Z.ltb_spec (corsaro_last_restart g) tv_sec); [lia | reflexivity].
Qed.

Lemma restart_signal_accepted tv_sec g :
  corsaro_last_restart g < tv_sec ->
  corsaro_restart (restart_signal tv_sec g) = 1 /\
  corsaro_last_restart (restart_signal tv_sec g) = to_int tv_sec.
Proof.
  intros H. unfold restart_signal.
  destruct (Z.ltb_spec (corsaro_last_restart g) tv_sec); [now split | lia].
Qed.

Lemma accepted_hangups_above g es :
  Forall hup_fits_int es ->
  Forall (fun s => corsaro_last_restart g < s) (accepted_hangups g es) /\
  StronglySorted Z.lt (accepted_hangups g es).
Proof.
  intros Hfit. revert g.
  induction Hfit as [| e es He _ IH]; intros g; simpl.
  - split; constructor.
  - destruct e as [tv |]; simpl.
    + unfold hup_accepted.
      destruct (Z.ltb_spec (corsaro_last_restart g) tv) as [Hlt | Hge].
      * destruct (IH (restart_signal tv g)) as [Hab Hso].
        pose proof (restart_signal_accepted tv g Hlt) as [_ Hlast].
        rewrite Hlast, (to_int_id tv He) in Hab.
        split.
        -- constructor; [exact Hlt |].
           eapply Forall_impl; [exact Hab |]. simpl. intros; lia.
        -- constructor; assumption.
      * rewrite (restart_signal_rejected tv g Hge). apply IH.
    + apply (IH (clear_restart g)).
Qed.


(** C9.  Over any run of hangups (each at a monotonic second that fits the
    [int] it is stored in) and clearings of the flag by the monitor, the
    seconds of the accepted hangups are strictly increasing, so no second
    sees two accepted reloads; a hangup whose second is not greater than
    the last accepted one changes neither the reload flag nor the
    last-reload time, and a hangup in a later second sets the flag and
    stores its second. *)
Theorem reload_at_most_once_per_second (g : flags) (es : list sig_event) :
  Forall hup_fits_int es ->
  StronglySorted Z.lt (accepted_hangups g es) /\
  Forall (fun s => corsaro_last_restart g < s) (accepted_hangups g es) /\
  (forall pre tv post,
      es = pre ++ HUP tv :: post ->
      let g' := sig_run g pre in
      (tv <= corsaro_last_restart g' ->
         hup_accepted tv g' = false /\ restart_signal tv g' = g') /\
      (corsaro_last_restart g' < tv ->
         hup_accepted tv g' = true /\
         corsaro_restart (restart_signal tv g') = 1 /\
         corsaro_last_restart (restart_signal tv g') = tv)).
Proof.
  intros Hfit.
  destruct (accepted_hangups_above g es Hfit) as [Hab Hso].
  split; [exact Hso |]. split; [exact Hab |].
  intros pre tv post -> g'.
  apply Forall_app in Hfit as [_ Hfit].
  apply Forall_cons in Hfit as [Htv _]. simpl in Htv.
  split.
  - intros Hle. split; [apply Z.ltb_ge; exact Hle |].
    now apply restart_signal_rejected.
  - intros Hlt. split; [apply Z.ltb_lt; exact Hlt |].
    destruct (restart_signal_accepted tv g' Hlt) as [H1 H2].
    split; [exact H1 |]. rewrite H2. now apply to_int_id.
Qed.

Lemma reload_at_most_once_per_second_witness :
  accepted_hangups initial_flags [HUP 5; HUP 5; CLEAR; HUP 5; HUP 6; HUP 4]
    = [5; 6] /\
  StronglySorted Z.lt
    (accepted_hangups initial_flags
       [HUP 5; HUP 5; CLEAR; HUP 5; HUP 6; HUP 4]).
Proof.
  split; [reflexivity |].
  apply (reload_at_most_once_per_second initial_flags
           [HUP 5; HUP 5; CLEAR; HUP 5; HUP 6; HUP 4]).
  repeat (apply List.Forall_cons;
          [first [exact I | unfold hup_fits_int, INT_MIN, INT_MAX; lia] |]).
  apply List.Forall_nil.
Defined.

End SignalsFacts.

(** ** Worker: the first interval and the identifiers a worker reports *)

Module WorkerFacts.
Import Worker WorkerSpec.

Section Identifiers.

Variable glob : wdcap_global.
Variable f : Z.

Hypothesis interval_pos : 0 < interval glob.
Hypothesis first_nonneg : 0 <= f.
Hypothesis first_fits : f + interval glob < 2 ^ 32.

Lemma reported_app evs evs' :
  reported (evs ++ evs') = reported evs ++ reported evs'.
Proof.
  induction evs as [| ev evs IH]; [reflexivity |].
  destruct ev as [? | m [] | ? ?]; simpl; now rewrite ?IH.
Qed.

Lemma rotating_shape s :
  rotating glob f s -> first_then_multiples glob f (reported (trail s)).
Proof.
  intros (_ & _ & [[H _] | (rest & H & Hr & _)]).
  - now left.
  - right. now exists rest.
Qed.

Lemma worker_inv_shape s :
  worker_inv glob f s -> first_then_multiples glob f (reported (trail s)).
Proof.
  intros [[_ H] | [[H _] | H]]; [exact H | now left | now apply rotating_shape].
Qed.

Lemma aligned_next_facts :
  multiple_of_interval glob (aligned_next glob f) /\
  0 < aligned_next glob f < 2 ^ 32.
Proof.
  unfold multiple_of_interval, aligned_next.
  pose proof (Z.mod_pos_bound f (interval glob) interval_pos) as Hb.
  split; [| lia].
  rewrite (Z.div_mod f (interval glob)) at 1 by lia.
  replace (interval glob * (f / interval glob) + f mod interval glob
           - f mod interval glob + interval glob)
    with ((f / interval glob + 1) * interval glob) by lia.
  apply Z.mod_mul. lia.
Qed.

(** What the first-interval block stores. *)
Lemma first_interval_sets e s :
  time (current_interval (tls s)) = 0 ->
  first_packet e = Some f ->
  exists s1, first_interval glob e s = Next s1 /\
    time (current_interval (tls s1)) = f /\
    next_report (tls s1) = aligned_next glob f /\
    trail s1 = trail s /\ ending (tls s1) = ending (tls s).
Proof.
  intros Hz Hf. unfold first_interval. rewrite Hz, Hf. simpl.
  destruct (Z.leb_spec (interval glob) 0) as [Hle | _]; [lia |].
  eexists. split; [reflexivity |]. simpl.
  destruct aligned_next_facts as [_ Hr].
  rewrite Z.rem_mod_nonneg by lia.
  unfold aligned_next in *.
  rewrite !to_uint32_id; [auto | lia | lia].
Qed.

Lemma first_interval_inv e s :
  first_packet e = Some f ->
  ending (tls s) = false ->
  worker_inv glob f s ->
  match first_interval glob e s with
  | Returned s1 => worker_inv glob f s1
  | Next s1 => rotating glob f s1 /\ ending (tls s1) = false
  end.
Proof.
  intros Hf Hend [[He _] | [[Hrep Hz] | Hrot]]; [congruence | |].
  - destruct (first_interval_sets e s Hz Hf) as (s1 & -> & Ht & Hn & Htr & He).
    split; [| congruence].
    destruct aligned_next_facts as [Hm Hr].
    unfold rotating. rewrite Hn, Htr, Ht.
    split; [exact Hm | split; [exact Hr | left; now split]].
  - destruct (Z.eq_dec (time (current_interval (tls s))) 0) as [Hz | Hnz].
    + destruct (first_interval_sets e s Hz Hf)
        as (s1 & -> & Ht & Hn & Htr & He).
      split; [| congruence].
      destruct aligned_next_facts as [Hm Hr].
      destruct Hrot as (_ & _ & [[Hrep Hcur] | (rest & _ & _ & _ & Hne)]);
        [| congruence].
      unfold rotating. rewrite Hn, Htr, Ht.
      split; [exact Hm | split; [exact Hr | left; now split]].
    + unfold first_interval.
      destruct (Z.eqb_spec (time (current_interval (tls s))) 0); [congruence |].
      now split.
Qed.

Lemma detach_writer_keeps t :
  next_report (snd (detach_writer t)) = next_report t /\
  current_interval (snd (detach_writer t)) = current_interval t /\
  ending (snd (detach_writer t)) = ending t.
Proof.
  unfold detach_writer. destruct (writer t) as [w |]; [| auto].
  destruct (corsaro_reset_fast_trace_writer w). simpl. auto.
Qed.

Lemma shape_snoc ts t :
  first_then_multiples glob f ts ->
  (ts = [] -> t = f) ->
  (ts <> [] -> multiple_of_interval glob t) ->
  first_then_multiples glob f (ts ++ [t]).
Proof.
  intros [-> | (rest & -> & Hrest)] He Hne.
  - right. exists []. rewrite He by reflexivity.
    split; [reflexivity | constructor].
  - right. exists (rest ++ [t]). split; [reflexivity |].
    apply Forall_app. split; [exact Hrest |].
    constructor; [| constructor]. now apply Hne.
Qed.

Lemma div_step a : (a - interval glob) / interval glob = a / interval glob - 1.
Proof.
  replace (a - interval glob) with (a + (-1) * interval glob) by lia.
  rewrite Z.div_add by lia. lia.
Qed.

Lemma multiple_plus t :
  multiple_of_interval glob t -> multiple_of_interval glob (t + interval glob).
Proof.
  unfold multiple_of_interval. intros H.
  rewrite <- Zplus_mod_idemp_l, H. simpl.
  apply Z.mod_same. lia.
Qed.

(** The boundary loop returns when the bound covers the boundaries between
    the worker's next boundary and the packet, and it keeps the shape of
    the identifiers sent. *)
Lemma boundary_loop_inv e ptv :
  ptv + interval glob < 2 ^ 32 ->
  forall fuel k s,
    rotating glob f s ->
    ending (tls s) = false ->
    (restart_flag e = true -> (1 <= fuel)%nat) ->
    (ptv - next_report (tls s)) / interval glob + 1 <= Z.of_nat fuel ->
    exists r, boundary_loop fuel glob e ptv k s = Some r /\
      match r with
      | Returned s' => worker_inv glob f s'
      | Next s' => rotating glob f s' /\ ending (tls s') = false
      end.
Proof.
  intros Hptv. induction fuel as [| fuel IH]; intros k s Hrot Hend Hre Hfuel.
  - simpl. unfold boundary_reached.
    destruct (restart_flag e); [specialize (Hre eq_refl); lia |]. simpl.
    pose proof Hrot as (_ & Hrange & _).
    destruct (Z.eqb_spec (next_report (tls s)) 0) as [| _]; [lia |]. simpl.
    destruct (Z.leb_spec (next_report (tls s)) ptv) as [Hle | Hgt].
    + assert (0 <= (ptv - next_report (tls s)) / interval glob)
        by (apply Z.div_pos; lia).
      lia.
    + eexists. split; [reflexivity |]. now split.
  - simpl. destruct (boundary_reached e ptv (tls s)) eqn:Hreach.
    2:{ eexists. split; [reflexivity |]. now split. }
    pose proof (detach_writer_keeps (tls s)) as (Kn & Kc & Ke).
    destruct (detach_writer (tls s)) as [srcfd t1]. simpl in Kn, Kc, Ke.
    set (m := {| type := CORSARO_WDCAP_MSG_INTERVAL_DONE;
                 threadid := perpkt_thread_id e;
                 timestamp := time (current_interval (tls s));
                 src_fd := srcfd;
                 lt_stats := if writestats glob then thread_statistics e
                             else mergemsg_uninit e |}).
    destruct Hrot as (Hmul & Hrange & Hrep).
    destruct (zmq_send e k m) eqn:Hsent.
    + (* the record was sent *)
      assert (Hshape : (first_then_multiples glob f)
                (reported (trail s) ++ [time (current_interval (tls s))])).
      { apply shape_snoc.
        - destruct Hrep as [[H _] | (rest & H & Hr & _)];
            [now left | right; now exists rest].
        - intros Hnil. destruct Hrep as [[_ H] | (rest & H & _)];
            [exact H | congruence].
        - intros Hne. destruct Hrep as [[H _] | (rest & _ & _ & H & _)];
            [congruence | exact H]. }
      destruct (restart_flag e) eqn:Hrs.
      * eexists. split; [reflexivity |]. left. simpl. split; [reflexivity |].
        rewrite !reported_app. simpl. rewrite app_nil_r. exact Hshape.
      * unfold boundary_reached in Hreach. rewrite Hrs in Hreach.
        simpl in Hreach.
        apply andb_true_iff in Hreach as [_ Hle%Z.leb_le].
        apply IH.
        -- unfold rotating. simpl. rewrite Kn, reported_app. simpl.
           rewrite to_uint32_id by lia.
           split; [now apply multiple_plus |]. split; [lia |].
           right. destruct Hshape as [Hnil | (rest & Heq & Hrest)].
           ++ now destruct (reported (trail s)).
           ++ exists rest.
              repeat split; [exact Heq | exact Hrest | exact Hmul | lia].
        -- simpl. congruence.
        -- intros; discriminate.
        -- simpl. rewrite Kn. rewrite to_uint32_id by lia.
           replace (ptv - (next_report (tls s) + interval glob))
             with (ptv - next_report (tls s) - interval glob) by lia.
           rewrite div_step. lia.
    + (* the send failed: the callback halts and returns *)
      eexists. split; [reflexivity |]. right. right.
      unfold rotating. simpl. rewrite Kn, Kc, !reported_app. simpl.
      rewrite !app_nil_r.
      repeat split; try apply Hrange; [exact Hmul | exact Hrep].
Qed.

Lemma rotating_core s s' :
  same_core s s' -> rotating glob f s -> rotating glob f s'.
Proof. intros (Hn & Hc & _ & Hr). unfold rotating. now rewrite Hn, Hc, Hr. Qed.

Lemma worker_inv_core s s' :
  same_core s s' -> worker_inv glob f s -> worker_inv glob f s'.
Proof.
  intros Hs H. pose proof Hs as (Hn & Hc & He & Hr).
  destruct H as [H | [H | H]].
  - left. now rewrite He, Hr.
  - right. left. now rewrite Hc, Hr.
  - right. right. now apply (rotating_core s).
Qed.

Lemma open_interim_core e s :
  match open_interim e s with
  | Returned s' | Next s' => same_core s s'
  end.
Proof.
  unfold open_interim, same_core.
  destruct (interimfilename (tls s)); [auto |].
  destruct (derive_interim_name e _ _) as [name |]; simpl.
  - destruct (match writer (tls s) with
              | Some _ => start_fast_trace_writer e name
              | None => None
              end); simpl; rewrite ?reported_app; simpl;
      rewrite ?app_nil_r; auto.
  - rewrite reported_app. simpl. rewrite app_nil_r. auto.
Qed.

Lemma write_interim_core e p s : same_core s (write_interim glob e p s).
Proof.
  unfold write_interim, same_core.
  destruct (fast_write_erf_packet e); simpl; rewrite ?reported_app; simpl;
    rewrite ?app_nil_r; auto.
Qed.

(** One callback keeps the invariant, and returns. *)
Lemma per_packet_inv fuel e p s :
  first_packet e = Some f ->
  tv_sec p + interval glob < 2 ^ 32 ->
  (1 <= fuel)%nat ->
  tv_sec p / interval glob + 1 <= Z.of_nat fuel ->
  worker_inv glob f s ->
  exists s', per_packet fuel glob e p s = Some s' /\ worker_inv glob f s'.
Proof.
  intros Hf Hp Hfuel1 Hfuel Hinv. unfold per_packet.
  destruct (ending (tls s)) eqn:Hend; [now exists s |].
  pose proof (first_interval_inv e s Hf Hend Hinv) as H1.
  destruct (first_interval glob e s) as [s1 | s1]; [now exists s1 |].
  destruct H1 as [Hrot1 Hend1].
  destruct (boundary_loop_inv e (tv_sec p) Hp fuel O s1 Hrot1 Hend1)
    as (r & -> & Hr).
  - intros _. exact Hfuel1.
  - destruct Hrot1 as (_ & Hrange & _).
    assert ((tv_sec p - next_report (tls s1)) / interval glob
            <= tv_sec p / interval glob)
      by (apply Z.div_le_mono; lia).
    lia.
  - destruct r as [s2 | s2]; [now exists s2 |].
    destruct Hr as [Hrot2 _].
    pose proof (open_interim_core e s2) as H3.
    destruct (open_interim e s2) as [s3 | s3].
    + exists s3. split; [reflexivity |].
      apply (worker_inv_core s2); [exact H3 | now right; right].
    + eexists. split; [reflexivity |].
      apply (worker_inv_core s3); [apply write_interim_core |].
      apply (worker_inv_core s2); [exact H3 | now right; right].
Qed.

Lemma run_worker_inv fuel input :
  (1 <= fuel)%nat ->
  Forall (input_ok glob f fuel) input ->
  forall s, worker_inv glob f s ->
    exists s', run_worker fuel glob input s = Some s' /\ worker_inv glob f s'.
Proof.
  intros Hfuel Hin. induction Hin as [| [e p] rest (Hf & Hp & Hb) _ IH];
    intros s Hinv; simpl.
  - now exists s.
  - destruct (per_packet_inv fuel e p s Hf Hp Hfuel Hb Hinv) as (s1 & -> & H1).
    now apply IH.
Qed.

Lemma start_state_inv created : worker_inv glob f (start_state created).
Proof. right. left. now split. Qed.

End Identifiers.

(** C1, as amended.  On its first packet a worker stores the second of the
    globally first packet itself as the start of its current interval, and
    the following multiple of the interval length as its next boundary.
    Hence, as long as the 32-bit seconds do not wrap, the identifiers of
    the records a worker delivers are the first packet's second, followed
    only by multiples of the interval length; and every callback returns
    within the stated number of loop iterations. *)
Theorem first_interval_and_reported_identifiers
    (glob : wdcap_global) (f : Z) (fuel : nat)
    (created : option fast_trace_writer)
    (input : list (packet_env * packet)) :
  0 < interval glob ->
  0 <= f ->
  f + interval glob < 2 ^ 32 ->
  (1 <= fuel)%nat ->
  Forall (input_ok glob f fuel) input ->
  (forall e s,
      time (current_interval (tls s)) = 0 ->
      first_packet e = Some f ->
      exists s1, first_interval glob e s = Next s1 /\
        time (current_interval (tls s1)) = f /\
        next_report (tls s1) = f - f mod interval glob + interval glob) /\
  (exists s', run_worker fuel glob input (start_state created) = Some s' /\
     first_then_multiples glob f (reported (trail s'))).
Proof.
  intros Hi Hf0 Hf Hfuel Hin. split.
  - intros e s Hz He.
    destruct (first_interval_sets glob f Hi Hf0 Hf e s Hz He)
      as (s1 & H1 & Ht & Hn & _).
    exists s1. now repeat split.
  - destruct (run_worker_inv glob f Hi Hf0 Hf fuel input Hfuel Hin
                (start_state created) (start_state_inv glob f created))
      as (s' & Hrun & Hinv).
    exists s'. split; [exact Hrun |].
    now apply worker_inv_shape.
Qed.

Lemma first_interval_and_reported_identifiers_witness :
  (forall e s,
      time (current_interval (tls s)) = 0 ->
      first_packet e = Some 125 ->
      exists s1, first_interval Samples.minute_glob e s = Next s1 /\
        time (current_interval (tls s1)) = 125 /\
        next_report (tls s1) = 125 - 125 mod 60 + 60) /\
  (exists s', run_worker 8 Samples.minute_glob Samples.four_packets
                (start_state None) = Some s' /\
     first_then_multiples Samples.minute_glob 125 (reported (trail s'))).
Proof.
  apply (first_interval_and_reported_identifiers
           Samples.minute_glob 125 8 None Samples.four_packets).
  - simpl. lia.
  - lia.
  - simpl. lia.
  - lia.
  - unfold Samples.four_packets.
    repeat (apply List.Forall_cons;
            [split; [reflexivity
                    | split; [apply Z.ltb_lt | apply Z.leb_le]; reflexivity] |]).
    apply List.Forall_nil.
Defined.

(** C1, as stated, fails: with one-minute intervals and a first packet at
    second 125 the worker's current interval starts at 125, not at 120, and
    125 is the identifier of the first record it sends. *)
Lemma first_interval_start_is_not_aligned :
  (exists s1,
      first_interval Samples.minute_glob Samples.calm_env (start_state None)
        = Next s1 /\
      time (current_interval (tls s1)) = 125 /\
      time (current_interval (tls s1)) <> 125 - 125 mod 60) /\
  (exists s',
      run_worker 8 Samples.minute_glob Samples.four_packets (start_state None)
        = Some s' /\
      reported (trail s') = [125; 180] /\
      ~ Forall (fun t => t mod 60 = 0) (reported (trail s'))).
Proof.
  split.
  - eexists. split; [reflexivity |]. split; [reflexivity |].
    vm_compute. discriminate.
  - eexists. split; [vm_compute; reflexivity |]. split; [reflexivity |].
    intros H. apply Forall_cons in H as [H _]. vm_compute in H. discriminate.
Qed.

End WorkerFacts.

(** ** Merge: choosing the next packet *)

Module MergeFacts.
Import Merge MergeSpec.

(** One iteration of the scan replaces reader [i] by a reader with the same
    packets still to come, and either skips it or compares it with the
    candidate. *)
Lemma choose_step_cases readers c i r :
  readers !! i = Some r ->
  reader_wf r ->
  exists ri,
    reader_wf ri /\ remaining ri = remaining r /\
    (reader_weight ri = reader_weight r /\ handle_of ri = handle_of r) /\
    ((status ri = CORSARO_WDCAP_INTERIM_EOF /\
      choose_step readers c i = (<[i:=ri]> readers, c)) \/
     (status ri = CORSARO_WDCAP_INTERIM_PACKET /\
      choose_step readers c i =
        (<[i:=ri]> readers,
         if c =? -1 then Z.of_nat i
         else match <[i:=ri]> readers !! Z.to_nat c with
              | Some rc =>
                  if nextp_ts ri <? nextp_ts rc then Z.of_nat i else c
              | None => c
              end))).
Proof.
  intros Hi Hwf. unfold choose_step. rewrite Hi.
  destruct (status r) eqn:Hst.
  - (* no packet buffered: read one *)
    unfold corsaro_read_next_packet.
    destruct (source r) as [[| p rest] |] eqn:Hsrc;
      destruct (nextp r) as [b |] eqn:Hnp; simpl.
    all: try solve
      [ exists (set_status r CORSARO_WDCAP_INTERIM_EOF);
        split; [intros H; discriminate H |];
        unfold remaining, reader_weight, handle_of; simpl;
        rewrite Hst, ?Hsrc, ?Hnp;
        split; [reflexivity
               | split; [split; reflexivity | left; split; reflexivity]] ].
    exists (stamp_buffer
              {| uri := uri r; source := Some rest; nextp := Some (Some p);
                 nextp_ts := nextp_ts r; status := status r |}).
    split; [| split; [| split; [| right; split; [reflexivity |]]]].
    4:{ destruct (c =? -1); [reflexivity |].
        destruct (_ !! Z.to_nat c); [| reflexivity].
        simpl. now destruct (_ <? _). }
    + intros _. exists p. split; reflexivity.
    + unfold remaining. simpl. now rewrite Hst, Hsrc, Hnp.
    + unfold reader_weight, handle_of. simpl. now rewrite Hst, Hsrc, Hnp.
  - exists r. split; [exact Hwf |]. split; [reflexivity |].
    split; [now split |].
    right. split; [exact Hst |].
    destruct (c =? -1); [reflexivity |].
    destruct (_ !! Z.to_nat c); [| reflexivity].
    now destruct (_ <? _).
  - exists r. split; [exact Hwf |]. split; [reflexivity |].
    split; [now split |].
    left. split; [exact Hst |].
    now rewrite list_insert_id.
Qed.

Lemma fmap_insert_same {A B} (g : A -> B) (rs : list A) i r ri :
  rs !! i = Some r -> g ri = g r -> g <$> <[i:=ri]> rs = g <$> rs.
Proof.
  intros Hi Hg. rewrite list_fmap_insert, Hg.
  apply list_insert_id. now rewrite list_lookup_fmap, Hi.
Qed.

(** The scan changes no reader's remaining packets. *)
Lemma choose_step_keeps rs c i :
  Forall reader_wf rs ->
  Forall reader_wf (choose_step rs c i).1 /\
  remaining <$> (choose_step rs c i).1 = remaining <$> rs /\
  readers_weight (choose_step rs c i).1 = readers_weight rs /\
  handle_of <$> (choose_step rs c i).1 = handle_of <$> rs.
Proof.
  intros Hwf. destruct (rs !! i) as [r |] eqn:Hi.
  - assert (Hr : reader_wf r) by (eapply Forall_lookup_1; eauto).
    destruct (choose_step_cases rs c i r Hi Hr)
      as (ri & Hwi & Hrem & [Hw Hh] & [[_ ->] | [_ ->]]); simpl.
    all: split; [now apply Forall_insert |].
    all: split; [now apply (fmap_insert_same remaining rs i r) |].
    all: split; [| now apply (fmap_insert_same handle_of rs i r)].
    all: unfold readers_weight; f_equal;
      now apply (fmap_insert_same reader_weight rs i r).
  - unfold choose_step. rewrite Hi. simpl. auto.
Qed.

Lemma choose_fold_keeps idxs : forall rs c,
  Forall reader_wf rs ->
  Forall reader_wf (choose_fold idxs (rs, c)).1 /\
  remaining <$> (choose_fold idxs (rs, c)).1 = remaining <$> rs /\
  readers_weight (choose_fold idxs (rs, c)).1 = readers_weight rs /\
  handle_of <$> (choose_fold idxs (rs, c)).1 = handle_of <$> rs.
Proof.
  induction idxs as [| i idxs IH]; intros rs c Hwf; simpl; [auto |].
  destruct (choose_step_keeps rs c i Hwf) as (H1 & H2 & H3 & H4).
  destruct (choose_step rs c i) as [rs1 c1]. simpl in *.
  destruct (IH rs1 c1 H1) as (K1 & K2 & K3 & K4).
  repeat split; [exact K1 | | |]; congruence.
Qed.

(** The candidate after one more reader has been looked at. *)
Lemma choose_step_cand a rs c :
  (a < length rs)%nat ->
  Forall reader_wf rs ->
  scanned a rs -> cand_ok a rs c ->
  scanned (S a) (choose_step rs c a).1 /\
  cand_ok (S a) (choose_step rs c a).1 (choose_step rs c a).2.
Proof.
  intros Hlen Hwf Hsc Hc.
  destruct (lookup_lt_is_Some_2 rs a Hlen) as [r Ha].
  assert (Hr : reader_wf r) by (eapply Forall_lookup_1; eauto).
  destruct (choose_step_cases rs c a r Ha Hr) as (ri & _ & _ & _ & Hcase).
  assert (Hsame : forall j, (j < a)%nat -> <[a:=ri]> rs !! j = rs !! j)
    by (intros j Hj; apply list_lookup_insert_ne; lia).
  assert (Hnew : <[a:=ri]> rs !! a = Some ri)
    by (now apply list_lookup_insert_eq).
  (* a reader below [S a] is an old one below [a], or the new reader [a] *)
  assert (Hbelow : forall j x, (j < S a)%nat -> <[a:=ri]> rs !! j = Some x ->
            ((j < a)%nat /\ rs !! j = Some x) \/ (j = a /\ x = ri)).
  { intros j x Hj Hx. destruct (Nat.eq_dec j a) as [-> | Hne].
    - right. rewrite Hnew in Hx. split; congruence.
    - left. assert (Hlt : (j < a)%nat) by lia.
      rewrite (Hsame j Hlt) in Hx. now split. }
  assert (Hscanned : status ri <> CORSARO_WDCAP_INTERIM_NOPACKET ->
            scanned (S a) (<[a:=ri]> rs)).
  { intros Hri j x Hj Hx.
    destruct (Hbelow j x Hj Hx) as [[Hlt Hold] | [-> ->]]; eauto. }
  destruct Hcase as [[Hst ->] | [Hst ->]]; simpl.
  - (* reader [a] has run out *)
    split; [apply Hscanned; congruence |].
    destruct Hc as [[-> Hall] | (ic & rc & -> & Hic & Hrc & Hprc & Hmin)].
    + left. split; [reflexivity |]. intros j x Hj Hx.
      destruct (Hbelow j x Hj Hx) as [[Hlt Hold] | [-> ->]]; eauto.
    + right. exists ic, rc. split; [reflexivity |]. split; [lia |].
      split; [now rewrite (Hsame ic Hic) |]. split; [exact Hprc |].
      intros j x Hj Hx Hsx.
      destruct (Hbelow j x Hj Hx) as [[Hlt Hold] | [-> ->]];
        [now apply (Hmin j x) | congruence].
  - (* reader [a] holds a packet *)
    split; [apply Hscanned; congruence |].
    destruct Hc as [[-> Hall] | (ic & rc & -> & Hic & Hrc & Hprc & Hmin)].
    + (* it is the first one that does *)
      simpl. right. exists a, ri. split; [reflexivity |]. split; [lia |].
      split; [exact Hnew |]. split; [exact Hst |].
      intros j x Hj Hx Hsx.
      destruct (Hbelow j x Hj Hx) as [[Hlt Hold] | [-> ->]].
      * specialize (Hall j x Hlt Hold). congruence.
      * split; lia.
    + destruct (Z.eqb_spec (Z.of_nat ic) (-1)) as [| _]; [lia |].
      rewrite Nat2Z.id, (Hsame ic Hic), Hrc.
      destruct (Z.ltb_spec (nextp_ts ri) (nextp_ts rc)) as [Hearlier | Hlater].
      * (* strictly earlier than the candidate: it takes over *)
        right. exists a, ri. split; [reflexivity |]. split; [lia |].
        split; [exact Hnew |]. split; [exact Hst |].
        intros j x Hj Hx Hsx.
        destruct (Hbelow j x Hj Hx) as [[Hlt Hold] | [-> ->]].
        -- destruct (Hmin j x Hlt Hold Hsx) as [Hle _]. split; lia.
        -- split; lia.
      * (* not earlier: the candidate, with its lower index, stays *)
        right. exists ic, rc. split; [reflexivity |]. split; [lia |].
        split; [now rewrite (Hsame ic Hic) |]. split; [exact Hprc |].
        intros j x Hj Hx Hsx.
        destruct (Hbelow j x Hj Hx) as [[Hlt Hold] | [-> ->]].
        -- now apply (Hmin j x).
        -- split; lia.
Qed.

Lemma choose_fold_cand n : forall a rs c,
  (a + n <= length rs)%nat ->
  Forall reader_wf rs ->
  scanned a rs -> cand_ok a rs c ->
  scanned (a + n) (choose_fold (seq a n) (rs, c)).1 /\
  cand_ok (a + n) (choose_fold (seq a n) (rs, c)).1
          (choose_fold (seq a n) (rs, c)).2.
Proof.
  induction n as [| n IH]; intros a rs c Hlen Hwf Hsc Hc; simpl.
  - rewrite Nat.add_0_r. now split.
  - assert (Ha : (a < length rs)%nat) by lia.
    destruct (choose_step_cand a rs c Ha Hwf Hsc Hc) as [Hsc1 Hc1].
    destruct (choose_step_keeps rs c a Hwf) as (Hwf1 & Hrem1 & _ & _).
    assert (Hlen1 : length (choose_step rs c a).1 = length rs).
    { apply (f_equal length) in Hrem1. now rewrite !length_fmap in Hrem1. }
    destruct (choose_step rs c a) as [rs1 c1]. simpl in *.
    replace (a + S n)%nat with (S a + n)%nat by lia.
    apply IH; [lia | assumption ..].
Qed.

Lemma choose_next_merge_packet_fold rs :
  choose_next_merge_packet rs (Z.of_nat (length rs))
  = choose_fold (seq 0 (length rs)) (rs, -1).
Proof. unfold choose_next_merge_packet, choose_fold. now rewrite Nat2Z.id. Qed.

Lemma remaining_packet r :
  reader_wf r ->
  status r = CORSARO_WDCAP_INTERIM_PACKET ->
  exists p, buffered_packet r = Some p /\ nextp_ts r = erf_timestamp p /\
    remaining r = p :: remaining (set_status r CORSARO_WDCAP_INTERIM_NOPACKET).
Proof.
  intros Hwf Hst. destruct (Hwf Hst) as (p & Hb & Hts).
  exists p. split; [exact Hb |]. split; [exact Hts |].
  unfold remaining. rewrite Hst, Hb. simpl.
  unfold buffered_packet in Hb.
  destruct (nextp r) as [[q |] |]; try discriminate.
  now destruct (source r).
Qed.

Lemma Forall_remaining_nil rs :
  Forall (fun r => remaining r = []) rs <->
  Forall (fun l : list packet => l = []) (remaining <$> rs).
Proof. now rewrite Forall_fmap. Qed.

(** The states the merge reaches satisfy [reader_wf]: the opening loop
    sets up readers that hold no packet (see [open_reader_cases] below),
    the scan keeps the property (last part of [choose_scan_spec]), and so
    does the step that follows a write. *)
Lemma write_step_wf rs i rc :
  Forall reader_wf rs ->
  Forall reader_wf (<[i:=set_status rc CORSARO_WDCAP_INTERIM_NOPACKET]> rs).
Proof.
  intros Hwf. apply Forall_insert; [exact Hwf |].
  intros H. discriminate H.
Qed.

(** What the scan returns, and what it leaves in the readers. *)
Lemma choose_scan_spec (rs : list interim_reader) :
  Forall reader_wf rs ->
  let rs' := (choose_next_merge_packet rs (Z.of_nat (length rs))).1 in
  let candind := (choose_next_merge_packet rs (Z.of_nat (length rs))).2 in
  (candind = -1 <-> Forall (fun r => remaining r = []) rs) /\
  (candind <> -1 ->
   exists i rc p,
     candind = Z.of_nat i /\ rs' !! i = Some rc /\
     status rc = CORSARO_WDCAP_INTERIM_PACKET /\
     buffered_packet rc = Some p /\
     forall j r q,
       rs' !! j = Some r ->
       status r = CORSARO_WDCAP_INTERIM_PACKET ->
       buffered_packet r = Some q ->
       erf_timestamp p <= erf_timestamp q /\
       ((j < i)%nat -> erf_timestamp p < erf_timestamp q)) /\
  (forall j r, rs' !! j = Some r ->
     (status r = CORSARO_WDCAP_INTERIM_PACKET <-> remaining r <> [])) /\
  remaining <$> rs' = remaining <$> rs /\
  Forall reader_wf rs'.
Proof.
  intros Hwf rs' candind. subst rs' candind.
  rewrite choose_next_merge_packet_fold.
  destruct (choose_fold_keeps (seq 0 (length rs)) rs (-1) Hwf)
    as (Hwf' & Hrem & _ & _).
  assert (Hlen : length (choose_fold (seq 0 (length rs)) (rs, -1)).1
                 = length rs).
  { apply (f_equal length) in Hrem. now rewrite !length_fmap in Hrem. }
  destruct (choose_fold_cand (length rs) 0 rs (-1)) as [Hsc Hc];
    [lia | exact Hwf | intros j r Hj; lia | left; split; [reflexivity |];
     intros j r Hj; lia |].
  simpl in Hsc, Hc.
  destruct (choose_fold (seq 0 (length rs)) (rs, -1)) as [rs' c].
  simpl in *.
  assert (Hin : forall j r, rs' !! j = Some r -> (j < length rs)%nat).
  { intros j r Hj. apply lookup_lt_Some in Hj. lia. }
  assert (Hstat : forall j r, rs' !! j = Some r ->
            (status r = CORSARO_WDCAP_INTERIM_PACKET <-> remaining r <> [])).
  { intros j r Hj. split.
    - intros Hst. assert (Hr : reader_wf r) by (eapply Forall_lookup_1; eauto).
      destruct (remaining_packet r Hr Hst) as (p & _ & _ & ->). discriminate.
    - intros Hne. specialize (Hsc j r (Hin j r Hj) Hj).
      unfold remaining in Hne. destruct (status r); congruence. }
  assert (Hempty : Forall (fun r => remaining r = []) rs <->
                   Forall (fun r => remaining r = []) rs').
  { rewrite !Forall_remaining_nil. now rewrite Hrem. }
  split; [| split; [| split; [exact Hstat | split; [exact Hrem | exact Hwf']]]].
  - rewrite Hempty. split.
    + intros ->. destruct Hc as [[_ Hall] | (ic & _ & Hic & _)]; [| lia].
      apply Forall_lookup_2. intros j r Hj.
      unfold remaining. now rewrite (Hall j r (Hin j r Hj) Hj).
    + intros Hall.
      destruct Hc as [[-> _] | (ic & rc & _ & _ & Hrc & Hst & _)];
        [reflexivity |].
      pose proof (Forall_lookup_1 _ _ _ _ Hall Hrc) as Hnil. simpl in Hnil.
      apply (Hstat ic rc Hrc) in Hst. contradiction.
  - intros Hne.
    destruct Hc as [[-> _] | (ic & rc & -> & _ & Hrc & Hst & Hmin)];
      [contradiction |].
    assert (Hwrc : reader_wf rc) by (eapply Forall_lookup_1; eauto).
    destruct (Hwrc Hst) as (p & Hbuf & Hts).
    exists ic, rc, p. split; [reflexivity |]. do 3 (split; [assumption |]).
    intros j r q Hj Hsr Hq.
    assert (Hwr : reader_wf r) by (eapply Forall_lookup_1; eauto).
    destruct (Hwr Hsr) as (q' & Hq' & Htq).
    assert (q' = q) by congruence. subst q'.
    destruct (Hmin j r (Hin j r Hj) Hj Hsr) as [Hle Hlt].
    split; [lia |]. intros Hlower. specialize (Hlt Hlower). lia.
Qed.

(** C4.  On readers in a state the merge can reach,
    [choose_next_merge_packet] returns -1 exactly when no reader has a
    packet left.  Otherwise it returns the index of a reader that holds a
    buffered packet whose timestamp is minimal among the readers holding
    one, and every reader with a lower index holds a strictly later
    packet, so among equal minimal timestamps the lowest index wins.  After
    the scan the readers holding a packet are those with a packet left. *)
Theorem choose_next_merge_packet_spec (rs : list interim_reader) :
  Forall reader_wf rs ->
  let rs' := (choose_next_merge_packet rs (Z.of_nat (length rs))).1 in
  let candind := (choose_next_merge_packet rs (Z.of_nat (length rs))).2 in
  (candind = -1 <-> Forall (fun r => remaining r = []) rs) /\
  (candind <> -1 ->
   exists i rc p,
     candind = Z.of_nat i /\ rs' !! i = Some rc /\
     status rc = CORSARO_WDCAP_INTERIM_PACKET /\
     buffered_packet rc = Some p /\
     forall j r q,
       rs' !! j = Some r ->
       status r = CORSARO_WDCAP_INTERIM_PACKET ->
       buffered_packet r = Some q ->
       erf_timestamp p <= erf_timestamp q /\
       ((j < i)%nat -> erf_timestamp p < erf_timestamp q)) /\
  (forall j r, rs' !! j = Some r ->
     (status r = CORSARO_WDCAP_INTERIM_PACKET <-> remaining r <> [])) /\
  remaining <$> rs' = remaining <$> rs /\
  Forall reader_wf rs'.
Proof. exact (choose_scan_spec rs). Qed.

(** ** Merge: the output of the merge loop *)

#[local] Instance ts_le_trans : Transitive ts_le.
Proof. unfold ts_le. intros p q r. lia. Qed.

Lemma written_packets_app evs evs' :
  written_packets (evs ++ evs') = written_packets evs ++ written_packets evs'.
Proof.
  induction evs as [| ev evs IH]; [reflexivity |].
  destruct ev as [| | | [p |] [] | | | | | | | | | |]; simpl; now rewrite ?IH.
Qed.

Lemma written_packets_writes out :
  written_packets ((fun p => WritePacket (Some p) true) <$> out) = out.
Proof.
  induction out as [| p out IH]; [reflexivity |].
  rewrite fmap_cons. simpl. now f_equal.
Qed.

Lemma insert_split {A} (l : list A) i x x' :
  l !! i = Some x ->
  exists l1 l2, l = l1 ++ x :: l2 /\ <[i:=x']> l = l1 ++ x' :: l2.
Proof.
  intros Hi.
  destruct (list_elem_of_split_length l i x Hi) as (l1 & l2 & -> & ->).
  exists l1, l2. split; [reflexivity |].
  rewrite insert_app_r_alt by lia. now rewrite Nat.sub_diag.
Qed.

Lemma concat_insert_perm {A B} (g : A -> list B) (l : list A) i x x' b :
  l !! i = Some x ->
  g x = b :: g x' ->
  concat (g <$> l) ≡ₚ b :: concat (g <$> <[i:=x']> l).
Proof.
  intros Hi Hg.
  destruct (insert_split l i x x' Hi) as (l1 & l2 & -> & ->).
  rewrite !fmap_app, !fmap_cons, !concat_app. simpl. rewrite Hg. simpl.
  symmetry. apply Permutation_middle.
Qed.

Lemma weight_insert (l : list interim_reader) i x x' :
  l !! i = Some x ->
  (readers_weight (<[i:=x']> l) + reader_weight x
   = readers_weight l + reader_weight x')%nat.
Proof.
  intros Hi. unfold readers_weight.
  destruct (insert_split l i x x' Hi) as (l1 & l2 & -> & ->).
  rewrite !fmap_app, !fmap_cons, !sum_list_with_app. simpl. lia.
Qed.

Lemma weight_after_write rc :
  status rc = CORSARO_WDCAP_INTERIM_PACKET ->
  (reader_weight (set_status rc CORSARO_WDCAP_INTERIM_NOPACKET)
   < reader_weight rc)%nat.
Proof.
  intros Hst. unfold reader_weight. simpl. rewrite Hst.
  destruct (source rc), (nextp rc); lia.
Qed.

(** The chosen packet is no later than any packet still to come. *)
Lemma chosen_is_least rs1 (i : nat) p :
  Forall (fun r => StronglySorted ts_le (remaining r)) rs1 ->
  (forall j r, rs1 !! j = Some r ->
     (status r = CORSARO_WDCAP_INTERIM_PACKET <-> remaining r <> [])) ->
  (forall j r q,
      rs1 !! j = Some r ->
      status r = CORSARO_WDCAP_INTERIM_PACKET ->
      buffered_packet r = Some q ->
      erf_timestamp p <= erf_timestamp q /\
      ((j < i)%nat -> erf_timestamp p < erf_timestamp q)) ->
  Forall (ts_le p) (concat (remaining <$> rs1)).
Proof.
  intros Hsorted Hstat Hmin.
  apply Forall_concat, Forall_fmap, Forall_lookup_2. intros j r Hj. simpl.
  pose proof (Forall_lookup_1 _ _ _ _ Hsorted Hj) as Hs. simpl in Hs.
  destruct (remaining r) as [| q t] eqn:Hrem; [constructor |].
  assert (Hst : status r = CORSARO_WDCAP_INTERIM_PACKET)
    by (apply (Hstat j r Hj); rewrite Hrem; discriminate).
  assert (Hb : buffered_packet r = Some q).
  { unfold remaining in Hrem. rewrite Hst in Hrem.
    destruct (buffered_packet r); [| discriminate].
    now injection Hrem as -> _. }
  apply StronglySorted_inv in Hs as [_ Hall].
  destruct (Hmin j r q Hj Hst Hb) as [Hle _].
  constructor; [exact Hle |].
  eapply Forall_impl; [exact Hall |]. unfold ts_le in *. intros; lia.
Qed.

Lemma concat_all_nil {A} (ls : list (list A)) :
  Forall (fun l => l = []) ls -> concat ls = [].
Proof. induction 1 as [| l ls -> _ IH]; simpl; auto. Qed.

(** With every write succeeding, the loop runs until no reader has a
    packet left; what it writes is in timestamp order and is a
    rearrangement of what the readers had to deliver. *)
Lemma merge_loop_sorted_perm env :
  (forall k, write_packet env k = true) ->
  forall fuel rs k evs,
    Forall reader_wf rs ->
    Forall (fun r => StronglySorted ts_le (remaining r)) rs ->
    (readers_weight rs < fuel)%nat ->
    exists out rs',
      merge_loop fuel env (Z.of_nat (length rs)) k rs evs
      = Some (rs', evs ++ ((fun p => WritePacket (Some p) true) <$> out), true)
      /\ StronglySorted ts_le out
      /\ out ≡ₚ concat (remaining <$> rs)
      /\ length rs' = length rs.
Proof.
  intros Hw. induction fuel as [| fuel IH]; intros rs k evs Hwf Hsorted Hfuel;
    [lia |].
  simpl.
  pose proof (choose_scan_spec rs Hwf) as Hscan.
  destruct (choose_fold_keeps (seq 0 (length rs)) rs (-1) Hwf)
    as (_ & _ & Hweight & _).
  rewrite <- choose_next_merge_packet_fold in Hweight.
  destruct (choose_next_merge_packet rs (Z.of_nat (length rs))) as [rs1 c].
  simpl in Hscan, Hweight.
  destruct Hscan as (Hnone & Hsome & Hstat & Hrem & Hwf1).
  assert (Hlen1 : length rs1 = length rs).
  { apply (f_equal length) in Hrem. now rewrite !length_fmap in Hrem. }
  destruct (Z.eqb_spec c (-1)) as [Hc | Hc].
  - exists [], rs1. rewrite fmap_nil, app_nil_r.
    split; [reflexivity |]. split; [constructor |]. split; [| exact Hlen1].
    rewrite concat_all_nil; [reflexivity |].
    apply Forall_remaining_nil, Hnone, Hc.
  - destruct (Hsome Hc) as (i & rc & p & -> & Hrc & Hst & Hbuf & Hmin).
    rewrite Nat2Z.id, Hrc, Hw, Hbuf.
    set (rc' := set_status rc CORSARO_WDCAP_INTERIM_NOPACKET).
    assert (Hrcwf : reader_wf rc) by (eapply Forall_lookup_1; eauto).
    destruct (remaining_packet rc Hrcwf Hst) as (p' & Hbuf' & _ & Hrest).
    assert (p' = p) by congruence. subst p'. fold rc' in Hrest.
    assert (Hsorted1 :
      Forall (fun r => StronglySorted ts_le (remaining r)) rs1).
    { apply Forall_fmap. rewrite Hrem. now apply Forall_fmap. }
    pose proof (Forall_lookup_1 _ _ _ _ Hsorted1 Hrc) as Hsrc. simpl in Hsrc.
    rewrite Hrest in Hsrc. apply StronglySorted_inv in Hsrc as [Htail _].
    destruct (IH (<[i:=rc']> rs1) (S k)
                 (evs ++ [WritePacket (Some p) true]))
      as (out & rs' & Hrun & Hso & Hperm & Hlen').
    + now apply write_step_wf.
    + now apply Forall_insert.
    + pose proof (weight_insert rs1 i rc rc' Hrc) as Hwi.
      pose proof (weight_after_write rc Hst) as Hlt. fold rc' in Hlt. lia.
    + rewrite length_insert, Hlen1 in Hrun, Hlen'.
      pose proof (concat_insert_perm remaining rs1 i rc rc' p Hrc Hrest)
        as Hp1.
      assert (Hleast : Forall (ts_le p) (concat (remaining <$> rs1)))
        by (now apply (chosen_is_least rs1 i p)).
      exists (p :: out), rs'. split; [| split; [| split; [| exact Hlen']]].
      * rewrite Hrun, fmap_cons, <- app_assoc. reflexivity.
      * constructor; [exact Hso |].
        rewrite Hp1 in Hleast. apply Forall_cons in Hleast as [_ Hleast].
        now rewrite Hperm.
      * rewrite <- Hrem, Hp1. now constructor.
Qed.

(** ** Merge: a whole merge *)

Section WholeMerge.

Variable derive_output_name : Z -> Z -> Z -> Z -> string.
Variable env : merge_env.
Variable time : Z.

Lemma open_reader_calls i :
  written_packets (open_reader derive_output_name env time i).2 = [].
Proof.
  unfold open_reader.
  now destruct (create_trace_reader env _).
Qed.

(** The opening loop touches readers [i .. i+n-1] only, writes no packet,
    and when it is not left early each of these readers is as
    [open_reader] sets it up. *)
Lemma open_readers_spec n : forall i readers evs,
  (i + n <= length readers)%nat ->
  let res := open_readers derive_output_name env time n i readers evs in
  length res.1.1 = length readers /\
  written_packets res.1.2 = written_packets evs /\
  (forall j, (j < i)%nat -> res.1.1 !! j = readers !! j) /\
  (res.2 = true ->
   forall j, (i <= j < i + n)%nat ->
     res.1.1 !! j = Some (opened_reader derive_output_name env time j)).
Proof.
  induction n as [| n IH]; intros i readers evs Hlen; simpl.
  - repeat split; auto. intros _ j Hj. lia.
  - pose proof (open_reader_calls i) as Hcalls.
    unfold opened_reader in *.
    destruct (open_reader derive_output_name env time i) as [r calls] eqn:Hor.
    simpl in Hcalls.
    assert (Hgo :
      let res := open_readers derive_output_name env time n (S i)
                   (<[i:=r]> readers) (evs ++ calls) in
      length res.1.1 = length readers /\
      written_packets res.1.2 = written_packets evs /\
      (forall j, (j < i)%nat -> res.1.1 !! j = readers !! j) /\
      (res.2 = true ->
       forall j, (i <= j < i + S n)%nat ->
         res.1.1 !! j = Some (open_reader derive_output_name env time j).1)).
    { destruct (IH (S i) (<[i:=r]> readers) (evs ++ calls))
        as (H1 & H2 & H3 & H4);
        [rewrite length_insert; lia |].
      rewrite length_insert in H1.
      rewrite written_packets_app, Hcalls, app_nil_r in H2.
      split; [exact H1 |]. split; [exact H2 |]. split.
      - intros j Hj. rewrite H3 by lia. apply list_lookup_insert_ne. lia.
      - intros Hok j Hj. destruct (Nat.eq_dec j i) as [-> | Hne].
        + rewrite H3 by lia. rewrite Hor. simpl.
          apply list_lookup_insert_eq. lia.
        + apply H4; [exact Hok | lia]. }
    destruct (source r) as [pkts |]; [destruct (nextp r) |]; try exact Hgo.
    simpl. rewrite length_insert, written_packets_app, Hcalls, app_nil_r.
    repeat split; auto; [| discriminate].
    intros j Hj. apply list_lookup_insert_ne. lia.
Qed.

Lemma open_readers_ok n : forall i readers evs,
  (forall j, trace_create_packet env j = true) ->
  (open_readers derive_output_name env time n i readers evs).2 = true.
Proof.
  induction n as [| n IH]; intros i readers evs Hpk; simpl; [reflexivity |].
  unfold open_reader.
  destruct (create_trace_reader env _); simpl; rewrite ?Hpk; now apply IH.
Qed.

Lemma opened_reader_remaining i :
  trace_create_packet env i = true ->
  remaining (opened_reader derive_output_name env time i)
  = interim_packets derive_output_name env time i /\
  reader_wf (opened_reader derive_output_name env time i).
Proof.
  intros Hpk. unfold opened_reader, open_reader, interim_packets, remaining.
  destruct (create_trace_reader env _); simpl; rewrite ?Hpk; split; auto;
    intros H; discriminate H.
Qed.

Lemma cleanup_readers_writes n : forall i rs,
  written_packets (cleanup_readers n i rs) = [].
Proof.
  induction n as [| n IH]; intros i rs; simpl; [reflexivity |].
  destruct (rs !! i) as [r |]; [| apply IH].
  rewrite written_packets_app, IH, app_nil_r. unfold cleanup_reader.
  now destruct (nextp r), (source r).
Qed.

Lemma write_stats_writes glob interval :
  written_packets (write_stats derive_output_name glob env interval) = [].
Proof.
  unfold write_stats. destruct (writestats glob); [| reflexivity].
  destruct (stats_fopen env _); [| reflexivity].
  now destruct (thread_lines _ _ _ _).
Qed.

End WholeMerge.

(** C2.  When every interim file can be read, the output file can be
    created and every write succeeds, the merge loop runs to its end, and
    the merge returns 0 unless the marker file cannot be opened; the
    packets it writes are in non-decreasing timestamp order and are
    exactly the packets of the interim files, each as often as it occurs
    there, provided each interim file is in non-decreasing timestamp
    order. *)
Theorem merged_output_sorted_and_complete
    (derive_output_name : Z -> Z -> Z -> Z -> string)
    (glob : wdcap_global) (env : merge_env)
    (readers : list interim_reader) (interval : corsaro_wdcap_interval) :
  Z.of_nat (length readers) = threads glob ->
  (forall i, trace_create_packet env i = true) ->
  create_trace_writer env (derive_output_name (timestamp interval) (-1) 1 0)
    = true ->
  (forall k, write_packet env k = true) ->
  (forall i, (i < length readers)%nat ->
     Sorted ts_le
       (interim_packets derive_output_name env (timestamp interval) i)) ->
  exists rs' evs,
    write_merged_output derive_output_name glob env readers interval
      = Some (if done_fopen env
                   (derive_output_name (timestamp interval) (-1) 0 1)
              then Returns 0 else FcloseNull, rs', evs) /\
    StronglySorted ts_le (written_packets evs) /\
    written_packets evs ≡ₚ
      concat (interim_packets derive_output_name env (timestamp interval)
                <$> seq 0 (length readers)).
Proof.
  intros Hn Hpk Hcw Hw Hsorted.
  unfold write_merged_output, merge_body.
  assert (Hthreads : Z.to_nat (threads glob) = length readers) by lia.
  rewrite Hthreads.
  pose proof (open_readers_spec derive_output_name env (timestamp interval)
                (length readers) 0 readers [] ltac:(lia)) as Hopen.
  pose proof (open_readers_ok derive_output_name env (timestamp interval)
                (length readers) 0 readers [] Hpk) as Hok.
  destruct (open_readers derive_output_name env (timestamp interval)
              (length readers) 0 readers []) as [[rs1 evs1] ok].
  simpl in Hopen, Hok. subst ok.
  destruct Hopen as (Hlen1 & Hwr1 & _ & Hrs1). specialize (Hrs1 eq_refl).
  assert (Hall : rs1 = opened_reader derive_output_name env (timestamp interval)
                         <$> seq 0 (length readers)).
  { apply list_eq. intros j. rewrite list_lookup_fmap.
    destruct (Nat.lt_ge_cases j (length readers)) as [Hj | Hj].
    - rewrite Hrs1 by lia. now rewrite lookup_seq_lt.
    - rewrite lookup_ge_None_2 by lia.
      now rewrite lookup_seq_ge. }
  assert (Hrem : remaining <$> rs1
                 = interim_packets derive_output_name env (timestamp interval)
                     <$> seq 0 (length readers)).
  { rewrite Hall, <- list_fmap_compose. apply list_fmap_ext.
    intros j i _. simpl. now apply opened_reader_remaining. }
  assert (Hwf : Forall reader_wf rs1).
  { rewrite Hall. apply Forall_fmap, Forall_forall. intros i _. simpl.
    now apply opened_reader_remaining. }
  assert (Hso : Forall (fun r => StronglySorted ts_le (remaining r)) rs1).
  { apply Forall_fmap. rewrite Hrem. apply Forall_fmap, Forall_forall.
    intros i Hi%elem_of_seq. simpl.
    apply Sorted_StronglySorted; [apply ts_le_trans |]. apply Hsorted. lia. }
  rewrite Hcw, <- Hn, <- Hlen1.
  destruct (merge_loop_sorted_perm env Hw (S (readers_weight rs1)) rs1 0%nat
              (evs1 ++ [CreateWriter
                          (derive_output_name (timestamp interval) (-1) 1 0)
                          true])
              Hwf Hso ltac:(lia))
    as (out & rs' & -> & Hout & Hperm & _).
  cbv zeta.
  destruct (done_fopen env _); cbn [andb negb];
    (eexists _, _; split; [reflexivity |];
     rewrite !written_packets_app, Hwr1, written_packets_writes,
       write_stats_writes, ?cleanup_readers_writes; simpl;
     rewrite !app_nil_r;
     split; [exact Hout |]; now rewrite Hperm, Hrem, Hlen1).
Qed.

(** ** Merge: failures, the completion marker and the clean-up *)

Lemma failures_app evs evs' :
  failures (evs ++ evs') = failures evs ++ failures evs'.
Proof. apply List.filter_app. Qed.

Lemma done_markers_app evs evs' :
  done_markers (evs ++ evs') = done_markers evs ++ done_markers evs'.
Proof. apply omap_app. Qed.

Lemma stats_files_app evs evs' :
  stats_files (evs ++ evs') = stats_files evs ++ stats_files evs'.
Proof. apply omap_app. Qed.

Lemma writes_no_marker ws :
  Forall (fun ev => is_write ev = true) ws ->
  done_markers ws = [] /\ stats_files ws = [].
Proof.
  induction 1 as [| ev ws Hev _ [IH1 IH2]]; [now split |].
  destruct ev; try discriminate. simpl. now split.
Qed.

(** The merge loop returns within the bound given by the readers' weight,
    whatever the writes answer; it issues writes only, it keeps every
    reader's handles, and it ends with the success flag exactly when no
    write failed. *)
Lemma merge_loop_runs env : forall fuel rs k evs,
  Forall reader_wf rs ->
  (readers_weight rs < fuel)%nat ->
  exists rs' ws b,
    merge_loop fuel env (Z.of_nat (length rs)) k rs evs
      = Some (rs', evs ++ ws, b)
    /\ handle_of <$> rs' = handle_of <$> rs
    /\ Forall (fun ev => is_write ev = true) ws
    /\ (if b then failures ws = [] else failures ws <> []).
Proof.
  induction fuel as [| fuel IH]; intros rs k evs Hwf Hfuel; [lia |].
  simpl.
  pose proof (choose_scan_spec rs Hwf) as Hscan.
  destruct (choose_fold_keeps (seq 0 (length rs)) rs (-1) Hwf)
    as (_ & _ & Hweight & Hhandles).
  rewrite <- choose_next_merge_packet_fold in Hweight, Hhandles.
  destruct (choose_next_merge_packet rs (Z.of_nat (length rs))) as [rs1 c].
  simpl in Hscan, Hweight, Hhandles.
  destruct Hscan as (_ & Hsome & _ & Hrem & Hwf1).
  assert (Hlen1 : length rs1 = length rs).
  { apply (f_equal length) in Hrem. now rewrite !length_fmap in Hrem. }
  destruct (Z.eqb_spec c (-1)) as [Hc | Hc].
  - exists rs1, [], true. rewrite app_nil_r.
    split; [reflexivity |]. split; [exact Hhandles |].
    split; [constructor | reflexivity].
  - destruct (Hsome Hc) as (i & rc & p & -> & Hrc & Hst & Hbuf & _).
    rewrite Nat2Z.id, Hrc.
    destruct (write_packet env k) eqn:Hwk.
    + set (rc' := set_status rc CORSARO_WDCAP_INTERIM_NOPACKET).
      destruct (IH (<[i:=rc']> rs1) (S k)
                   (evs ++ [WritePacket (buffered_packet rc) true]))
        as (rs' & ws & b & Hrun & Hh & Hws & Hb).
      * now apply write_step_wf.
      * pose proof (weight_insert rs1 i rc rc' Hrc) as Hwi.
        pose proof (weight_after_write rc Hst) as Hlt. fold rc' in Hlt. lia.
      * rewrite length_insert, Hlen1 in Hrun.
        exists rs', (WritePacket (buffered_packet rc) true :: ws), b.
        split; [| split; [| split]].
        -- rewrite Hrun, <- app_assoc. reflexivity.
        -- rewrite Hh, <- Hhandles.
           now apply (fmap_insert_same handle_of rs1 i rc).
        -- now constructor.
        -- exact Hb.
    + exists rs1, [WritePacket (buffered_packet rc) false], false.
      split; [reflexivity |]. split; [exact Hhandles |].
      split; [now repeat constructor | discriminate].
Qed.

Section OpeningCalls.

Variable derive_output_name : Z -> Z -> Z -> Z -> string.
Variable env : merge_env.
Variable time : Z.

Lemma open_reader_cases i :
  let name := derive_output_name time (Z.of_nat i) 1 0 in
  let r := (open_reader derive_output_name env time i).1 in
  let calls := (open_reader derive_output_name env time i).2 in
  reader_wf r /\
  ((calls = [CreateReader i name false] /\
    handle_of r = (name, false, false)) \/
   (calls = [CreateReader i name true; CreatePacket i true] /\
    handle_of r = (name, true, true)) \/
   (calls = [CreateReader i name true; CreatePacket i false] /\
    handle_of r = (name, true, false))).
Proof.
  unfold open_reader.
  destruct (create_trace_reader env _); simpl.
  - destruct (trace_create_packet env i); simpl;
      (split; [intros H; discriminate H | auto]).
  - split; [intros H; discriminate H | auto].
Qed.

Lemma open_readers_calls n : forall i readers evs,
  (i + n <= length readers)%nat ->
  let res := open_readers derive_output_name env time n i readers evs in
  exists calls,
    res.1.2 = evs ++ calls /\
    Forall (opening_call i (i + n)) calls /\
    (if res.2 then failures calls = [] else failures calls <> []) /\
    opened_recorded calls (handle_of <$> res.1.1).
Proof.
  induction n as [| n IH]; intros i readers evs Hlen; simpl.
  - exists []. rewrite app_nil_r. repeat split; auto.
    intros j name Hin. now apply elem_of_nil in Hin.
  - pose proof (open_reader_cases i) as (Hwr & Hcases). simpl in Hcases.
    destruct (open_reader derive_output_name env time i) as [r calls0].
    simpl in Hwr, Hcases.
    set (name := derive_output_name time (Z.of_nat i) 1 0) in *.
    assert (Hat : forall rs, length rs = length readers ->
              (forall j, (j < S i)%nat -> rs !! j = <[i:=r]> readers !! j) ->
              (handle_of <$> rs) !! i = Some (handle_of r)).
    { intros rs _ Hsame. rewrite list_lookup_fmap, Hsame by lia.
      rewrite list_lookup_insert_eq by lia. reflexivity. }
    assert (Hstop :
      calls0 = [CreateReader i name true; CreatePacket i false] ->
      handle_of r = (name, true, false) ->
      exists calls,
        evs ++ calls0 = evs ++ calls /\
        Forall (opening_call i (i + S n)) calls /\
        failures calls <> [] /\
        opened_recorded calls (handle_of <$> <[i:=r]> readers)).
    { intros -> Hh. eexists. split; [reflexivity |].
      split; [repeat constructor; simpl; lia |].
      split; [discriminate |].
      intros j nm Hin.
      apply elem_of_cons in Hin as [Heq | Hin];
        [| apply elem_of_cons in Hin as [Heq | Hin];
           [discriminate | now apply elem_of_nil in Hin]].
      injection Heq as -> ->. exists false.
      rewrite list_lookup_fmap, list_lookup_insert_eq by lia.
      simpl. rewrite Hh. split; [reflexivity |].
      intros Hin. apply elem_of_cons in Hin as [Heq | Hin]; [discriminate |].
      apply elem_of_cons in Hin as [Heq | Hin]; [discriminate |].
      now apply elem_of_nil in Hin. }
    assert (Hgo :
      failures calls0 = [] ->
      (forall j nm, CreateReader j nm true ∈ calls0 ->
         j = i /\ nm = name /\ exists b, handle_of r = (name, true, b) /\
           (CreatePacket i true ∈ calls0 -> b = true)) ->
      Forall (opening_call i (S i)) calls0 ->
      let res := open_readers derive_output_name env time n (S i)
                   (<[i:=r]> readers) (evs ++ calls0) in
      exists calls,
        res.1.2 = evs ++ calls /\
        Forall (opening_call i (i + S n)) calls /\
        (if res.2 then failures calls = [] else failures calls <> []) /\
        opened_recorded calls (handle_of <$> res.1.1)).
    { intros Hf0 Hrec0 Hrange0.
      pose proof (open_readers_spec derive_output_name env time n (S i)
                    (<[i:=r]> readers) (evs ++ calls0)) as Hspec.
      destruct (IH (S i) (<[i:=r]> readers) (evs ++ calls0))
        as (calls & Hev & Hrange & Hfail & Hrec);
        [rewrite length_insert; lia |].
      destruct Hspec as (Hl & _ & Hsame & _); [rewrite length_insert; lia |].
      rewrite length_insert in Hl.
      simpl. exists (calls0 ++ calls).
      split; [now rewrite Hev, app_assoc |].
      split.
      { apply Forall_app. split.
        - eapply Forall_impl; [exact Hrange0 |].
          intros [] Hx; simpl in *; try lia; exact Hx.
        - eapply Forall_impl; [exact Hrange |].
          intros [] Hx; simpl in *; try lia; exact Hx. }
      split.
      { rewrite failures_app, Hf0. simpl.
        destruct (open_readers derive_output_name env time n (S i)
                    (<[i:=r]> readers) (evs ++ calls0)).2; exact Hfail. }
      intros j nm Hin. apply elem_of_app in Hin as [Hin | Hin].
      - destruct (Hrec0 j nm Hin) as (-> & -> & b & Hh & Hb).
        exists b. rewrite (Hat _ Hl Hsame), Hh. split; [reflexivity |].
        intros Hin'. apply elem_of_app in Hin' as [Hin' | Hin']; [auto |].
        pose proof (proj1 (Forall_forall _ _) Hrange _ Hin') as Hr.
        simpl in Hr. lia.
      - destruct (Hrec j nm Hin) as (b & Hlook & Hb).
        exists b. split; [exact Hlook |].
        intros Hin'. apply elem_of_app in Hin' as [Hin' | Hin']; [| auto].
        pose proof (proj1 (Forall_forall _ _) Hrange0 _ Hin') as Hr.
        pose proof (proj1 (Forall_forall _ _) Hrange _ Hin) as Hr'.
        simpl in Hr, Hr'. lia. }
    destruct Hcases as [[-> Hh] | [[-> Hh] | [-> Hh]]].
    + (* the interim file could not be opened *)
      assert (Hsrc : source r = None).
      { unfold handle_of in Hh. destruct (source r); [discriminate | auto]. }
      rewrite Hsrc. apply Hgo; [reflexivity | | repeat constructor; simpl; lia].
      intros j nm Hin. apply elem_of_cons in Hin as [Heq | Hin];
        [discriminate | now apply elem_of_nil in Hin].
    + (* opened, with its packet buffer *)
      assert (Hsrc : exists pk b, source r = Some pk /\ nextp r = Some b).
      { unfold handle_of in Hh. destruct (source r), (nextp r);
          try discriminate. eauto. }
      destruct Hsrc as (pk & b & -> & ->).
      apply Hgo; [reflexivity | | repeat constructor; simpl; lia].
      intros j nm Hin. apply elem_of_cons in Hin as [Heq | Hin].
      * injection Heq as -> ->. split; [reflexivity |]. split; [reflexivity |].
        exists true. now split.
      * apply elem_of_cons in Hin as [Heq | Hin];
          [discriminate | now apply elem_of_nil in Hin].
    + (* opened, but no packet buffer: goto fail *)
      assert (Hsrc : exists pk, source r = Some pk /\ nextp r = None).
      { unfold handle_of in Hh. destruct (source r), (nextp r);
          try discriminate. eauto. }
      destruct Hsrc as (pk & -> & ->). simpl.
      now apply Hstop.
Qed.

End OpeningCalls.

Section MergeShape.

Variable derive_output_name : Z -> Z -> Z -> Z -> string.
Variable glob : wdcap_global.
Variable env : merge_env.
Variable readers : list interim_reader.
Variable interval : corsaro_wdcap_interval.

(** The merging thread allocates one reader per processing thread. *)
Hypothesis reader_per_thread : Z.of_nat (length readers) = threads glob.

(** A merge always ends, and its events are: the calls of the opening
    loop; the creation of the output file and the writes; the destruction
    of the writer if one was created; the statistics block; if the merge
    succeeded, the opening of the marker file, with which the merge ends
    when it fails; the clean-up loop; the final log line. *)
Lemma write_merged_output_shape :
  exists calls middle rs' (success writer_set : bool),
    write_merged_output derive_output_name glob env readers interval
    = (if success
          && negb (done_fopen env
                     (derive_output_name (timestamp interval) (-1) 0 1))
       then
         Some (FcloseNull, rs',
               (calls ++ middle)
               ++ (if writer_set then [DestroyWriter] else [])
               ++ write_stats derive_output_name glob env interval
               ++ [DoneFileFailed
                     (derive_output_name (timestamp interval) (-1) 0 1)])
       else
         Some (Returns (if success then 0 else -1), rs',
               (calls ++ middle)
               ++ (if writer_set then [DestroyWriter] else [])
               ++ write_stats derive_output_name glob env interval
               ++ (if success
                   then [DoneFile
                           (derive_output_name (timestamp interval) (-1) 0 1)]
                   else [])
               ++ cleanup_readers (length readers) 0 rs'
               ++ [LogDoneMerging (timestamp interval)]))
    /\ length rs' = length readers
    /\ Forall (opening_call 0 (length readers)) calls
    /\ Forall middle_call middle
    /\ (if success then failures (calls ++ middle) = []
        else failures (calls ++ middle) <> [])
    /\ opened_recorded calls (handle_of <$> rs').
Proof.
  unfold write_merged_output, merge_body.
  assert (Hthreads : Z.to_nat (threads glob) = length readers) by lia.
  rewrite Hthreads.
  pose proof (open_readers_spec derive_output_name env (timestamp interval)
                (length readers) 0 readers [] ltac:(lia)) as Hspec.
  pose proof (open_readers_calls derive_output_name env (timestamp interval)
                (length readers) 0 readers [] ltac:(lia)) as Hcalls.
  destruct (open_readers derive_output_name env (timestamp interval)
              (length readers) 0 readers []) as [[rs1 evs1] ok].
  simpl in Hspec, Hcalls.
  destruct Hspec as (Hlen1 & _ & _ & Hfresh).
  destruct Hcalls as (calls & -> & Hrange & Hfail & Hrec).
  cbv beta iota.
  destruct ok.
  - set (outname := derive_output_name (timestamp interval) (-1) 1 0).
    destruct (create_trace_writer env outname) eqn:Hcw.
    + (* the merge loop runs *)
      assert (Hwf1 : Forall reader_wf rs1).
      { apply Forall_lookup_2. intros j r Hj.
        assert (Hlt : (j < length readers)%nat)
          by (apply lookup_lt_Some in Hj; lia).
        rewrite (Hfresh eq_refl j) in Hj by lia. injection Hj as <-.
        apply (open_reader_cases derive_output_name env
                 (timestamp interval) j). }
      rewrite <- reader_per_thread, <- Hlen1.
      destruct (merge_loop_runs env (S (readers_weight rs1)) rs1 0%nat
                  (calls ++ [CreateWriter outname true]) Hwf1 ltac:(lia))
        as (rs' & ws & b & -> & Hh & Hws & Hb).
      rewrite Hlen1.
      exists calls, (CreateWriter outname true :: ws), rs', b, true.
      assert (Hlen' : length rs' = length rs1).
      { apply (f_equal length) in Hh. now rewrite !length_fmap in Hh. }
      split; [| split; [lia | split; [exact Hrange | split; [| split]]]].
      * now rewrite <- (app_assoc calls [CreateWriter outname true] ws).
      * constructor; [right; eauto |].
        eapply Forall_impl; [exact Hws |]. intros ev Hev. now left.
      * rewrite failures_app in *. simpl. rewrite Hfail. simpl.
        exact Hb.
      * now rewrite Hh.
    + exists calls, [CreateWriter outname false], rs1, false, false.
      split; [reflexivity |]. split; [exact Hlen1 |].
      split; [exact Hrange |].
      split; [constructor; [right; eauto | constructor] |].
      split; [| exact Hrec].
      rewrite failures_app. simpl. intros H.
      apply app_eq_nil in H as [_ H]. discriminate H.
  - exists calls, [], rs1, false, false. rewrite app_nil_r.
    split; [reflexivity |]. split; [exact Hlen1 |].
    split; [exact Hrange |]. split; [constructor |].
    split; [exact Hfail | exact Hrec].
Qed.

End MergeShape.

Lemma all_in_elem ph evs ev : all_in ph evs -> ev ∈ evs -> phase_of ev = ph.
Proof. intros H Hin. exact (proj1 (Forall_forall _ _) H ev Hin). Qed.

Lemma failures_outside ph evs :
  all_in ph evs -> ph <> Opening -> ph <> Writing -> failures evs = [].
Proof.
  intros H H1 H2. induction H as [| ev evs Hev _ IH]; [reflexivity |].
  destruct ev as [| ? [] | ? [] | ? [] | | | | | | | | | |];
    simpl in Hev; try congruence; exact IH.
Qed.

Lemma done_markers_outside ph evs :
  all_in ph evs -> ph <> Marker -> done_markers evs = [].
Proof.
  intros H H1. induction H as [| ev evs Hev _ IH]; [reflexivity |].
  destruct ev; simpl in Hev; try congruence; exact IH.
Qed.

Lemma stats_files_outside ph evs :
  all_in ph evs -> ph <> Statistics -> stats_files evs = [].
Proof.
  intros H H1. induction H as [| ev evs Hev _ IH]; [reflexivity |].
  destruct ev; simpl in Hev; try congruence; exact IH.
Qed.

Lemma opening_calls_phase lo hi calls :
  Forall (opening_call lo hi) calls -> all_in Opening calls.
Proof.
  intros H. eapply Forall_impl; [exact H |].
  intros []; simpl; intros; try reflexivity; contradiction.
Qed.

Lemma middle_calls_phase middle :
  Forall middle_call middle -> all_in Writing middle.
Proof.
  intros H. eapply Forall_impl; [exact H |].
  intros ev [Hw | (name & created & ->)]; [| reflexivity].
  destruct ev; simpl in *; try reflexivity; discriminate.
Qed.

Lemma closing_phase (writer_set : bool) :
  all_in Closing (if writer_set then [DestroyWriter] else []).
Proof. destruct writer_set; repeat constructor. Qed.

Lemma marker_phase (success : bool) name :
  all_in Marker (if success then [DoneFile name] else []).
Proof. destruct success; repeat constructor. Qed.

Lemma write_stats_phase derive_output_name glob env interval :
  all_in Statistics (write_stats derive_output_name glob env interval).
Proof.
  unfold write_stats. destruct (writestats glob); [| constructor].
  destruct (stats_fopen env _); [| repeat constructor].
  destruct (thread_lines _ _ _ _). repeat constructor.
Qed.

Lemma cleanup_readers_phase n :
  forall i rs, all_in Cleanup (cleanup_readers n i rs).
Proof.
  induction n as [| n IH]; intros i rs; simpl; [constructor |].
  destruct (rs !! i) as [r |]; [| apply IH].
  apply Forall_app. split; [| apply IH].
  unfold cleanup_reader. destruct (nextp r), (source r); repeat constructor.
Qed.


Lemma marker_failures_app evs evs' :
  marker_failures (evs ++ evs') = marker_failures evs ++ marker_failures evs'.
Proof. apply omap_app. Qed.

Lemma marker_failures_outside ph evs :
  all_in ph evs -> ph <> Marker -> marker_failures evs = [].
Proof.
  intros H H1. induction H as [| ev evs Hev _ IH]; [reflexivity |].
  destruct ev; simpl in Hev; try congruence; exact IH.
Qed.

(** The three outcomes of a merge.  Either it ran to the end of the merge
    loop and opened the marker file: it returns 0.  Or it ran to the end
    of the merge loop and could not open the marker file: it ends in
    [fclose], and the failed [fopen] is its last event.  Or the allocation
    of a packet buffer, the creation of the writer or a write failed: it
    returns -1 and does not try to create the marker. *)
Lemma done_marker_outcomes
    (derive_output_name : Z -> Z -> Z -> Z -> string)
    (glob : wdcap_global) (env : merge_env)
    (readers : list interim_reader) (interval : corsaro_wdcap_interval) :
  Z.of_nat (length readers) = threads glob ->
  let marker := derive_output_name (timestamp interval) (-1) 0 1 in
  exists r rs' evs,
    write_merged_output derive_output_name glob env readers interval
      = Some (r, rs', evs) /\
    ((r = Returns 0 /\ failures evs = [] /\ done_fopen env marker = true /\
      done_markers evs = [marker] /\ marker_failures evs = []) \/
     (r = FcloseNull /\ failures evs = [] /\ done_fopen env marker = false /\
      done_markers evs = [] /\ marker_failures evs = [marker] /\
      last evs = Some (DoneFileFailed marker) /\
      Forall (fun ev => phase_of ev <> Cleanup) evs) \/
     (r = Returns (-1) /\ failures evs <> [] /\
      done_markers evs = [] /\ marker_failures evs = [])).
Proof.
  intros Hn marker.
  destruct (write_merged_output_shape derive_output_name glob env readers
              interval Hn)
    as (calls & middle & rs' & success & writer_set & Hrun & _ & Hcalls
        & Hmiddle & Hfail & _).
  fold marker in Hrun.
  pose proof (opening_calls_phase _ _ _ Hcalls) as Pc.
  pose proof (middle_calls_phase _ Hmiddle) as Pm.
  pose proof (closing_phase writer_set) as Pw.
  pose proof (write_stats_phase derive_output_name glob env interval) as Ps.
  pose proof (cleanup_readers_phase (length readers) 0 rs') as Pu.
  assert (Pl : all_in Logging [LogDoneMerging (timestamp interval)])
    by repeat constructor.
  pose proof (marker_phase success marker) as Pd.
  assert (Pf : all_in Marker [DoneFileFailed marker]) by repeat constructor.
  rewrite failures_app in Hfail.
  destruct success; cbn [andb] in Hrun.
  - destruct (done_fopen env marker) eqn:Hopen; cbn [negb] in Hrun;
      eexists _, _, _; (split; [exact Hrun |]).
    + left. split; [reflexivity |].
      rewrite !failures_app, !done_markers_app, !marker_failures_app.
      rewrite (failures_outside _ _ Pw), (failures_outside _ _ Ps),
        (failures_outside _ _ Pd), (failures_outside _ _ Pu),
        (failures_outside _ _ Pl) by discriminate.
      rewrite (done_markers_outside _ _ Pc), (done_markers_outside _ _ Pm),
        (done_markers_outside _ _ Pw), (done_markers_outside _ _ Ps),
        (done_markers_outside _ _ Pu), (done_markers_outside _ _ Pl)
        by discriminate.
      rewrite (marker_failures_outside _ _ Pc),
        (marker_failures_outside _ _ Pm), (marker_failures_outside _ _ Pw),
        (marker_failures_outside _ _ Ps), (marker_failures_outside _ _ Pu),
        (marker_failures_outside _ _ Pl) by discriminate.
      rewrite !app_nil_r. simpl. auto.
    + right. left. split; [reflexivity |].
      rewrite !failures_app, !done_markers_app, !marker_failures_app.
      rewrite (failures_outside _ _ Pw), (failures_outside _ _ Ps),
        (failures_outside _ _ Pf) by discriminate.
      rewrite (done_markers_outside _ _ Pc), (done_markers_outside _ _ Pm),
        (done_markers_outside _ _ Pw), (done_markers_outside _ _ Ps)
        by discriminate.
      rewrite (marker_failures_outside _ _ Pc),
        (marker_failures_outside _ _ Pm), (marker_failures_outside _ _ Pw),
        (marker_failures_outside _ _ Ps) by discriminate.
      rewrite !app_nil_r. simpl.
      split; [exact Hfail |]. do 3 (split; [reflexivity |]).
      split.
      * rewrite !app_assoc. apply last_snoc.
      * repeat (apply Forall_app; split);
          [eapply Forall_impl; [exact Pc |]
          | eapply Forall_impl; [exact Pm |]
          | eapply Forall_impl; [exact Pw |]
          | eapply Forall_impl; [exact Ps |]
          | eapply Forall_impl; [exact Pf |]];
          simpl; intros ev ->; discriminate.
  - eexists _, _, _. split; [exact Hrun |].
    right. right. split; [reflexivity |].
    rewrite !failures_app, !done_markers_app, !marker_failures_app.
    rewrite (failures_outside _ _ Pw), (failures_outside _ _ Ps),
      (failures_outside _ _ Pd), (failures_outside _ _ Pu),
      (failures_outside _ _ Pl) by discriminate.
    rewrite (done_markers_outside _ _ Pc), (done_markers_outside _ _ Pm),
      (done_markers_outside _ _ Pw), (done_markers_outside _ _ Ps),
      (done_markers_outside _ _ Pu), (done_markers_outside _ _ Pl)
      by discriminate.
    rewrite (marker_failures_outside _ _ Pc),
      (marker_failures_outside _ _ Pm), (marker_failures_outside _ _ Pw),
      (marker_failures_outside _ _ Ps), (marker_failures_outside _ _ Pu),
      (marker_failures_outside _ _ Pl) by discriminate.
    rewrite !app_nil_r. simpl. auto.
Qed.

(** C3, at an input on which the code departs from it.  Two interim files
    are opened, the output file is created and all six packets are
    written: the merge loop runs to its end without an error.  The marker
    file cannot be opened.  The code hands the NULL to [fclose]: the merge
    does not return, no marker is created although the merge loop ran to
    its end, and the clean-up loop is not reached, so that the interim
    files stay. *)
Theorem unchecked_marker_fopen_ends_the_process :
  exists rs' evs,
    write_merged_output Samples.sample_names Samples.minute_glob
      Samples.no_marker_merge Samples.two_blank_readers Samples.both_reported
      = Some (FcloseNull, rs', evs) /\
    failures evs = [] /\
    written_packets evs =
      [Samples.stamped 10 0; Samples.stamped 20 1; Samples.stamped 35 0;
       Samples.stamped 50 0; Samples.stamped 50 1; Samples.stamped 599 1] /\
    done_markers evs = [] /\
    last evs = Some (DoneFileFailed "/data/cap.done") /\
    Forall (fun ev => phase_of ev <> Cleanup) evs.
Proof.
  eexists _, _. split; [vm_compute; reflexivity |].
  split; [reflexivity |]. split; [reflexivity |].
  split; [reflexivity |]. split; [reflexivity |].
  repeat constructor; discriminate.
Qed.

(** The same merge with a marker file that can be opened returns 0 and
    creates the marker. *)
Example marker_created_when_it_can_be_opened :
  exists rs' evs,
    write_merged_output Samples.sample_names Samples.minute_glob
      Samples.good_merge Samples.two_blank_readers Samples.both_reported
      = Some (Returns 0, rs', evs) /\
    done_markers evs = ["/data/cap.done"%string].
Proof. eexists _, _. split; [vm_compute; reflexivity | reflexivity]. Qed.





(** In the sample merge the two interim files are opened under a URI with
    the scheme [pcapfile]; the paths that go to [remove] are the names of
    the files. *)
Example sample_merge_removes_bare_paths :
  exists rs' evs,
    write_merged_output Samples.sample_names Samples.minute_glob
      Samples.good_merge Samples.two_blank_readers Samples.both_reported
      = Some (Returns 0, rs', evs) /\
    omap (fun ev => match ev with
                    | CreateReader _ name true => Some name
                    | _ => None
                    end) evs
    = ["pcapfile:/data/cap--0"%string; "pcapfile:/data/cap--1"%string] /\
    omap (fun ev => match ev with Remove path => Some path | _ => None end)
         evs
    = ["/data/cap--0"%string; "/data/cap--1"%string].
Proof. eexists _, _. split; [vm_compute; reflexivity |]. now split. Qed.

(** C10.  With statistics switched on and the statistics file opened, a
    merge writes the [.stats] file whatever its outcome; when the merge
    fails it thus leaves a [.stats] file and no [.done] marker. *)
Theorem stats_written_even_when_merge_fails
    (derive_output_name : Z -> Z -> Z -> Z -> string)
    (glob : wdcap_global) (env : merge_env)
    (readers : list interim_reader) (interval : corsaro_wdcap_interval) :
  Z.of_nat (length readers) = threads glob ->
  writestats glob = true ->
  stats_fopen env (derive_output_name (timestamp interval) (-1) 0 2) = true ->
  exists ret rs' evs,
    write_merged_output derive_output_name glob env readers interval
      = Some (ret, rs', evs) /\
    stats_files evs = [derive_output_name (timestamp interval) (-1) 0 2] /\
    (failures evs <> [] -> ret = Returns (-1) /\ done_markers evs = []).
Proof.
  intros Hn Hstats Hopen.
  destruct (done_marker_outcomes derive_output_name glob env readers
              interval Hn)
    as (ret & rs' & evs & Hrun & Hout).
  exists ret, rs', evs. split; [exact Hrun |]. split.
  - destruct (write_merged_output_shape derive_output_name glob env readers
                interval Hn)
      as (calls & middle & rs2 & success & writer_set & Hrun2 & _ & Hcalls
          & Hmiddle & _ & _).
    assert (Pf : all_in Marker
                   [DoneFileFailed
                      (derive_output_name (timestamp interval) (-1) 0 1)])
      by repeat constructor.
    rewrite Hrun in Hrun2.
    destruct (success && negb _); injection Hrun2 as _ _ ->.
    { pose proof (opening_calls_phase _ _ _ Hcalls) as Pc.
      pose proof (middle_calls_phase _ Hmiddle) as Pm.
      pose proof (closing_phase writer_set) as Pw.
      rewrite !stats_files_app.
      rewrite (stats_files_outside _ _ Pc), (stats_files_outside _ _ Pm),
        (stats_files_outside _ _ Pw), (stats_files_outside _ _ Pf)
        by discriminate.
      rewrite app_nil_r. simpl.
      unfold write_stats. rewrite Hstats, Hopen.
      now destruct (thread_lines _ _ _ _). }
    pose proof (opening_calls_phase _ _ _ Hcalls) as Pc.
    pose proof (middle_calls_phase _ Hmiddle) as Pm.
    pose proof (closing_phase writer_set) as Pw.
    pose proof (cleanup_readers_phase (length readers) 0 rs2) as Pu.
    assert (Pl : all_in Logging [LogDoneMerging (timestamp interval)])
      by repeat constructor.
    pose proof (marker_phase success
                  (derive_output_name (timestamp interval) (-1) 0 1)) as Pd.
    rewrite !stats_files_app.
    rewrite (stats_files_outside _ _ Pc), (stats_files_outside _ _ Pm),
      (stats_files_outside _ _ Pw), (stats_files_outside _ _ Pd),
      (stats_files_outside _ _ Pu), (stats_files_outside _ _ Pl)
      by discriminate.
    rewrite app_nil_r. simpl.
    unfold write_stats. rewrite Hstats, Hopen.
    now destruct (thread_lines _ _ _ _).
  - intros Hfail.
    destruct Hout as [(_ & Hnone & _) | [(_ & Hnone & _)
                                        | (Hret & _ & Hdone & _)]];
      [contradiction | contradiction | now split].
Qed.

Lemma stats_written_even_when_merge_fails_witness :
  exists ret rs' evs,
    write_merged_output Samples.sample_names Samples.stats_glob
      Samples.no_writer_merge Samples.two_blank_readers Samples.both_reported
      = Some (ret, rs', evs) /\
    stats_files evs = ["/data/cap.stats"%string] /\
    (failures evs <> [] -> ret = Returns (-1) /\ done_markers evs = []).
Proof.
  apply (stats_written_even_when_merge_fails Samples.sample_names
           Samples.stats_glob Samples.no_writer_merge
           Samples.two_blank_readers Samples.both_reported);
    reflexivity.
Defined.

(** The sample merge without an output file does fail: it returns -1,
    writes the statistics file and creates no marker. *)
Example failed_merge_leaves_stats_only :
  exists rs' evs,
    write_merged_output Samples.sample_names Samples.stats_glob
      Samples.no_writer_merge Samples.two_blank_readers Samples.both_reported
      = Some (Returns (-1), rs', evs) /\
    stats_files evs = ["/data/cap.stats"%string] /\
    done_markers evs = [].
Proof. eexists _, _. split; [vm_compute; reflexivity |]. now split. Qed.

Lemma merged_output_sorted_and_complete_witness :
  exists rs' evs,
    write_merged_output Samples.sample_names Samples.minute_glob
      Samples.good_merge Samples.two_blank_readers Samples.both_reported
      = Some (Returns 0, rs', evs) /\
    StronglySorted ts_le (written_packets evs) /\
    written_packets evs ≡ₚ
      concat (interim_packets Samples.sample_names Samples.good_merge 60
                <$> seq 0 2).
Proof.
  apply (merged_output_sorted_and_complete Samples.sample_names
           Samples.minute_glob Samples.good_merge Samples.two_blank_readers
           Samples.both_reported).
  - reflexivity.
  - intros i. reflexivity.
  - reflexivity.
  - intros k. reflexivity.
  - intros i Hi. simpl in Hi.
    destruct i as [| [| i]]; [| | lia];
      repeat constructor; unfold ts_le; simpl; lia.
Defined.

(** The sample merge writes its six packets in timestamp order; of the two
    packets stamped 50 the one of worker 0 comes first. *)
Example sample_merge_order :
  exists rs' evs,
    write_merged_output Samples.sample_names Samples.minute_glob
      Samples.good_merge Samples.two_blank_readers Samples.both_reported
      = Some (Returns 0, rs', evs) /\
    written_packets evs =
      [Samples.stamped 10 0; Samples.stamped 20 1; Samples.stamped 35 0;
       Samples.stamped 50 0; Samples.stamped 50 1; Samples.stamped 599 1].
Proof. eexists _, _. split; [vm_compute; reflexivity | reflexivity]. Qed.

Lemma choose_next_merge_packet_spec_witness :
  (choose_next_merge_packet Samples.two_busy_readers 2).2 = 0 /\
  let rs' := (choose_next_merge_packet Samples.two_busy_readers 2).1 in
  remaining <$> rs' = remaining <$> Samples.two_busy_readers /\
  Forall reader_wf rs'.
Proof.
  split; [reflexivity |].
  apply (choose_next_merge_packet_spec Samples.two_busy_readers).
  repeat constructor.
  - intros _. exists (Samples.stamped 50 0). now split.
  - intros H. discriminate H.
Defined.

End MergeFacts.

(** ** Start-up: configuration errors *)

Module SupervisorFacts.
Import Supervisor SupervisorSpec.

Section Process.

Variable global : Type.
Variable corsaro_wdcap_init_global : string -> logmode -> option global.
Variable supervise : global -> list start_event * Z.

Lemma config_error_init answers :
  config_error answers ->
  exists text,
    init_wdcap_process global corsaro_wdcap_init_global answers
    = ([Stderr text; Usage], None).
Proof.
  intros [text evs Hp | l Hp | str file Hp Hm]; unfold init_wdcap_process;
    rewrite Hp.
  - (* the branch of the option loop that reports the option *)
    assert (Hshape : forall ans l c t es,
              parse_options ans l c = inr (Stderr t :: es) -> es = [Usage]).
    { induction ans as [| a ans IH]; intros l c t es H; simpl in H;
        [discriminate |].
      destruct (Ascii.eqb (opt a) "l"); [now apply IH in H |].
      destruct (Ascii.eqb (opt a) "c"); [now apply IH in H |].
      destruct (Ascii.eqb (opt a) "h"); [discriminate |].
      now injection H as _ <-. }
    rewrite (Hshape _ _ _ _ _ Hp). eauto.
  - eauto.
  - rewrite Hm. eauto.
Qed.

(** Whatever makes [init_wdcap_process] fail, [main] returns 0 without
    having forked. *)
Lemma init_failure_returns_zero answers evs :
  init_wdcap_process global corsaro_wdcap_init_global answers = (evs, None) ->
  main global corsaro_wdcap_init_global supervise true answers
  = (evs ++ [FreeGlobal], 0).
Proof. intros H. unfold main. simpl. now rewrite H. Qed.

End Process.

(** C7, as amended.  On a configuration error of the command line (an
    unsupported option, no [-c] configuration file, an invalid [-l] log
    mode) the process writes the error to stderr and terminates before the
    first fork, hence before any worker or merger thread exists; [main]
    returns 0, so the exit status is 0. *)
Theorem config_error_stops_before_fork
    (global : Type)
    (corsaro_wdcap_init_global : string -> logmode -> option global)
    (supervise : global -> list start_event * Z)
    (answers : list getopt_result) :
  config_error answers ->
  let run := main global corsaro_wdcap_init_global supervise true answers in
  (exists text, run.1 = [Stderr text; Usage; FreeGlobal]) /\
  (Fork ∉ run.1) /\
  run.2 = 0 /\
  exit_status run.2 = 0.
Proof.
  intros Herr run. subst run.
  destruct (config_error_init global corsaro_wdcap_init_global answers Herr)
    as (text & Hinit).
  unfold main. simpl. rewrite Hinit. simpl.
  split; [now exists text |]. split; [| now split].
  intros Hin. repeat (apply elem_of_cons in Hin as [Hin | Hin];
                      [discriminate |]).
  now apply elem_of_nil in Hin.
Qed.

Lemma config_error_stops_before_fork_witness :
  let run :=
    main unit (fun _ _ => Some tt) (fun _ => ([], 0)) true
      [{| opt := "l"; optarg := "loud" |};
       {| opt := "c"; optarg := "wdcap.yaml" |}] in
  (exists text, run.1 = [Stderr text; Usage; FreeGlobal]) /\
  (Fork ∉ run.1) /\
  run.2 = 0 /\
  exit_status run.2 = 0.
Proof.
  apply (config_error_stops_before_fork unit (fun _ _ => Some tt)
           (fun _ => ([], 0))).
  apply (invalid_logmode _ "loud" "wdcap.yaml"); reflexivity.
Defined.

(** C7, as stated, fails: started without [-c], the process reports the
    error and ends before the fork, but its exit status is 0. *)
Lemma missing_config_exits_with_zero :
  let run := main unit (fun _ _ => Some tt) (fun _ => ([], 0)) true [] in
  run.1 = [Stderr "corsarowdcap: no config file specified. Use -c to specify one.";
           Usage; FreeGlobal] /\
  ~ exit_status run.2 <> 0.
Proof. split; [reflexivity |]. intros H. now apply H. Qed.

End SupervisorFacts.

(** ** The merging thread: records with an unknown tag *)

Module MergerFacts.
Import Merger MergerSpec.

Lemma unknown_received_nonneg inbox : 0 <= unknown_received inbox.
Proof.
  induction inbox as [| [[msg env] |] rest IH]; simpl; try lia.
  destruct (type msg); lia.
Qed.

Lemma unexpected_logged_app evs evs' :
  unexpected_logged (evs ++ evs')
  = (unexpected_logged evs + unexpected_logged evs')%nat.
Proof. unfold unexpected_logged. now rewrite List.filter_app, length_app. Qed.

Lemma tidy_up_logs ms : unexpected_logged (tidy_up ms) = O.
Proof.
  unfold tidy_up. rewrite unexpected_logged_app. simpl.
  induction (waiting ms) as [| fin l IH]; [reflexivity | exact IH].
Qed.

Section Thread.

Variable derive_output_name : Z -> Z -> Z -> Z -> string.
Variable glob : wdcap_global.

(** Handling an interval-over record always ends; it keeps the size of
    the reader array and logs no unexpected record. *)
Lemma merge_finished_interval_runs env ms w t st :
  Z.of_nat (length (readers ms)) = threads glob ->
  exists r ms' evs,
    merge_finished_interval derive_output_name glob env ms w t st
      = Some (r, ms', evs) /\
    length (readers ms') = length (readers ms) /\
    unexpected_logged evs = O.
Proof.
  intros Hlen. unfold merge_finished_interval.
  destruct (match find_interval (waiting ms) t with
            | Some (pos, old) =>
                (pos, next_report old w st,
                 <[pos:=next_report old w st]> (waiting ms))
            | None =>
                (length (waiting ms), first_report w t st,
                 waiting ms ++ [first_report w t st])
            end) as [[pos fin] waiting'].
  destruct (Merge.threads_done fin =? threads glob).
  - destruct (MergeFacts.write_merged_output_shape derive_output_name glob
                env (readers ms) fin Hlen)
      as (calls & middle & rs' & success & ws & -> & Hl & _).
    destruct (success && negb _).
    + eexists _, _, _. split; [reflexivity |]. split; [exact Hl |].
      rewrite !unexpected_logged_app.
      destruct pos, waiting'; reflexivity.
    + eexists _, _, _. split; [reflexivity |]. split; [exact Hl |].
      rewrite !unexpected_logged_app.
      destruct pos, waiting', (_ <? 0); reflexivity.
  - eexists _, _, _. split; [reflexivity |]. now split.
Qed.

(** The loop of the merging thread counts and logs every record with an
    unknown tag that it reads, and leaves by [exit(-1)] exactly when the
    count reaches 100.  Unless the process dies in a merge, it reads every
    record up to the first stop record or failed receive. *)
Lemma merging_loop_bad inbox : forall ms bad evs,
  Z.of_nat (length (readers ms)) = threads glob ->
  0 <= bad < 100 ->
  exists e ms' bad' evs',
    merging_loop derive_output_name glob inbox ms bad evs
      = Some (e, ms', bad', evs') /\
    bad <= bad' <= Z.min (bad + unknown_received inbox) 100 /\
    (e <> DiedInMerge -> bad' = Z.min (bad + unknown_received inbox) 100) /\
    (e = ProcessExit (-1) <-> bad' = 100) /\
    (e = ProcessExit (-1) \/ e = PthreadExit \/ e = Receiving
     \/ e = DiedInMerge) /\
    Z.of_nat (unexpected_logged evs')
      = Z.of_nat (unexpected_logged evs) + (bad' - bad).
Proof.
  induction inbox as [| [[msg env] |] rest IH]; intros ms bad evs Hlen Hbad;
    simpl.
  - eexists _, _, _, _. split; [reflexivity |].
    split; [lia |]. split; [lia |]. split; [split; [discriminate | lia] |].
    split; [auto | lia].
  - destruct (type msg) as [| | tag] eqn:Htype.
    + (* interval over *)
      pose proof (unknown_received_nonneg rest) as Hrest.
      destruct (merge_finished_interval_runs env ms
                  (to_uint8 (threadid msg)) (to_uint32 (timestamp msg))
                  (lt_stats msg) Hlen)
        as ([r |] & ms' & evs' & -> & Hlen' & Hlog).
      * destruct (IH ms' bad
                    (evs ++ (if src_fd msg =? -1 then []
                             else [Close (src_fd msg)])
                         ++ evs'))
          as (e & ms2 & bad2 & evs2 & Hrun & Hle & Hb & He & Hends & Hcount);
          [congruence | exact Hbad |].
        exists e, ms2, bad2, evs2. split; [exact Hrun |].
        split; [exact Hle |]. split; [exact Hb |]. split; [exact He |].
        split; [exact Hends |].
        rewrite Hcount, !unexpected_logged_app, Hlog.
        destruct (src_fd msg =? -1);
          [change (unexpected_logged []) with 0%nat
          | change (unexpected_logged [Close (src_fd msg)]) with 0%nat]; lia.
      * (* the process dies in the merge *)
        eexists _, _, _, _. split; [reflexivity |].
        split; [lia |]. split; [congruence |].
        split; [split; [discriminate | lia] |].
        split; [auto |].
        rewrite !unexpected_logged_app, Hlog.
        destruct (src_fd msg =? -1);
          [change (unexpected_logged []) with 0%nat
          | change (unexpected_logged [Close (src_fd msg)]) with 0%nat]; lia.
    + (* stop *)
      eexists _, _, _, _. split; [reflexivity |].
      split; [lia |]. split; [lia |]. split; [split; [discriminate | lia] |].
      split; [auto |].
      rewrite unexpected_logged_app, tidy_up_logs. lia.
    + (* unknown tag *)
      pose proof (unknown_received_nonneg rest) as Hrest.
      rewrite to_int_id by (unfold INT_MIN, INT_MAX; lia).
      destruct (Z.leb_spec 100 (bad + 1)) as [Hfull | Hroom].
      * eexists _, _, _, _. split; [reflexivity |].
        split; [lia |]. split; [lia |]. split; [split; [lia | reflexivity] |].
        split; [auto |].
        rewrite !unexpected_logged_app.
        change (unexpected_logged [LogUnexpected tag]) with 1%nat.
        change (unexpected_logged [LogTooManyBad]) with 0%nat. lia.
      * destruct (IH ms (bad + 1) (evs ++ [LogUnexpected tag]))
          as (e & ms2 & bad2 & evs2 & Hrun & Hle & Hb & He & Hends & Hcount);
          [exact Hlen | lia |].
        exists e, ms2, bad2, evs2. split; [exact Hrun |].
        split; [lia |]. split; [intros Hd; specialize (Hb Hd); lia |].
        split; [exact He |]. split; [exact Hends |].
        rewrite Hcount, unexpected_logged_app.
        change (unexpected_logged [LogUnexpected tag]) with 1%nat. lia.
  - (* the receive failed *)
    eexists _, _, _, _. split; [reflexivity |].
    split; [lia |]. split; [lia |]. split; [split; [discriminate | lia] |].
    split; [auto |].
    change (LogRecvError :: tidy_up ms) with ([LogRecvError] ++ tidy_up ms).
    rewrite !unexpected_logged_app, tidy_up_logs.
    change (unexpected_logged [LogRecvError]) with 0%nat. lia.
Qed.

End Thread.

(** C8, as amended.  The merging thread logs and counts every record with
    an unknown tag that it reads, and it exits the process, with
    [exit(-1)], exactly when that count reaches 100: with 99 or fewer such
    records the thread never ends the process, the 100th ends it.  The
    thread reads every record up to the first stop record or failed
    receive, unless the process dies in a merge before. *)
Theorem bad_messages_exit_at_hundred
    (derive_output_name : Z -> Z -> Z -> Z -> string) (glob : wdcap_global)
    (inbox : list (option (corsaro_wdcap_message * Merge.merge_env))) :
  0 <= threads glob ->
  exists e ms bad evs,
    start_merging_thread derive_output_name glob inbox
      = Some (e, ms, bad, evs) /\
    (e = ProcessExit (-1) <-> bad = 100) /\
    (e = ProcessExit (-1) -> 100 <= unknown_received inbox) /\
    (e <> DiedInMerge ->
     (e = ProcessExit (-1) <-> 100 <= unknown_received inbox) /\
     bad = Z.min (unknown_received inbox) 100) /\
    (e = ProcessExit (-1) \/ e = PthreadExit \/ e = Receiving
     \/ e = DiedInMerge) /\
    bad <= Z.min (unknown_received inbox) 100 /\
    Z.of_nat (unexpected_logged evs) = bad.
Proof.
  intros Hthreads. unfold start_merging_thread.
  destruct (merging_loop_bad derive_output_name glob inbox
              {| readers := replicate (Z.to_nat (threads glob)) zeroed_reader;
                 waiting := [] |} 0 [])
    as (e & ms & bad & evs & Hrun & Hle & Hb & He & Hends & Hcount).
  - simpl. rewrite length_replicate. lia.
  - lia.
  - exists e, ms, bad, evs. split; [exact Hrun |].
    split; [exact He |]. split; [rewrite He; lia |].
    split; [intros Hd; specialize (Hb Hd); rewrite He; lia |].
    split; [exact Hends |]. split; [lia |].
    change (unexpected_logged []) with 0%nat in Hcount. lia.
Qed.

Lemma bad_messages_exit_at_hundred_witness :
  let inbox :=
    replicate 99 (Some (Samples.unknown_record, Samples.good_merge)) in
  exists e ms bad evs,
    start_merging_thread Samples.sample_names Samples.minute_glob inbox
      = Some (e, ms, bad, evs) /\
    (e = ProcessExit (-1) <-> bad = 100) /\
    (e = ProcessExit (-1) -> 100 <= unknown_received inbox) /\
    (e <> DiedInMerge ->
     (e = ProcessExit (-1) <-> 100 <= unknown_received inbox) /\
     bad = Z.min (unknown_received inbox) 100) /\
    (e = ProcessExit (-1) \/ e = PthreadExit \/ e = Receiving
     \/ e = DiedInMerge) /\
    bad <= Z.min (unknown_received inbox) 100 /\
    Z.of_nat (unexpected_logged evs) = bad.
Proof.
  apply (bad_messages_exit_at_hundred Samples.sample_names Samples.minute_glob).
  simpl. lia.
Defined.

(** C8, as stated, fails: exactly 100 records with an unknown tag, which
    is not more than 100, end the process. *)
Lemma hundred_unknown_records_exit :
  unknown_received Samples.hundred_unknown = 100 /\
  ~ 100 < unknown_received Samples.hundred_unknown /\
  exists ms evs,
    start_merging_thread Samples.sample_names Samples.minute_glob
      Samples.hundred_unknown
    = Some (ProcessExit (-1), ms, 100, evs).
Proof.
  split; [reflexivity |]. split; [vm_compute; discriminate |].
  eexists _, _. vm_compute. reflexivity.
Qed.

(** ** The merging thread: the list of pending intervals *)

Lemma find_interval_none l time :
  find_interval l time = None -> time ∉ Merge.timestamp <$> l.
Proof.
  induction l as [| fin l IH]; simpl; intros H.
  - apply not_elem_of_nil.
  - destruct (Z.eqb_spec (Merge.timestamp fin) time) as [| Hne];
      [discriminate |].
    destruct (find_interval l time) as [[pos found] |]; [discriminate |].
    rewrite not_elem_of_cons. split; [congruence | now apply IH].
Qed.

Lemma find_interval_some l time pos old :
  find_interval l time = Some (pos, old) ->
  l !! pos = Some old /\ Merge.timestamp old = time.
Proof.
  revert pos. induction l as [| fin l IH]; simpl; intros pos H;
    [discriminate |].
  destruct (Z.eqb_spec (Merge.timestamp fin) time) as [Heq | Hne].
  - injection H as <- <-. now split.
  - destruct (find_interval l time) as [[pos' found] |]; [| discriminate].
    injection H as <- <-. now apply IH.
Qed.

Section Pending.

Variable derive_output_name : Z -> Z -> Z -> Z -> string.
Variable glob : wdcap_global.

Hypothesis some_thread : 1 <= threads glob.

Lemma pending_ok_reported l :
  pending_ok glob l ->
  NoDup (Merge.timestamp <$> l) /\
  Forall (fun fin => 0 < Merge.threads_done fin <= threads glob) l.
Proof.
  intros [Hnd Hall]. split; [exact Hnd |].
  eapply Forall_impl; [exact Hall |]. simpl. intros; lia.
Qed.

(** The two invariants of the pending list hold after every record,
    whatever the record.  When the process dies in a merge, the list still
    holds the interval that all threads have reported. *)
Lemma merge_finished_interval_pending env ms w t st r ms' evs :
  pending_ok glob (waiting ms) ->
  merge_finished_interval derive_output_name glob env ms w t st
    = Some (r, ms', evs) ->
  (r <> Merge.FcloseNull -> pending_ok glob (waiting ms')) /\
  NoDup (Merge.timestamp <$> waiting ms') /\
  Forall (fun fin => 0 < Merge.threads_done fin <= threads glob)
         (waiting ms').
Proof.
  intros Hok Hrun.
  assert (Hgoal : forall l, pending_ok glob l ->
             (r <> Merge.FcloseNull -> pending_ok glob l) /\
             NoDup (Merge.timestamp <$> l) /\
             Forall (fun fin => 0 < Merge.threads_done fin <= threads glob) l).
  { intros l Hl. split; [auto |]. now apply pending_ok_reported. }
  destruct Hok as [Hnd Hall]. unfold merge_finished_interval in Hrun.
  destruct (find_interval (waiting ms) t) as [[pos old] |] eqn:Hfind.
  - (* a further report for a pending interval *)
    destruct (find_interval_some _ _ _ _ Hfind) as [Hpos Hts].
    assert (Hold : 0 < Merge.threads_done old < threads glob)
      by (exact (Forall_lookup_1 _ _ _ _ Hall Hpos)).
    assert (Hnd' : NoDup (Merge.timestamp <$>
                            <[pos:=next_report old w st]> (waiting ms))).
    { rewrite list_fmap_insert. simpl.
      rewrite list_insert_id; [exact Hnd |].
      now rewrite list_lookup_fmap, Hpos. }
    destruct (Merge.threads_done (next_report old w st) =? threads glob)
      eqn:Hfull.
    + destruct (Merge.write_merged_output _ _ _ _ _)
        as [[[[r' |] rs'] evs'] |]; [| | discriminate].
      * injection Hrun as _ <- _. simpl. apply Hgoal.
        rewrite drop_insert_lt by lia. split.
        -- rewrite fmap_drop. eapply sublist_NoDup; [| apply sublist_drop].
           exact Hnd.
        -- now apply Forall_drop.
      * injection Hrun as <- <- _. simpl.
        split; [congruence |]. split; [exact Hnd' |].
        apply Forall_insert.
        -- eapply Forall_impl; [exact Hall |]. simpl. intros; lia.
        -- simpl. lia.
    + injection Hrun as _ <- _. simpl. apply Hgoal.
      split; [exact Hnd' |].
      apply Forall_insert; [exact Hall |].
      apply Z.eqb_neq in Hfull. simpl in *. lia.
  - (* the first report for this interval *)
    pose proof (find_interval_none _ _ Hfind) as Hfresh.
    assert (Hnd' : NoDup (Merge.timestamp <$>
                            (waiting ms ++ [first_report w t st]))).
    { rewrite fmap_app. apply NoDup_app. split; [exact Hnd |].
      split; [| apply NoDup_singleton].
      intros x Hx Hin. simpl in Hin. apply list_elem_of_singleton in Hin.
      now subst. }
    destruct (Merge.threads_done (first_report w t st) =? threads glob)
      eqn:Hfull.
    + destruct (Merge.write_merged_output _ _ _ _ _)
        as [[[[r' |] rs'] evs'] |]; [| | discriminate].
      * injection Hrun as _ <- _. simpl. apply Hgoal.
        rewrite drop_ge by (rewrite length_app; simpl; lia).
        split; [apply NoDup_nil_2 | constructor].
      * injection Hrun as <- <- _. simpl.
        split; [congruence |]. split; [exact Hnd' |].
        apply Forall_app. split.
        -- eapply Forall_impl; [exact Hall |]. simpl. intros; lia.
        -- constructor; [| constructor]. simpl. lia.
    + injection Hrun as _ <- _. simpl. apply Hgoal.
      split; [exact Hnd' |].
      apply Forall_app. split; [exact Hall |].
      constructor; [| constructor].
      apply Z.eqb_neq in Hfull. simpl in *. lia.
Qed.

End Pending.

Lemma merging_loop_pending derive_output_name glob inbox :
  1 <= threads glob ->
  forall ms bad evs e ms' bad' evs',
    pending_ok glob (waiting ms) ->
    merging_loop derive_output_name glob inbox ms bad evs
      = Some (e, ms', bad', evs') ->
    (e <> DiedInMerge -> pending_ok glob (waiting ms')) /\
    NoDup (Merge.timestamp <$> waiting ms') /\
    Forall (fun fin => 0 < Merge.threads_done fin <= threads glob)
           (waiting ms').
Proof.
  intros Hthreads.
  assert (Hnil : pending_ok glob [])
    by (split; [apply NoDup_nil_2 | constructor]).
  assert (Hgoal : forall e l, pending_ok glob l ->
             (e <> DiedInMerge -> pending_ok glob l) /\
             NoDup (Merge.timestamp <$> l) /\
             Forall (fun fin => 0 < Merge.threads_done fin <= threads glob) l).
  { intros e l Hl. split; [auto |]. now apply pending_ok_reported. }
  induction inbox as [| [[msg env] |] rest IH];
    intros ms bad evs e ms' bad' evs' Hok Hrun; simpl in Hrun.
  - injection Hrun as _ <- _ _. now apply Hgoal.
  - destruct (type msg) as [| | tag].
    + destruct (merge_finished_interval derive_output_name glob env ms
                  (to_uint8 (threadid msg)) (to_uint32 (timestamp msg))
                  (lt_stats msg)) as [[[[r |] ms1] evs1] |] eqn:Hstep;
        [| | discriminate].
      * eapply IH; [| exact Hrun].
        eapply merge_finished_interval_pending; eauto.
      * injection Hrun as <- <- _ _.
        split; [congruence |].
        eapply merge_finished_interval_pending; eauto.
    + injection Hrun as _ <- _ _. now apply Hgoal.
    + destruct (100 <=? to_int (bad + 1)).
      * injection Hrun as _ <- _ _. now apply Hgoal.
      * eapply IH; eauto.
  - injection Hrun as _ <- _ _. now apply Hgoal.
Qed.

(** C5, at an input on which the code departs from it.  Two threads;
    worker 0 reports intervals 60 and 120, then worker 1 reports 120.
    Interval 120 is now complete while 60 is still pending: it is merged
    and freed, but the pending list is cut behind it, so the entry of
    interval 60 leaves the list as well, without being merged or freed.
    When worker 1 then reports 60, a new entry is made, and interval 60 is
    never merged although both threads have reported it. *)
Theorem out_of_order_completion_loses_pending_interval :
  let run n :=
    start_merging_thread Samples.sample_names Samples.minute_glob
      (take n Samples.out_of_order_inbox) in
  (exists ms evs,
      run 2%nat = Some (Receiving, ms, 0, evs) /\
      Merge.timestamp <$> waiting ms = [60; 120] /\
      merged_times evs = []) /\
  (exists ms evs,
      run 3%nat = Some (Receiving, ms, 0, evs) /\
      waiting ms = [] /\
      merged_times evs = [120] /\
      Merge.timestamp <$> freed_intervals evs = [120]) /\
  (exists ms evs,
      run 4%nat = Some (Receiving, ms, 0, evs) /\
      Merge.timestamp <$> waiting ms = [60] /\
      Merge.thread_ids <$> waiting ms = [[1]] /\
      merged_times evs = [120]).
Proof.
  intros run. subst run. repeat split.
  - eexists _, _. split; [vm_compute; reflexivity |]. now split.
  - eexists _, _. split; [vm_compute; reflexivity |]. now repeat split.
  - eexists _, _. split; [vm_compute; reflexivity |]. now repeat split.
Qed.

End MergerFacts.

(** ** Names: the bounded copy and the rendering of the template *)

Module NamesFacts.
Import Names NamesSpec.

Lemma chars_append s1 s2 :
  list_ascii_of_string (String.append s1 s2)
  = list_ascii_of_string s1 ++ list_ascii_of_string s2.
Proof. induction s1 as [| c s1 IH]; simpl; [reflexivity | now rewrite IH]. Qed.

Lemma chars_length s : length (list_ascii_of_string s) = String.length s.
Proof. induction s as [| c s IH]; simpl; [reflexivity | now rewrite IH]. Qed.

Lemma stradd_length str : forall buf bufp buflim,
  length (stradd str buf bufp buflim).1 = length buf.
Proof.
  induction str as [| c str IH]; intros buf bufp buflim; simpl;
    destruct (bufp <? buflim)%nat; simpl; try reflexivity.
  - apply length_insert.
  - rewrite IH. apply length_insert.
Qed.

Lemma holds_store lim out buf w c :
  holds lim out (buf, w) -> (w < lim)%nat ->
  holds lim (out ++ [c]) (<[w:=c]> buf, S w).
Proof.
  intros (Hw & Hlen & Htake) Hlt. simpl in *.
  assert (Hout : length out = w) by lia.
  unfold holds. simpl. rewrite length_app, length_insert. simpl.
  split; [lia |]. split; [exact Hlen |].
  rewrite (take_S_r _ _ c) by (apply list_lookup_insert_eq; lia).
  rewrite take_insert_ge by lia. rewrite Htake.
  rewrite !take_ge by (rewrite ?length_app; simpl; lia).
  reflexivity.
Qed.

Lemma holds_full lim out more buf w :
  holds lim out (buf, w) -> (lim <= w)%nat -> holds lim (out ++ more) (buf, w).
Proof.
  intros (Hw & Hlen & Htake) Hge. simpl in *.
  unfold holds. simpl. rewrite length_app.
  split; [lia |]. split; [exact Hlen |].
  rewrite Htake. rewrite take_app_le by lia. reflexivity.
Qed.

Lemma holds_terminator lim out buf w :
  holds lim out (buf, w) -> holds lim out (<[w:=NUL]> buf, w).
Proof.
  intros (Hw & Hlen & Htake). simpl in *.
  unfold holds. simpl. rewrite length_insert.
  split; [exact Hw |]. split; [exact Hlen |].
  rewrite take_insert_ge by lia. exact Htake.
Qed.

(** [stradd] appends to what has been written, as far as the array
    reaches. *)
Lemma stradd_holds lim str : forall out buf w,
  holds lim out (buf, w) ->
  holds lim (out ++ list_ascii_of_string str) (stradd str buf w lim).
Proof.
  induction str as [| c str IH]; intros out buf w H; simpl.
  - rewrite app_nil_r.
    destruct (w <? lim)%nat; [now apply holds_terminator | exact H].
  - destruct (Nat.ltb_spec w lim) as [Hlt | Hge].
    + replace (out ++ c :: list_ascii_of_string str)
        with ((out ++ [c]) ++ list_ascii_of_string str)
        by (now rewrite <- app_assoc).
      apply IH. now apply holds_store.
    + now apply holds_full.
Qed.


Lemma stradd_offset str : forall buf bufp buflim,
  (stradd str buf bufp buflim).2
  = (bufp + String.length str `min` (buflim - bufp))%nat.
Proof.
  induction str as [| c str IH]; intros buf bufp buflim;
    cbn [stradd String.length];
    destruct (Nat.ltb_spec bufp buflim) as [Hlt | Hge]; cbn [fst snd];
    try lia.
  rewrite IH. lia.
Qed.

Lemma stradd_untouched str : forall buf bufp buflim i,
  (i < bufp \/ (stradd str buf bufp buflim).2 < i \/ buflim <= i)%nat ->
  (stradd str buf bufp buflim).1 !! i = buf !! i.
Proof.
  induction str as [| c str IH]; intros buf bufp buflim i Hi; simpl in *;
    destruct (Nat.ltb_spec bufp buflim) as [Hlt | Hge]; simpl in *;
    try reflexivity.
  - apply list_lookup_insert_ne. lia.
  - rewrite stradd_offset in Hi.
    rewrite IH by (rewrite stradd_offset; lia).
    apply list_lookup_insert_ne. lia.
Qed.

Lemma stradd_content str : forall buf bufp buflim,
  (bufp <= buflim <= length buf)%nat ->
  take (String.length str `min` (buflim - bufp))
       (drop bufp (stradd str buf bufp buflim).1)
  = take (buflim - bufp) (list_ascii_of_string str).
Proof.
  induction str as [| c str IH]; intros buf bufp buflim Hb;
    cbn [stradd String.length list_ascii_of_string].
  - now rewrite take_nil.
  - destruct (Nat.ltb_spec bufp buflim) as [Hlt | Hge]; cbn [fst snd].
    + destruct (buflim - bufp)%nat as [| n] eqn:Hn; [lia |].
      cbn [Nat.min take].
      assert (Hc : (stradd str (<[bufp:=c]> buf) (S bufp) buflim).1 !! bufp
                   = Some c).
      { rewrite stradd_untouched by lia.
        apply list_lookup_insert_eq. lia. }
      rewrite (drop_S _ c bufp Hc). cbn [take]. f_equal.
      replace n with (buflim - S bufp)%nat by lia.
      apply IH. rewrite length_insert. lia.
    + replace (buflim - bufp)%nat with O by lia.
      rewrite Nat.min_0_r. reflexivity.
Qed.

Lemma stradd_terminator str : forall buf bufp buflim,
  (buflim <= length buf)%nat ->
  ((stradd str buf bufp buflim).2 < buflim)%nat ->
  (stradd str buf bufp buflim).1 !! (stradd str buf bufp buflim).2 = Some NUL.
Proof.
  induction str as [| c str IH]; intros buf bufp buflim Hb; simpl;
    destruct (Nat.ltb_spec bufp buflim) as [Hlt | Hge]; simpl; try lia.
  - intros _. apply list_lookup_insert_eq. lia.
  - apply IH. now rewrite length_insert.
Qed.

(** Two calls in a row, the second from where the first one stopped, do
    what one call does for the two strings joined. *)
Lemma stradd_twice s1 s2 : forall buf bufp buflim,
  stradd s2 (stradd s1 buf bufp buflim).1 (stradd s1 buf bufp buflim).2 buflim
  = stradd (String.append s1 s2) buf bufp buflim.
Proof.
  induction s1 as [| c s1 IH]; intros buf bufp buflim; simpl.
  - destruct (Nat.ltb_spec bufp buflim) as [Hlt | Hge]; simpl;
      [| reflexivity].
    destruct s2 as [| d s2]; simpl;
      destruct (Nat.ltb_spec bufp buflim); try lia;
      now rewrite list_insert_insert_eq.
  - destruct (Nat.ltb_spec bufp buflim) as [Hlt | Hge]; simpl.
    + apply IH.
    + destruct s2 as [| d s2]; simpl;
        destruct (Nat.ltb_spec bufp buflim); try lia; reflexivity.
Qed.


Lemma holds_start lim scratch :
  (lim <= length scratch)%nat -> holds lim [] (scratch, O).
Proof.
  intros H. unfold holds. simpl. split; [lia |]. split; [exact H |].
  now rewrite take_0, take_nil.
Qed.

Lemma holds_offset lim out buf w :
  holds lim out (buf, w) -> (w <= lim)%nat /\ ((w < lim)%nat -> w = length out).
Proof. intros (Hw & _ & _). simpl in Hw. lia. Qed.

Lemma holds_copy lim out buf w c :
  holds lim out (buf, w) ->
  holds lim (out ++ [c])
        (if (w =? lim)%nat then (buf, w) else (<[w:=c]> buf, S w)).
Proof.
  intros H. destruct (holds_offset _ _ _ _ H) as [Hle _].
  destruct (Nat.eqb_spec w lim) as [Heq | Hne].
  - apply holds_full; [exact H | lia].
  - apply holds_store; [exact H | lia].
Qed.

(** What a terminated array reads as. *)
Lemma c_string_terminated buf : forall w,
  (w < length buf)%nat ->
  forallb (fun c => negb (Ascii.eqb c NUL)) (take w buf) = true ->
  c_string (<[w:=NUL]> buf) = string_of_list_ascii (take w buf).
Proof.
  induction buf as [| c buf IH]; intros w Hw Hok; [simpl in Hw; lia |].
  destruct w as [| w]; simpl in *; [reflexivity |].
  apply andb_true_iff in Hok as [Hc Hok].
  destruct (Ascii.eqb c NUL); [discriminate |].
  rewrite IH; [reflexivity | lia | exact Hok].
Qed.

Lemma is_c_string_append s1 s2 :
  is_c_string (String.append s1 s2) = is_c_string s1 && is_c_string s2.
Proof. unfold is_c_string. now rewrite chars_append, forallb_app. Qed.

Lemma digit_is_char d :
  0 <= d < 10 -> negb (Ascii.eqb (digit d) NUL) = true.
Proof.
  intros H.
  assert (Hd : d = 0 \/ d = 1 \/ d = 2 \/ d = 3 \/ d = 4 \/ d = 5 \/ d = 6
               \/ d = 7 \/ d = 8 \/ d = 9) by lia.
  repeat (destruct Hd as [-> | Hd]; [reflexivity |]). now subst.
Qed.

Lemma decimal_digits_c_string rounds : forall n acc,
  is_c_string acc = true -> is_c_string (decimal_digits rounds n acc) = true.
Proof.
  induction rounds as [| rounds IH]; intros n acc Hacc; cbn [decimal_digits];
    [exact Hacc |].
  assert (Hacc' : is_c_string (String (digit (n mod 10)) acc) = true).
  { unfold is_c_string in *. cbn [list_ascii_of_string forallb].
    rewrite Hacc, andb_true_r.
    apply digit_is_char. apply Z.mod_pos_bound. lia. }
  destruct (n / 10 =? 0); [exact Hacc' | now apply IH].
Qed.

Lemma decimal_c_string n : is_c_string (decimal n) = true.
Proof. now apply decimal_digits_c_string. Qed.

Section Rendering.

Variable CORSARO_IO_MONITOR_PATTERN : ascii.
Variable CORSARO_IO_PLUGIN_PATTERN : ascii.
Variable CORSARO_IO_TRACE_FORMAT_PATTERN : ascii.
Variable strftime : string -> Z -> string.

#[local] Abbreviation expansion :=
  (expansion CORSARO_IO_MONITOR_PATTERN CORSARO_IO_PLUGIN_PATTERN
             CORSARO_IO_TRACE_FORMAT_PATTERN).
#[local] Abbreviation full_format :=
  (full_format CORSARO_IO_MONITOR_PATTERN CORSARO_IO_PLUGIN_PATTERN
               CORSARO_IO_TRACE_FORMAT_PATTERN).
#[local] Abbreviation template_loop :=
  (template_loop CORSARO_IO_MONITOR_PATTERN CORSARO_IO_PLUGIN_PATTERN
                 CORSARO_IO_TRACE_FORMAT_PATTERN).
#[local] Abbreviation corsaro_wdcap_derive_output_name :=
  (corsaro_wdcap_derive_output_name
     CORSARO_IO_MONITOR_PATTERN CORSARO_IO_PLUGIN_PATTERN
     CORSARO_IO_TRACE_FORMAT_PATTERN strftime).

Lemma holds_directive lim out str rest buf w glob timestamp :
  (forall out' buf' w',
      holds lim out' (buf', w') ->
      holds lim (out' ++ list_ascii_of_string (expansion glob timestamp rest))
            (template_loop glob (ext_of glob) timestamp rest buf' w' lim)) ->
  holds lim out (buf, w) ->
  holds lim
    (out ++ list_ascii_of_string
              (String.append str (expansion glob timestamp rest)))
    (let '(buf', w') := stradd str buf w lim in
     template_loop glob (ext_of glob) timestamp rest buf' w' lim).
Proof.
  intros IH H. rewrite chars_append, app_assoc.
  pose proof (stradd_holds lim str out buf w H) as H'.
  destruct (stradd str buf w lim) as [buf' w']. now apply IH.
Qed.

(** The loop writes the expansion of the template, as far as the array
    reaches. *)
Lemma template_loop_holds glob timestamp lim n : forall ptr out buf w,
  (String.length ptr <= n)%nat ->
  holds lim out (buf, w) ->
  holds lim (out ++ list_ascii_of_string (expansion glob timestamp ptr))
        (template_loop glob (ext_of glob) timestamp ptr buf w lim).
Proof.
  induction n as [| n IH]; intros ptr out buf w Hn H.
  - destruct ptr; simpl in Hn; [| lia]. simpl. now rewrite app_nil_r.
  - destruct ptr as [| c rest]; [simpl; now rewrite app_nil_r |].
    simpl in Hn.
    assert (IHrest : forall out' buf' w',
               holds lim out' (buf', w') ->
               holds lim
                 (out' ++ list_ascii_of_string (expansion glob timestamp rest))
                 (template_loop glob (ext_of glob) timestamp rest buf' w' lim))
      by (intros; apply IH; [lia | assumption]).
    assert (Hcopy : holds lim
              (out ++ list_ascii_of_string
                        (String c (expansion glob timestamp rest)))
              (if (w =? lim)%nat then (buf, w)
               else template_loop glob (ext_of glob) timestamp rest
                                  (<[w:=c]> buf) (S w) lim)).
    { destruct (holds_offset _ _ _ _ H) as [Hle _].
      destruct (Nat.eqb_spec w lim) as [Heq | Hne].
      - apply holds_full; [exact H | lia].
      - simpl. replace (out ++ c :: list_ascii_of_string
                                      (expansion glob timestamp rest))
          with ((out ++ [c]) ++ list_ascii_of_string
                                  (expansion glob timestamp rest))
          by (now rewrite <- app_assoc).
        apply IHrest. apply holds_store; [exact H | lia]. }
    cbn [Names.template_loop NamesSpec.expansion].
    destruct (Ascii.eqb c "%"); [| exact Hcopy].
    destruct rest as [| d rest'].
    + simpl. now apply holds_copy.
    + assert (IHrest' : forall out' buf' w',
                 holds lim out' (buf', w') ->
                 holds lim
                   (out' ++ list_ascii_of_string
                              (expansion glob timestamp rest'))
                   (template_loop glob (ext_of glob) timestamp rest'
                                  buf' w' lim))
        by (intros; apply IH; [simpl in Hn; lia | assumption]).
      destruct (Ascii.eqb d CORSARO_IO_MONITOR_PATTERN).
      { destruct (monitorid glob) as [id |].
        - now apply holds_directive.
        - simpl. now apply IHrest'. }
      destruct (Ascii.eqb d CORSARO_IO_PLUGIN_PATTERN);
        [now apply (holds_directive lim out "wdcap") |].
      destruct (Ascii.eqb d CORSARO_IO_TRACE_FORMAT_PATTERN);
        [now apply holds_directive |].
      destruct (Ascii.eqb d "s"); [now apply holds_directive |].
      exact Hcopy.
Qed.


Lemma expansion_c_string glob timestamp n : forall ptr,
  (String.length ptr <= n)%nat ->
  is_c_string ptr = true ->
  is_c_string_or_null (fileformat glob) = true ->
  is_c_string_or_null (monitorid glob) = true ->
  is_c_string (expansion glob timestamp ptr) = true.
Proof.
  intros ptr Hn Hptr Hfmt Hmon. revert ptr Hn Hptr.
  assert (Hext : is_c_string (ext_of glob) = true).
  { unfold ext_of, format_of.
    destruct (fileformat glob) as [fmt |]; [| reflexivity].
    destruct (String.eqb fmt "pcapfile"); [reflexivity | exact Hfmt]. }
  induction n as [| n IH]; intros ptr Hn Hptr.
  - destruct ptr; simpl in Hn; [reflexivity | lia].
  - destruct ptr as [| c rest]; [reflexivity |].
    simpl in Hn.
    assert (Hc : negb (Ascii.eqb c NUL) = true /\ is_c_string rest = true)
      by (now apply andb_true_iff in Hptr).
    destruct Hc as [Hc Hrest].
    assert (Hkeep : is_c_string (String c (expansion glob timestamp rest))
                    = true).
    { unfold is_c_string. cbn [list_ascii_of_string forallb].
      rewrite Hc. apply IH; [lia | exact Hrest]. }
    cbn [NamesSpec.expansion].
    destruct (Ascii.eqb c "%"); [| exact Hkeep].
    destruct rest as [| d rest'].
    + unfold is_c_string. cbn [list_ascii_of_string forallb].
      now rewrite Hc.
    + assert (Hrest' : is_c_string (expansion glob timestamp rest') = true).
      { apply IH; [simpl in Hn; lia |].
        now apply andb_true_iff in Hrest as [_ Hrest]. }
      destruct (Ascii.eqb d CORSARO_IO_MONITOR_PATTERN).
      { rewrite is_c_string_append, Hrest', andb_true_r.
        destruct (monitorid glob); [exact Hmon | reflexivity]. }
      destruct (Ascii.eqb d CORSARO_IO_PLUGIN_PATTERN);
        [now rewrite is_c_string_append, Hrest' |].
      destruct (Ascii.eqb d CORSARO_IO_TRACE_FORMAT_PATTERN);
        [now rewrite is_c_string_append, Hrest', Hext |].
      destruct (Ascii.eqb d "s");
        [now rewrite is_c_string_append, Hrest', decimal_c_string |].
      exact Hkeep.
Qed.

Lemma format_c_string glob :
  is_c_string_or_null (fileformat glob) = true ->
  is_c_string (format_of glob) = true.
Proof.
  unfold format_of. destruct (fileformat glob); [auto | reflexivity].
Qed.

Lemma ending_c_string threadid exttype :
  is_c_string (ending_of threadid exttype) = true.
Proof.
  unfold ending_of.
  destruct (0 <=? threadid);
    [now rewrite is_c_string_append, decimal_c_string |].
  destruct (exttype =? 1); [reflexivity |].
  destruct (exttype =? 2); reflexivity.
Qed.

Lemma full_format_c_string glob timestamp threadid needformat exttype :
  is_c_string (template glob) = true ->
  is_c_string_or_null (fileformat glob) = true ->
  is_c_string_or_null (monitorid glob) = true ->
  is_c_string (full_format glob timestamp threadid needformat exttype) = true.
Proof.
  intros Ht Hf Hm. unfold NamesSpec.full_format.
  rewrite !is_c_string_append.
  rewrite (expansion_c_string glob timestamp _ (template glob) (le_n _))
    by assumption.
  rewrite ending_c_string, !andb_true_r.
  unfold scheme. destruct (needformat =? 0); [reflexivity |].
  rewrite is_c_string_append, format_c_string by assumption. reflexivity.
Qed.

(** The three outcomes of the naming, in terms of the format that the
    array is meant to hold. *)
Lemma derive_output_name_outcome glob scratch
    timestamp threadid needformat exttype :
  length scratch = sizeof_scratch ->
  is_c_string (template glob) = true ->
  is_c_string_or_null (fileformat glob) = true ->
  is_c_string_or_null (monitorid glob) = true ->
  corsaro_wdcap_derive_output_name glob scratch
    timestamp threadid needformat exttype
  = if negb (needformat =? 0)
       && (sizeof_scratch <=? String.length (format_of glob))%nat
    then Overrun
    else
      let fmt := full_format glob timestamp threadid needformat exttype in
      if (String.length fmt <? sizeof_scratch)%nat
      then Name (strftime fmt timestamp)
      else NoName.
Proof.
  intros Hlen Ht Hf Hm.
  pose proof (full_format_c_string glob timestamp threadid needformat exttype
                Ht Hf Hm) as Hfull.
  unfold Names.corsaro_wdcap_derive_output_name, NamesSpec.full_format in *.
  fold (format_of glob). fold (ext_of glob).
  revert Hlen. generalize sizeof_scratch. intros lim Hlen.
  set (body := expansion glob timestamp (template glob)) in *.
  (* the scheme *)
  assert (Hstart :
    match (if needformat =? 0 then Some (scratch, O)
           else let '(buf, w) := stradd (format_of glob) scratch 0 lim in
                if (w <? lim)%nat then Some (<[w:=":"%char]> buf, S w)
                else None) with
    | None => negb (needformat =? 0)
              && (lim <=? String.length (format_of glob))%nat = true
    | Some st =>
        negb (needformat =? 0)
        && (lim <=? String.length (format_of glob))%nat = false /\
        holds lim (list_ascii_of_string (scheme glob needformat)) st
    end).
  { unfold scheme. destruct (needformat =? 0); simpl.
    - split; [reflexivity |]. apply holds_start. lia.
    - pose proof (stradd_holds lim (format_of glob) [] scratch O
                    (holds_start lim scratch ltac:(lia))) as H.
      pose proof (stradd_offset (format_of glob) scratch O lim) as Hoff.
      destruct (stradd (format_of glob) scratch 0 lim) as [buf w].
      simpl in Hoff.
      destruct (Nat.ltb_spec w lim) as [Hlt | Hge].
      + split; [apply Nat.leb_gt; lia |].
        rewrite chars_append. simpl in H. now apply holds_store.
      + apply Nat.leb_le. lia. }
  destruct (if needformat =? 0 then Some (scratch, O) else _)
    as [[buf0 w0] |]; [| now rewrite Hstart].
  destruct Hstart as [-> H0]. cbv beta iota.
  (* the template *)
  pose proof (template_loop_holds glob timestamp lim _ (template glob)
                _ buf0 w0 (le_n _) H0) as H1.
  fold body in H1.
  destruct (template_loop glob (ext_of glob) timestamp (template glob)
                          buf0 w0 lim) as [buf1 w1].
  (* the ending *)
  set (tail := ending_of threadid exttype) in *.
  assert (H2 : holds lim
            ((list_ascii_of_string (scheme glob needformat)
              ++ list_ascii_of_string body) ++ list_ascii_of_string tail)
            (if 0 <=? threadid
             then stradd (String.append "--" (decimal threadid)) buf1 w1 lim
             else if exttype =? 1 then stradd ".done" buf1 w1 lim
             else if exttype =? 2 then stradd ".stats" buf1 w1 lim
             else (buf1, w1))).
  { unfold tail, ending_of.
    destruct (0 <=? threadid); [now apply stradd_holds |].
    destruct (exttype =? 1); [now apply stradd_holds |].
    destruct (exttype =? 2); [now apply stradd_holds |].
    simpl. now rewrite app_nil_r. }
  rewrite <- !chars_append in H2.
  destruct H1 as (Hw1 & _ & _). simpl in Hw1.
  rewrite <- chars_append, chars_length in Hw1.
  pose proof (f_equal String.length
                (eq_refl (String.append (scheme glob needformat)
                                        (String.append body tail)))) as Hsum.
  rewrite <- chars_length in Hsum at 1.
  rewrite !chars_append, !length_app, !chars_length in Hsum.
  assert (Hassoc : String.append (String.append (scheme glob needformat) body)
                                 tail
                   = String.append (scheme glob needformat)
                                   (String.append body tail)).
  { rewrite <- (string_of_list_ascii_of_string (String.append _ tail)).
    rewrite !chars_append, <- app_assoc, <- !chars_append.
    apply string_of_list_ascii_of_string. }
  rewrite Hassoc in H2.
  assert (Hpre : String.length (String.append (scheme glob needformat) body)
                 = (String.length (scheme glob needformat)
                    + String.length body)%nat).
  { now rewrite <- chars_length, chars_append, length_app, !chars_length. }
  destruct (Nat.leb_spec lim w1) as [Hge1 | Hlt1].
  { destruct (Nat.ltb_spec
                (String.length (String.append (scheme glob needformat)
                                              (String.append body tail)))
                lim); [lia | reflexivity]. }
  destruct (if 0 <=? threadid then _ else _) as [buf2 w2].
  destruct H2 as (Hw2 & Hlen2 & Htake2). simpl in Hw2, Hlen2, Htake2.
  rewrite chars_length in Hw2.
  destruct (Nat.leb_spec lim w2) as [Hge2 | Hlt2];
    destruct (Nat.ltb_spec
                (String.length (String.append (scheme glob needformat)
                                              (String.append body tail)))
                lim) as [Hfit | Hno]; try lia; [reflexivity |].
  rewrite (take_ge (list_ascii_of_string _) lim) in Htake2
    by (rewrite chars_length; lia).
  rewrite c_string_terminated; [| lia | now rewrite Htake2].
  now rewrite Htake2, string_of_list_ascii_of_string.
Qed.


Lemma append_cons c s1 s2 :
  String.append (String c s1) s2 = String c (String.append s1 s2).
Proof. reflexivity. Qed.

Lemma append_nil s : String.append EmptyString s = s.
Proof. reflexivity. Qed.

Lemma strchr_after_plain fmt rest :
  plain_format fmt = true ->
  Merge.strchr (String.append fmt (String ":" rest)) ":"
  = Some (String ":"%char rest).
Proof.
  induction fmt as [| c fmt IH]; intros Hp; [reflexivity |].
  unfold plain_format in Hp. cbn [list_ascii_of_string forallb] in Hp.
  apply andb_true_iff in Hp as [Hc Hp].
  apply andb_true_iff in Hc as [Hc _].
  rewrite append_cons. simpl.
  destruct (Ascii.eqb c ":"); [discriminate |]. now apply IH.
Qed.

Lemma strftime_after_plain fmt rest t :
  (forall c s t', c <> "%"%char ->
     strftime (String c s) t' = String c (strftime s t')) ->
  plain_format fmt = true ->
  strftime (String.append fmt (String ":" rest)) t
  = String.append fmt (String ":" (strftime rest t)).
Proof.
  intros Hcopy. induction fmt as [| c fmt IH]; intros Hp.
  - rewrite append_nil. now apply Hcopy.
  - unfold plain_format in Hp. cbn [list_ascii_of_string forallb] in Hp.
    apply andb_true_iff in Hp as [Hc Hp].
    apply andb_true_iff in Hc as [_ Hc].
    rewrite !append_cons, Hcopy.
    + now rewrite IH.
    + intros ->. discriminate.
Qed.

Lemma append_assoc s1 s2 s3 :
  String.append (String.append s1 s2) s3
  = String.append s1 (String.append s2 s3).
Proof.
  induction s1 as [| c s1 IH]; [reflexivity |].
  now rewrite !append_cons, IH.
Qed.

Lemma append_length s1 s2 :
  String.length (String.append s1 s2)
  = (String.length s1 + String.length s2)%nat.
Proof.
  induction s1 as [| c s1 IH]; [reflexivity |].
  rewrite append_cons. simpl. now rewrite IH.
Qed.

(** With the scheme in front, the name is the scheme, a colon and the name
    without it. *)
Lemma scheme_in_front glob scratch scratch'
    timestamp threadid needformat exttype uri :
  (forall c s t, c <> "%"%char ->
     strftime (String c s) t = String c (strftime s t)) ->
  length scratch = sizeof_scratch ->
  length scratch' = sizeof_scratch ->
  is_c_string (template glob) = true ->
  is_c_string_or_null (fileformat glob) = true ->
  is_c_string_or_null (monitorid glob) = true ->
  plain_format (format_of glob) = true ->
  needformat <> 0 ->
  corsaro_wdcap_derive_output_name glob scratch
    timestamp threadid needformat exttype = Name uri ->
  exists path,
    corsaro_wdcap_derive_output_name glob scratch'
      timestamp threadid 0 exttype = Name path /\
    uri = String.append (format_of glob) (String ":" path) /\
    Merge.interim_path uri = path.
Proof.
  intros Hcopy Hlen Hlen' Ht Hf Hm Hplain Hnf Huri.
  rewrite derive_output_name_outcome in Huri by assumption.
  rewrite derive_output_name_outcome by assumption.
  unfold NamesSpec.full_format, scheme in *.
  change (0 =? 0) with true. cbn [negb andb]. rewrite append_nil.
  destruct (Z.eqb_spec needformat 0) as [| _]; [contradiction |].
  cbn [negb andb] in Huri.
  destruct (sizeof_scratch <=? String.length (format_of glob))%nat;
    [discriminate |].
  cbv zeta in Huri.
  set (rest := String.append (expansion glob timestamp (template glob))
                             (ending_of threadid exttype)) in *.
  rewrite append_assoc, append_cons, append_nil in Huri.
  destruct (Nat.ltb_spec
              (String.length (String.append (format_of glob)
                                            (String ":" rest)))
              sizeof_scratch) as [Hfit | _]; [| discriminate].
  rewrite append_length in Hfit. cbn [String.length] in Hfit.
  injection Huri as <-.
  exists (strftime rest timestamp).
  destruct (Nat.ltb_spec (String.length rest) sizeof_scratch) as [_ | Hno];
    [| lia].
  split; [reflexivity |].
  rewrite strftime_after_plain by assumption.
  split; [reflexivity |].
  unfold Merge.interim_path. now rewrite strchr_after_plain.
Qed.

End Rendering.

(** X1.  [stradd] copies the string from the given offset on and stops at
    the limit: it returns the offset after the last character copied,
    stores the terminator there when the limit has not been reached, and
    leaves every other byte of the array as it was, those from the limit
    on included. *)
Theorem stradd_stays_within_the_limit
    (str : string) (buf : list ascii) (bufp buflim : nat) :
  (bufp <= buflim <= length buf)%nat ->
  let copied := (String.length str `min` (buflim - bufp))%nat in
  let res := stradd str buf bufp buflim in
  res.2 = (bufp + copied)%nat /\
  length res.1 = length buf /\
  take copied (drop bufp res.1) = take copied (list_ascii_of_string str) /\
  ((res.2 < buflim)%nat -> res.1 !! res.2 = Some NUL) /\
  (forall i, (i < bufp \/ res.2 < i \/ buflim <= i)%nat ->
     res.1 !! i = buf !! i).
Proof.
  intros Hb copied res. subst copied res.
  split; [apply stradd_offset |].
  split; [apply stradd_length |].
  split.
  - rewrite stradd_content by exact Hb.
    destruct (Nat.le_ge_cases (String.length str) (buflim - bufp))
      as [Hle | Hge].
    + rewrite Nat.min_l by exact Hle.
      rewrite !take_ge by (rewrite chars_length; lia). reflexivity.
    + now rewrite Nat.min_r by exact Hge.
  - split; [apply stradd_terminator; lia | apply stradd_untouched].
Qed.

Lemma stradd_stays_within_the_limit_witness :
  let res := stradd "wdcap" (replicate 8 "#"%char) 2 6 in
  res.2 = 6%nat /\
  length res.1 = 8%nat /\
  take 4 (drop 2 res.1) = take 4 (list_ascii_of_string "wdcap") /\
  ((res.2 < 6)%nat -> res.1 !! res.2 = Some NUL) /\
  (forall i, (i < 2 \/ res.2 < i \/ 6 <= i)%nat ->
     res.1 !! i = replicate 8 "#"%char !! i).
Proof.
  apply (stradd_stays_within_the_limit "wdcap" (replicate 8 "#"%char) 2 6).
  simpl. lia.
Defined.

(** X2.  The offset that [stradd] returns is where the next call goes on:
    two calls in a row leave the array and the offset as one call with the
    two strings joined does, truncated or not. *)
Theorem stradd_calls_join
    (s1 s2 : string) (buf : list ascii) (bufp buflim : nat) :
  stradd s2 (stradd s1 buf bufp buflim).1 (stradd s1 buf bufp buflim).2 buflim
  = stradd (String.append s1 s2) buf bufp buflim.
Proof. apply stradd_twice. Qed.

(** X3.  [corsaro_wdcap_derive_output_name] never truncates a name.  With
    C strings in the configuration, it stores past the end of its array
    exactly when a scheme is asked for and the format name alone fills the
    array; otherwise it returns NULL exactly when the scheme, the expanded
    template and the ending need as many bytes as the array has or more,
    and else hands the whole of them to [strftime], whatever the array held
    before. *)
Theorem derive_output_name_whole_or_null
    (CORSARO_IO_MONITOR_PATTERN CORSARO_IO_PLUGIN_PATTERN
       CORSARO_IO_TRACE_FORMAT_PATTERN : ascii)
    (strftime : string -> Z -> string)
    (glob : wdcap_naming) (scratch : list ascii)
    (timestamp threadid needformat exttype : Z) :
  length scratch = sizeof_scratch ->
  is_c_string (template glob) = true ->
  is_c_string_or_null (fileformat glob) = true ->
  is_c_string_or_null (monitorid glob) = true ->
  corsaro_wdcap_derive_output_name
    CORSARO_IO_MONITOR_PATTERN CORSARO_IO_PLUGIN_PATTERN
    CORSARO_IO_TRACE_FORMAT_PATTERN strftime glob scratch
    timestamp threadid needformat exttype
  = if negb (needformat =? 0)
       && (sizeof_scratch <=? String.length (format_of glob))%nat
    then Overrun
    else
      let fmt :=
        full_format CORSARO_IO_MONITOR_PATTERN CORSARO_IO_PLUGIN_PATTERN
          CORSARO_IO_TRACE_FORMAT_PATTERN glob
          timestamp threadid needformat exttype in
      if (String.length fmt <? sizeof_scratch)%nat
      then Name (strftime fmt timestamp)
      else NoName.
Proof. apply derive_output_name_outcome. Qed.

Lemma derive_output_name_whole_or_null_witness :
  corsaro_wdcap_derive_output_name "N" "P" "f" NameSamples.copy_strftime
    NameSamples.telescope NameSamples.stale_scratch 1700000000 3 1 0
  = Name "pcapfile:/data/ucsd-nt/wdcap-202311-1700000000.pcap--3".
Proof.
  rewrite (derive_output_name_whole_or_null "N" "P" "f"
             NameSamples.copy_strftime NameSamples.telescope
             NameSamples.stale_scratch 1700000000 3 1 0);
    vm_compute; reflexivity.
Defined.

(** X4.  The merging thread deletes the file the worker wrote.  When the
    format name holds neither a colon nor a percent sign and [strftime]
    copies ordinary characters, the name with the scheme in front is the
    format, a colon and the name without the scheme; so what follows the
    first colon of a reader's URI, the path given to [remove], is the name
    under which the processing thread opened its interim file. *)
Theorem merger_removes_the_file_the_worker_names
    (CORSARO_IO_MONITOR_PATTERN CORSARO_IO_PLUGIN_PATTERN
       CORSARO_IO_TRACE_FORMAT_PATTERN : ascii)
    (strftime : string -> Z -> string)
    (glob : wdcap_naming) (scratch scratch' : list ascii)
    (timestamp threadid needformat exttype : Z) (uri : string) :
  (forall c s t, c <> "%"%char ->
     strftime (String c s) t = String c (strftime s t)) ->
  length scratch = sizeof_scratch ->
  length scratch' = sizeof_scratch ->
  is_c_string (template glob) = true ->
  is_c_string_or_null (fileformat glob) = true ->
  is_c_string_or_null (monitorid glob) = true ->
  plain_format (format_of glob) = true ->
  needformat <> 0 ->
  corsaro_wdcap_derive_output_name
    CORSARO_IO_MONITOR_PATTERN CORSARO_IO_PLUGIN_PATTERN
    CORSARO_IO_TRACE_FORMAT_PATTERN strftime glob scratch
    timestamp threadid needformat exttype = Name uri ->
  exists path,
    corsaro_wdcap_derive_output_name
      CORSARO_IO_MONITOR_PATTERN CORSARO_IO_PLUGIN_PATTERN
      CORSARO_IO_TRACE_FORMAT_PATTERN strftime glob scratch'
      timestamp threadid 0 exttype = Name path /\
    uri = String.append (format_of glob) (String ":" path) /\
    Merge.interim_path uri = path.
Proof. apply scheme_in_front. Qed.

Lemma copy_strftime_ordinary c s t :
  c <> "%"%char ->
  NameSamples.copy_strftime (String c s) t
  = String c (NameSamples.copy_strftime s t).
Proof.
  intros Hc. cbn [NameSamples.copy_strftime].
  destruct (Ascii.eqb_spec c "%"); [contradiction | reflexivity].
Qed.

Lemma merger_removes_the_file_the_worker_names_witness :
  exists path,
    corsaro_wdcap_derive_output_name "N" "P" "f" NameSamples.copy_strftime
      NameSamples.telescope (replicate sizeof_scratch NUL)
      1700000000 3 0 0 = Name path /\
    "pcapfile:/data/ucsd-nt/wdcap-202311-1700000000.pcap--3"%string
    = String.append (format_of NameSamples.telescope) (String ":" path) /\
    Merge.interim_path
      "pcapfile:/data/ucsd-nt/wdcap-202311-1700000000.pcap--3" = path.
Proof.
  apply (merger_removes_the_file_the_worker_names "N" "P" "f"
           NameSamples.copy_strftime NameSamples.telescope
           NameSamples.stale_scratch (replicate sizeof_scratch NUL)
           1700000000 3 1 0).
  - exact copy_strftime_ordinary.
  - vm_compute; reflexivity.
  - vm_compute; reflexivity.
  - reflexivity.
  - reflexivity.
  - reflexivity.
  - reflexivity.
  - lia.
  - vm_compute; reflexivity.
Defined.

End NamesFacts.

(** ** The tick callback: the packets reported as missed *)

Module TicksFacts.
Import Worker Ticks TicksSpec.

Lemma run_ticks_missed threadid ticks : forall t,
  Forall counter_ok ticks ->
  0 <= lastmisscount t ->
  let res := run_ticks threadid ticks t in
  lastmisscount res.1 = highest_missing (lastmisscount t) ticks /\
  total_missed res.2 = lastmisscount res.1 - lastmisscount t /\
  Forall (fun r => drop_thread r = threadid /\ 0 < drop_missed r) res.2.
Proof.
  induction ticks as [| stats rest IH]; intros t Hok Hpos; simpl.
  - split; [reflexivity |]. split; [lia |].
    constructor.
  - apply Forall_cons in Hok as [Hstats Hrest]. unfold counter_ok in Hstats.
    unfold process_tick.
    destruct (Z.ltb_spec (lastmisscount t) (count (missing stats)))
      as [Hgrew | Hsame].
    + set (t1 := {| writer := writer t;
                    interimfilename := interimfilename t;
                    lastmisscount := count (missing stats);
                    lastaccepted := count (accepted stats);
                    last_ts := last_ts t; next_report := next_report t;
                    current_interval := current_interval t;
                    ending := ending t |}).
      destruct (IH t1 Hrest) as (Hhigh & Hsum & Hall);
        [unfold t1; simpl; lia |].
      destruct (run_ticks threadid rest t1) as [t2 logged].
      subst t1. simpl in *.
      unfold highest_missing in *. simpl.
      rewrite Z.max_r by lia.
      split; [exact Hhigh |].
      assert (Hd : to_uint64 (count (missing stats) - lastmisscount t)
                   = count (missing stats) - lastmisscount t)
        by (unfold to_uint64; apply Z.mod_small; lia).
      split.
      * rewrite Hd. lia.
      * constructor; [simpl; split; [reflexivity | lia] | exact Hall].
    + set (t1 := {| writer := writer t;
                    interimfilename := interimfilename t;
                    lastmisscount := lastmisscount t;
                    lastaccepted := count (accepted stats);
                    last_ts := last_ts t; next_report := next_report t;
                    current_interval := current_interval t;
                    ending := ending t |}).
      destruct (IH t1 Hrest) as (Hhigh & Hsum & Hall);
        [unfold t1; simpl; lia |].
      destruct (run_ticks threadid rest t1) as [t2 logged].
      subst t1. simpl in *.
      unfold highest_missing in *. simpl.
      rewrite Z.max_l by lia.
      split; [exact Hhigh |]. split; [exact Hsum | exact Hall].
Qed.

(** X5.  Over any number of ticks, the missed packets that a thread logs
    add up to the highest missing count that the capture library has
    reported: every logged line carries a positive number, and no missed
    packet is logged twice, whether the counter stands still or falls
    back in between. *)
Theorem ticks_log_each_missed_packet_once
    (threadid : Z) (ticks : list libtrace_stat)
    (created : option fast_trace_writer) :
  Forall counter_ok ticks ->
  let res := run_ticks threadid ticks (init_wdcap_thread_data created) in
  total_missed res.2 = highest_missing 0 ticks /\
  lastmisscount res.1 = highest_missing 0 ticks /\
  Forall (fun r => drop_thread r = threadid /\ 0 < drop_missed r) res.2.
Proof.
  intros Hok res.
  destruct (run_ticks_missed threadid ticks (init_wdcap_thread_data created)
              Hok ltac:(simpl; lia)) as (Hhigh & Hsum & Hall).
  fold res in Hhigh, Hsum, Hall. simpl in Hhigh, Hsum.
  split; [lia |]. split; [exact Hhigh | exact Hall].
Qed.

Lemma ticks_log_each_missed_packet_once_witness :
  let res := run_ticks 3 TickSamples.five_ticks (init_wdcap_thread_data None) in
  total_missed res.2 = highest_missing 0 TickSamples.five_ticks /\
  lastmisscount res.1 = highest_missing 0 TickSamples.five_ticks /\
  Forall (fun r => drop_thread r = 3 /\ 0 < drop_missed r) res.2.
Proof.
  apply (ticks_log_each_missed_packet_once 3 TickSamples.five_ticks None).
  unfold TickSamples.five_ticks, counter_ok.
  repeat (apply List.Forall_cons; [simpl; lia |]).
  apply List.Forall_nil.
Defined.

Example five_ticks_log :
  (run_ticks 3 TickSamples.five_ticks (init_wdcap_thread_data None)).2
  = [{| drop_thread := 3; drop_missed := 5; drop_accepted := 80 |};
     {| drop_thread := 3; drop_missed := 4; drop_accepted := 120 |}].
Proof. reflexivity. Qed.

End TicksFacts.

(** ** Merge: the content of the statistics file *)

Module StatsFacts.
Import Merge StatsSpec.

Lemma merge_field_fold (fs : list stat_field) : forall a,
  0 <= count a < 2 ^ 64 ->
  let total := fold_left MERGE_FIELD fs a in
  valid total = valid a || existsb valid fs /\
  count total = to_uint64 (count a + field_sum fs).
Proof.
  induction fs as [| f fs IH]; intros a Ha; simpl.
  - rewrite orb_false_r, Z.add_0_r. unfold to_uint64.
    now rewrite Z.mod_small.
  - unfold MERGE_FIELD at 2 4. destruct (valid f); simpl.
    + destruct (IH {| valid := true;
                      count := to_uint64 (count a + count f) |})
        as [Hv Hc].
      { simpl. unfold to_uint64. apply Z.mod_pos_bound. lia. }
      simpl in Hv, Hc. rewrite Hv, Hc, orb_true_r. split; [reflexivity |].
      unfold to_uint64. rewrite Zplus_mod_idemp_l. f_equal. lia.
    + destruct (IH a Ha) as [Hv Hc]. rewrite Hv, Hc. now split.
Qed.

(** Every counter of the merged statistics is the merged counter. *)
Lemma merge_ltstats_counter name field to from :
  (name, field) ∈ counters ->
  field (merge_ltstats to from) = MERGE_FIELD (field to) (field from).
Proof.
  unfold counters. intros Hin.
  repeat (apply elem_of_cons in Hin as [Heq | Hin];
          [injection Heq as -> ->; reflexivity |]).
  now apply elem_of_nil in Hin.
Qed.

Lemma merge_ltstats_fold name field (stats : list libtrace_stat) :
  (name, field) ∈ counters ->
  forall overall,
    field (fold_left merge_ltstats stats overall)
    = fold_left MERGE_FIELD (field <$> stats) (field overall).
Proof.
  intros Hin. induction stats as [| s stats IH]; intros overall; simpl;
    [reflexivity |].
  now rewrite IH, (merge_ltstats_counter name).
Qed.

Lemma overall_counter name field stats :
  (name, field) ∈ counters ->
  field (fold_left merge_ltstats stats zero_stats) = valid_total field stats.
Proof.
  intros Hin. rewrite (merge_ltstats_fold name) by exact Hin.
  assert (Hz : field zero_stats = zero_field).
  { unfold counters in Hin.
    repeat (apply elem_of_cons in Hin as [Heq | Hin];
            [injection Heq as -> ->; reflexivity |]).
    now apply elem_of_nil in Hin. }
  rewrite Hz.
  destruct (merge_field_fold (field <$> stats) zero_field) as [Hv Hc];
    [simpl; lia |].
  destruct (fold_left MERGE_FIELD (field <$> stats) zero_field) as [v c].
  simpl in Hv, Hc. subst v c. unfold valid_total. f_equal.
  induction stats as [| s stats IH]; [reflexivity |].
    rewrite fmap_cons. simpl. now rewrite IH.
Qed.

(** The loop over the threads logs each thread's counters and merges them
    into the overall ones. *)
Lemma thread_lines_all interval n : forall i overall,
  (i + n)%nat = length (thread_stats interval) ->
  length (thread_ids interval) = length (thread_stats interval) ->
  thread_lines n i interval overall
  = (concat (zip_with log_ltstats (drop i (thread_stats interval))
                                  (drop i (thread_ids interval))),
     fold_left merge_ltstats (drop i (thread_stats interval)) overall).
Proof.
  induction n as [| n IH]; intros i overall Hn Hids; simpl.
  - rewrite !drop_ge by lia. reflexivity.
  - destruct (lookup_lt_is_Some_2 (thread_stats interval) i ltac:(lia))
      as [st Hst].
    destruct (lookup_lt_is_Some_2 (thread_ids interval) i ltac:(lia))
      as [id Hid].
    rewrite Hst, Hid, IH by lia.
    rewrite (drop_S _ st i Hst), (drop_S _ id i Hid). reflexivity.
Qed.

Ltac counter_listed :=
  unfold counters;
  repeat first [apply list_elem_of_here | apply list_elem_of_further].

Lemma write_stats_content derive_output_name glob env interval :
  writestats glob = true ->
  stats_fopen env (derive_output_name (timestamp interval) (-1) 0 2) = true ->
  length (thread_stats interval) = Z.to_nat (threads glob) ->
  length (thread_ids interval) = Z.to_nat (threads glob) ->
  write_stats derive_output_name glob env interval
  = [StatsFile (derive_output_name (timestamp interval) (-1) 0 2)
       (timestamp interval) (stats_lines interval)
       (to_uint64 (end_msec env - start_msec env))].
Proof.
  intros Hws Hopen Hstats Hids. unfold write_stats. rewrite Hws, Hopen.
  rewrite (thread_lines_all interval _ 0) by lia. simpl.
  unfold stats_lines, log_ltstats at 2, counters. simpl.
  rewrite (overall_counter "accepted" accepted) by counter_listed.
  rewrite (overall_counter "filtered" filtered) by counter_listed.
  rewrite (overall_counter "received" received) by counter_listed.
  rewrite (overall_counter "dropped" dropped) by counter_listed.
  rewrite (overall_counter "captured" captured) by counter_listed.
  rewrite (overall_counter "missing" missing) by counter_listed.
  rewrite (overall_counter "errors" errors) by counter_listed.
  reflexivity.
Qed.

(** X6.  With statistics switched on and the file opened, the statistics
    file of an interval that all threads have reported holds the interval,
    seven lines for every thread in the order in which the threads
    reported, seven lines for all threads together and the duration of the
    merge.  An overall counter is the 64-bit sum over the threads that
    have the counter marked valid; it is logged as -1 when no thread has. *)
Theorem stats_file_adds_up_valid_counters
    (derive_output_name : Z -> Z -> Z -> Z -> string)
    (glob : wdcap_global) (env : merge_env)
    (interval : corsaro_wdcap_interval) :
  writestats glob = true ->
  stats_fopen env (derive_output_name (timestamp interval) (-1) 0 2) = true ->
  length (thread_stats interval) = Z.to_nat (threads glob) ->
  length (thread_ids interval) = Z.to_nat (threads glob) ->
  write_stats derive_output_name glob env interval
  = [StatsFile (derive_output_name (timestamp interval) (-1) 0 2)
       (timestamp interval) (stats_lines interval)
       (to_uint64 (end_msec env - start_msec env))] /\
  forall name field,
    line_value (LOG_FIELD (-1) name
                  (valid_total field (thread_stats interval)))
    = if existsb (fun s => valid (field s)) (thread_stats interval)
      then to_int64 (to_uint64 (valid_sum field (thread_stats interval)))
      else -1.
Proof.
  intros Hws Hopen Hstats Hids.
  split; [now apply write_stats_content |].
  intros name field. unfold LOG_FIELD, valid_total. simpl.
  now destruct (existsb _ _).
Qed.

Lemma stats_file_adds_up_valid_counters_witness :
  write_stats Samples.sample_names Samples.stats_glob Samples.good_merge
    StatSamples.counted_interval
  = [StatsFile "/data/cap.stats" 60 (stats_lines StatSamples.counted_interval)
       4] /\
  forall name field,
    line_value (LOG_FIELD (-1) name
                  (valid_total field
                     (thread_stats StatSamples.counted_interval)))
    = if existsb (fun s => valid (field s))
                 (thread_stats StatSamples.counted_interval)
      then to_int64 (to_uint64
                       (valid_sum field
                          (thread_stats StatSamples.counted_interval)))
      else -1.
Proof.
  apply (stats_file_adds_up_valid_counters Samples.sample_names
           Samples.stats_glob Samples.good_merge
           StatSamples.counted_interval); reflexivity.
Defined.

Example counted_interval_overall_lines :
  drop 14 (stats_lines StatSamples.counted_interval)
  = [{| line_thread := -1; line_field := "accepted"; line_value := 1000 |};
     {| line_thread := -1; line_field := "filtered"; line_value := 0 |};
     {| line_thread := -1; line_field := "received"; line_value := 1010 |};
     {| line_thread := -1; line_field := "dropped"; line_value := 10 |};
     {| line_thread := -1; line_field := "captured"; line_value := 1000 |};
     {| line_thread := -1; line_field := "missing"; line_value := 3 |};
     {| line_thread := -1; line_field := "errors"; line_value := -1 |}].
Proof. reflexivity. Qed.

End StatsFacts.

(** ** Worker: rotation, reload and what happens to a packet *)

Module RotationFacts.
Import Worker RotationSpec.

Lemma first_interval_returned glob e s s1 :
  first_interval glob e s = Returned s1 -> halted s1 = true.
Proof.
  unfold first_interval.
  destruct (time (current_interval (tls s)) =? 0); [| discriminate].
  destruct (first_packet e); [| now intros [= <-]].
  destruct (interval glob <=? 0); [now intros [= <-] | discriminate].
Qed.

Lemma boundary_loop_returned glob e ptv fuel : forall k s s1,
  boundary_loop fuel glob e ptv k s = Some (Returned s1) ->
  ending (tls s1) = true \/ halted s1 = true.
Proof.
  induction fuel as [| fuel IH]; intros k s s1; simpl.
  - destruct (boundary_reached e ptv (tls s)); discriminate.
  - destruct (boundary_reached e ptv (tls s)); [| discriminate].
    destruct (detach_writer (tls s)) as [srcfd t1].
    destruct (zmq_send e k _).
    + destruct (restart_flag e); [| apply IH].
      intros [= <-]. now left.
    + intros [= <-]. now right.
Qed.

Lemma open_interim_outcome e s :
  match open_interim e s with
  | Returned s1 => halted s1 = true
  | Next s1 =>
      trail s1 = trail s /\ halted s1 = halted s /\
      exists name, interimfilename (tls s1) = Some name
  end.
Proof.
  unfold open_interim.
  destruct (interimfilename (tls s)) as [name |] eqn:Hname; [eauto |].
  destruct (derive_interim_name e _ _) as [name |]; [| reflexivity].
  destruct (match writer (tls s) with
            | Some _ => start_fast_trace_writer e name
            | None => None
            end); simpl; eauto.
Qed.

Lemma per_packet_outcome fuel glob e p s s' :
  per_packet fuel glob e p s = Some s' ->
  (exists name,
      interimfilename (tls s') = Some name /\
      last (trail s') = Some (FastWrite (Some name) (as_written glob e p)) /\
      last_ts (tls s') = to_uint32 (tv_sec p)) \/
  ending (tls s') = true \/
  halted s' = true.
Proof.
  unfold per_packet.
  destruct (ending (tls s)) eqn:Hend; [intros [= <-]; auto |].
  destruct (first_interval glob e s) as [s1 | s1] eqn:H1.
  { intros [= <-]. right. right. now apply first_interval_returned in H1. }
  destruct (boundary_loop fuel glob e (tv_sec p) 0 s1) as [[s2 | s2] |] eqn:H2;
    [| | discriminate].
  { intros [= <-]. right. now apply boundary_loop_returned in H2. }
  pose proof (open_interim_outcome e s2) as H3.
  destruct (open_interim e s2) as [s3 | s3]; intros [= <-]; [auto |].
  destruct H3 as (_ & _ & name & Hname).
  unfold write_interim, as_written.
  destruct (fast_write_erf_packet e); simpl; [| auto].
  left. exists name. rewrite Hname, last_snoc. auto.
Qed.

Section Rotation.

Variable glob : wdcap_global.
Variable e : packet_env.
Variable ptv : Z.

Hypothesis interval_pos : 0 < interval glob.
Hypothesis no_restart : restart_flag e = false.
Hypothesis sends : forall k m, zmq_send e k m = true.

Lemma detach_writer_rotation t :
  next_report (detach_writer t).2 = next_report t /\
  current_interval (detach_writer t).2 = current_interval t /\
  ending (detach_writer t).2 = ending t /\
  (writer t <> None ->
   (interimfilename (detach_writer t).2 = None) /\
   (writer (detach_writer t).2 <> None)).
Proof.
  unfold detach_writer. destruct (writer t) as [w |].
  - destruct (corsaro_reset_fast_trace_writer w). simpl.
    repeat split; auto.
  - simpl. do 3 (split; [reflexivity |]). intros H. now contradiction H.
Qed.

Lemma reported_snoc evs m :
  reported (evs ++ [ZmqSend m true]) = reported evs ++ [timestamp m].
Proof.
  induction evs as [| ev evs IH]; [reflexivity |].
  destruct ev as [? | m' [] | ? ?]; simpl; now rewrite ?IH.
Qed.

(** [n] rounds of the boundary loop. *)
Lemma boundary_loop_rounds n : forall fuel k s,
  (n <= fuel)%nat ->
  0 < next_report (tls s) ->
  next_report (tls s) + Z.of_nat n * interval glob < 2 ^ 32 ->
  ptv < next_report (tls s) + Z.of_nat n * interval glob ->
  (n <> O ->
   next_report (tls s) + (Z.of_nat n - 1) * interval glob <= ptv) ->
  exists s',
    boundary_loop fuel glob e ptv k s = Some (Next s') /\
    reported (trail s')
    = reported (trail s)
      ++ interval_starts (time (current_interval (tls s)))
                         (next_report (tls s)) (interval glob) n /\
    next_report (tls s')
    = next_report (tls s) + Z.of_nat n * interval glob /\
    (n = O -> s' = s) /\
    (n <> O ->
     time (current_interval (tls s')) = next_report (tls s') - interval glob /\
     (writer (tls s) <> None -> interimfilename (tls s') = None)).
Proof.
  induction n as [| n IH]; intros fuel k s Hfuel Hpos Hfit Hbefore Hafter.
  - exists s. simpl in Hbefore.
    assert (Hstop : boundary_reached e ptv (tls s) = false).
    { unfold boundary_reached. rewrite no_restart. simpl.
      destruct (Z.leb_spec (next_report (tls s)) ptv); [lia |].
      apply andb_false_r. }
    destruct fuel; simpl; rewrite Hstop; simpl; rewrite app_nil_r;
      (split; [reflexivity |]); (split; [reflexivity |]);
      (split; [lia |]); (split; [reflexivity |]); intros H; now contradiction H.
  - destruct fuel as [| fuel]; [lia |].
    specialize (Hafter ltac:(lia)).
    assert (Hgo : boundary_reached e ptv (tls s) = true).
    { unfold boundary_reached. rewrite no_restart. simpl.
      destruct (Z.eqb_spec (next_report (tls s)) 0); [lia |]. simpl.
      apply Z.leb_le. nia. }
    simpl. rewrite Hgo.
    pose proof (detach_writer_rotation (tls s)) as (Kn & Kc & Ke & Kf).
    destruct (detach_writer (tls s)) as [srcfd t1]. simpl in Kn, Kc, Ke, Kf.
    rewrite sends, no_restart.
    set (m := {| type := CORSARO_WDCAP_MSG_INTERVAL_DONE;
                 threadid := perpkt_thread_id e;
                 timestamp := time (current_interval (tls s));
                 src_fd := srcfd;
                 lt_stats := if writestats glob then thread_statistics e
                             else mergemsg_uninit e |}).
    set (s2 := with_tls (emit (with_tls s t1) (ZmqSend m true))
                        (advance_interval glob t1)).
    assert (Hnr2 : next_report (tls s2)
                   = next_report (tls s) + interval glob).
    { unfold s2. simpl. rewrite Kn. apply to_uint32_id. nia. }
    assert (Hcur2 : time (current_interval (tls s2)) = next_report (tls s))
      by (unfold s2; simpl; exact Kn).
    assert (Htr2 : reported (trail s2)
                   = reported (trail s) ++ [time (current_interval (tls s))])
      by (unfold s2; simpl; now rewrite reported_snoc).
    assert (Hw2 : writer (tls s) <> None -> interimfilename (tls s2) = None)
      by (intros Hw; unfold s2; simpl; now apply Kf).
    assert (Hww : writer (tls s) <> None -> writer (tls s2) <> None)
      by (intros Hw; unfold s2; simpl; now apply Kf).
    destruct (IH fuel (S k) s2) as (s' & Hrun & Hrep & Hnext & Hzero & Hmore).
    + lia.
    + lia.
    + rewrite Hnr2. nia.
    + rewrite Hnr2. nia.
    + intros Hn. rewrite Hnr2. nia.
    + exists s'. split; [exact Hrun |].
      split.
      { rewrite Hrep, Htr2, Hcur2, Hnr2, <- app_assoc. reflexivity. }
      split; [rewrite Hnext, Hnr2; nia |].
      split; [discriminate |].
      intros _. destruct n as [| n].
      * rewrite (Hzero eq_refl). rewrite Hcur2, Hnr2.
        split; [lia | exact Hw2].
      * destruct (Hmore ltac:(discriminate)) as [Hc Hname].
        split; [exact Hc |]. intros Hw. now apply Hname, Hww.
Qed.

End Rotation.


Lemma boundaries_passed_bounds glob t ptv :
  0 < interval glob ->
  next_report t <= ptv ->
  let n := Z.of_nat (boundaries_passed glob t ptv) in
  1 <= n /\
  next_report t + (n - 1) * interval glob <= ptv
  < next_report t + n * interval glob.
Proof.
  intros Hi Hle. unfold boundaries_passed.
  pose proof (Z.div_pos (ptv - next_report t) (interval glob)
                ltac:(lia) Hi) as Hq.
  pose proof (Z.mul_div_le (ptv - next_report t) (interval glob) Hi) as Hlo.
  pose proof (Z.mul_succ_div_gt (ptv - next_report t) (interval glob) Hi)
    as Hhi.
  rewrite Z2Nat.id by lia. simpl. nia.
Qed.

(** A worker that has marked itself as ending ignores every packet. *)
Lemma run_worker_ending fuel glob input : forall s,
  ending (tls s) = true -> run_worker fuel glob input s = Some s.
Proof.
  induction input as [| [e p] rest IH]; intros s Hend; simpl;
    [reflexivity |].
  unfold per_packet. rewrite Hend. now apply IH.
Qed.

(** X7.  A packet handed to the callback is never dropped silently.  When
    the callback returns, it has appended the packet (with its VLAN tags
    stripped if so configured) to the interim file whose name it holds,
    or the thread is marked as ending, or the halt flag is raised.  And
    the callback does return within the given number of rounds of its
    boundary loop, for every worker state that a run reaches. *)
Theorem packet_is_written_or_worker_stops
    (fuel : nat) (glob : wdcap_global) (e : packet_env) (p : packet)
    (s : wstate) :
  (forall s',
      per_packet fuel glob e p s = Some s' ->
      (exists name,
          interimfilename (tls s') = Some name /\
          last (trail s')
          = Some (FastWrite (Some name) (as_written glob e p)) /\
          last_ts (tls s') = to_uint32 (tv_sec p)) \/
      ending (tls s') = true \/
      halted s' = true) /\
  (forall f,
      0 < interval glob -> 0 <= f -> f + interval glob < 2 ^ 32 ->
      (1 <= fuel)%nat ->
      WorkerSpec.input_ok glob f fuel (e, p) ->
      WorkerSpec.worker_inv glob f s ->
      exists s', per_packet fuel glob e p s = Some s').
Proof.
  split.
  - intros s'. apply per_packet_outcome.
  - intros f Hi Hf0 Hf Hfuel (He & Hp & Hb) Hinv. simpl in He, Hp, Hb.
    destruct (WorkerFacts.per_packet_inv glob f Hi Hf0 Hf fuel e p s
                He Hp Hfuel Hb Hinv) as (s' & Hrun & _).
    now exists s'.
Qed.

Lemma packet_is_written_or_worker_stops_witness :
  exists s',
    per_packet 8 Samples.minute_glob Samples.calm_env (Samples.packet_at 130)
      WorkerSamples.first_minute = Some s' /\
    ((exists name,
         interimfilename (tls s') = Some name /\
         last (trail s')
         = Some (FastWrite (Some name)
                   (as_written Samples.minute_glob Samples.calm_env
                      (Samples.packet_at 130))) /\
         last_ts (tls s') = to_uint32 (tv_sec (Samples.packet_at 130))) \/
     ending (tls s') = true \/
     halted s' = true).
Proof.
  eexists. split; [reflexivity |].
  apply (packet_is_written_or_worker_stops 8 Samples.minute_glob
           Samples.calm_env (Samples.packet_at 130)
           WorkerSamples.first_minute).
  reflexivity.
Defined.

(** X8.  A worker reports every interval up to the one of the packet.
    With the reload flag down and every record sent, the boundary loop of
    a worker whose next boundary the packet has reached sends one record
    for the current interval and one for every interval that starts at a
    boundary before the packet's last one, those without a packet
    included.  Afterwards the packet lies in the current interval, which
    ends at the next boundary, and the worker holds no interim file name,
    so that the packet goes to a new file. *)
Theorem boundary_loop_reports_every_interval
    (glob : wdcap_global) (e : packet_env) (ptv : Z) (fuel k : nat)
    (s : wstate) :
  0 < interval glob ->
  restart_flag e = false ->
  (forall k m, zmq_send e k m = true) ->
  0 < next_report (tls s) <= ptv ->
  ptv + interval glob < 2 ^ 32 ->
  (boundaries_passed glob (tls s) ptv <= fuel)%nat ->
  exists s',
    boundary_loop fuel glob e ptv k s = Some (Next s') /\
    reported (trail s')
    = reported (trail s)
      ++ interval_starts (time (current_interval (tls s)))
                         (next_report (tls s)) (interval glob)
                         (boundaries_passed glob (tls s) ptv) /\
    time (current_interval (tls s')) <= ptv < next_report (tls s') /\
    next_report (tls s')
    = time (current_interval (tls s')) + interval glob /\
    (writer (tls s) <> None -> interimfilename (tls s') = None).
Proof.
  intros Hi Hre Hsend [Hpos Hle] Hfit Hfuel.
  destruct (boundaries_passed_bounds glob (tls s) ptv Hi Hle)
    as (Hn & Hlo & Hhi).
  set (n := boundaries_passed glob (tls s) ptv) in *.
  destruct (boundary_loop_rounds glob e ptv Hi Hre Hsend n fuel k s)
    as (s' & Hrun & Hrep & Hnext & _ & Hmore);
    [exact Hfuel | exact Hpos | nia | exact Hhi | intros _; exact Hlo |].
  destruct (Hmore ltac:(lia)) as [Hcur Hname].
  exists s'. split; [exact Hrun |]. split; [exact Hrep |].
  split; [lia |]. split; [lia | exact Hname].
Qed.

Lemma boundary_loop_reports_every_interval_witness :
  exists s',
    boundary_loop 2 Samples.minute_glob Samples.calm_env 250 0
      WorkerSamples.first_minute = Some (Next s') /\
    reported (trail s') = [] ++ interval_starts 125 180 60 2 /\
    time (current_interval (tls s')) <= 250 < next_report (tls s') /\
    next_report (tls s') = time (current_interval (tls s')) + 60 /\
    (writer (tls WorkerSamples.first_minute) <> None ->
     interimfilename (tls s') = None).
Proof.
  apply (boundary_loop_reports_every_interval Samples.minute_glob
           Samples.calm_env 250 2 0 WorkerSamples.first_minute).
  - simpl. lia.
  - reflexivity.
  - intros k m. reflexivity.
  - simpl. lia.
  - simpl. lia.
  - vm_compute. lia.
Defined.

(** X9.  A reload ends a worker after one last record.  When the reload
    flag is up, a worker that has begun its first interval sends the
    record of its current interval, counts itself among the threads that
    have ended and marks itself as ending; the packet at hand is not
    written.  The halt flag is raised by this call exactly when the count
    reaches the number of threads.  From then on no packet changes the
    worker's state: it sends and writes nothing more. *)
Theorem reload_ends_worker_after_one_record
    (fuel : nat) (glob : wdcap_global) (e : packet_env) (p : packet)
    (s : wstate) :
  ending (tls s) = false ->
  time (current_interval (tls s)) <> 0 ->
  restart_flag e = true ->
  (forall m, zmq_send e 0 m = true) ->
  (1 <= fuel)%nat ->
  exists s' m,
    per_packet fuel glob e p s = Some s' /\
    trail s' = trail s ++ [ZmqSend m true; Log "marked proc thread as ending"]
    /\ type m = CORSARO_WDCAP_MSG_INTERVAL_DONE /\
    timestamp m = time (current_interval (tls s)) /\
    threadid m = perpkt_thread_id e /\
    ending (tls s') = true /\
    threads_ended s' = threads_ended s + 1 /\
    halted s'
    = (if threads glob <=? threads_ended s + 1 then true else halted s) /\
    forall fuel' input, run_worker fuel' glob input s' = Some s'.
Proof.
  intros Hend Hcur Hre Hsend Hfuel.
  destruct fuel as [| fuel]; [lia |].
  unfold per_packet, first_interval. rewrite Hend.
  destruct (Z.eqb_spec (time (current_interval (tls s))) 0); [contradiction |].
  simpl. unfold boundary_reached. rewrite Hre. simpl.
  unfold detach_writer.
  destruct (writer (tls s)) as [w |].
  - destruct (corsaro_reset_fast_trace_writer w) as [fd w'].
    rewrite Hsend. eexists _, _. split; [reflexivity |]. simpl.
    rewrite <- app_assoc. simpl.
    repeat (split; [reflexivity |]).
    intros fuel' input. now apply run_worker_ending.
  - rewrite Hsend. eexists _, _. split; [reflexivity |]. simpl.
    rewrite <- app_assoc. simpl.
    repeat (split; [reflexivity |]).
    intros fuel' input. now apply run_worker_ending.
Qed.

Lemma reload_ends_worker_after_one_record_witness :
  exists s' m,
    per_packet 1 Samples.minute_glob WorkerSamples.reload_env
      (Samples.packet_at 130) WorkerSamples.first_minute = Some s' /\
    trail s' = [] ++ [ZmqSend m true; Log "marked proc thread as ending"] /\
    type m = CORSARO_WDCAP_MSG_INTERVAL_DONE /\
    timestamp m = 125 /\
    threadid m = 0 /\
    ending (tls s') = true /\
    threads_ended s' = 0 + 1 /\
    halted s' = (if 2 <=? 0 + 1 then true else false) /\
    forall fuel' input,
      run_worker fuel' Samples.minute_glob input s' = Some s'.
Proof.
  apply (reload_ends_worker_after_one_record 1 Samples.minute_glob
           WorkerSamples.reload_env (Samples.packet_at 130)
           WorkerSamples.first_minute).
  - reflexivity.
  - simpl. lia.
  - reflexivity.
  - intros m. reflexivity.
  - lia.
Defined.

End RotationFacts.

(** ** Start-up: the options of the command line *)

Module OptionsFacts.
Import Supervisor OptionsSpec.

Lemma parse_options_configuring answers : forall logmodestr configfile,
  forallb configures answers = true ->
  parse_options answers logmodestr configfile
  = inl (last_arg "l" answers logmodestr, last_arg "c" answers configfile).
Proof.
  induction answers as [| a rest IH]; intros logmodestr configfile Hall;
    simpl in *; [reflexivity |].
  apply andb_true_iff in Hall as [Ha Hrest]. unfold configures in Ha.
  destruct (Ascii.eqb_spec (opt a) "l") as [Hl | Hl].
  - rewrite Hl. simpl. now apply IH.
  - destruct (Ascii.eqb_spec (opt a) "c") as [Hc | Hc]; [| discriminate].
    now apply IH.
Qed.

Lemma parse_options_stops pre a post : forall logmodestr configfile,
  forallb configures pre = true ->
  configures a = false ->
  parse_options (pre ++ a :: post) logmodestr configfile
  = inr (if Ascii.eqb (opt a) "h" then [Usage]
         else [Stderr (String.append "corsarowdcap: unsupported option: "
                                     (String (opt a) EmptyString));
               Usage]).
Proof.
  induction pre as [| b pre IH]; intros logmodestr configfile Hpre Ha;
    simpl in *.
  - unfold configures in Ha. apply orb_false_iff in Ha as [-> ->].
    now destruct (Ascii.eqb (opt a) "h").
  - apply andb_true_iff in Hpre as [Hb Hpre]. unfold configures in Hb.
    destruct (Ascii.eqb (opt b) "l"); [now apply IH |].
    destruct (Ascii.eqb (opt b) "c"); [now apply IH | discriminate].
Qed.

(** X10.  The options are read from left to right.  As long as only [-l]
    and [-c] occur, a later occurrence replaces an earlier one, so that the
    last log mode and the last configuration file count.  The first option
    that is neither of the two ends the start-up with the usage text, with
    an error line before it unless the option is [-h]; then no signal
    handler is installed and no configuration is read, whatever follows on
    the command line. *)
Theorem last_option_counts_and_help_stops
    (global : Type)
    (corsaro_wdcap_init_global : string -> logmode -> option global)
    (answers : list getopt_result) :
  (forallb configures answers = true ->
   parse_options answers None None
   = inl (last_arg "l" answers None, last_arg "c" answers None)) /\
  (forall pre a post,
      answers = pre ++ a :: post ->
      forallb configures pre = true ->
      configures a = false ->
      init_wdcap_process global corsaro_wdcap_init_global answers
      = (if Ascii.eqb (opt a) "h" then [Usage]
         else [Stderr (String.append "corsarowdcap: unsupported option: "
                                     (String (opt a) EmptyString));
               Usage],
         None)).
Proof.
  split.
  - apply parse_options_configuring.
  - intros pre a post -> Hpre Ha. unfold init_wdcap_process.
    now rewrite parse_options_stops.
Qed.

Lemma last_option_counts_and_help_stops_witness :
  let twice := [ {| opt := "c"; optarg := "a.yaml" |};
                 {| opt := "l"; optarg := "file" |};
                 {| opt := "c"; optarg := "b.yaml" |} ] in
  let help := {| opt := "h"; optarg := "" |} in
  parse_options twice None None = inl (Some "file", Some "b.yaml")%string /\
  init_wdcap_process Z (fun _ _ => Some 0) (twice ++ help :: twice)
  = ([Usage], None).
Proof.
  intros twice help.
  destruct (last_option_counts_and_help_stops Z (fun _ _ => Some 0) twice)
    as [Hlast _].
  destruct (last_option_counts_and_help_stops Z (fun _ _ => Some 0)
              (twice ++ help :: twice)) as [_ Hstop].
  split.
  - apply Hlast. reflexivity.
  - apply (Hstop twice help twice); reflexivity.
Defined.

End OptionsFacts.

(** ** The merging thread: workers that report in step *)

Module OrderFacts.
Import Merger MergerSpec OrderSpec.

Lemma least_after_report m d w c :
  is_least m d -> d !! w = Some c ->
  let d' := <[w:=S c]> d in
  (Forall (fun c0 => (c < c0)%nat) d' -> c = m /\ is_least (S m) d') /\
  (~ Forall (fun c0 => (c < c0)%nat) d' -> is_least m d').
Proof.
  intros [Hall Hin] Hw d'.
  pose proof (Forall_lookup_1 _ _ _ _ Hall Hw) as Hmc. cbv beta in Hmc.
  assert (Hall' : Forall (fun c0 => (m <= c0)%nat) d').
  { apply Forall_insert; [exact Hall | lia]. }
  apply list_elem_of_lookup in Hin as [w1 Hw1].
  assert (Hlt : (w < length d)%nat) by (now apply lookup_lt_Some in Hw).
  split.
  - intros Habove.
    assert (Hcm : c = m).
    { destruct (Nat.eq_dec w1 w) as [-> | Hne]; [congruence |].
      assert (Hw1' : d' !! w1 = Some m)
        by (unfold d'; now rewrite list_lookup_insert_ne).
      pose proof (Forall_lookup_1 _ _ _ _ Habove Hw1') as Hgt.
      cbv beta in Hgt. lia. }
    split; [exact Hcm |]. subst c. split.
    + eapply Forall_impl; [exact Habove |]. simpl. intros; lia.
    + apply list_elem_of_lookup. exists w. unfold d'.
      now apply list_lookup_insert_eq.
  - intros Hnot. split; [exact Hall' |].
    destruct (Nat.eq_dec w1 w) as [-> | Hne].
    + assert (c = m) by congruence. subst c.
      apply not_Forall_Exists in Hnot; [| intros x; apply _].
      apply Exists_exists in Hnot as (c0 & Hin0 & Hc0).
      pose proof (proj1 (Forall_forall _ _) Hall' c0 Hin0) as Hm0.
      unfold compose in Hc0. cbv beta in Hm0, Hc0.
      assert (c0 = m) by lia. now subst c0.
    + apply list_elem_of_lookup. exists w1. unfold d'.
      now rewrite list_lookup_insert_ne.
Qed.

Lemma greatest_after_report M d w c :
  is_greatest M d -> d !! w = Some c ->
  let d' := <[w:=S c]> d in
  ((c < M)%nat -> is_greatest M d') /\
  (c = M -> is_greatest (S M) d').
Proof.
  intros [Hall Hin] Hw d'.
  pose proof (Forall_lookup_1 _ _ _ _ Hall Hw) as HcM. cbv beta in HcM.
  assert (Hlt : (w < length d)%nat) by (now apply lookup_lt_Some in Hw).
  split.
  - intros Hc. split.
    + apply Forall_insert; [exact Hall | lia].
    + apply list_elem_of_lookup in Hin as [w1 Hw1].
      assert (w1 <> w) by (intros ->; rewrite Hw in Hw1; injection Hw1; lia).
      apply list_elem_of_lookup. exists w1. unfold d'.
      now rewrite list_lookup_insert_ne.
  - intros ->. split.
    + apply Forall_insert; [| lia].
      eapply Forall_impl; [exact Hall |]. simpl. intros; lia.
    + apply list_elem_of_lookup. exists w. unfold d'.
      now apply list_lookup_insert_eq.
Qed.

(** A list of distinct worker numbers has all of them exactly when it has
    as many as there are workers. *)
Lemma all_workers_listed (ids : list Z) (n : nat) :
  NoDup ids ->
  (forall z, z ∈ ids -> exists w, z = Z.of_nat w /\ (w < n)%nat) ->
  (length ids <= n)%nat /\
  (length ids = n <-> forall w, (w < n)%nat -> Z.of_nat w ∈ ids).
Proof.
  intros Hnd Hsub.
  set (all := Z.of_nat <$> seq 0 n).
  assert (Hlen : length all = n)
    by (unfold all; now rewrite length_fmap, length_seq).
  assert (Hin : forall z, z ∈ all <-> exists w, z = Z.of_nat w /\ (w < n)%nat).
  { intros z. unfold all. rewrite list_elem_of_fmap. split.
    - intros (w & -> & Hw%elem_of_seq). exists w. split; [reflexivity | lia].
    - intros (w & -> & Hw). exists w. split; [reflexivity |].
      apply elem_of_seq. lia. }
  assert (Hsm : ids ⊆+ all).
  { apply NoDup_submseteq; [exact Hnd |]. intros z Hz. now apply Hin, Hsub. }
  pose proof (submseteq_length _ _ Hsm) as Hle. rewrite Hlen in Hle.
  split; [exact Hle |]. split.
  - intros Hfull w Hw.
    assert (Hperm : ids ≡ₚ all)
      by (apply submseteq_length_Permutation; [exact Hsm | lia]).
    rewrite Hperm. apply Hin. now exists w.
  - intros Hcover.
    assert (Hnd' : NoDup all).
    { unfold all. apply NoDup_fmap; [apply Nat2Z.inj' | apply NoDup_seq]. }
    assert (Hsm' : all ⊆+ ids).
    { apply NoDup_submseteq; [exact Hnd' |]. intros z Hz.
      apply Hin in Hz as (w & -> & Hw). now apply Hcover. }
    pose proof (submseteq_length _ _ Hsm') as Hge. lia.
Qed.

Lemma entry_complete d x fin :
  entry_ok d x fin ->
  (Merge.threads_done fin = Z.of_nat (length d)
   <-> Forall (fun c => (x < c)%nat) d).
Proof.
  intros (Hdone & Hnd & Hmem).
  destruct (all_workers_listed (Merge.thread_ids fin) (length d) Hnd)
    as [_ Hiff].
  { intros z Hz. apply Hmem in Hz as (w & c & -> & Hw & _).
    exists w. split; [reflexivity |]. now apply lookup_lt_Some in Hw. }
  rewrite Hdone. split.
  - intros Hfull. apply Nat2Z.inj in Hfull.
    apply Forall_lookup_2. intros w c Hw.
    assert (Hin : Z.of_nat w ∈ Merge.thread_ids fin)
      by (apply Hiff; [exact Hfull | now apply lookup_lt_Some in Hw]).
    apply Hmem in Hin as (w' & c' & Heq & Hw' & Hc').
    apply Nat2Z.inj in Heq. subst w'. congruence.
  - intros Hall. f_equal. apply Hiff. intros w Hw.
    destruct (lookup_lt_is_Some_2 d w Hw) as [c Hc].
    apply Hmem. exists w, c. split; [reflexivity |].
    split; [exact Hc |]. exact (Forall_lookup_1 _ _ _ _ Hall Hc).
Qed.

Lemma entry_next d w c fin st :
  entry_ok d c fin -> d !! w = Some c ->
  entry_ok (<[w:=S c]> d) c (next_report fin (Z.of_nat w) st).
Proof.
  intros (Hdone & Hnd & Hmem) Hw.
  assert (Hlt : (w < length d)%nat) by (now apply lookup_lt_Some in Hw).
  assert (Hnew : Z.of_nat w ∉ Merge.thread_ids fin).
  { intros Hin. apply Hmem in Hin as (w' & c' & Heq & Hw' & Hc').
    apply Nat2Z.inj in Heq. subst w'. rewrite Hw in Hw'.
    injection Hw' as <-. lia. }
  unfold entry_ok, next_report. simpl. rewrite length_app. simpl.
  split; [lia |]. split.
  - apply NoDup_app. split; [exact Hnd |]. split; [| apply NoDup_singleton].
    intros z Hz Hz'. apply list_elem_of_singleton in Hz'. now subst z.
  - intros z. rewrite elem_of_app, list_elem_of_singleton, Hmem. split.
    + intros [(w' & c' & -> & Hw' & Hc') | ->].
      * exists w', c'. split; [reflexivity |]. split; [| exact Hc'].
        rewrite list_lookup_insert_ne; [exact Hw' |]. intros <-.
        rewrite Hw in Hw'. injection Hw' as <-. lia.
      * exists w, (S c). split; [reflexivity |].
        split; [now apply list_lookup_insert_eq | lia].
    + intros (w' & c' & -> & Hw' & Hc').
      destruct (Nat.eq_dec w w') as [<- | Hne]; [now right |].
      left. exists w', c'. split; [reflexivity |]. split; [| exact Hc'].
      now rewrite list_lookup_insert_ne in Hw'.
Qed.

Lemma entry_other d w c x fin :
  entry_ok d x fin -> d !! w = Some c -> x <> c ->
  entry_ok (<[w:=S c]> d) x fin.
Proof.
  intros (Hdone & Hnd & Hmem) Hw Hx.
  assert (Hlt : (w < length d)%nat) by (now apply lookup_lt_Some in Hw).
  split; [exact Hdone |]. split; [exact Hnd |].
  intros z. rewrite Hmem. split.
  - intros (w' & c' & -> & Hw' & Hc').
    destruct (Nat.eq_dec w w') as [<- | Hne].
    + exists w, (S c). split; [reflexivity |].
      split; [now apply list_lookup_insert_eq |].
      rewrite Hw in Hw'. injection Hw' as <-. lia.
    + exists w', c'. split; [reflexivity |]. split; [| exact Hc'].
      now rewrite list_lookup_insert_ne.
  - intros (w' & c' & -> & Hw' & Hc').
    destruct (Nat.eq_dec w w') as [<- | Hne].
    + rewrite list_lookup_insert_eq in Hw' by exact Hlt.
      injection Hw' as <-. exists w, c. split; [reflexivity |].
      split; [exact Hw | lia].
    + rewrite list_lookup_insert_ne in Hw' by exact Hne.
      exists w', c'. now split.
Qed.

Lemma entry_first d w M t st :
  is_greatest M d -> d !! w = Some M ->
  entry_ok (<[w:=S M]> d) M (first_report (Z.of_nat w) t st).
Proof.
  intros [Hall _] Hw.
  assert (Hlt : (w < length d)%nat) by (now apply lookup_lt_Some in Hw).
  unfold entry_ok, first_report. simpl.
  split; [reflexivity |]. split; [apply NoDup_singleton |].
  intros z. rewrite list_elem_of_singleton. split.
  - intros ->. exists w, (S M). split; [reflexivity |].
    split; [now apply list_lookup_insert_eq | lia].
  - intros (w' & c' & -> & Hw' & Hc').
    destruct (Nat.eq_dec w w') as [<- | Hne]; [reflexivity |].
    rewrite list_lookup_insert_ne in Hw' by exact Hne.
    pose proof (Forall_lookup_1 _ _ _ _ Hall Hw'). simpl in *. lia.
Qed.


Lemma sorted_NoDup (l : list Z) : StronglySorted Z.lt l -> NoDup l.
Proof.
  induction 1 as [| x l _ IH Hall]; [apply NoDup_nil_2 |].
  apply NoDup_cons. split; [| exact IH].
  intros Hin. apply (proj1 (Forall_forall _ _) Hall) in Hin. lia.
Qed.

Lemma find_interval_at l : forall k fin t,
  NoDup (Merge.timestamp <$> l) ->
  l !! k = Some fin -> Merge.timestamp fin = t ->
  find_interval l t = Some (k, fin).
Proof.
  induction l as [| x l IH]; intros k fin t Hnd Hk Ht; [discriminate |].
  rewrite fmap_cons in Hnd. apply NoDup_cons in Hnd as [Hx Hnd].
  simpl. destruct k as [| k]; simpl in Hk.
  - injection Hk as ->. now rewrite Ht, Z.eqb_refl.
  - destruct (Z.eqb_spec (Merge.timestamp x) t) as [Heq | _].
    + contradiction Hx. rewrite Heq, <- Ht.
      apply list_elem_of_fmap. exists fin. split; [reflexivity |].
      now apply list_elem_of_lookup_2 in Hk.
    + now rewrite (IH k fin t Hnd Hk Ht).
Qed.

Lemma find_interval_absent l t :
  t ∉ Merge.timestamp <$> l -> find_interval l t = None.
Proof.
  induction l as [| x l IH]; intros Hnot; [reflexivity |].
  rewrite fmap_cons in Hnot. apply not_elem_of_cons in Hnot as [Hx Hnot].
  simpl. destruct (Z.eqb_spec (Merge.timestamp x) t); [congruence |].
  now rewrite IH.
Qed.

Lemma merged_times_app evs evs' :
  merged_times (evs ++ evs') = merged_times evs ++ merged_times evs'.
Proof. apply omap_app. Qed.

Lemma freed_intervals_app evs evs' :
  freed_intervals (evs ++ evs') = freed_intervals evs ++ freed_intervals evs'.
Proof. apply omap_app. Qed.

Lemma out_of_order_app evs evs' :
  out_of_order (evs ++ evs') = out_of_order evs ++ out_of_order evs'.
Proof. apply omap_app. Qed.

Lemma closed_app evs evs' : closed (evs ++ evs') = closed evs ++ closed evs'.
Proof. apply omap_app. Qed.

Lemma alter_insert {A} (g : A -> A) (l : list A) i x :
  l !! i = Some x -> alter g i l = <[i:=g x]> l.
Proof.
  intros Hi. apply list_eq. intros j.
  assert (Hlt : (i < length l)%nat) by (now apply lookup_lt_Some in Hi).
  destruct (Nat.eq_dec i j) as [<- | Hne].
  - rewrite list_lookup_alter_eq, Hi, list_lookup_insert_eq by exact Hlt.
    reflexivity.
  - now rewrite list_lookup_alter_ne, list_lookup_insert_ne.
Qed.

Lemma window_lookup (ticks : list Z) m M k :
  (M <= length ticks)%nat -> (m + k < M)%nat ->
  drop m (take M ticks) !! k = ticks !! (m + k)%nat.
Proof. intros HM Hk. rewrite lookup_drop, lookup_take_lt by lia. reflexivity. Qed.

Lemma window_length (ticks : list Z) m M :
  (M <= length ticks)%nat -> length (drop m (take M ticks)) = (M - m)%nat.
Proof. intros HM. rewrite length_drop, length_take. lia. Qed.


Section InStep.

Variable derive_output_name : Z -> Z -> Z -> Z -> string.
Variable glob : wdcap_global.
Variable ticks : list Z.

Hypothesis ticks_sorted : StronglySorted Z.lt ticks.

(** The events of a merge that has taken place. *)
Lemma merge_events_account evs closing warning t r evsm fin m :
  merged_times evs = take m ticks ->
  Merge.timestamp <$> freed_intervals evs = take m ticks ->
  out_of_order evs = [] ->
  merged_times closing = [] -> freed_intervals closing = [] ->
  out_of_order closing = [] ->
  warning = [] ->
  ticks !! m = Some t -> Merge.timestamp fin = t ->
  let evs' :=
    evs ++ closing ++ warning ++ [Merged t r evsm]
        ++ (if r <? 0 then [LogMergeFailed t] else []) ++ [FreeInterval fin] in
  merged_times evs' = take (S m) ticks /\
  Merge.timestamp <$> freed_intervals evs' = take (S m) ticks /\
  out_of_order evs' = [].
Proof.
  intros Hm Hf Hq Hc1 Hc2 Hc3 -> Ht Hfin evs'. subst evs'.
  rewrite !merged_times_app, !freed_intervals_app, !out_of_order_app.
  rewrite Hm, Hq, Hc1, Hc2, Hc3, !fmap_app, Hf.
  rewrite (take_S_r _ _ t Ht).
  destruct (r <? 0); simpl; rewrite ?Hfin; auto.
Qed.

Lemma in_step_record d m M ms evs env w c t st closing :
  in_step_inv glob ticks d m M ms evs ->
  d !! w = Some c -> ticks !! c = Some t ->
  merged_times closing = [] -> freed_intervals closing = [] ->
  out_of_order closing = [] ->
  exists r ms' evs1,
    merge_finished_interval derive_output_name glob env ms (Z.of_nat w) t st
      = Some (r, ms', evs1) /\
    ((r <> Merge.FcloseNull /\
      exists m' M',
        in_step_inv glob ticks (<[w:=S c]> d) m' M' ms'
                    (evs ++ closing ++ evs1)) \/
     (r = Merge.FcloseNull /\
      Merge.done_fopen env (derive_output_name t (-1) 0 1) = false /\
      ticks !! m = Some t /\
      exists evsm, evs1 = [MergeDied t evsm])).
Proof.
  intros [Hwk Hrd Hkn Hleast Hgreat Hpend Hent Hmer Hfre Hq]
    Hw Ht Hc1 Hc2 Hc3.
  set (d' := <[w:=S c]> d).
  assert (Hlt : (w < length d)%nat) by (now apply lookup_lt_Some in Hw).
  assert (Hclen : (c < length ticks)%nat) by (now apply lookup_lt_Some in Ht).
  pose proof (Forall_lookup_1 _ _ _ _ (proj1 Hleast) Hw) as Hmc.
  pose proof (Forall_lookup_1 _ _ _ _ (proj1 Hgreat) Hw) as HcM.
  cbv beta in Hmc, HcM.
  assert (HM : (M <= length ticks)%nat).
  { destruct Hgreat as [_ Hin].
    exact (proj1 (Forall_forall _ _) Hkn M Hin). }
  assert (Hkn' : Forall (fun c0 => (c0 <= length ticks)%nat) d')
    by (apply Forall_insert; [exact Hkn | lia]).
  assert (Hwk' : Z.of_nat (length d') = threads glob)
    by (unfold d'; now rewrite length_insert).
  assert (HWlen : length (waiting ms) = (M - m)%nat).
  { apply (f_equal length) in Hpend.
    now rewrite length_fmap, window_length in Hpend. }
  assert (Hnd : NoDup ticks) by (now apply sorted_NoDup).
  assert (HndW : NoDup (Merge.timestamp <$> waiting ms)).
  { rewrite Hpend. eapply sublist_NoDup; [| apply sublist_drop].
    eapply sublist_NoDup; [exact Hnd | apply sublist_take]. }
  pose proof (least_after_report m d w c Hleast Hw) as [Hfull Hpart].
  pose proof (greatest_after_report M d w c Hgreat Hw) as [Hsame Hgrow].
  fold d' in Hfull, Hpart, Hsame, Hgrow.
  unfold merge_finished_interval.
  destruct (Nat.lt_ge_cases c M) as [HcltM | HcgeM].
  - (* some worker has reported this interval before *)
    set (k := (c - m)%nat).
    assert (Hk : exists fin,
               waiting ms !! k = Some fin /\ Merge.timestamp fin = t).
    { assert (Hlook : (Merge.timestamp <$> waiting ms) !! k = Some t).
      { rewrite Hpend, window_lookup by (unfold k; lia).
        now replace (m + k)%nat with c by (unfold k; lia). }
      rewrite list_lookup_fmap in Hlook.
      destruct (waiting ms !! k) as [fin |]; [| discriminate].
      injection Hlook as Hts. now exists fin. }
    destruct Hk as (fin & Hfin & Hts).
    rewrite (find_interval_at _ k fin t HndW Hfin Hts).
    set (fin' := next_report fin (Z.of_nat w) st).
    assert (Hok' : entry_ok d' c fin').
    { apply entry_next; [| exact Hw].
      specialize (Hent k fin Hfin).
      now replace (m + k)%nat with c in Hent by (unfold k; lia). }
    assert (Hothers : forall j fin0,
               j <> k -> waiting ms !! j = Some fin0 ->
               entry_ok d' (m + j) fin0).
    { intros j fin0 Hj Hfin0. apply entry_other; [now apply Hent | exact Hw |].
      unfold k in Hj. lia. }
    pose proof (entry_complete d' c fin' Hok') as Hcomp.
    rewrite Hwk' in Hcomp.
    destruct (Z.eqb_spec (Merge.threads_done fin') (threads glob))
      as [Hdone | Hdone].
    + (* the last worker: the interval is at the head and is merged *)
      destruct (Hfull (proj1 Hcomp Hdone)) as [-> Hleast'].
      assert (Hk0 : k = O) by (unfold k; lia).
      rewrite Hk0 in *.
      destruct (MergeFacts.write_merged_output_shape derive_output_name glob
                  env (readers ms) fin' Hrd)
        as (calls & middle & rs' & success & ws & -> & Hl & _).
      replace (Merge.timestamp fin') with t by (now rewrite <- Hts).
      destruct (success && negb _) eqn:Hdie.
      { (* the marker file cannot be opened *)
        apply andb_true_iff in Hdie as [_ Hdie%negb_true_iff].
        eexists _, _, _. split; [reflexivity |]. right.
        split; [reflexivity |]. split; [exact Hdie |].
        split; [exact Ht |]. now eexists. }
      destruct (merge_events_account evs closing [] t
                  (if success then 0 else -1)
                  ((calls ++ middle)
                   ++ (if ws then [Merge.DestroyWriter] else [])
                   ++ Merge.write_stats derive_output_name glob env fin'
                   ++ (if success
                       then [Merge.DoneFile (derive_output_name t (-1) 0 1)]
                       else [])
                   ++ Merge.cleanup_readers (length (readers ms)) 0 rs'
                   ++ [Merge.LogDoneMerging t])
                  fin' m Hmer Hfre Hq Hc1 Hc2 Hc3 eq_refl Ht Hts)
        as (Hmer' & Hfre' & Hq').
      eexists _, _, _. split; [reflexivity |]. left.
      split; [discriminate |]. exists (S m), M.
      constructor; simpl.
      * exact Hwk'.
      * lia.
      * exact Hkn'.
      * exact Hleast'.
      * now apply Hsame.
      * rewrite fmap_drop, list_fmap_insert, drop_insert_lt by lia.
        rewrite Hpend, drop_drop. f_equal. lia.
      * intros j fin0 Hj. rewrite lookup_drop in Hj.
        rewrite list_lookup_insert_ne in Hj by lia.
        pose proof (Hothers (1 + j)%nat fin0 ltac:(lia) Hj) as Hj'.
        now replace (m + (1 + j))%nat with (S (m + j)) in Hj' by lia.
      * exact Hmer'.
      * exact Hfre'.
      * exact Hq'.
    + (* other workers have yet to report it *)
      assert (Hnot : ~ Forall (fun c0 => (c < c0)%nat) d')
        by (intros H; apply Hdone; now apply Hcomp).
      eexists _, _, _. split; [reflexivity |]. left.
      split; [discriminate |]. exists m, M.
      rewrite !app_nil_r.
      constructor; simpl.
      * exact Hwk'.
      * exact Hrd.
      * exact Hkn'.
      * now apply Hpart.
      * now apply Hsame.
      * rewrite list_fmap_insert. simpl. rewrite list_insert_id; [exact Hpend |].
        rewrite list_lookup_fmap, Hfin. simpl. now rewrite Hts.
      * intros j fin0 Hj.
        destruct (Nat.eq_dec j k) as [-> | Hne].
        -- rewrite list_lookup_insert_eq in Hj
             by (now apply lookup_lt_Some in Hfin).
           injection Hj as <-.
           now replace (m + k)%nat with c by (unfold k; lia).
        -- rewrite list_lookup_insert_ne in Hj by congruence.
           now apply Hothers.
      * now rewrite merged_times_app, Hc1, app_nil_r.
      * now rewrite freed_intervals_app, Hc2, app_nil_r.
      * now rewrite out_of_order_app, Hc3, Hq.
  - (* the first report for this interval *)
    assert (c = M) by lia. subst c.
    assert (Hnew : t ∉ Merge.timestamp <$> waiting ms).
    { rewrite Hpend. intros Hin.
      apply list_elem_of_lookup in Hin as [j Hj].
      assert (Hjlt : (j < M - m)%nat).
      { apply lookup_lt_Some in Hj. now rewrite window_length in Hj. }
      rewrite window_lookup in Hj by lia.
      pose proof (NoDup_lookup _ _ _ _ Hnd Hj Ht). lia. }
    rewrite (find_interval_absent _ _ Hnew).
    set (fin := first_report (Z.of_nat w) t st).
    assert (Hok' : entry_ok d' M fin) by (now apply entry_first).
    assert (Hothers : forall j fin0,
               waiting ms !! j = Some fin0 -> entry_ok d' (m + j) fin0).
    { intros j fin0 Hfin0. apply entry_other; [now apply Hent | exact Hw |].
      apply lookup_lt_Some in Hfin0. lia. }
    pose proof (entry_complete d' M fin Hok') as Hcomp.
    rewrite Hwk' in Hcomp.
    destruct (Z.eqb_spec (Merge.threads_done fin) (threads glob))
      as [Hdone | Hdone].
    + (* the only worker: the interval is merged at once *)
      destruct (Hfull (proj1 Hcomp Hdone)) as [HMm Hleast'].
      subst M.
      assert (Hempty : waiting ms = []).
      { apply nil_length_inv. lia. }
      rewrite Hempty in *.
      destruct (MergeFacts.write_merged_output_shape derive_output_name glob
                  env (readers ms) fin Hrd)
        as (calls & middle & rs' & success & ws & -> & Hl & _).
      change (Merge.timestamp fin) with t.
      destruct (success && negb _) eqn:Hdie.
      { (* the marker file cannot be opened *)
        apply andb_true_iff in Hdie as [_ Hdie%negb_true_iff].
        eexists _, _, _. split; [reflexivity |]. right.
        split; [reflexivity |]. split; [exact Hdie |].
        split; [exact Ht |]. now eexists. }
      destruct (merge_events_account evs closing [] t
                  (if success then 0 else -1)
                  ((calls ++ middle)
                   ++ (if ws then [Merge.DestroyWriter] else [])
                   ++ Merge.write_stats derive_output_name glob env fin
                   ++ (if success
                       then [Merge.DoneFile (derive_output_name t (-1) 0 1)]
                       else [])
                   ++ Merge.cleanup_readers (length (readers ms)) 0 rs'
                   ++ [Merge.LogDoneMerging t])
                  fin m Hmer Hfre Hq Hc1 Hc2 Hc3 eq_refl Ht eq_refl)
        as (Hmer' & Hfre' & Hq').
      eexists _, _, _. split; [reflexivity |]. left.
      split; [discriminate |]. exists (S m), (S m).
      constructor; simpl.
      * exact Hwk'.
      * lia.
      * exact Hkn'.
      * exact Hleast'.
      * now apply Hgrow.
      * rewrite drop_ge by (rewrite length_take; lia). reflexivity.
      * intros j fin0 Hj. discriminate Hj.
      * exact Hmer'.
      * exact Hfre'.
      * exact Hq'.
    + assert (Hnot : ~ Forall (fun c0 => (M < c0)%nat) d')
        by (intros H; apply Hdone; now apply Hcomp).
      eexists _, _, _. split; [reflexivity |]. left.
      split; [discriminate |]. exists m, (S M).
      rewrite !app_nil_r.
      constructor; simpl.
      * exact Hwk'.
      * exact Hrd.
      * exact Hkn'.
      * now apply Hpart.
      * now apply Hgrow.
      * rewrite fmap_app, Hpend, (take_S_r _ _ t Ht).
        rewrite drop_app_le by (rewrite length_take; lia). reflexivity.
      * intros j fin0 Hj.
        destruct (Nat.lt_ge_cases j (length (waiting ms))) as [Hjlt | Hjge].
        -- rewrite lookup_app_l in Hj by exact Hjlt. now apply Hothers.
        -- rewrite lookup_app_r in Hj by exact Hjge.
           destruct (j - length (waiting ms))%nat as [| j'] eqn:Hj';
             [| discriminate Hj].
           injection Hj as <-.
           now replace (m + j)%nat with M by lia.
      * now rewrite merged_times_app, Hc1, app_nil_r.
      * now rewrite freed_intervals_app, Hc2, app_nil_r.
      * now rewrite out_of_order_app, Hc3, Hq.
Qed.


Hypothesis few_threads : threads glob <= 256.
Hypothesis ticks_fit : Forall (fun t => 0 <= t < 2 ^ 32) ticks.

Lemma in_step_loop msgs : forall d m M ms evs,
  in_step_inv glob ticks d m M ms evs ->
  in_step ticks d msgs = true ->
  exists e ms' evs' m',
    merging_loop derive_output_name glob (Some <$> msgs) ms 0 evs
      = Some (e, ms', 0, evs') /\
    merged_times evs' = take m' ticks /\
    Merge.timestamp <$> freed_intervals evs' = take m' ticks /\
    out_of_order evs' = [] /\
    ((e = Receiving /\
      exists M', in_step_inv glob ticks (reports d msgs) m' M' ms' evs') \/
     (e = DiedInMerge /\
      exists t evsm msg env,
        ticks !! m' = Some t /\ last evs' = Some (MergeDied t evsm) /\
        (msg, env) ∈ msgs /\
        Merge.done_fopen env (derive_output_name t (-1) 0 1) = false)).
Proof.
  induction msgs as [| [msg env] rest IH]; intros d m M ms evs Hinv Hstep.
  - exists Receiving, ms, evs, m. split; [reflexivity |].
    split; [apply Hinv |]. split; [apply Hinv |]. split; [apply Hinv |].
    left. split; [reflexivity |]. now exists M.
  - rewrite fmap_cons. simpl in *.
    destruct (type msg); try discriminate.
    destruct (d !! Z.to_nat (threadid msg)) as [c |] eqn:Hw;
      [| discriminate].
    apply andb_true_iff in Hstep as [Hstep Hrest].
    apply andb_true_iff in Hstep as [Hid%Z.leb_le Hstep].
    destruct (ticks !! c) as [t |] eqn:Ht; [| discriminate].
    apply Z.eqb_eq in Hstep.
    assert (Hu8 : to_uint8 (threadid msg) = Z.of_nat (Z.to_nat (threadid msg))).
    { rewrite Z2Nat.id by exact Hid. unfold to_uint8.
      apply Z.mod_small. apply lookup_lt_Some in Hw.
      pose proof (inv_workers _ _ _ _ _ _ _ Hinv). lia. }
    assert (Hu32 : to_uint32 (timestamp msg) = t).
    { rewrite Hstep. apply to_uint32_id.
      exact (Forall_lookup_1 _ _ _ _ ticks_fit Ht). }
    rewrite Hu8, Hu32.
    set (closing := if src_fd msg =? -1 then [] else [Close (src_fd msg)]).
    assert (Hc1 : merged_times closing = [])
      by (unfold closing; now destruct (src_fd msg =? -1)).
    assert (Hc2 : freed_intervals closing = [])
      by (unfold closing; now destruct (src_fd msg =? -1)).
    assert (Hc3 : out_of_order closing = [])
      by (unfold closing; now destruct (src_fd msg =? -1)).
    destruct (in_step_record d m M ms evs env (Z.to_nat (threadid msg)) c t
                (lt_stats msg) closing Hinv Hw Ht Hc1 Hc2 Hc3)
      as (r & ms1 & evs1 & -> &
          [(Hr & m1 & M1 & Hinv1) | (-> & Hopen & Htm & evsm & ->)]).
    + destruct r as [r |]; [| contradiction].
      rewrite (alter_insert S d _ c Hw).
      destruct (IH _ m1 M1 _ _ Hinv1 Hrest)
        as (e & ms2 & evs2 & m2 & Hrun & Hm & Hf & Hq & Hend).
      exists e, ms2, evs2, m2. split; [exact Hrun |].
      split; [exact Hm |]. split; [exact Hf |]. split; [exact Hq |].
      destruct Hend as [Hend | (-> & t' & evsm & msg' & env' & Ht' & Hlast
                               & Hin & Hopen)]; [now left |].
      right. split; [reflexivity |]. exists t', evsm, msg', env'.
      split; [exact Ht' |]. split; [exact Hlast |].
      split; [now apply list_elem_of_further | exact Hopen].
    + exists DiedInMerge, ms1, (evs ++ closing ++ [MergeDied t evsm]), m.
      split; [reflexivity |].
      rewrite !merged_times_app, !freed_intervals_app, !out_of_order_app,
        Hc1, Hc2, Hc3. simpl. rewrite !app_nil_r.
      split; [apply Hinv |]. split; [apply Hinv |]. split; [apply Hinv |].
      right. split; [reflexivity |]. exists t, evsm, msg, env.
      split; [exact Htm |].
      split; [rewrite app_assoc; apply last_snoc |].
      split; [apply list_elem_of_here | exact Hopen].
Qed.

End InStep.

(** X11.  When the workers report in step, every interval is merged once
    and in order.  Let every worker report the same intervals, one after
    the other, in increasing order of their timestamps.  Then, whatever
    the order in which the records of different workers arrive, the
    merging thread merges and frees the intervals in the order of their
    timestamps and never finds an interval completed out of order.  When
    it has read all records, the intervals merged and freed are exactly
    those that all workers have reported, and the intervals that only some
    workers have reported are pending, in that order too.  It reads all
    records unless a marker file cannot be opened; then the process dies
    in the merge of the interval that was next in order.  *)
Theorem workers_in_step_merge_every_interval_in_order
    (derive_output_name : Z -> Z -> Z -> Z -> string) (glob : wdcap_global)
    (ticks : list Z)
    (msgs : list (corsaro_wdcap_message * Merge.merge_env)) :
  1 <= threads glob <= 256 ->
  StronglySorted Z.lt ticks ->
  Forall (fun t => 0 <= t < 2 ^ 32) ticks ->
  in_step ticks (replicate (Z.to_nat (threads glob)) O) msgs = true ->
  let done := reports (replicate (Z.to_nat (threads glob)) O) msgs in
  exists e ms evs m,
    start_merging_thread derive_output_name glob (Some <$> msgs)
      = Some (e, ms, 0, evs) /\
    merged_times evs = take m ticks /\
    Merge.timestamp <$> freed_intervals evs = take m ticks /\
    out_of_order evs = [] /\
    (e = Receiving \/ e = DiedInMerge) /\
    (e = Receiving ->
     is_least m done /\
     exists M,
       is_greatest M done /\
       Merge.timestamp <$> waiting ms = drop m (take M ticks)) /\
    (e = DiedInMerge ->
     exists t evsm,
       ticks !! m = Some t /\ last evs = Some (MergeDied t evsm)) /\
    (Forall (fun msg => forall name, Merge.done_fopen msg.2 name = true) msgs ->
     e = Receiving).
Proof.
  intros [Hone Hfew] Hsorted Hfit Hstep done.
  unfold start_merging_thread.
  set (n := Z.to_nat (threads glob)) in *.
  assert (Hzero : (0%nat : nat) ∈ replicate n 0%nat).
  { apply elem_of_replicate. split; [reflexivity | lia]. }
  assert (Hinv : in_step_inv glob ticks (replicate n 0%nat) 0 0
                   {| readers := replicate n zeroed_reader; waiting := [] |}
                   []).
  { constructor; simpl; rewrite ?length_replicate; try reflexivity; try lia.
    - apply Forall_replicate. lia.
    - split; [apply Forall_replicate; lia | exact Hzero].
    - split; [apply Forall_replicate; lia | exact Hzero].
    - intros k fin Hk. discriminate Hk. }
  destruct (in_step_loop derive_output_name glob ticks Hsorted Hfew Hfit msgs
              _ _ _ _ _ Hinv Hstep)
    as (e & ms & evs & m & Hrun & Hm & Hf & Hq & Hend).
  exists e, ms, evs, m. split; [exact Hrun |].
  split; [exact Hm |]. split; [exact Hf |]. split; [exact Hq |].
  destruct Hend as [(-> & M & Hend)
                   | (-> & t & evsm & msg & env & Ht & Hlast & Hin & Hopen)].
  - split; [now left |]. split.
    + intros _. destruct Hend as [_ _ _ H1 H2 H3 _ _ _ _].
      split; [exact H1 |]. now exists M.
    + split; [discriminate | reflexivity].
  - split; [now right |]. split; [discriminate |]. split.
    + intros _. now exists t, evsm.
    + intros Hall. exfalso.
      pose proof (proj1 (Forall_forall _ _) Hall _ Hin
                    (derive_output_name t (-1) 0 1)) as Hyes.
      simpl in Hyes. congruence.
Qed.

Lemma workers_in_step_merge_every_interval_in_order_witness :
  let msgs :=
    [(Samples.done_record 0 60, Samples.good_merge);
     (Samples.done_record 1 60, Samples.good_merge);
     (Samples.done_record 0 120, Samples.good_merge);
     (Samples.done_record 0 180, Samples.good_merge);
     (Samples.done_record 1 120, Samples.good_merge)] in
  let done := reports (replicate (Z.to_nat 2) O) msgs in
  done = [3; 2]%nat /\
  exists e ms evs m,
    start_merging_thread Samples.sample_names Samples.minute_glob
      (Some <$> msgs) = Some (e, ms, 0, evs) /\
    merged_times evs = take m [60; 120; 180] /\
    Merge.timestamp <$> freed_intervals evs = take m [60; 120; 180] /\
    out_of_order evs = [] /\
    (e = Receiving \/ e = DiedInMerge) /\
    (e = Receiving ->
     is_least m done /\
     exists M,
       is_greatest M done /\
       Merge.timestamp <$> waiting ms = drop m (take M [60; 120; 180])) /\
    (e = DiedInMerge ->
     exists t evsm,
       [60; 120; 180] !! m = Some t /\ last evs = Some (MergeDied t evsm)) /\
    (Forall (fun msg => forall name, Merge.done_fopen msg.2 name = true) msgs ->
     e = Receiving).
Proof.
  intros msgs done. split; [reflexivity |].
  apply (workers_in_step_merge_every_interval_in_order Samples.sample_names
           Samples.minute_glob [60; 120; 180] msgs).
  - simpl. lia.
  - repeat constructor; lia.
  - repeat constructor; lia.
  - reflexivity.
Defined.


Example in_step_sample_run :
  exists ms evs,
    start_merging_thread Samples.sample_names Samples.minute_glob
      (Some <$> [(Samples.done_record 0 60, Samples.good_merge);
                 (Samples.done_record 1 60, Samples.good_merge);
                 (Samples.done_record 0 120, Samples.good_merge);
                 (Samples.done_record 0 180, Samples.good_merge);
                 (Samples.done_record 1 120, Samples.good_merge)])
      = Some (Receiving, ms, 0, evs) /\
    merged_times evs = [60; 120] /\
    Merge.timestamp <$> waiting ms = [180].
Proof. eexists _, _. split; [vm_compute; reflexivity |]. now split. Qed.

(** ** The merging thread: descriptors and the pending list *)

Section Descriptors.

Variable derive_output_name : Z -> Z -> Z -> Z -> string.
Variable glob : wdcap_global.

Lemma merge_finished_interval_closes env ms w t st r ms' evs :
  merge_finished_interval derive_output_name glob env ms w t st
    = Some (r, ms', evs) ->
  closed evs = [].
Proof.
  unfold merge_finished_interval.
  destruct (match find_interval (waiting ms) t with
            | Some (pos, old) =>
                (pos, next_report old w st,
                 <[pos:=next_report old w st]> (waiting ms))
            | None =>
                (length (waiting ms), first_report w t st,
                 waiting ms ++ [first_report w t st])
            end) as [[pos fin] waiting'].
  destruct (Merge.threads_done fin =? threads glob).
  - destruct (Merge.write_merged_output _ _ _ _ _)
      as [[[[r' |] rs'] evs'] |]; [| | discriminate].
    + intros [= _ _ <-]. rewrite !closed_app.
      destruct pos, waiting', (r' <? 0); reflexivity.
    + intros [= _ _ <-]. rewrite !closed_app.
      destruct pos, waiting'; reflexivity.
  - now intros [= _ _ <-].
Qed.

Lemma tidy_up_closes ms : closed (tidy_up ms) = [].
Proof.
  unfold tidy_up. rewrite closed_app. simpl. rewrite app_nil_r.
  induction (waiting ms) as [| fin l IH]; [reflexivity | exact IH].
Qed.

Lemma descriptors_done msg env rest :
  type msg = CORSARO_WDCAP_MSG_INTERVAL_DONE ->
  descriptors (Some (msg, env) :: rest)
  = (if src_fd msg =? -1 then [] else [src_fd msg]) ++ descriptors rest.
Proof.
  intros Htype. unfold descriptors. simpl. rewrite Htype.
  now destruct (src_fd msg =? -1).
Qed.

Lemma descriptors_valid inbox : -1 ∉ descriptors inbox.
Proof.
  induction inbox as [| [[msg env] |] rest IH]; [apply not_elem_of_nil | |].
  - destruct (type msg) eqn:Htype.
    + rewrite (descriptors_done msg env rest Htype).
      destruct (Z.eqb_spec (src_fd msg) (-1)); [exact IH |].
      simpl. apply not_elem_of_cons. split; [congruence | exact IH].
    + unfold descriptors. simpl. now rewrite Htype.
    + unfold descriptors. simpl. now rewrite Htype.
  - exact IH.
Qed.

Lemma merging_loop_closes inbox : forall ms bad evs e ms' bad' evs',
  merging_loop derive_output_name glob inbox ms bad evs
    = Some (e, ms', bad', evs') ->
  exists fds,
    closed evs' = closed evs ++ fds /\
    fds `prefix_of` descriptors inbox /\
    (e = Receiving -> fds = descriptors inbox).
Proof.
  induction inbox as [| [[msg env] |] rest IH];
    intros ms bad evs e ms' bad' evs' Hrun; simpl in Hrun.
  - injection Hrun as <- _ _ <-. exists []. rewrite app_nil_r.
    split; [reflexivity |]. split; [apply prefix_nil | reflexivity].
  - destruct (type msg) as [| | tag] eqn:Htype.
    + rewrite (descriptors_done msg env rest Htype).
      destruct (merge_finished_interval derive_output_name glob env ms
                  (to_uint8 (threadid msg)) (to_uint32 (timestamp msg))
                  (lt_stats msg)) as [[[[r |] ms1] evs1] |] eqn:Hstep;
        [| | discriminate].
      * apply merge_finished_interval_closes in Hstep.
        destruct (IH _ _ _ _ _ _ _ Hrun) as (fds & Hfds & Hpre & Hall).
        rewrite !closed_app, Hstep, app_nil_r in Hfds.
        destruct (src_fd msg =? -1).
        -- exists fds. simpl in Hfds. rewrite app_nil_r in Hfds. auto.
        -- exists (src_fd msg :: fds). simpl in Hfds.
           rewrite <- app_assoc in Hfds. simpl in Hfds.
           split; [exact Hfds |]. split; [now apply prefix_cons |].
           intros He. simpl. now rewrite Hall.
      * (* the process dies in the merge, after the descriptor is closed *)
        apply merge_finished_interval_closes in Hstep.
        injection Hrun as <- _ _ <-.
        rewrite !closed_app, Hstep, app_nil_r.
        destruct (src_fd msg =? -1).
        -- exists []. simpl. rewrite app_nil_r.
           split; [reflexivity |]. split; [apply prefix_nil | discriminate].
        -- exists [src_fd msg]. simpl.
           split; [reflexivity |].
           split; [apply prefix_cons, prefix_nil | discriminate].
    + injection Hrun as <- _ _ <-. exists [].
      rewrite closed_app, tidy_up_closes.
      split; [reflexivity |]. split; [apply prefix_nil | discriminate].
    + assert (Hd : descriptors (Some (msg, env) :: rest) = descriptors rest)
        by (unfold descriptors; simpl; now rewrite Htype).
      rewrite Hd.
      destruct (100 <=? to_int (bad + 1)).
      * injection Hrun as <- _ _ <-. exists [].
        rewrite !closed_app. simpl. rewrite !app_nil_r.
        split; [reflexivity |]. split; [apply prefix_nil | discriminate].
      * destruct (IH _ _ _ _ _ _ _ Hrun) as (fds & Hfds & Hpre & Hall).
        rewrite closed_app in Hfds. simpl in Hfds.
        rewrite app_nil_r in Hfds. now exists fds.
  - injection Hrun as <- _ _ <-. exists [].
    change (LogRecvError :: tidy_up ms) with ([LogRecvError] ++ tidy_up ms).
    rewrite !closed_app, tidy_up_closes. simpl.
    split; [reflexivity |]. split; [apply prefix_nil | discriminate].
Qed.

End Descriptors.

(** X12.  The merging thread closes the descriptors it is handed, and
    nothing else.  It always returns from a list of received records; the
    descriptors it has closed by then are those of the interval-over
    records it has read, each one once and in the order of the records,
    the value -1 never; when it has read the whole list these are the
    descriptors of all its interval-over records. *)
Theorem merging_thread_closes_descriptors_handed_over
    (derive_output_name : Z -> Z -> Z -> Z -> string) (glob : wdcap_global)
    (inbox : list (option (corsaro_wdcap_message * Merge.merge_env))) :
  0 <= threads glob ->
  exists e ms bad evs,
    start_merging_thread derive_output_name glob inbox
      = Some (e, ms, bad, evs) /\
    closed evs `prefix_of` descriptors inbox /\
    (-1 ∉ closed evs) /\
    (e = Receiving -> closed evs = descriptors inbox).
Proof.
  intros Hthreads.
  destruct (MergerFacts.merging_loop_bad derive_output_name glob inbox
              {| readers := replicate (Z.to_nat (threads glob)) zeroed_reader;
                 waiting := [] |} 0 [])
    as (e & ms & bad & evs & Hrun & _);
    [simpl; rewrite length_replicate; lia | lia |].
  exists e, ms, bad, evs. split; [exact Hrun |].
  destruct (merging_loop_closes derive_output_name glob inbox _ _ _ _ _ _ _
              Hrun) as (fds & Hfds & Hpre & Hall).
  simpl in Hfds. subst fds.
  split; [exact Hpre |]. split; [| exact Hall].
  intros Hin. destruct Hpre as [more Hmore].
  apply (descriptors_valid inbox).
  rewrite Hmore. apply elem_of_app. now left.
Qed.

Lemma merging_thread_closes_descriptors_handed_over_witness :
  let record fd time :=
    Some ({| type := CORSARO_WDCAP_MSG_INTERVAL_DONE; threadid := 0;
             timestamp := time; src_fd := fd;
             lt_stats := Samples.no_stats |}, Samples.good_merge) in
  let inbox := [record 7 60; record (-1) 120; record 9 180] in
  descriptors inbox = [7; 9] /\
  exists e ms bad evs,
    start_merging_thread Samples.sample_names Samples.minute_glob inbox
      = Some (e, ms, bad, evs) /\
    closed evs `prefix_of` descriptors inbox /\
    (-1 ∉ closed evs) /\
    (e = Receiving -> closed evs = descriptors inbox).
Proof.
  intros record inbox. split; [reflexivity |].
  apply (merging_thread_closes_descriptors_handed_over Samples.sample_names
           Samples.minute_glob inbox).
  simpl. lia.
Defined.

(** X13.  The pending list keeps its invariants whatever arrives.  After
    any list of received records, no two pending intervals have the same
    timestamp, and every pending interval has been reported by at least
    one thread and by fewer threads than there are; only when the process
    has died in a merge does the list still hold the interval of that
    merge, which all threads have reported. *)
Theorem pending_list_keeps_its_invariants
    (derive_output_name : Z -> Z -> Z -> Z -> string) (glob : wdcap_global)
    (inbox : list (option (corsaro_wdcap_message * Merge.merge_env))) :
  1 <= threads glob ->
  exists e ms bad evs,
    start_merging_thread derive_output_name glob inbox
      = Some (e, ms, bad, evs) /\
    NoDup (Merge.timestamp <$> waiting ms) /\
    Forall (fun fin => 0 < Merge.threads_done fin <= threads glob)
           (waiting ms) /\
    (e <> DiedInMerge ->
     Forall (fun fin => 0 < Merge.threads_done fin < threads glob)
            (waiting ms)).
Proof.
  intros Hthreads.
  destruct (MergerFacts.merging_loop_bad derive_output_name glob inbox
              {| readers := replicate (Z.to_nat (threads glob)) zeroed_reader;
                 waiting := [] |} 0 [])
    as (e & ms & bad & evs & Hrun & _);
    [simpl; rewrite length_replicate; lia | lia |].
  exists e, ms, bad, evs. split; [exact Hrun |].
  assert (Hnil : pending_ok glob [])
    by (split; [apply NoDup_nil_2 | constructor]).
  destruct (MergerFacts.merging_loop_pending derive_output_name glob inbox
              Hthreads
              {| readers := replicate (Z.to_nat (threads glob)) zeroed_reader;
                 waiting := [] |} _ _ _ _ _ _ Hnil Hrun)
    as (Hstrict & Hnd & Hall).
  split; [exact Hnd |]. split; [exact Hall |].
  intros Hdied. now destruct (Hstrict Hdied).
Qed.

Lemma pending_list_keeps_its_invariants_witness :
  exists e ms bad evs,
    start_merging_thread Samples.sample_names Samples.minute_glob
      Samples.out_of_order_inbox = Some (e, ms, bad, evs) /\
    NoDup (Merge.timestamp <$> waiting ms) /\
    Forall (fun fin => 0 < Merge.threads_done fin <= 2) (waiting ms) /\
    (e <> DiedInMerge ->
     Forall (fun fin => 0 < Merge.threads_done fin < 2) (waiting ms)).
Proof.
  apply (pending_list_keeps_its_invariants Samples.sample_names
           Samples.minute_glob Samples.out_of_order_inbox).
  simpl. lia.
Defined.

End OrderFacts.

(** ** Merge: what the clean-up touches *)

Module CleanupFacts.
Import Merge MergeSpec CleanupSpec.

Lemma accounted_grows evs evs' j r :
  accounted evs j r -> accounted (evs ++ evs') j r.
Proof.
  intros [H1 H2]. split; intros H; apply elem_of_app; left; auto.
Qed.

Lemma accounted_handles evs j r r' :
  handle_of r' = handle_of r -> accounted evs j r -> accounted evs j r'.
Proof.
  unfold handle_of, accounted. intros Heq [H1 H2].
  injection Heq as Huri Hsrc Hnp. rewrite Huri.
  split; intros H.
  - apply H1. destruct (source r'), (source r); congruence.
  - apply H2. destruct (nextp r'), (nextp r); congruence.
Qed.

Lemma never_set_up_accounted evs j r : never_set_up r -> accounted evs j r.
Proof. intros [H1 H2]. split; intros H; congruence. Qed.

Section Opening.

Variable derive_output_name : Z -> Z -> Z -> Z -> string.
Variable env : merge_env.
Variable time : Z.

Lemma open_reader_accounted i :
  accounted (open_reader derive_output_name env time i).2 i
            (open_reader derive_output_name env time i).1.
Proof.
  unfold open_reader, accounted.
  destruct (create_trace_reader env _); simpl.
  - split; intros H; [apply list_elem_of_here |].
    destruct (trace_create_packet env i); [| congruence].
    apply list_elem_of_further, list_elem_of_here.
  - split; intros H; congruence.
Qed.

(** After the opening loop, every reader of the array is accounted for
    when the array was fresh or no allocation of a buffer fails. *)
Lemma open_readers_accounted n : forall i readers evs,
  (i + n <= length readers)%nat ->
  (forall j r, (i <= j)%nat -> readers !! j = Some r -> never_set_up r) \/
  (forall j, trace_create_packet env j = true) ->
  let res := open_readers derive_output_name env time n i readers evs in
  forall j r, (i <= j)%nat -> res.1.1 !! j = Some r ->
    (j < i + n)%nat \/ never_set_up r ->
    accounted res.1.2 j r.
Proof.
  induction n as [| n IH]; intros i readers evs Hlen Hfresh; simpl.
  - intros j r Hj Hr [Hlt | Hnone]; [lia | now apply never_set_up_accounted].
  - pose proof (open_reader_accounted i) as Hacc.
    assert (Hfail : forall pkts,
               source (open_reader derive_output_name env time i).1
                 = Some pkts ->
               nextp (open_reader derive_output_name env time i).1 = None ->
               forall j r, (i <= j)%nat -> readers !! j = Some r ->
                           never_set_up r).
    { intros pkts Hs Hn. destruct Hfresh as [Hfresh | Hall]; [exact Hfresh |].
      unfold open_reader in Hs, Hn.
      destruct (create_trace_reader env _); [| discriminate].
      simpl in Hn. rewrite Hall in Hn. discriminate. }
    destruct (open_reader derive_output_name env time i) as [r0 calls0].
    simpl in Hacc, Hfail.
    assert (Hnext :
      let res := open_readers derive_output_name env time n (S i)
                   (<[i:=r0]> readers) (evs ++ calls0) in
      forall j r, (i <= j)%nat -> res.1.1 !! j = Some r ->
        (j < i + S n)%nat \/ never_set_up r ->
        accounted res.1.2 j r).
    { intros res j r Hj Hr Hin.
      pose proof (MergeFacts.open_readers_spec derive_output_name env time
                    n (S i) (<[i:=r0]> readers) (evs ++ calls0)
                    ltac:(rewrite length_insert; lia))
        as (_ & _ & Hbefore & _).
      pose proof (MergeFacts.open_readers_calls derive_output_name env time
                    n (S i) (<[i:=r0]> readers) (evs ++ calls0)
                    ltac:(rewrite length_insert; lia))
        as (calls & Hcalls & _).
      fold res in Hbefore, Hcalls.
      destruct (Nat.eq_dec j i) as [-> | Hne].
      - rewrite Hbefore in Hr by lia.
        rewrite list_lookup_insert_eq in Hr by lia. injection Hr as <-.
        rewrite Hcalls, <- app_assoc.
        apply (accounted_grows calls0 calls) in Hacc.
        destruct Hacc as [H1 H2].
        split; intros H; apply elem_of_app; right; auto.
      - apply (IH (S i) (<[i:=r0]> readers) (evs ++ calls0));
          [rewrite length_insert; lia | | lia | exact Hr |].
        + destruct Hfresh as [Hfresh | Hall]; [left | now right].
          intros j' r' Hj' Hr'.
          rewrite list_lookup_insert_ne in Hr' by lia.
          apply (Hfresh j' r'); [lia | exact Hr'].
        + destruct Hin as [Hlt | Hnone]; [left; lia | now right]. }
    destruct (source r0) as [pkts |] eqn:Hs; [| exact Hnext].
    destruct (nextp r0) eqn:Hn; [exact Hnext |].
    (* the allocation of the buffer failed *)
    simpl. intros j r Hj Hr _.
    destruct (Nat.eq_dec j i) as [-> | Hne].
    + rewrite list_lookup_insert_eq in Hr by lia. injection Hr as <-.
      destruct Hacc as [H1 H2].
      split; intros H; apply elem_of_app; right; auto.
    + rewrite list_lookup_insert_ne in Hr by lia.
      apply never_set_up_accounted.
      apply (Hfail pkts eq_refl eq_refl j r); [lia | exact Hr].
Qed.

End Opening.

Lemma cleanup_readers_only n : forall i rs ev,
  ev ∈ cleanup_readers n i rs ->
  exists j r, (i <= j < i + n)%nat /\ rs !! j = Some r /\
              ev ∈ cleanup_reader j r.
Proof.
  induction n as [| n IH]; intros i rs ev Hin; simpl in Hin.
  - now apply elem_of_nil in Hin.
  - destruct (rs !! i) as [r |] eqn:Hr.
    + apply elem_of_app in Hin as [Hin | Hin].
      * exists i, r. split; [lia | now split].
      * destruct (IH _ _ _ Hin) as (j & r' & Hj & Hr' & Hev).
        exists j, r'. split; [lia | now split].
    + destruct (IH _ _ _ Hin) as (j & r' & Hj & Hr' & Hev).
      exists j, r'. split; [lia | now split].
Qed.

Lemma cleanup_reader_cases j r ev :
  ev ∈ cleanup_reader j r ->
  (ev = DestroyPacket j /\ nextp r <> None) \/
  (ev = DestroyReader j /\ source r <> None) \/
  (ev = Remove (interim_path (uri r)) /\ source r <> None) \/
  ev = FreeUri j.
Proof.
  unfold cleanup_reader. intros Hin.
  apply elem_of_app in Hin as [Hin | Hin].
  - destruct (nextp r); [| now apply elem_of_nil in Hin].
    apply list_elem_of_singleton in Hin. left. split; [exact Hin | discriminate].
  - apply elem_of_app in Hin as [Hin | Hin].
    + destruct (source r); [| now apply elem_of_nil in Hin].
      apply elem_of_cons in Hin as [-> | Hin];
        [right; left; split; [reflexivity | discriminate] |].
      apply list_elem_of_singleton in Hin.
      right. right. left. split; [exact Hin | discriminate].
    + apply list_elem_of_singleton in Hin. now repeat right.
Qed.


Section WholeMerge.

Variable derive_output_name : Z -> Z -> Z -> Z -> string.
Variable glob : wdcap_global.
Variable env : merge_env.
Variable readers : list interim_reader.
Variable interval : corsaro_wdcap_interval.

Hypothesis reader_per_thread : Z.of_nat (length readers) = threads glob.
Hypothesis fresh_or_allocated :
  Forall never_set_up readers \/ (forall j, trace_create_packet env j = true).

Lemma write_merged_output_accounted :
  exists ret rs' evs,
    write_merged_output derive_output_name glob env readers interval
      = Some (ret, rs', evs) /\
    forall j r, rs' !! j = Some r -> accounted evs j r.
Proof.
  unfold write_merged_output, merge_body.
  assert (Hthreads : Z.to_nat (threads glob) = length readers) by lia.
  rewrite Hthreads.
  pose proof (MergeFacts.open_readers_spec derive_output_name env
                (timestamp interval) (length readers) 0 readers []
                ltac:(lia)) as (Hlen1 & _ & _ & Hfresh).
  pose proof (open_readers_accounted derive_output_name env
                (timestamp interval) (length readers) 0 readers []
                ltac:(lia)) as Hacc.
  destruct (open_readers derive_output_name env (timestamp interval)
              (length readers) 0 readers []) as [[rs1 evs1] ok].
  simpl in Hlen1, Hfresh, Hacc.
  assert (Hacc1 : forall j r, rs1 !! j = Some r -> accounted evs1 j r).
  { intros j r Hr. apply Hacc; [| lia | exact Hr |].
    - destruct fresh_or_allocated as [Hall | Hall]; [left | now right].
      intros j' r' _ Hr'. exact (Forall_lookup_1 _ _ _ _ Hall Hr').
    - left. apply lookup_lt_Some in Hr. lia. }
  cbv beta iota.
  destruct ok.
  - set (outname := derive_output_name (timestamp interval) (-1) 1 0).
    destruct (create_trace_writer env outname).
    + assert (Hwf1 : Forall reader_wf rs1).
      { apply Forall_lookup_2. intros j r Hj.
        assert (Hlt : (j < length readers)%nat)
          by (apply lookup_lt_Some in Hj; lia).
        rewrite (Hfresh eq_refl j) in Hj by lia. injection Hj as <-.
        apply (MergeFacts.open_reader_cases derive_output_name env
                 (timestamp interval) j). }
      rewrite <- reader_per_thread, <- Hlen1.
      destruct (MergeFacts.merge_loop_runs env (S (readers_weight rs1)) rs1
                  0%nat (evs1 ++ [CreateWriter outname true]) Hwf1
                  ltac:(lia))
        as (rs' & ws & b & -> & Hh & _).
      assert (Hr1 : forall j r, rs' !! j = Some r ->
                 exists r1, rs1 !! j = Some r1 /\
                            handle_of r = handle_of r1).
      { intros j r Hr. apply (f_equal (fun l => l !! j)) in Hh.
        rewrite !list_lookup_fmap, Hr in Hh. simpl in Hh.
        destruct (rs1 !! j) as [r1 |]; [| discriminate].
        simpl in Hh. exists r1. split; [reflexivity | congruence]. }
      cbv zeta.
      destruct (b && negb _);
        (eexists _, _, _; split; [reflexivity |];
         intros j r Hr;
         destruct (Hr1 j r Hr) as (r1 & Hr1' & Heq);
         apply (accounted_handles _ j r1 r Heq);
         rewrite <- !app_assoc; apply accounted_grows; now apply Hacc1).
    + eexists _, _, _. split; [reflexivity |].
      intros j r Hr. rewrite <- !app_assoc. apply accounted_grows.
      now apply Hacc1.
  - eexists _, _, _. split; [reflexivity |].
    intros j r Hr. apply accounted_grows. now apply Hacc1.
Qed.

Lemma write_merged_output_cleans_own :
  exists ret rs' evs,
    write_merged_output derive_output_name glob env readers interval
      = Some (ret, rs', evs) /\
    cleans_own evs.
Proof.
  destruct write_merged_output_accounted as (ret & rs' & evs & Hrun & Hacc).
  exists ret, rs', evs. split; [exact Hrun |].
  destruct (MergeFacts.write_merged_output_shape derive_output_name glob env
              readers interval reader_per_thread)
    as (calls & middle & rs2 & success & writer_set & Hrun2 & Hlen & Hcalls
        & Hmiddle & _ & _).
  rewrite Hrun in Hrun2.
  assert (Pf : all_in Marker
                 [DoneFileFailed
                    (derive_output_name (timestamp interval) (-1) 0 1)])
    by repeat constructor.
  pose proof (MergeFacts.opening_calls_phase _ _ _ Hcalls) as Pc.
  pose proof (MergeFacts.middle_calls_phase _ Hmiddle) as Pm.
  pose proof (MergeFacts.closing_phase writer_set) as Pw.
  pose proof (MergeFacts.write_stats_phase derive_output_name glob env
                interval) as Ps.
  pose proof (MergeFacts.marker_phase success
                (derive_output_name (timestamp interval) (-1) 0 1)) as Pd.
  assert (Hclean : forall ev, phase_of ev = Cleanup -> ev ∈ evs ->
            exists j r, rs' !! j = Some r /\ ev ∈ cleanup_reader j r).
  { intros ev Hph Hin.
    destruct (success && negb _); injection Hrun2 as _ <- Hevs;
      rewrite Hevs in Hin;
      repeat (apply elem_of_app in Hin as [Hin | Hin]);
      first
        [ pose proof (MergeFacts.all_in_elem _ _ _ Pc Hin); congruence
        | pose proof (MergeFacts.all_in_elem _ _ _ Pm Hin); congruence
        | pose proof (MergeFacts.all_in_elem _ _ _ Pw Hin); congruence
        | pose proof (MergeFacts.all_in_elem _ _ _ Ps Hin); congruence
        | pose proof (MergeFacts.all_in_elem _ _ _ Pd Hin); congruence
        | pose proof (MergeFacts.all_in_elem _ _ _ Pf Hin); congruence
        | apply list_elem_of_singleton in Hin; subst ev; discriminate
        | destruct (cleanup_readers_only _ _ _ _ Hin)
            as (j & r & _ & Hr & Hev);
          now exists j, r ]. }
  split; [| split].
  - intros j Hin.
    destruct (Hclean (DestroyPacket j) eq_refl Hin) as (j' & r & Hr & Hev).
    apply cleanup_reader_cases in Hev
      as [[Heq Hn] | [[Heq _] | [[Heq _] | Heq]]]; try discriminate.
    injection Heq as <-. now apply (Hacc j r Hr).
  - intros j Hin.
    destruct (Hclean (DestroyReader j) eq_refl Hin) as (j' & r & Hr & Hev).
    apply cleanup_reader_cases in Hev
      as [[Heq _] | [[Heq Hs] | [[Heq _] | Heq]]]; try discriminate.
    injection Heq as <-. exists (uri r). now apply (Hacc j r Hr).
  - intros path Hin.
    destruct (Hclean (Remove path) eq_refl Hin) as (j & r & Hr & Hev).
    apply cleanup_reader_cases in Hev
      as [[Heq _] | [[Heq _] | [[Heq Hs] | Heq]]]; try discriminate.
    injection Heq as ->. exists j, (uri r).
    split; [now apply (Hacc j r Hr) | reflexivity].
Qed.

End WholeMerge.

(** X14.  The clean-up of a merge touches only what the merge set up.
    When the reader array is as [calloc] left it, or when no allocation of
    a packet buffer fails, a merge destroys only packet buffers that it
    created, destroys only readers that it opened, and removes only the
    interim files of those readers. *)
Theorem cleanup_touches_only_what_the_merge_opened
    (derive_output_name : Z -> Z -> Z -> Z -> string)
    (glob : wdcap_global) (env : merge_env)
    (readers : list interim_reader) (interval : corsaro_wdcap_interval) :
  Z.of_nat (length readers) = threads glob ->
  Forall never_set_up readers \/
  (forall j, trace_create_packet env j = true) ->
  exists ret rs' evs,
    write_merged_output derive_output_name glob env readers interval
      = Some (ret, rs', evs) /\
    cleans_own evs.
Proof. apply write_merged_output_cleans_own. Qed.

Lemma cleanup_touches_only_what_the_merge_opened_witness :
  exists ret rs' evs,
    write_merged_output Samples.sample_names Samples.minute_glob
      CleanupSamples.no_buffer_merge Samples.two_blank_readers
      Samples.both_reported = Some (ret, rs', evs) /\
    cleans_own evs.
Proof.
  apply (cleanup_touches_only_what_the_merge_opened Samples.sample_names
           Samples.minute_glob CleanupSamples.no_buffer_merge
           Samples.two_blank_readers Samples.both_reported).
  - reflexivity.
  - left. repeat constructor.
Defined.

(** Without the condition this fails.  A merge leaves its readers in the
    array; when the merge after it cannot allocate the buffer of reader 0,
    it leaves the opening loop at once, and its clean-up destroys reader 1
    and its buffer, which the merge before had destroyed, and removes that
    reader's file again. *)
Example stale_reader_is_destroyed_again :
  exists rs1 evs1 rs2 evs2,
    write_merged_output Samples.sample_names Samples.minute_glob
      Samples.good_merge Samples.two_blank_readers Samples.both_reported
      = Some (Returns 0, rs1, evs1) /\
    write_merged_output Samples.sample_names Samples.minute_glob
      CleanupSamples.no_buffer_merge rs1 Samples.both_reported
      = Some (Returns (-1), rs2, evs2) /\
    DestroyPacket 1 ∈ evs2 /\ DestroyReader 1 ∈ evs2 /\
    (forall created, CreatePacket 1 created ∉ evs2) /\
    ~ cleans_own evs2.
Proof.
  eexists _, _, _, _. split; [vm_compute; reflexivity |].
  split; [vm_compute; reflexivity |].
  assert (Hnone : forall created,
             Merge.CreatePacket 1 created
             ∉ [CreateReader 0 "pcapfile:/data/cap--0" true;
                CreatePacket 0 false; DestroyReader 0; Remove "/data/cap--0";
                FreeUri 0; DestroyPacket 1; DestroyReader 1;
                Remove "/data/cap--1"; FreeUri 1; LogDoneMerging 60]).
  { intros created Hin.
    repeat (apply elem_of_cons in Hin as [Hin | Hin]; [discriminate |]).
    now apply elem_of_nil in Hin. }
  split; [repeat first [apply list_elem_of_here | apply list_elem_of_further] |].
  split; [repeat first [apply list_elem_of_here | apply list_elem_of_further] |].
  split; [exact Hnone |].
  intros [Hpk _]. apply (Hnone true), Hpk.
  repeat first [apply list_elem_of_here | apply list_elem_of_further].
Qed.

End CleanupFacts.

(** ** The capture process: how it winds up *)

Module CaptureFacts.
Import Capture CaptureSpec.

Lemma per_thread_setup n : Forall (fun ev => is_setup ev = true)
                                  (per_thread InitThreadData n).
Proof.
  unfold per_thread. apply Forall_fmap, Forall_forall. intros i _. reflexivity.
Qed.

Ltac start_trace_input_cases g e :=
  unfold start_trace_input, input_starts;
  destruct (trace_is_err e); simpl;
  [| destruct (processing g); simpl;
     destruct (0 <=? consterfframing g); simpl;
     destruct (trace_config e) as [[] |]; simpl;
     destruct (trace_pstart e); simpl].

Ltac not_listed :=
  let Hin := fresh "Hin" in
  intros Hin;
  repeat (apply elem_of_cons in Hin as [Hin | Hin]; [discriminate |]);
  now apply elem_of_nil in Hin.

Ltac none_listed :=
  let ev := fresh "ev" in
  let Hev := fresh "Hev" in
  intros ev Hev;
  repeat (apply elem_of_cons in Hev as [-> | Hev]; [not_listed |]);
  now apply elem_of_nil in Hev.

Ltac listed :=
  repeat first [apply list_elem_of_here | apply list_elem_of_further].

Lemma start_trace_input_events g e :
  Forall (fun ev => is_setup ev = true) (start_trace_input g e).2 /\
  (TracePstop ∉ (start_trace_input g e).2) /\
  (TraceJoin ∉ (start_trace_input g e).2) /\
  (TraceDestroy ∉ (start_trace_input g e).2) /\
  (PthreadCreate ∉ (start_trace_input g e).2).
Proof.
  start_trace_input_cases g e;
    (split; [repeat constructor | repeat split; not_listed]).
Qed.

Lemma start_trace_input_state g e :
  cap_threads (start_trace_input g e).1.2 = cap_threads g /\
  zmq_pushsock (start_trace_input g e).1.2 = zmq_pushsock g /\
  zmq_pullsock (start_trace_input g e).1.2 = zmq_pullsock g.
Proof. start_trace_input_cases g e; auto. Qed.

Lemma start_trace_input_return g e :
  (start_trace_input g e).1.1 = (if input_starts g e then 0 else -1).
Proof. start_trace_input_cases g e; reflexivity. Qed.

Lemma start_trace_input_pstart g e :
  input_starts g e = true -> TracePstart ∈ (start_trace_input g e).2.
Proof. start_trace_input_cases g e; intros H; try discriminate H; listed. Qed.

Lemma start_trace_input_creates g e : TraceCreate ∈ (start_trace_input g e).2.
Proof. start_trace_input_cases g e; listed. Qed.

Lemma setup_app l l' :
  Forall (fun ev => is_setup ev = true) l ->
  Forall (fun ev => is_setup ev = true) l' ->
  Forall (fun ev => is_setup ev = true) (l ++ l').
Proof. intros H H'. apply Forall_app. now split. Qed.

Lemma per_thread_without (ev : capture_event) n :
  (forall i, ev <> InitThreadData i) -> ev ∉ per_thread InitThreadData n.
Proof.
  intros Hne Hin. unfold per_thread in Hin.
  apply list_elem_of_fmap in Hin as (i & -> & _). now apply (Hne i).
Qed.

Ltac known_setup :=
  unfold sets_up;
  repeat match goal with H : _ = _ :> bool |- _ => rewrite H end;
  reflexivity.

Ltac split_app Hin :=
  repeat (apply elem_of_app in Hin as [Hin | Hin]).

(** A run that ends before the merging thread is started. *)
Lemma run_parts_short g e g1 tail :
  Forall (fun ev => is_setup ev = true) tail ->
  (forall ev,
     ev ∈ [PthreadCreate; TracePstop; TraceJoin; TraceDestroy; TraceCreate] ->
     ev ∉ tail) ->
  sets_up e = false -> cap_threads g1 = cap_threads g ->
  let setup := per_thread InitThreadData (cap_threads g) ++ tail in
  run_parts g e (endwdcap g1 e false setup) setup g1.
Proof.
  intros Htail Hnot Hs Hthreads setup.
  assert (Hnone : forall ev,
             ev ∈ [PthreadCreate; TracePstop; TraceJoin; TraceDestroy;
                   TraceCreate] ->
             ev ∉ setup).
  { intros ev Hev Hin. apply elem_of_app in Hin as [Hin | Hin].
    - revert Hin. apply per_thread_without. intros i ->. revert Hev.
      not_listed.
    - now apply (Hnot ev). }
  constructor.
  - now rewrite Hs.
  - apply setup_app; [apply per_thread_setup | exact Htail].
  - now exists tail.
  - exact Hthreads.
  - rewrite Hs. split; [| discriminate]. intros Hin.
    exfalso. revert Hin. apply Hnone. listed.
  - rewrite Hs. discriminate.
  - rewrite Hs. discriminate.
  - rewrite Hs. split; [| discriminate]. intros Hin.
    exfalso. revert Hin. apply Hnone. listed.
  - unfold waits_for_halt. rewrite Hs. simpl. split; apply Hnone; listed.
  - rewrite Hs. split; [| discriminate]. intros Hin.
    exfalso. revert Hin. apply Hnone. listed.
  - intros Hin. exfalso. revert Hin. apply Hnone. listed.
Qed.

Lemma run_short g e g1 tail :
  Forall (fun ev => is_setup ev = true) tail ->
  (forall ev,
     ev ∈ [PthreadCreate; TracePstop; TraceJoin; TraceDestroy; TraceCreate] ->
     ev ∉ tail) ->
  sets_up e = false -> cap_threads g1 = cap_threads g ->
  exists setup g',
    run_parts g e
      (endwdcap g1 e false (per_thread InitThreadData (cap_threads g) ++ tail))
      setup g'.
Proof. intros. eexists _, _. now apply run_parts_short. Qed.

(** A run in which the merging thread is started. *)
Lemma run_parts_long g e g1 pre started tail :
  Forall (fun ev => is_setup ev = true) pre ->
  (forall ev, ev ∈ [TracePstop; TraceJoin; TraceDestroy; TracePstart] ->
              ev ∉ pre) ->
  Forall (fun ev => is_setup ev = true) started ->
  (forall ev, ev ∈ [TracePstop; TraceJoin; TraceDestroy] -> ev ∉ started) ->
  (input_starts g (input e) = true -> TracePstart ∈ started) ->
  TraceCreate ∈ started ->
  Forall (fun ev => is_setup ev = true) tail ->
  (TraceDestroy ∈ tail
   <-> negb (input_starts g (input e)) || sigmask_restore e = true) ->
  (if input_starts g (input e) && sigmask_restore e
   then exists l, tail = l ++ [TracePstop; TraceJoin; TraceDestroy]
   else (TracePstop ∉ tail) /\ (TraceJoin ∉ tail)) ->
  (TraceDestroy ∈ tail -> exists l, tail = l ++ [TraceDestroy]) ->
  sets_up e = true -> cap_threads g1 = cap_threads g ->
  zmq_pushsock g1 = true ->
  let setup :=
    per_thread InitThreadData (cap_threads g)
    ++ pre ++ [BlockSignals; PthreadCreate] ++ started ++ tail in
  run_parts g e (endwdcap g1 e true setup) setup g1.
Proof.
  intros Hpre Hnpre Hstarted Hnstarted Hpstart Hcreated Htail Hdestroy Hstop
    Hlasttail Hs Hthreads Hpush setup.
  assert (Hin : forall ev,
             ev ∈ [TracePstop; TraceJoin; TraceDestroy] ->
             ev ∈ setup -> ev ∈ tail).
  { intros ev Hev Hin. unfold setup in Hin. split_app Hin.
    - exfalso. revert Hin. apply per_thread_without. intros i ->.
      revert Hev. not_listed.
    - exfalso. revert Hin. apply Hnpre.
      repeat (apply elem_of_cons in Hev as [-> | Hev]; [listed |]).
      now apply elem_of_nil in Hev.
    - exfalso. revert Hev.
      apply elem_of_cons in Hin as [-> | Hin]; [not_listed |].
      apply elem_of_cons in Hin as [-> | Hin]; [not_listed |].
      now apply elem_of_nil in Hin.
    - exfalso. revert Hin. now apply Hnstarted.
    - exact Hin. }
  assert (Hlast : forall ev, ev ∈ tail -> ev ∈ setup).
  { intros ev Hev. unfold setup. rewrite !elem_of_app. auto. }
  constructor.
  - now rewrite Hs.
  - unfold setup. repeat apply setup_app; try assumption;
      [apply per_thread_setup | repeat constructor].
  - now eexists.
  - exact Hthreads.
  - split; [intros _; exact Hs |]. intros _. unfold setup.
    rewrite !elem_of_app. right. right. left. listed.
  - intros _. exact Hpush.
  - rewrite Hs. simpl. intros H. unfold setup. rewrite !elem_of_app.
    do 3 right. left. now apply Hpstart.
  - rewrite Hs. simpl. rewrite <- Hdestroy. split; [| apply Hlast].
    apply Hin. listed.
  - unfold waits_for_halt. rewrite Hs. simpl.
    destruct (input_starts g (input e) && sigmask_restore e).
    + destruct Hstop as [l ->]. eexists. unfold setup.
      rewrite !app_assoc. reflexivity.
    + destruct Hstop as [Hp Hj].
      split; intros H; [apply Hp | apply Hj]; apply Hin; try exact H; listed.
  - split; [intros _; exact Hs |]. intros _. unfold setup.
    rewrite !elem_of_app. do 3 right. now left.
  - intros Hd. apply Hin in Hd; [| listed].
    destruct (Hlasttail Hd) as [l ->]. eexists. unfold setup.
    rewrite !app_assoc. reflexivity.
Qed.

Lemma run_wdcap_parts g e r :
  run_wdcap g e = Some r -> exists setup g1, run_parts g e r setup g1.
Proof.
  unfold run_wdcap.
  destruct (fopen_pidfile e) eqn:E1; simpl.
  2:{ intros [= <-]. apply run_short;
        [repeat constructor | none_listed | known_setup
        | reflexivity]. }
  destruct (pull_setsockopt e) eqn:E2; simpl.
  2:{ intros [= <-]. rewrite <- !app_assoc.
      apply run_short;
        [repeat constructor | none_listed | known_setup
        | reflexivity]. }
  destruct (pull_bind e) eqn:E3; simpl.
  2:{ intros [= <-]. rewrite <- !app_assoc.
      apply run_short;
        [repeat constructor | none_listed | known_setup
        | reflexivity]. }
  destruct (push_setsockopt e) eqn:E4; simpl.
  2:{ intros [= <-]. rewrite <- !app_assoc.
      apply run_short;
        [repeat constructor | none_listed | known_setup
        | reflexivity]. }
  destruct (push_connect e) eqn:E5; simpl.
  2:{ intros [= <-]. rewrite <- !app_assoc.
      apply run_short;
        [repeat constructor | none_listed | known_setup
        | reflexivity]. }
  destruct (sigmask_block e) eqn:E6; simpl.
  2:{ intros [= <-]. rewrite <- !app_assoc.
      apply run_short;
        [repeat constructor | none_listed | known_setup
        | reflexivity]. }
  assert (Hs : sets_up e = true) by known_setup.
  set (g2 := set_pushsock (set_pullsock g true) true).
  pose proof (start_trace_input_events g2 (input e))
    as (Hse & Hsp & Hsj & Hsd & _).
  pose proof (start_trace_input_state g2 (input e)) as (Hst & Hspush & _).
  pose proof (start_trace_input_return g2 (input e)) as Hret.
  pose proof (start_trace_input_pstart g2 (input e)) as Hps.
  pose proof (start_trace_input_creates g2 (input e)) as Hcr.
  change (input_starts g2 (input e)) with (input_starts g (input e))
    in Hret, Hps.
  destruct (start_trace_input g2 (input e)) as [[ret g3] started].
  simpl in Hse, Hsp, Hsj, Hsd, Hst, Hspush, Hret, Hps, Hcr.
  assert (Hnstarted : forall ev,
             ev ∈ [TracePstop; TraceJoin; TraceDestroy] -> ev ∉ started).
  { intros ev Hev.
    repeat (apply elem_of_cons in Hev as [-> | Hev]; [assumption |]).
    now apply elem_of_nil in Hev. }
  assert (Hlong : forall tail,
             Forall (fun ev => is_setup ev = true) tail ->
             (TraceDestroy ∈ tail
              <-> negb (input_starts g (input e)) || sigmask_restore e
                  = true) ->
             (if input_starts g (input e) && sigmask_restore e
              then exists l, tail = l ++ [TracePstop; TraceJoin; TraceDestroy]
              else (TracePstop ∉ tail) /\ (TraceJoin ∉ tail)) ->
             (TraceDestroy ∈ tail -> exists l, tail = l ++ [TraceDestroy]) ->
             exists setup g1,
               run_parts g e
                 (endwdcap g3 e true
                    ((((per_thread InitThreadData (cap_threads g)
                        ++ [WritePid; ZmqCtxNew; ZmqSocket PullSock])
                       ++ [ZmqSocket PushSock])
                      ++ [BlockSignals; PthreadCreate]) ++ started ++ tail))
                 setup g1).
  { intros tail Htail Hd Hstop Hlast. eexists _, g3. rewrite <- !app_assoc.
    apply (run_parts_long g e g3
             ([WritePid; ZmqCtxNew; ZmqSocket PullSock]
              ++ [ZmqSocket PushSock]) started tail);
      try assumption; [repeat constructor | none_listed]. }
  destruct (input_starts g (input e)) eqn:Ei; subst ret; simpl.
  - destruct (sigmask_restore e) eqn:Er; simpl.
    + destruct (halt_flag_raised e); [| discriminate].
      intros [= <-]. apply Hlong; [repeat constructor | | |].
      * split; [reflexivity | intros _; listed].
      * now exists [RestoreSignals; HaltFlagSeen].
      * intros _.
        now exists [RestoreSignals; HaltFlagSeen; TracePstop; TraceJoin].
    + intros [= <-]. apply Hlong; [repeat constructor | | |].
      * split; [not_listed | discriminate].
      * split; not_listed.
      * intros Hin. exfalso. revert Hin. not_listed.
  - intros [= <-]. apply Hlong; [repeat constructor | | |].
    + split; [reflexivity | intros _; listed].
    + split; not_listed.
    + intros _. now exists [Log "failed to start packet source"].
Qed.


Lemma before_across a b l l' : a ∈ l -> b ∈ l' -> before a b (l ++ l').
Proof.
  intros Ha Hb.
  apply list_elem_of_split in Ha as (l1 & l2 & ->).
  apply list_elem_of_split in Hb as (l3 & l4 & ->).
  exists l1, (l2 ++ l3), l4.
  now repeat (rewrite <- app_assoc || rewrite <- app_comm_cons).
Qed.

Lemma before_later a b l l' : before a b l' -> before a b (l ++ l').
Proof.
  intros (l1 & l2 & l3 & ->). exists (l ++ l1), l2, l3.
  now rewrite <- app_assoc.
Qed.

Lemma before_earlier a b l l' : before a b l -> before a b (l ++ l').
Proof.
  intros (l1 & l2 & l3 & ->). exists l1, l2, (l3 ++ l').
  now repeat (rewrite <- app_assoc || rewrite <- app_comm_cons).
Qed.


(** What follows the label [endwdcap] when the merging thread runs. *)
Lemma endwdcap_started g e setup :
  zmq_pushsock g = true ->
  exists rest,
    (endwdcap g e true setup).2
    = setup
      ++ ([ZmqSendStop (halt_send e)]
          ++ (if halt_send e then []
              else [Log "error sending halt message to merge thread"])
          ++ [ZmqClose PushSock; PthreadJoin;
              Log "all threads have joined, exiting."])
      ++ (per_thread ClearThreadData (cap_threads g)
          ++ [FreeThreaddata]
          ++ (if zmq_pullsock g then [ZmqClose PullSock] else [])
          ++ [ZmqCtxDestroy; FreeGlobal])
      ++ rest.
Proof.
  intros Hpush. exists (if processing g then [DestroyCallbackSet] else []).
  unfold endwdcap. rewrite Hpush. cbn [snd].
  now repeat (rewrite <- app_assoc || rewrite <- app_comm_cons).
Qed.


(** Of the events of setting up, only a log line or the closing of a socket
    can follow the label [endwdcap]. *)
Lemma endwdcap_setup_only g e mergestarted setup ev :
  is_setup ev = true -> (forall what, ev <> Log what) ->
  (forall s, ev <> ZmqClose s) ->
  ev ∈ (endwdcap g e mergestarted setup).2 -> ev ∈ setup.
Proof.
  intros Hev Hlog Hclose Hin. unfold endwdcap in Hin. simpl in Hin.
  assert (Hno : forall l, Forall (fun ev' => ev <> ev') l -> ev ∉ l).
  { intros l Hl Hin'. now apply (proj1 (Forall_forall _ _) Hl ev). }
  assert (Hne : forall ev', is_setup ev' = false -> ev <> ev')
    by (intros ev' Hev' ->; congruence).
  split_app Hin; try exact Hin; exfalso; revert Hin; apply Hno.
  - destruct mergestarted; [| constructor].
    destruct (zmq_pushsock g), (halt_send e); simpl;
      repeat constructor; auto.
  - unfold per_thread. apply Forall_fmap, Forall_forall. intros i _.
    now apply Hne.
  - destruct (zmq_pullsock g), (processing g); simpl;
      repeat constructor; auto.
Qed.


Lemma free_global_listed threads (pull : bool) :
  FreeGlobal ∈ (per_thread ClearThreadData threads
                ++ [FreeThreaddata]
                ++ (if pull then [ZmqClose PullSock] else [])
                ++ [ZmqCtxDestroy; FreeGlobal]).
Proof. rewrite !elem_of_app. do 3 right. listed. Qed.

Lemma join_listed (sent : bool) :
  PthreadJoin ∈ ([ZmqSendStop sent]
                 ++ (if sent then []
                     else [Log "error sending halt message to merge thread"])
                 ++ [ZmqClose PushSock; PthreadJoin;
                     Log "all threads have joined, exiting."]).
Proof. rewrite !elem_of_app. do 2 right. listed. Qed.



(** X16.  In a run of [run_wdcap] that returns, the trace object is created
    exactly when every call before the merging thread succeeded, and the
    input is stopped and joined exactly when the run got as far as waiting
    for the halt flag.  The input is then started before it is stopped,
    stopped before it is joined, joined before the trace object is
    destroyed, and joined before the merging thread is joined and before the
    global state is freed.  As [pthread_sigmask] never returns a negative
    number, the run waits for the halt flag exactly when it created the
    trace object and the input started, and it destroys every trace object
    that it created, whether or not the input started: after creating it,
    before it sends the stop message to the merging thread and before it
    frees the global state. *)
Theorem created_trace_is_destroyed_before_the_merger_is_stopped
    g e ret g' evs :
  run_wdcap g e = Some (ret, g', evs) ->
  (TraceCreate ∈ evs <-> sets_up e = true) /\
  (TracePstop ∈ evs <-> waits_for_halt g e = true) /\
  (TraceJoin ∈ evs <-> waits_for_halt g e = true) /\
  (waits_for_halt g e = true ->
   before TracePstart TracePstop evs /\
   before TracePstop TraceJoin evs /\
   before TraceJoin TraceDestroy evs /\
   before TraceJoin PthreadJoin evs /\
   before TraceJoin FreeGlobal evs) /\
  (sigmask_never_negative e ->
   (waits_for_halt g e = true
    <-> sets_up e && input_starts g (input e) = true) /\
   (TraceDestroy ∈ evs <-> sets_up e = true) /\
   (sets_up e = true ->
    before TraceCreate TraceDestroy evs /\
    before TraceDestroy (ZmqSendStop (halt_send e)) evs /\
    before TraceDestroy FreeGlobal evs)).
Proof.
  intros Hrun.
  destruct (run_wdcap_parts g e _ Hrun) as (setup & g1 & Hparts).
  destruct Hparts
    as [Hr Hsetup _ _ _ Hpush Hpstart Hdestroy Hstop Htrace Hlast].
  assert (Hevs : evs = (endwdcap g1 e (sets_up e) setup).2)
    by exact (f_equal snd Hr).
  assert (Hwind : forall ev,
             ev ∈ [TraceCreate; TracePstop; TraceJoin; TraceDestroy] ->
             ev ∈ evs <-> ev ∈ setup).
  { intros ev Hev. rewrite Hevs. split.
    - apply endwdcap_setup_only;
        repeat (apply elem_of_cons in Hev as [-> | Hev];
                [reflexivity || discriminate |]);
        now apply elem_of_nil in Hev.
    - intros Hin. unfold endwdcap. simpl. apply elem_of_app. now left. }
  assert (Hshape : sets_up e = true ->
                   exists rest,
                     evs = setup
                           ++ ([ZmqSendStop (halt_send e)]
                               ++ (if halt_send e then []
                                   else [Log "error sending halt message to merge thread"])
                               ++ [ZmqClose PushSock; PthreadJoin;
                                   Log "all threads have joined, exiting."])
                           ++ (per_thread ClearThreadData (cap_threads g1)
                               ++ [FreeThreaddata]
                               ++ (if zmq_pullsock g1
                                   then [ZmqClose PullSock] else [])
                               ++ [ZmqCtxDestroy; FreeGlobal])
                           ++ rest).
  { intros Hs. rewrite Hs in Hevs.
    destruct (endwdcap_started g1 e setup (Hpush Hs)) as [rest Hrest].
    exists rest. now rewrite Hevs. }
  split.
  { rewrite (Hwind TraceCreate) by listed. exact Htrace. }
  split.
  { rewrite (Hwind TracePstop) by listed.
    destruct (waits_for_halt g e).
    - destruct Hstop as [pre ->]. split; [reflexivity |]. intros _.
      apply elem_of_app. right. listed.
    - destruct Hstop as [Hp _]. split; [contradiction | discriminate]. }
  split.
  { rewrite (Hwind TraceJoin) by listed.
    destruct (waits_for_halt g e).
    - destruct Hstop as [pre ->]. split; [reflexivity |]. intros _.
      apply elem_of_app. right. listed.
    - destruct Hstop as [_ Hj]. split; [contradiction | discriminate]. }
  split.
  { intros Hw. rewrite Hw in Hstop. destruct Hstop as [pre Hpre].
    unfold waits_for_halt in Hw.
    apply andb_prop in Hw as [Hw _].
    pose proof (Hpstart Hw) as Hstart.
    apply andb_prop in Hw as [Hs _].
    destruct (Hshape Hs) as [rest ->]. clear Hshape Hwind Hevs.
    subst setup.
    assert (Hj : TraceJoin ∈ pre ++ [TracePstop; TraceJoin; TraceDestroy])
      by (apply elem_of_app; right; listed).
    apply elem_of_app in Hstart as [Hstart | Hstart];
      [| exfalso; revert Hstart; not_listed].
    split.
    { apply before_earlier, before_across; [exact Hstart | listed]. }
    split.
    { apply before_earlier, before_later. now exists [], [], [TraceDestroy]. }
    split.
    { apply before_earlier, before_later. now exists [TracePstop], [], []. }
    split.
    - apply before_across; [exact Hj |]. apply elem_of_app. left.
      apply join_listed.
    - apply before_across; [exact Hj |]. apply elem_of_app. right.
      apply elem_of_app. left. apply free_global_listed. }
  intros [_ Hrestore].
  split.
  { unfold waits_for_halt. rewrite Hrestore. now rewrite andb_true_r. }
  assert (Hd : TraceDestroy ∈ setup <-> sets_up e = true).
  { rewrite Hdestroy, Hrestore. now rewrite orb_true_r, andb_true_r. }
  split.
  { rewrite (Hwind TraceDestroy) by listed. exact Hd. }
  intros Hs.
  destruct (Hshape Hs) as [rest ->]. clear Hshape Hwind Hevs.
  pose proof (proj2 Hd Hs) as Hin.
  pose proof (proj2 Htrace Hs) as Hc.
  destruct (Hlast Hin) as [pre Hpre]. rewrite Hpre in Hc.
  apply elem_of_app in Hc as [Hc | Hc];
    [| exfalso; revert Hc; not_listed].
  split.
  { rewrite Hpre. apply before_earlier, before_across; [exact Hc | listed]. }
  split.
  - apply before_across; [exact Hin |]. apply elem_of_app. left.
    apply elem_of_app. left. listed.
  - apply before_across; [exact Hin |]. apply elem_of_app. right.
    apply elem_of_app. left. apply free_global_listed.
Qed.

Lemma created_trace_is_destroyed_before_the_merger_is_stopped_witness :
  let evs :=
    [InitThreadData 0; InitThreadData 1; WritePid; ZmqCtxNew;
     ZmqSocket PullSock; ZmqSocket PushSock; BlockSignals; PthreadCreate;
     TraceCreate; SetPerpktThreads 2; SetTickInterval 1000;
     CreateCallbackSet; TracePstart; Log "successfully started input trace";
     RestoreSignals; HaltFlagSeen; TracePstop; TraceJoin; TraceDestroy;
     ZmqSendStop true; ZmqClose PushSock;
     PthreadJoin; Log "all threads have joined, exiting.";
     ClearThreadData 0; ClearThreadData 1; FreeThreaddata;
     ZmqClose PullSock; ZmqCtxDestroy; FreeGlobal; DestroyCallbackSet] in
  run_wdcap CaptureSamples.two_threads CaptureSamples.smooth_run
  = Some (0,
          set_processing
            (set_pushsock (set_pullsock CaptureSamples.two_threads true)
               true),
          evs) /\
  sigmask_never_negative CaptureSamples.smooth_run /\
  TraceCreate ∈ evs /\ TracePstop ∈ evs /\ TraceJoin ∈ evs /\
  TraceDestroy ∈ evs /\
  before TracePstart TracePstop evs /\
  before TracePstop TraceJoin evs /\
  before TraceJoin TraceDestroy evs /\
  before TraceJoin PthreadJoin evs /\
  before TraceJoin FreeGlobal evs /\
  before TraceCreate TraceDestroy evs /\
  before TraceDestroy (ZmqSendStop true) evs /\
  before TraceDestroy FreeGlobal evs.
Proof.
  intros evs.
  assert (Hrun : run_wdcap CaptureSamples.two_threads CaptureSamples.smooth_run
                 = Some (0,
                         set_processing
                           (set_pushsock
                              (set_pullsock CaptureSamples.two_threads true)
                              true),
                         evs)) by reflexivity.
  assert (Hposix : sigmask_never_negative CaptureSamples.smooth_run)
    by (split; reflexivity).
  destruct (created_trace_is_destroyed_before_the_merger_is_stopped
              _ _ _ _ _ Hrun)
    as (Hcreate & Hstop & Hjoin & Horder & Hrest).
  destruct (Hrest Hposix) as (_ & Hdestroy & Hlate).
  destruct (Horder eq_refl) as (H1 & H2 & H3 & H4 & H5).
  destruct (Hlate eq_refl) as (H6 & H7 & H8).
  split; [exact Hrun |]. split; [exact Hposix |].
  split; [now apply Hcreate |]. split; [now apply Hstop |].
  split; [now apply Hjoin |]. split; [now apply Hdestroy |].
  repeat split; assumption.
Defined.

End CaptureFacts.

(** ** The monitor process: what it sends on and how it ends *)

Module MonitorFacts.
Import Signals Monitor MonitorSpec.

Ltac no_term H :=
  let Hin := fresh "Hin" in
  intros ? ? Hin;
  repeat (apply elem_of_app in Hin as [Hin | Hin]);
  try (apply list_elem_of_singleton in Hin; discriminate Hin);
  revert Hin; apply H.

Lemma handle_halted g s :
  corsaro_halted g = 1 -> corsaro_halted (handle g s) = 1.
Proof.
  intros H. destruct s as [| | tv | n]; simpl; try reflexivity.
  - unfold restart_signal. now destruct (_ <? _).
  - induction n as [| n IH]; simpl; [exact H | exact IH].
Qed.

Lemma handle_raises g s :
  corsaro_halted g = 0 -> corsaro_halted (handle g s) <> 0 -> halts s = true.
Proof.
  intros H. destruct s as [| | tv | n]; simpl; try reflexivity.
  - unfold restart_signal. destruct (_ <? _); simpl; congruence.
  - intros Hn. exfalso. apply Hn. clear Hn.
    induction n as [| n IH]; simpl; [exact H | exact IH].
Qed.

Lemma batch_halted batch : forall g,
  corsaro_halted g = 1 -> corsaro_halted (fold_left handle batch g) = 1.
Proof.
  induction batch as [| s batch IH]; intros g H; simpl; [exact H |].
  apply IH. now apply handle_halted.
Qed.

Lemma batch_raises batch : forall g,
  corsaro_halted g = 0 ->
  corsaro_halted (fold_left handle batch g) <> 0 ->
  exists s, s ∈ batch /\ halts s = true.
Proof.
  induction batch as [| s batch IH]; intros g H Hn; simpl in Hn;
    [congruence |].
  destruct (Z.eq_dec (corsaro_halted (handle g s)) 0) as [H0 | H0].
  - destruct (IH _ H0 Hn) as (s' & Hin & Hs'). exists s'.
    split; [now apply list_elem_of_further | exact Hs'].
  - exists s. split; [apply list_elem_of_here |].
    now apply (handle_raises g).
Qed.


Lemma halt_delivered_later evs more :
  halt_delivered evs -> halt_delivered (evs ++ more).
Proof.
  intros (batch & s & Hin & Hs & Hh). exists batch, s.
  split; [apply elem_of_app; now left | now split].
Qed.

Lemma reload_failed_last evs :
  reload_failed evs -> last evs = Some (InitProcess false).
Proof.
  intros (pre & pid & ->).
  change [KillHUP pid true; FreeGlobal; InitProcess false]
    with ([KillHUP pid true; FreeGlobal] ++ [InitProcess false]).
  rewrite app_assoc. apply last_snoc.
Qed.

Lemma not_reload_failed evs ev :
  ev <> InitProcess false -> ~ reload_failed (evs ++ [ev]).
Proof.
  intros Hne H. apply reload_failed_last in H. rewrite last_snoc in H.
  congruence.
Qed.

Lemma term_not_in evs more pid ok :
  KillTERM pid ok ∉ evs -> Forall (fun ev => quiet ev = true) more ->
  KillTERM pid ok ∉ evs ++ more.
Proof.
  intros Hn Hq Hin. apply elem_of_app in Hin as [Hin | Hin]; [now apply Hn |].
  apply (proj1 (Forall_forall _ _) Hq) in Hin. discriminate Hin.
Qed.

(** A step of the loop that logs nothing and records no error. *)
Lemma loop_inv_step st st' more :
  loop_inv st ->
  glob st' = true -> runerr st' = runerr st ->
  trail st' = trail st ++ more -> Forall (fun ev => quiet ev = true) more ->
  (corsaro_halted (volatile st) = 1 -> corsaro_halted (volatile st') = 1) ->
  (corsaro_halted (volatile st) = 0 ->
   corsaro_halted (volatile st') <> 0 -> halt_delivered (trail st')) ->
  loop_inv st'.
Proof.
  intros [Hg Hr Hq Hh Ht] Hg' Hr' Htrail Hmore Hkeep Hraise.
  constructor.
  - exact Hg'.
  - rewrite Hr'. intros H. auto.
  - rewrite Hr', Htrail. intros H. apply Forall_app. auto.
  - intros Hn. rewrite Hr'.
    destruct (Z.eq_dec (corsaro_halted (volatile st)) 0) as [H0 | H0].
    + right. now apply Hraise.
    + destruct (Hh H0) as [He | Hd]; [now left |].
      right. rewrite Htrail. now apply halt_delivered_later.
  - intros pid ok. rewrite Htrail. now apply term_not_in.
Qed.

Lemma loop_inv_emit ev st :
  quiet ev = true -> loop_inv st -> loop_inv (emit ev st).
Proof.
  intros Hq Hinv.
  apply (loop_inv_step st _ [ev] Hinv); try reflexivity.
  - apply Hinv.
  - now constructor.
  - auto.
  - simpl. intros H0 Hn. congruence.
Qed.

Lemma loop_inv_access e st : loop_inv st -> loop_inv (access e st).
Proof.
  intros Hinv.
  apply (loop_inv_step st _ [Delivered (signals e (position st))] Hinv);
    try reflexivity.
  - apply Hinv.
  - now constructor.
  - simpl. apply batch_halted.
  - simpl. intros H0 Hn.
    destruct (batch_raises _ _ H0 Hn) as (s & Hin & Hs).
    exists (signals e (position st)), s.
    split; [| now split]. apply elem_of_app. right. apply list_elem_of_here.
Qed.

Lemma access_runerr e st : runerr (access e st) = runerr st.
Proof. reflexivity. Qed.

(** A write to a flag other than the halt flag. *)
Lemma loop_inv_flags g st :
  corsaro_halted g = corsaro_halted (volatile st) ->
  loop_inv st -> loop_inv (set_volatile g st).
Proof.
  intros Hsame Hinv.
  apply (loop_inv_step st _ [] Hinv); try reflexivity.
  - apply Hinv.
  - simpl. now rewrite app_nil_r.
  - constructor.
  - simpl. congruence.
  - simpl. congruence.
Qed.

Lemma loop_inv_restart_triggered v st :
  loop_inv st -> loop_inv (set_restart_triggered v st).
Proof.
  intros Hinv.
  apply (loop_inv_step st _ [] Hinv); try reflexivity.
  - apply Hinv.
  - simpl. now rewrite app_nil_r.
  - constructor.
  - auto.
  - simpl. congruence.
Qed.

(** [get_running_pid] with the global state set. *)
Lemma get_running_pid_set e st :
  glob st = true ->
  exists runpid st1,
    get_running_pid e st = Some (runpid, st1) /\
    volatile st1 = volatile st /\ glob st1 = true /\
    runerr st1 = runerr st /\
    restart_triggered st1 = restart_triggered st /\
    (forall pid ok, KillTERM pid ok ∉ trail st -> KillTERM pid ok ∉ trail st1)
    /\ (runpid <> 0 ->
        st1 = emit (PidFile (Some (Some runpid))) st) /\
    exists ev, last (trail st1) = Some ev /\ ev <> InitProcess false.
Proof.
  intros Hg. unfold get_running_pid. rewrite Hg.
  assert (Hterm : forall (b : option (option Z)) what pid ok,
             KillTERM pid ok ∉ trail st ->
             KillTERM pid ok ∉ (trail st ++ [PidFile b]) ++ [Log what]).
  { intros b what pid ok Hn Hin.
    repeat (apply elem_of_app in Hin as [Hin | Hin]); [now apply Hn | |];
      apply list_elem_of_singleton in Hin; discriminate Hin. }
  destruct (pidfile e (position st)) as [[runpid |] |].
  - eexists _, _. split; [reflexivity |]. simpl.
    do 4 (split; [reflexivity || exact Hg |]).
    split.
    { intros pid ok Hn. apply term_not_in; [exact Hn | now constructor]. }
    split; [reflexivity |].
    eexists. rewrite last_snoc. split; [reflexivity | discriminate].
  - eexists _, _. split; [reflexivity |]. simpl.
    do 4 (split; [reflexivity || exact Hg |]).
    split; [intros pid ok; apply Hterm |].
    split; [intros H; now contradiction H |].
    eexists. rewrite last_snoc. split; [reflexivity | discriminate].
  - eexists _, _. split; [reflexivity |]. simpl.
    do 4 (split; [reflexivity || exact Hg |]).
    split; [intros pid ok; apply Hterm |].
    split; [intros H; now contradiction H |].
    eexists. rewrite last_snoc. split; [reflexivity | discriminate].
Qed.

(** What holds of where control goes after a part of the loop body. *)
Lemma fork_capture_inv e st :
  loop_inv st ->
  match fork_capture e st with
  | None => True
  | Some (GoesOn st') => loop_inv st' /\ runerr st' = runerr st
  | Some (Leaves _) => False
  | Some (Ends o st') => child_inv o st'
  end.
Proof.
  intros Hinv. unfold fork_capture.
  pose proof (loop_inv_emit (Fork (fork e (position st))) st eq_refl Hinv)
    as Hinv1.
  set (st1 := emit (Fork (fork e (position st))) st) in *.
  destruct (fork e (position st)); [| now split].
  destruct (capture e (position st1)) as [g ce].
  destruct (Capture.run_wdcap g ce) as [[[ret g'] evs] |]; [| exact I].
  destruct (Z.eqb_spec ret 0) as [-> | Hne].
  - constructor; [reflexivity | simpl; apply last_snoc |].
    intros pid ok. apply term_not_in; [apply Hinv1 | now constructor].
  - split; [now apply loop_inv_emit | reflexivity].
Qed.

Lemma forward_hangup_inv e st :
  loop_inv st -> runerr st = 0 ->
  match forward_hangup e st with
  | None => True
  | Some (GoesOn st') => loop_inv st'
  | Some (Leaves st') => end_inv st'
  | Some (Ends o st') => child_inv o st'
  end.
Proof.
  intros Hinv Hr. unfold forward_hangup.
  destruct (get_running_pid_set e st (inv_glob _ Hinv))
    as (runpid & st1 & -> & Hv & Hg & Hr1 & Hrt & Hterm & Hpid & ev & Hlast
        & Hev).
  destruct (Z.eqb_spec runpid 0) as [H0 | Hne].
  { (* no pid: an error is recorded and the loop is left *)
    constructor; simpl.
    - discriminate.
    - intros pid ok. apply Hterm, Hinv.
    - left. split; [exact Hg |]. split; [| discriminate].
      intros H. apply reload_failed_last in H. congruence. }
  specialize (Hpid Hne). subst st1.
  assert (Hinv1 : loop_inv (emit (PidFile (Some (Some runpid))) st))
    by (now apply loop_inv_emit).
  set (st1 := emit (PidFile (Some (Some runpid))) st) in *.
  set (st2 := set_restart_triggered 1 st1).
  assert (Hinv2 : loop_inv st2) by (now apply loop_inv_restart_triggered).
  destruct (kill e (position st2)) eqn:Hk; simpl.
  2:{ constructor; simpl.
      - discriminate.
      - no_term (inv_term _ Hinv).
      - left. split; [exact Hg |]. split; [| discriminate].
        apply not_reload_failed. discriminate. }
  set (st3 := emit (KillHUP runpid true) st2).
  assert (Hinv3 : loop_inv st3) by (now apply loop_inv_emit).
  set (st4 := set_glob false (emit FreeGlobal st3)).
  destruct (init_wdcap_process e (position st4)) eqn:Hi; simpl.
  - (* the configuration is read again *)
    set (st5 := emit (InitProcess true) st4).
    assert (Hinv5 : loop_inv (set_glob true st5)).
    { apply (loop_inv_step st3 _ [FreeGlobal; InitProcess true] Hinv3);
        try reflexivity.
      - simpl. now rewrite <- app_assoc.
      - now repeat constructor.
      - auto.
      - simpl. congruence. }
    set (st6 := access e (set_glob true st5)).
    assert (Hinv6 : loop_inv st6) by (now apply loop_inv_access).
    pose proof (fork_capture_inv e
                  (set_volatile (clear_restart (volatile st6)) st6)) as Hf.
    destruct (fork_capture e _) as [[st' | st' | o st'] |]; try exact I.
    + apply Hf. now apply loop_inv_flags.
    + exfalso. apply Hf. now apply loop_inv_flags.
    + apply Hf. now apply loop_inv_flags.
  - (* it cannot be read again *)
    constructor; simpl.
    + intros _. rewrite <- !app_assoc. simpl.
      apply Forall_app. split; [| now repeat constructor].
      apply (inv_quiet _ Hinv). exact Hr.
    + intros pid ok. rewrite <- !app_assoc. simpl.
      apply term_not_in; [apply Hinv | now repeat constructor].
    + right. split; [reflexivity |]. split; [exact Hr |].
      exists (trail st ++ [PidFile (Some (Some runpid))]), runpid.
      rewrite <- !app_assoc. reflexivity.
Qed.

Lemma reap_children_inv e fuel : forall st st',
  loop_inv st -> reap_children fuel e st = Some st' -> loop_inv st'.
Proof.
  induction fuel as [| fuel IH]; intros st st' Hinv; cbn [reap_children];
    [discriminate |].
  pose proof (loop_inv_access e st Hinv) as Hinv1.
  set (st1 := access e st) in *.
  destruct (0 <? child_halted (volatile st1));
    [| intros [= <-]; exact Hinv1].
  destruct (restart_triggered st1 =? 0).
  - intros [= <-]. constructor; simpl.
    + apply Hinv1.
    + reflexivity.
    + discriminate.
    + intros _. left. discriminate.
    + no_term (inv_term _ Hinv).
  - apply IH. apply loop_inv_flags; [reflexivity |].
    do 2 apply loop_inv_access. now apply loop_inv_restart_triggered.
Qed.

Lemma monitor_loop_inv e fuel : forall st r,
  loop_inv st -> monitor_loop fuel e st = Some r ->
  match r with
  | inl (o, st') => child_inv o st'
  | inr st' => end_inv st'
  end.
Proof.
  induction fuel as [| fuel IH]; intros st r Hinv; cbn [monitor_loop];
    [discriminate |].
  pose proof (loop_inv_access e st Hinv) as Hinv1.
  set (st1 := access e st) in *.
  destruct (Z.eqb_spec (corsaro_halted (volatile st1)) 0) as [H0 | Hn].
  2:{ intros [= <-]. constructor.
      - apply Hinv1.
      - apply Hinv1.
      - left. split; [apply Hinv1 |]. split.
        + apply not_reload_failed. discriminate.
        + intros Hr. destruct (inv_halted _ Hinv1 Hn) as [He | Hd];
            [contradiction | exact Hd]. }
  assert (Hr1 : runerr st1 = 0).
  { destruct (Z.eq_dec (runerr st1) 0) as [E | E]; [exact E |].
    apply (inv_runerr _ Hinv1) in E. congruence. }
  pose proof (loop_inv_access e st1 Hinv1) as Hinv2.
  set (st2 := access e st1) in *.
  assert (Hf : match (if corsaro_restart (volatile st2) =? 0
                      then Some (GoesOn st2) else forward_hangup e st2) with
               | None => True
               | Some (GoesOn st') => loop_inv st'
               | Some (Leaves st') => end_inv st'
               | Some (Ends o st') => child_inv o st'
               end).
  { destruct (corsaro_restart (volatile st2) =? 0); [exact Hinv2 |].
    now apply forward_hangup_inv. }
  destruct (if corsaro_restart (volatile st2) =? 0
            then Some (GoesOn st2) else forward_hangup e st2)
    as [[st3 | st3 | o st3] |]; try discriminate.
  - destruct (reap_children fuel e st3) as [st4 |] eqn:Hreap;
      [| discriminate].
    apply IH. apply loop_inv_emit; [reflexivity |].
    now apply (reap_children_inv e fuel st3).
  - intros [= <-]. exact Hf.
  - intros [= <-]. exact Hf.
Qed.

Lemma initial_loop_inv :
  loop_inv {| volatile := initial_flags; glob := true; runerr := 0;
              restart_triggered := 0; trail := [] |}.
Proof.
  constructor; simpl; try congruence.
  - intros _. constructor.
  - intros pid ok Hin. now apply elem_of_nil in Hin.
Qed.

(** A run of [main] ends in a capture child or at the label [endwdcap]. *)
Lemma supervise_ends fuel e o st :
  supervise fuel e = Some (o, st) ->
  child_inv o st \/ exists st', end_inv st' /\ main_endwdcap e st' = (o, st).
Proof.
  unfold supervise.
  pose proof (fork_capture_inv e _ initial_loop_inv) as Hf.
  destruct (fork_capture e _) as [[st1 | st1 | o1 st1] |];
    try discriminate; try contradiction.
  - destruct Hf as [Hinv _].
    destruct (monitor_loop fuel e st1) as [[[o2 st2] | st2] |] eqn:Hloop;
      try discriminate.
    + intros [= <- <-]. left.
      exact (monitor_loop_inv e fuel st1 _ Hinv Hloop).
    + intros [= Hend]. right. exists st2. split; [| exact Hend].
      exact (monitor_loop_inv e fuel st1 _ Hinv Hloop).
  - intros [= <- <-]. now left.
Qed.


(** The two ways in which [main] ends after the label [endwdcap]. *)
Lemma main_endwdcap_cases e st o st' :
  end_inv st -> main_endwdcap e st = (o, st') ->
  (o = NullDereference /\ st' = st /\ reload_failed (trail st))
  \/ (o = Returned 0 /\ last (trail st') = Some FreeGlobal /\
      forall pid ok,
        KillTERM pid ok ∈ trail st' ->
        pid <> 0 /\ halt_delivered (trail st) /\
        Forall (fun ev => quiet ev = true) (trail st) /\
        exists post,
          trail st'
          = trail st ++ PidFile (Some (Some pid)) :: KillTERM pid ok :: post).
Proof.
  intros [Hq Ht Hc] Hend. unfold main_endwdcap in Hend.
  destruct (Z.eqb_spec (runerr st) 0) as [Hr | Hr].
  2:{ injection Hend as <- <-. right.
      split; [reflexivity |]. split; [apply last_snoc |].
      intros pid ok Hin. exfalso. simpl in Hin.
      apply elem_of_app in Hin as [Hin | Hin]; [now apply (Ht pid ok) |].
      apply list_elem_of_singleton in Hin. discriminate Hin. }
  destruct Hc as [(Hg & _ & Hd) | (Hg & _ & Hf)].
  2:{ unfold get_running_pid in Hend. rewrite Hg in Hend.
      injection Hend as <- <-. now left. }
  right.
  destruct (get_running_pid_set e st Hg)
    as (runpid & st1 & Hget & _ & Hg1 & _ & _ & Hterm & Hpid & _).
  rewrite Hget in Hend.
  destruct (Z.eqb_spec runpid 0) as [H0 | Hne].
  { injection Hend as <- <-.
    split; [reflexivity |]. split; [apply last_snoc |].
    intros pid ok Hin. exfalso. simpl in Hin.
    apply elem_of_app in Hin as [Hin | Hin];
      [now apply (Hterm pid ok (Ht pid ok)) |].
    apply list_elem_of_singleton in Hin. discriminate Hin. }
  specialize (Hpid Hne). subst st1.
  set (ok0 := kill e (position (emit (PidFile (Some (Some runpid))) st)))
    in *.
  assert (Hshape : exists post,
             trail st'
             = trail st
               ++ PidFile (Some (Some runpid)) :: KillTERM runpid ok0 :: post
             /\ (forall pid ok, KillTERM pid ok ∉ post)
             /\ o = Returned 0
             /\ last (trail st') = Some FreeGlobal).
  { destruct (negb ok0 && _ && logger e); injection Hend as <- <-; simpl.
    - exists [Log "Failed to send TERM to running corsarowdcap pid";
              FreeGlobal].
      split; [now rewrite <- !app_assoc |].
      split; [| split; [reflexivity | apply last_snoc]].
      intros pid ok Hin.
      repeat (apply elem_of_cons in Hin as [Hin | Hin]; [discriminate |]).
      now apply elem_of_nil in Hin.
    - exists [FreeGlobal].
      split; [now rewrite <- !app_assoc |].
      split; [| split; [reflexivity | apply last_snoc]].
      intros pid ok Hin.
      repeat (apply elem_of_cons in Hin as [Hin | Hin]; [discriminate |]).
      now apply elem_of_nil in Hin. }
  destruct Hshape as (post & Htrail & Hpost & -> & Hlast).
  split; [reflexivity |]. split; [exact Hlast |].
  intros pid ok Hin. rewrite Htrail in Hin.
  apply elem_of_app in Hin as [Hin | Hin]; [now destruct (Ht pid ok) |].
  apply elem_of_cons in Hin as [Hin | Hin]; [discriminate |].
  apply elem_of_cons in Hin as [Hin | Hin]; [| now destruct (Hpost pid ok)].
  injection Hin as -> ->.
  split; [exact Hne |]. split; [now apply Hd |]. split; [now apply Hq |].
  now exists post.
Qed.

(** X17.  [main] ends in one of two ways once the configuration has been
    read: it returns 0, in a capture child as in the monitor and also after
    an error, or it reads the pid file name through a null pointer.  The
    latter happens exactly when the monitor has sent a hangup on to the
    capture process, has released the global state and cannot read the
    configuration again; the last three events are then the hangup sent,
    the release and the failed reading. *)
Theorem failed_reload_ends_in_null_dereference
    (fuel : nat) (e : monitor_env) (o : outcome) (st : monitor_state) :
  supervise fuel e = Some (o, st) ->
  (o = Returned 0 \/ o = NullDereference) /\
  (o = NullDereference <-> reload_failed (trail st)).
Proof.
  intros Hrun.
  destruct (supervise_ends fuel e o st Hrun)
    as [[Ho Hlast _] | (st' & Hinv & Hend)].
  - split; [now left |]. subst o. split; [discriminate |].
    intros H. apply reload_failed_last in H. congruence.
  - destruct (main_endwdcap_cases e st' o st Hinv Hend)
      as [(-> & -> & Hf) | (-> & Hlast & _)].
    + split; [now right |]. now split.
    + split; [now left |]. split; [discriminate |].
      intros H. apply reload_failed_last in H. congruence.
Qed.

Lemma failed_reload_ends_in_null_dereference_witness :
  supervise 3 MonitorSamples.lost_configuration
  = Some (NullDereference, MonitorSamples.after_lost_configuration) /\
  (NullDereference = Returned 0 \/ NullDereference = NullDereference) /\
  (NullDereference = NullDereference
   <-> reload_failed (trail MonitorSamples.after_lost_configuration)).
Proof.
  split; [vm_compute; reflexivity |].
  apply (failed_reload_ends_in_null_dereference
           3 MonitorSamples.lost_configuration).
  vm_compute. reflexivity.
Defined.

(** X18.  The monitor sends TERM on to the capture process only after it
    has handled INT or TERM itself, and only when nothing has gone wrong
    before: up to then it has not written to the log, so that in
    particular it sends nothing on when the capture process ended
    unexpectedly.  The process that gets the signal is the one whose
    number the pid file holds at that moment, the number is not 0, and
    [main] returns 0. *)
Theorem term_is_sent_on_only_after_a_halt_signal
    (fuel : nat) (e : monitor_env) (o : outcome) (st : monitor_state)
    (pid : Z) (ok : bool) :
  supervise fuel e = Some (o, st) ->
  KillTERM pid ok ∈ trail st ->
  o = Returned 0 /\ pid <> 0 /\
  exists pre post,
    trail st = pre ++ PidFile (Some (Some pid)) :: KillTERM pid ok :: post /\
    halt_delivered pre /\
    Forall (fun ev => quiet ev = true) pre.
Proof.
  intros Hrun Hin.
  destruct (supervise_ends fuel e o st Hrun)
    as [[_ _ Hterm] | (st' & Hinv & Hend)].
  - now destruct (Hterm pid ok).
  - destruct (main_endwdcap_cases e st' o st Hinv Hend)
      as [(_ & -> & _) | (-> & _ & Hkill)].
    + now destruct (end_term _ Hinv pid ok).
    + destruct (Hkill pid ok Hin) as (Hne & Hd & Hq & post & Htrail).
      split; [reflexivity |]. split; [exact Hne |].
      now exists (trail st'), post.
Qed.



Lemma term_is_sent_on_only_after_a_halt_signal_witness :
  supervise 4 MonitorSamples.term_in_third_round
  = Some (Returned 0, MonitorSamples.after_term) /\
  Returned 0 = Returned 0 /\ 4242 <> 0 /\
  exists pre post,
    trail MonitorSamples.after_term
    = pre ++ PidFile (Some (Some 4242)) :: KillTERM 4242 true :: post /\
    halt_delivered pre /\
    Forall (fun ev => quiet ev = true) pre.
Proof.
  split; [vm_compute; reflexivity |].
  apply (term_is_sent_on_only_after_a_halt_signal
           4 MonitorSamples.term_in_third_round).
  - vm_compute. reflexivity.
  - simpl.
    repeat first [apply list_elem_of_here | apply list_elem_of_further].
Defined.

Lemma batch_halts batch s : forall g,
  s ∈ batch -> halts s = true ->
  corsaro_halted (fold_left handle batch g) = 1.
Proof.
  induction batch as [| s' batch IH]; intros g Hin Hs;
    [now apply elem_of_nil in Hin |].
  apply elem_of_cons in Hin as [<- | Hin]; simpl.
  - apply batch_halted. now destruct s.
  - now apply IH.
Qed.

(** A round in which no signal has been handled. *)
Lemma idle_round_step e fuel evs :
  signals e (length evs) = [] ->
  signals e (length evs + 1) = [] ->
  signals e (length evs + 2) = [] ->
  monitor_loop (S (S fuel)) e (at_head evs)
  = monitor_loop (S fuel) e (at_head (evs ++ idle_round)).
Proof.
  intros H0 H1 H2.
  assert (Hstep : forall evs',
             signals e (length evs') = [] ->
             access e (at_head evs') = at_head (evs' ++ [Delivered []])).
  { intros evs' H. unfold access, position, at_head. simpl. now rewrite H. }
  cbn [monitor_loop]. rewrite (Hstep evs H0).
  cbn [corsaro_halted volatile at_head initial_flags Z.eqb].
  rewrite (Hstep (evs ++ [Delivered []]))
    by (rewrite length_app; exact H1).
  cbn [corsaro_restart volatile at_head initial_flags Z.eqb reap_children].
  rewrite (Hstep ((evs ++ [Delivered []]) ++ [Delivered []]))
    by (rewrite !length_app; simpl; rewrite <- Nat.add_assoc; exact H2).
  cbn [child_halted volatile at_head initial_flags Z.ltb Z.compare].
  unfold emit, at_head, idle_round. simpl. now rewrite <- !app_assoc.
Qed.

Lemma idle_rounds e n : forall fuel evs,
  (forall p, (length evs <= p < length evs + 4 * n)%nat ->
             signals e p = []) ->
  monitor_loop (S (n + fuel)) e (at_head evs)
  = monitor_loop (S fuel) e
      (at_head (evs ++ concat (replicate n idle_round))).
Proof.
  induction n as [| n IH]; intros fuel evs Hidle.
  - simpl. now rewrite app_nil_r.
  - change (S (S n + fuel)) with (S (S (n + fuel))).
    rewrite idle_round_step by (apply Hidle; lia).
    rewrite IH.
    + simpl. now rewrite <- app_assoc.
    + intros p Hp. apply Hidle. rewrite length_app in Hp. simpl in Hp. lia.
Qed.

Lemma idle_rounds_length n :
  length (concat (replicate n idle_round)) = (4 * n)%nat.
Proof.
  induction n as [| n IH]; [reflexivity |].
  simpl. rewrite IH. lia.
Qed.

(** X19.  A monitor that has handled no signal so far and then finds that
    INT or TERM has arrived when it tests the halt flag leaves its loop
    at once, reads the pid file and, when this holds a number other than
    0, sends TERM to that process, releases the global state and returns
    0.  Its events are those of the idle rounds, the signals handled, the
    reading of the pid file, the TERM sent, a line in the log when the
    sending failed and a logger is set, and the release. *)
Theorem halt_signal_is_sent_on
    (fuel n : nat) (e : monitor_env) (s : signal) (pid : Z) :
  fork e O = false ->
  (forall p, (p < 4 * n + 1)%nat -> signals e p = []) ->
  s ∈ signals e (4 * n + 1)%nat -> halts s = true ->
  pidfile e (4 * n + 2)%nat = Some (Some pid) -> pid <> 0 ->
  (n < fuel)%nat ->
  exists st,
    supervise fuel e = Some (Returned 0, st) /\
    trail st
    = [Fork false] ++ concat (replicate n idle_round)
      ++ [Delivered (signals e (4 * n + 1)%nat); PidFile (Some (Some pid));
          KillTERM pid (kill e (4 * n + 3)%nat)]
      ++ (if negb (kill e (4 * n + 3)%nat) && logger e
          then [Log "Failed to send TERM to running corsarowdcap pid"]
          else [])
      ++ [FreeGlobal].
Proof.
  intros Hfork Hidle Hs Hhalts Hpid Hne Hfuel.
  assert (Hfirst : fork_capture e (at_head []) 
                   = Some (GoesOn (at_head [Fork false]))).
  { unfold fork_capture, position. simpl. now rewrite Hfork. }
  unfold supervise. change {| volatile := initial_flags; glob := true;
                              runerr := 0; restart_triggered := 0;
                              trail := [] |} with (at_head []).
  rewrite Hfirst.
  replace fuel with (S (n + (fuel - S n)))%nat by lia.
  rewrite idle_rounds by (intros p Hp; apply Hidle; simpl in Hp; lia).
  remember ([Fork false] ++ concat (replicate n idle_round)) as evs
    eqn:Hevs.
  assert (Hlen : length evs = (4 * n + 1)%nat).
  { rewrite Hevs, length_app, idle_rounds_length. simpl. lia. }
  cbn [monitor_loop].
  set (st1 := access e (at_head evs)).
  assert (Htrail : trail st1 = evs ++ [Delivered (signals e (4 * n + 1)%nat)]).
  { unfold st1, access, position. simpl. now rewrite Hlen. }
  assert (Hhalted : corsaro_halted (volatile st1) = 1).
  { unfold st1, access, position. simpl. rewrite Hlen.
    now apply (batch_halts _ s). }
  rewrite Hhalted. cbn [Z.eqb].
  unfold main_endwdcap, get_running_pid.
  change (runerr st1) with 0. change (glob st1) with true. cbn [Z.eqb].
  assert (Hpos : position st1 = (4 * n + 2)%nat).
  { unfold position. rewrite Htrail, length_app, Hlen. simpl. lia. }
  rewrite Hpos, Hpid.
  destruct (Z.eqb_spec pid 0) as [H0 | _]; [contradiction |].
  assert (Hpos' : position (emit (PidFile (Some (Some pid))) st1)
                  = (4 * n + 3)%nat).
  { unfold position. cbn [emit trail].
    rewrite length_app, Htrail, length_app, Hlen. simpl. lia. }
  rewrite Hpos'.
  change (glob (emit _ (emit _ st1))) with true. rewrite andb_true_r.
  eexists. split; [reflexivity |].
  destruct (negb (kill e (4 * n + 3)%nat) && logger e); cbn [emit trail];
    rewrite Htrail, Hevs;
    now repeat (rewrite <- app_assoc; simpl).
Qed.

Lemma halt_signal_is_sent_on_witness :
  exists st,
    supervise 4 MonitorSamples.term_in_third_round = Some (Returned 0, st) /\
    trail st
    = [Fork false] ++ concat (replicate 2 idle_round)
      ++ [Delivered [SIGTERM]; PidFile (Some (Some 4242)); KillTERM 4242 true]
      ++ [FreeGlobal].
Proof.
  apply (halt_signal_is_sent_on 4 2 MonitorSamples.term_in_third_round
           SIGTERM 4242).
  - reflexivity.
  - intros p Hp. simpl. unfold MonitorSamples.signals_at.
    destruct (Nat.eqb_spec p 9) as [-> | _]; [lia | reflexivity].
  - simpl. apply list_elem_of_here.
  - reflexivity.
  - reflexivity.
  - lia.
  - lia.
Defined.

End MonitorFacts.
